(** * Qubit routing as an integer program: the BIP and MIP model builders

    A shallow embedding of
    [qiskit/transpiler/passes/routing/algorithms/bip_model.py] and
    [qiskit/transpiler/passes/routing/algorithms/mip_model.py].

    Conventions of the embedding.
    - Python [int]s that are list positions, qubit numbers and time steps are
      [nat]; integers that can be negative ([num_splits], [depth - 1] used as
      a list position, [new_depth]) are [Z].  [range(n)] is empty for every
      [n <= 0], so [range (n - 1)] over [nat] (truncated subtraction) lists
      the same time steps as Python's [range(n - 1)].
    - The time limits of [solve_cpx_problem] are Python [float]s, IEEE 754
      binary64 numbers with their rounding ([float] below).  The other
      real numbers of the builders (error rates, fidelities and the
      coefficients made of them, the values 0 and 1 of a solution) are
      exact rationals [Q].  [numpy.log] is a parameter of the
      development.
    - A raised exception is the [Raise] branch of [result].
    - A DOcplex variable is identified with the key of the dictionary entry
      that holds it ([w[t,q,j]] is [W t q j]); its name [f"w_{t}_{q}_{j}"] is
      the rendering of that key. *)

From Stdlib Require Import String.
From Stdlib Require Import List ZArith QArith Qminmax Qfield Lia Lqa Bool Arith.
From Stdlib Require Import Permutation.
From Stdlib Require SpecFloat.
Import ListNotations.
Close Scope Q_scope.
Local Open Scope nat_scope.

Set Implicit Arguments.

(** ** Python values and control *)

Inductive exn : Set :=
| IndexError | KeyError | ValueError | TypeError | AttributeError
| TranspilerError | ZeroDivisionError | DOcplexException | CplexError.

Inductive result (A : Type) : Type :=
| Ok (a : A)
| Raise (e : exn).
Arguments Ok {A} a.
Arguments Raise {A} e.

Definition bind {A B} (m : result A) (k : A -> result B) : result B :=
  match m with
  | Ok a => k a
  | Raise e => Raise e
  end.

Declare Scope py_scope.
Delimit Scope py_scope with py.
Notation "x <- m ;; k" := (bind m (fun x => k))
  (at level 61, m at next level, right associativity) : py_scope.
Notation "m ;;; k" := (bind m (fun _ => k))
  (at level 61, right associativity) : py_scope.
Local Open Scope py_scope.

(** A loop whose body can raise: the results of the iterations, in order, or
    the first exception. *)
Fixpoint mapM {A B} (f : A -> result B) (l : list A) : result (list B) :=
  match l with
  | [] => Ok []
  | a :: l' => b <- f a ;; bs <- mapM f l' ;; Ok (b :: bs)
  end.

(** Nested loops: every iteration contributes a list. *)
Definition flat_mapM {A B} (f : A -> result (list B)) (l : list A)
  : result (list B) :=
  bs <- mapM f l ;; Ok (concat bs).

Definition range (n : nat) : list nat := seq 0 n.

Definition enumerate {A} (l : list A) : list (nat * A) :=
  combine (seq 0 (length l)) l.

(** [l[i]] for a Python [int] position: a negative position counts from the
    end, a position outside [-len(l) .. len(l)-1] raises [IndexError]. *)
Definition py_index {A} (l : list A) (i : Z) : result A :=
  let n := Z.of_nat (length l) in
  let pos := if (i <? 0)%Z then (n + i)%Z else i in
  if ((0 <=? pos)%Z && (pos <? n)%Z)%bool then
    match nth_error l (Z.to_nat pos) with
    | Some a => Ok a
    | None => Raise IndexError
    end
  else Raise IndexError.

(** [l.remove(x)]: drops the first occurrence, [ValueError] when there is
    none. *)
Fixpoint list_remove (x : nat) (l : list nat) : result (list nat) :=
  match l with
  | [] => Raise ValueError
  | y :: l' => if x =? y then Ok l' else r <- list_remove x l' ;; Ok (y :: r)
  end.

(** ** Circuits and devices *)

(** A two-qubit operation node of the DAG: the positions of its two
    arguments in [dag.qubits] and the identity of the node. *)
Record TwoQubitOp : Set := { qarg0 : nat; qarg1 : nat; op_node : nat }.

(** [dag.layers()], each layer reduced to its [two_qubit_ops()], and
    [len(dag.qubits)]. *)
Record DAGCircuit : Set := {
  num_dag_qubits : nat;
  layers : list (list TwoQubitOp)
}.

(** The part of [CouplingMap] the builders use. *)
Record CouplingMap : Type := {
  size : nat;
  get_edges : list (nat * nat);
  neighbors : nat -> list nat;
  distance : nat -> nat -> nat
}.

(** A scheduled gate of [bip_model]: [((i1, i2), node)]. *)
Definition Gate : Set := ((nat * nat) * nat)%type.

Definition is_empty {A} (l : list A) : bool :=
  match l with [] => true | _ => false end.

(** ** The decision variables *)

Inductive Var : Set :=
| W (t q j : nat)
| Y (t p q i j : nat)
| X (t q i j : nat)
| Zv (t : nat).

Definition Var_eq_dec (u v : Var) : {u = v} + {u <> v}.
Proof. repeat decide equality. Defined.

Definition Var_eqb (u v : Var) : bool :=
  if Var_eq_dec u v then true else false.

Lemma Var_eqb_eq u v : Var_eqb u v = true <-> u = v.
Proof. unfold Var_eqb. destruct (Var_eq_dec u v); split; congruence. Qed.

Lemma Var_eqb_refl v : Var_eqb v v = true.
Proof. apply Var_eqb_eq. reflexivity. Qed.

(** ** Linear expressions, constraints and models *)

(** The numbers an expression is built over: [Z] in the constraints, [Q]
    (for Python floats) in the objectives. *)
Class Scalar (K : Type) : Type := {
  s_of_Z : Z -> K;
  s_add : K -> K -> K;
  s_sub : K -> K -> K;
  s_mul : K -> K -> K
}.

#[export] Instance Scalar_Z : Scalar Z :=
  {| s_of_Z := fun z => z; s_add := Z.add; s_sub := Z.sub; s_mul := Z.mul |}.

#[export] Instance Scalar_Q : Scalar Q :=
  {| s_of_Z := inject_Z; s_add := Qplus; s_sub := Qminus; s_mul := Qmult |}.

(** The expression a Python operator builds, kept as written. *)
Inductive LinExpr (K : Type) : Type :=
| Num (c : K)
| Ref (v : Var)
| Plus (a b : LinExpr K)
| Minus (a b : LinExpr K)
| Times (a : LinExpr K) (c : K).
Arguments Num {K} c.
Arguments Ref {K} v.
Arguments Plus {K} a b.
Arguments Minus {K} a b.
Arguments Times {K} a c.

(** [e / c]: DOcplex multiplies by the inverse. *)
Definition Over (e : LinExpr Q) (c : Q) : LinExpr Q := Times e (1 / c)%Q.

(** Python's [sum]: starts from [0] and adds from the left. *)
Definition psum {K} `{Scalar K} (l : list (LinExpr K)) : LinExpr K :=
  fold_left Plus l (Num (s_of_Z 0)).

Fixpoint eval {K} `{Scalar K} (a : Var -> Z) (e : LinExpr K) : K :=
  match e with
  | Num c => c
  | Ref v => s_of_Z (a v)
  | Plus e1 e2 => s_add (eval a e1) (eval a e2)
  | Minus e1 e2 => s_sub (eval a e1) (eval a e2)
  | Times e1 c => s_mul (eval a e1) c
  end.

(** The dictionary subscripts of an expression, in evaluation order. *)
Fixpoint subscripts {K} (e : LinExpr K) : list Var :=
  match e with
  | Num _ => []
  | Ref v => [v]
  | Plus e1 e2 | Minus e1 e2 => subscripts e1 ++ subscripts e2
  | Times e1 _ => subscripts e1
  end.

Inductive Sense : Set := EQ | LE | GE.

(** The [ctname] of a constraint. *)
Inductive CtName : Set :=
| assignment_vqubits_at (q t : nat)
| assignment_pqubits_at (j t : nat)
| implement_gate_at (p q t : nat)
| McCormickLB_at (p q i j t : nat)
| McCormickUB1_at (p q i j t : nat)
| McCormickUB2_at (p q i j t : nat)
| McCormickLB_at_last (p q i j : nat)
| McCormickUB1_at_last (p q i j : nat)
| McCormickUB2_at_last (p q i j : nat)
| flow_out_at (q i t : nat)
| flow_in_at (q i t : nat)
| swap_at (p q i j t : nat)
| swap_no_gate_at (i j t : nat)
| dummy_ts_needed_for_vqubit_at (q t : nat)
| dummy_precedence (t : nat).

Record Constraint : Type := {
  ct_lhs : LinExpr Z;
  ct_sense : Sense;
  ct_rhs : LinExpr Z;
  ctname : CtName
}.

Definition sat (a : Var -> Z) (c : Constraint) : Prop :=
  match ct_sense c with
  | EQ => eval a (ct_lhs c) = eval a (ct_rhs c)
  | LE => (eval a (ct_lhs c) <= eval a (ct_rhs c))%Z
  | GE => (eval a (ct_lhs c) >= eval a (ct_rhs c))%Z
  end.

Definition satb (a : Var -> Z) (c : Constraint) : bool :=
  match ct_sense c with
  | EQ => (eval a (ct_lhs c) =? eval a (ct_rhs c))%Z
  | LE => (eval a (ct_lhs c) <=? eval a (ct_rhs c))%Z
  | GE => (eval a (ct_lhs c) >=? eval a (ct_rhs c))%Z
  end.

(** A binary variable of a DOcplex model, with its bounds. *)
Record BinaryVar : Set := { var_name : Var; lb : Q; ub : Q }.

Definition binary_var (name : Var) : BinaryVar :=
  {| var_name := name; lb := 0%Q; ub := 1%Q |}.

(** A Python [float]: an IEEE 754 binary64 number, that is [spec_float]
    at 53 bits of precision with exponents up to 1024 (one NaN, no
    payload).  [x * y], [x / y] and [x + y] are the exact result rounded to
    the nearest double, ties to even. *)
Definition float : Set := SpecFloat.spec_float.

Definition is_double (x : float) : bool := SpecFloat.valid_binary 53 1024 x.

Definition fmul (x y : float) : float := SpecFloat.SFmul 53 1024 x y.
Definition fdiv (x y : float) : float := SpecFloat.SFdiv 53 1024 x y.
Definition fadd (x y : float) : float := SpecFloat.SFadd 53 1024 x y.

(** [float(z)], the conversion of an [int] where it meets a [float]: the
    nearest double, ties to even.  The [int]s converted here are numbers of
    windows, which are below the length of a list; the [OverflowError] of an
    [int] above the largest double (about [2 ^ 1024]) is not modelled, the
    value is an infinity there. *)
Definition float_of_int (z : Z) : float :=
  SpecFloat.binary_normalize 53 1024 z 0 false.

(** [x == 0.0]. *)
Definition is_zero (x : float) : bool :=
  match x with
  | SpecFloat.S754_zero _ => true
  | _ => false
  end.

(** A DOcplex [Model]: [objective] is the expression given to [minimize],
    [None] while [minimize] was not called. *)
Record Model : Type := {
  variables : list BinaryVar;
  constraints : list Constraint;
  objective : option (LinExpr Q);
  time_limit : option float;
  threads : option nat;
  randomseed : option nat
}.

Definition in_bounds (a : Var -> Z) (bv : BinaryVar) : Prop :=
  (a (var_name bv) = 0%Z \/ a (var_name bv) = 1%Z) /\
  (lb bv <= inject_Z (a (var_name bv)))%Q /\
  (inject_Z (a (var_name bv)) <= ub bv)%Q.

Definition in_boundsb (a : Var -> Z) (bv : BinaryVar) : bool :=
  ((a (var_name bv) =? 0)%Z || (a (var_name bv) =? 1)%Z)
  && Qle_bool (lb bv) (inject_Z (a (var_name bv)))
  && Qle_bool (inject_Z (a (var_name bv))) (ub bv).

(** An assignment the solver may return for model [m]. *)
Definition feasible (m : Model) (a : Var -> Z) : Prop :=
  Forall (in_bounds a) (variables m) /\ Forall (sat a) (constraints m).

Definition feasibleb (m : Model) (a : Var -> Z) : bool :=
  forallb (in_boundsb a) (variables m) && forallb (satb a) (constraints m).

(** A subscript on a key that was never stored raises [KeyError];
    [checked keys c] replays the subscripts of [c] in evaluation order. *)
Definition stored (keys : list Var) (v : Var) : bool :=
  existsb (Var_eqb v) keys.

Definition checked_expr {K} (keys : list Var) (e : LinExpr K)
  : result (LinExpr K) :=
  if forallb (stored keys) (subscripts e) then Ok e else Raise KeyError.

Definition checked (keys : list Var) (c : Constraint) : result Constraint :=
  if forallb (stored keys) (subscripts (ct_lhs c) ++ subscripts (ct_rhs c))
  then Ok c else Raise KeyError.

(** [add_constraint] over the constraints of a loop nest, in order. *)
Definition add_constraints (keys : list Var) (cs : list Constraint)
  : result (list Constraint) :=
  mapM (checked keys) cs.

Definition ct (l : LinExpr Z) (s : Sense) (r : LinExpr Z) (n : CtName)
  : Constraint :=
  {| ct_lhs := l; ct_sense := s; ct_rhs := r; ctname := n |}.

(** ** [BIPMappingModel]: construction *)

Module BIP.

(** The attributes of a [BIPMappingModel] after [__init__].  [_coupling] is
    the coupling map already reduced to [qubit_subset] and made symmetric
    (lines 71-78 call the [CouplingMap] library for that).  The attributes
    of the window heuristic exist in Python only when [_num_splits > 1]; here
    they are empty otherwise, and nothing reads them then. *)
Record BIPMappingModel : Type := {
  _coupling : CouplingMap;
  global_qubit : list nat;
  _num_splits : Z;
  num_vqubits : nat;
  num_pqubits : nat;
  _arcs : list (nat * nat);
  _to_su4layer : list Z;
  su4layers : list (list Gate);
  gates : list (list Gate);
  heur_gates : list (list (list Gate));
  heur_last_layer : list nat;
  _long_arcs : list (nat * nat);
  _long_arcs_cost : list ((nat * nat) * nat);
  _long_coupling_neighbors : list (list nat)
}.

(** [depth]: the number of time steps, dummy steps included. *)
Definition depth (m : BIPMappingModel) : nat := length (gates m).

(** Lines 104-116: the layers that hold two-qubit gates. *)
Definition laygates_of (lay : list TwoQubitOp) : list Gate :=
  map (fun nd => ((qarg0 nd, qarg1 nd), op_node nd)) lay.

Definition extract_su4layers (lays : list (list TwoQubitOp))
  : list Z * list (list Gate) :=
  fold_left
    (fun (acc : list Z * list (list Gate)) lay =>
       let '(to_su4, su4) := acc in
       let laygates := laygates_of lay in
       if is_empty laygates then (to_su4 ++ [(-1)%Z], su4)
       else (to_su4 ++ [Z.of_nat (length su4)], su4 ++ [laygates]))
    lays ([], []).

(** Lines 118-123: dummy steps in between the su4 layers.  The [break] is
    taken in the last iteration only, so it skips nothing but the [extend]. *)
Definition add_dummy_steps (su4 : list (list Gate)) (dummy_timesteps : nat)
  : list (list Gate) :=
  fold_left
    (fun gs (kl : nat * list Gate) =>
       let '(k, lay) := kl in
       if k =? length su4 - 1 then gs ++ [lay]
       else (gs ++ [lay]) ++ repeat [] dummy_timesteps)
    (enumerate su4) [].

(** Lines 126-130: the split count asked for, [-1] meaning automatic. *)
Definition requested_splits (num_splits : Z) (nlayers : nat) : Z :=
  if (num_splits =? 0)%Z then 1%Z
  else if (num_splits =? -1)%Z then Z.max 1 ((Z.of_nat nlayers - 2) / 2)
  else num_splits.

(** Lines 133 and 137: a count above one is clamped. *)
Definition adjust_num_splits (num_splits : Z) (nlayers : nat) : Z :=
  let s := requested_splits num_splits nlayers in
  if (1 <? s)%Z then Z.min s (Z.max 1 (Z.of_nat nlayers - 2)) else s.

(** Line 140. *)
Definition split_size_of (splits : Z) (nlayers : nat) : nat :=
  Z.to_nat (Z.max 1 (Z.max 1 (Z.of_nat nlayers - 2) / splits)).

(** Lines 142-147: the schedule of window [i] and its boundary depth. *)
Definition heur_window (su4 : list (list Gate)) (dummy_timesteps : nat)
  (split_size i : nat) : list (list Gate) * nat :=
  fold_left
    (fun (acc : list (list Gate) * nat) (kl : nat * list Gate) =>
       let '(hg, last) := acc in
       let '(k, lay) := kl in
       let hg1 := hg ++ [lay] in
       if k <? split_size * (i + 1) then (hg1 ++ repeat [] dummy_timesteps, last)
       else if k =? split_size * (i + 1) then (hg1, length hg1)
       else (hg1, last))
    (enumerate su4) ([], 0).

(** Lines 155-165: the arcs usable within [dummy_timesteps] steps. *)
Definition long_arcs_with_cost (cm : CouplingMap) (np dummy_timesteps : nat)
  : list ((nat * nat) * nat) :=
  flat_map
    (fun i =>
       flat_map
         (fun j =>
            let d := distance cm i j in
            if negb (i =? j) && (d <=? dummy_timesteps) then [((i, j), d)]
            else [])
         (range np))
    (range np).

Definition long_neighbors_of (arcs : list (nat * nat)) (i : nat) : list nat :=
  map snd (filter (fun a => fst a =? i) arcs).

Definition init (dag : DAGCircuit) (coupling : CouplingMap)
  (qubit_subset : list nat) (dummy_timesteps : nat) (num_splits : Z)
  : result BIPMappingModel :=
  if (num_splits <? -1)%Z then Raise ValueError
  else if negb (num_dag_qubits dag =? size coupling) then Raise TranspilerError
  else
    let '(to_su4, su4) := extract_su4layers (layers dag) in
    let heuristic := (1 <? requested_splits num_splits (length su4))%Z in
    let splits := adjust_num_splits num_splits (length su4) in
    let nwin := Z.to_nat (splits - 1) in
    let split_size := split_size_of splits (length su4) in
    let windows :=
      if heuristic
      then map (heur_window su4 dummy_timesteps split_size) (range nwin)
      else [] in
    let long :=
      if heuristic
      then long_arcs_with_cost coupling (size coupling) dummy_timesteps
      else [] in
    Ok {| _coupling := coupling;
          global_qubit := qubit_subset;
          _num_splits := splits;
          num_vqubits := num_dag_qubits dag;
          num_pqubits := size coupling;
          _arcs := get_edges coupling;
          _to_su4layer := to_su4;
          su4layers := su4;
          gates := add_dummy_steps su4 dummy_timesteps;
          heur_gates := map fst windows;
          heur_last_layer := map snd windows;
          _long_arcs := map fst long;
          _long_arcs_cost := long;
          _long_coupling_neighbors :=
            map (long_neighbors_of (map fst long)) (range (size coupling)) |}.

(** [_is_dummy_step]: on a step outside the schedule Python raises
    [IndexError]. *)
Definition _is_dummy_step (m : BIPMappingModel) (t : nat) : result bool :=
  lay <- py_index (gates m) (Z.of_nat t) ;; Ok (is_empty lay).

(** ** [BIPMappingModel.create_cpx_problem]: the exact model *)

Section Builder.

(** What the builder takes from numpy and from the two-qubit decomposition
    of [qiskit.quantum_info]: [numpy.log], the four fidelities of a gate
    and of its mirrored gate, and [numpy.exp(numpy.mean(numpy.log(g)))] of a
    generator [g] (given here by the values [g] yields). *)
Variable np_log : Q -> Q.
Variable _gate_fidelities : nat -> list Q.
Variable _mirrored_gate_fidelities : nat -> list Q.
Variable np_exp_mean_log : list Q -> result Q.

(** The attributes [create_cpx_problem] adds to the object. *)
Record Built : Type := {
  self : BIPMappingModel;
  bprop : option (nat -> nat -> Q);
  default_cx_error_rate : option Q;
  w_dict : list Var;
  y_dict : list Var;
  x_dict : list Var;
  z_dict : list Var;
  problem : Model;
  heur_problem : list Model
}.

Definition gates_at (gs : list (list Gate)) (t : nat) : result (list Gate) :=
  py_index gs (Z.of_nat t).

(** [for t in ts: for ((p, q), _) in gs[t]: add_constraint(...)]. *)
Definition for_gates (gs : list (list Gate)) (ts : list nat)
  (keys : list Var) (body : nat -> Gate -> list Constraint)
  : result (list Constraint) :=
  flat_mapM
    (fun t =>
       lay <- gates_at gs t ;;
       add_constraints keys (flat_map (body t) lay))
    ts.

(** *** Variables *)

Definition w_keys (depth nv np : nat) : list Var :=
  flat_map
    (fun t => flat_map (fun q => map (fun j => W t q j) (range np)) (range nv))
    (range depth).

Definition y_keys (gs : list (list Gate)) (arcs : list (nat * nat))
  (depth : nat) : result (list Var) :=
  flat_mapM
    (fun t =>
       lay <- gates_at gs t ;;
       Ok (flat_map
             (fun g : Gate =>
                let '((p, q), _) := g in
                map (fun a : nat * nat => Y t p q (fst a) (snd a)) arcs)
             lay))
    (range depth).

Definition x_keys (nbrs : nat -> nat -> list nat) (depth nv np : nat)
  : list Var :=
  flat_map
    (fun t =>
       flat_map
         (fun q =>
            flat_map
              (fun i => X t q i i :: map (fun j => X t q i j) (nbrs t i))
              (range np))
         (range nv))
    (range (depth - 1)).

(** *** Constraints shared by the exact model and the window models *)

(** Lines 284-289 and 484-489. *)
Definition assignment_vqubits (depth nv np : nat) : list Constraint :=
  flat_map
    (fun t =>
       map
         (fun q =>
            ct (psum (map (fun j => Ref (W t q j)) (range np))) EQ (Num 1%Z)
               (assignment_vqubits_at q t))
         (range nv))
    (range depth).

(** Lines 290-295 and 490-495. *)
Definition assignment_pqubits (depth nv np : nat) : list Constraint :=
  flat_map
    (fun t =>
       map
         (fun j =>
            ct (psum (map (fun q => Ref (W t q j)) (range nv))) EQ (Num 1%Z)
               (assignment_pqubits_at j t))
         (range np))
    (range depth).

(** Lines 297-302 and 497-502. *)
Definition implement_gate (arcs : list (nat * nat)) (t : nat) (g : Gate)
  : list Constraint :=
  let '((p, q), _) := g in
  [ct (psum (map (fun a : nat * nat => Ref (Y t p q (fst a) (snd a))) arcs))
      EQ (Num 1%Z) (implement_gate_at p q t)].

Definition McCormickLB (t p q i j : nat) (n : CtName) : Constraint :=
  ct (Ref (Y t p q i j)) GE
     (Minus (Plus (Ref (W t p i)) (Ref (W t q j))) (Num 1%Z)) n.

(** The stronger upper bounds: the gate is on [(i, j)] if [p] moves from
    [i] to [i] or [j], and [q] from [j] to [i] or [j]. *)
Definition McCormickUB1_strong (t p q i j : nat) : Constraint :=
  ct (Ref (Y t p q i j)) LE (Plus (Ref (X t p i i)) (Ref (X t p i j)))
     (McCormickUB1_at p q i j t).

Definition McCormickUB2_strong (t p q i j : nat) : Constraint :=
  ct (Ref (Y t p q i j)) LE (Plus (Ref (X t q j i)) (Ref (X t q j j)))
     (McCormickUB2_at p q i j t).

(** The regular upper bounds. *)
Definition McCormickUB1_regular (t p q i j : nat) (n : CtName) : Constraint :=
  ct (Ref (Y t p q i j)) LE (Ref (W t p i)) n.

Definition McCormickUB2_regular (t p q i j : nat) (n : CtName) : Constraint :=
  ct (Ref (Y t p q i j)) LE (Ref (W t q j)) n.

(** Lines 304-321. *)
Definition mccormick_strong (arcs : list (nat * nat)) (t : nat) (g : Gate)
  : list Constraint :=
  let '((p, q), _) := g in
  flat_map
    (fun a : nat * nat =>
       let '(i, j) := a in
       [McCormickLB t p q i j (McCormickLB_at p q i j t);
        McCormickUB1_strong t p q i j;
        McCormickUB2_strong t p q i j])
    arcs.

(** Lines 323-339, for the last time step [t = depth - 1]. *)
Definition mccormick_last (arcs : list (nat * nat)) (t : nat) (g : Gate)
  : list Constraint :=
  let '((p, q), _) := g in
  flat_map
    (fun a : nat * nat =>
       let '(i, j) := a in
       [McCormickLB t p q i j (McCormickLB_at_last p q i j);
        McCormickUB1_regular t p q i j (McCormickUB1_at_last p q i j);
        McCormickUB2_regular t p q i j (McCormickUB2_at_last p q i j)])
    arcs.

(** Lines 344-348, 538-549: flow out of [(q, i)] at [t] over the given
    neighbours. *)
Definition flow_out (nbrs : list nat) (t q i : nat) : Constraint :=
  ct (Ref (W t q i)) EQ
     (Plus (Ref (X t q i i)) (psum (map (fun j => Ref (X t q i j)) nbrs)))
     (flow_out_at q i t).

(** Lines 353-358, 556-567: flow into [(q, i)] at [t]. *)
Definition flow_in (nbrs : list nat) (t q i : nat) : Constraint :=
  ct (Ref (W t q i)) EQ
     (Plus (Ref (X (t - 1) q i i))
           (psum (map (fun j => Ref (X (t - 1) q j i)) nbrs)))
     (flow_in_at q i t).

(** Lines 360-365 and 571-576. *)
Definition swap (arcs : list (nat * nat)) (t : nat) (g : Gate)
  : list Constraint :=
  let '((p, q), _) := g in
  map
    (fun a : nat * nat =>
       let '(i, j) := a in
       ct (Ref (X t p i j)) EQ (Ref (X t q j i)) (swap_at p q i j t))
    arcs.

(** Lines 368-371 and 579-582: the qubits in no gate of the layer. *)
Fixpoint q_no_gate (lay : list Gate) (acc : list nat) : result (list nat) :=
  match lay with
  | [] => Ok acc
  | ((p, q), _) :: lay' =>
      acc1 <- list_remove p acc ;;
      acc2 <- list_remove q acc1 ;;
      q_no_gate lay' acc2
  end.

(** Lines 372-376 and 583-588. *)
Definition swap_no_gate (arcs : list (nat * nat)) (t : nat)
  (free : list nat) : list Constraint :=
  map
    (fun a : nat * nat =>
       let '(i, j) := a in
       ct (psum (map (fun q => Ref (X t q i j)) free)) EQ
          (psum (map (fun p => Ref (X t p j i)) free))
          (swap_no_gate_at i j t))
    arcs.

Definition for_swap_no_gate (gs : list (list Gate)) (ts : list nat)
  (keys : list Var) (arcs : list (nat * nat)) (nv : nat)
  : result (list Constraint) :=
  flat_mapM
    (fun t =>
       lay <- gates_at gs t ;;
       free <- q_no_gate lay (range nv) ;;
       add_constraints keys (swap_no_gate arcs t free))
    ts.

(** Lines 381-383 and 593-595: the [z] of the dummy steps among [ts]. *)
Definition z_keys (m : BIPMappingModel) (ts : list nat) : result (list Var) :=
  flat_mapM
    (fun t => d <- _is_dummy_step m t ;; Ok (if d then [Zv t] else []))
    ts.

(** Lines 387-393 and 600-606. *)
Definition dummy_ts_needed (arcs : list (nat * nat)) (nv t : nat)
  : list Constraint :=
  map
    (fun q =>
       ct (psum (map (fun a : nat * nat => Ref (X t q (fst a) (snd a))) arcs))
          LE (Ref (Zv t)) (dummy_ts_needed_for_vqubit_at q t))
    (range nv).

Definition for_dummy_ts_needed (m : BIPMappingModel) (ts : list nat)
  (keys : list Var) : result (list Constraint) :=
  flat_mapM
    (fun t =>
       d <- _is_dummy_step m t ;;
       if d then add_constraints keys (dummy_ts_needed (_arcs m) (num_vqubits m) t)
       else Ok [])
    ts.

(** Lines 395-399 and 608-612; [and] evaluates its second operand only when
    the first holds. *)
Definition for_dummy_precedence (m : BIPMappingModel) (ts : list nat)
  (keys : list Var) : result (list Constraint) :=
  flat_mapM
    (fun t =>
       d <- _is_dummy_step m t ;;
       if d then
         d' <- _is_dummy_step m (t + 1) ;;
         if d' then
           add_constraints keys
             [ct (Ref (Zv t)) GE (Ref (Zv (t + 1))) (dummy_precedence t)]
         else Ok []
       else Ok [])
    ts.

(** *** Fidelities (lines 693-724) *)

(** [max] of a sequence; of an empty one Python raises [ValueError]. *)
Definition py_max (l : list Q) : result Q :=
  match l with
  | [] => Raise ValueError
  | x :: r => Ok (fold_left Qmax r x)
  end.

Definition _cx_fidelity (b : Built) (i j : nat) : result Q :=
  match bprop b with
  | Some gate_error =>
      gi <- py_index (global_qubit (self b)) (Z.of_nat i) ;;
      gj <- py_index (global_qubit (self b)) (Z.of_nat j) ;;
      Ok (1 - gate_error gi gj)%Q
  | None =>
      match default_cx_error_rate b with
      | Some r => Ok (1 - r)%Q
      | None => Raise TypeError
      end
  end.

Definition expected_fidelities (b : Built) (fids : list Q) (i j : nat)
  : result (list Q) :=
  mapM
    (fun kg : nat * Q =>
       cx <- _cx_fidelity b i j ;;
       Ok (snd kg * Qpower cx (Z.of_nat (fst kg)))%Q)
    (enumerate fids).

Definition _max_expected_fidelity (b : Built) (node i j : nat) : result Q :=
  fs <- expected_fidelities b (_gate_fidelities node) i j ;; py_max fs.

Definition _max_expected_mirrored_fidelity (b : Built) (node i j : nat)
  : result Q :=
  fs <- expected_fidelities b (_mirrored_gate_fidelities node) i j ;; py_max fs.

Definition _avg_cx_fidelity (b : Built) : result Q :=
  match bprop b with
  | Some gate_error =>
      gs <- mapM
              (fun a : nat * nat =>
                 gi <- py_index (global_qubit (self b)) (Z.of_nat (fst a)) ;;
                 gj <- py_index (global_qubit (self b)) (Z.of_nat (snd a)) ;;
                 Ok (gate_error gi gj))
              (_arcs (self b)) ;;
      v <- np_exp_mean_log gs ;;
      Ok (1 - v)%Q
  | None =>
      match default_cx_error_rate b with
      | Some r => Ok (1 - r)%Q
      | None => Raise TypeError
      end
  end.

(** *** Objective terms *)

Definition lookup (keys : list Var) (v : Var) : result (LinExpr Q) :=
  checked_expr keys (Ref v).

(** [-np.log(self._max_expected_fidelity(node, i, j))]. *)
Definition pbest_fid_of (b : Built) (node i j : nat) : result Q :=
  f <- _max_expected_fidelity b node i j ;; Ok (- np_log f)%Q.

Definition pbest_fidm_of (b : Built) (node i j : nat) : result Q :=
  f <- _max_expected_mirrored_fidelity b node i j ;; Ok (- np_log f)%Q.

(** Lines 416-421 and 633-641: the cost of a gate on an arc, and the
    correction when it is mirrored. *)
Definition gate_cost_terms (b : Built) (keys : list Var) (t : nat) (g : Gate)
  : result (list (LinExpr Q)) :=
  let '((p, q), node) := g in
  flat_mapM
    (fun a : nat * nat =>
       let '(i, j) := a in
       pbest_fid <- pbest_fid_of b node i j ;;
       yv <- lookup keys (Y t p q i j) ;;
       pbest_fidm <- pbest_fidm_of b node i j ;;
       xv <- lookup keys (X t q i j) ;;
       Ok [Times yv pbest_fid; Over (Times xv (pbest_fidm - pbest_fid)%Q) 2])
    (_arcs (self b)).

(** Lines 430-433, 655-659 and 672-675: the cost of a gate alone. *)
Definition gate_only_terms (b : Built) (keys : list Var) (t : nat) (g : Gate)
  : result (list (LinExpr Q)) :=
  let '((p, q), node) := g in
  mapM
    (fun a : nat * nat =>
       let '(i, j) := a in
       pbest_fid <- pbest_fid_of b node i j ;;
       yv <- lookup keys (Y t p q i j) ;;
       Ok (Times yv pbest_fid))
    (_arcs (self b)).

Definition used_qubits (lay : list Gate) : list nat :=
  flat_map (fun g : Gate => [fst (fst g); snd (fst g)]) lay.

Definition mem_nat (q : nat) (l : list nat) : bool := existsb (Nat.eqb q) l.

(** Lines 423-428 and 643-652: swaps of the qubits in no gate. *)
Definition unused_swap_terms (b : Built) (keys : list Var) (t : nat)
  (lay : list Gate) : result (list (LinExpr Q)) :=
  flat_mapM
    (fun q =>
       if mem_nat q (used_qubits lay) then Ok []
       else
         flat_mapM
           (fun i =>
              mapM
                (fun j =>
                   xv <- lookup keys (X t q i j) ;;
                   cx <- _cx_fidelity b i j ;;
                   Ok (Times (Over (Times xv (-3)%Q) 2) (np_log cx)))
                (neighbors (_coupling (self b)) i))
           (range (num_pqubits (self b))))
    (range (num_vqubits (self b))).

(** [sum(z[t] for t in ts if self._is_dummy_step(t))]. *)
Definition dummy_z_sum (b : Built) (keys : list Var) (ts : list nat)
  : result (LinExpr Q) :=
  zs <- flat_mapM
          (fun t =>
             d <- _is_dummy_step (self b) t ;;
             if d then (zv <- lookup keys (Zv t) ;; Ok [zv]) else Ok [])
          ts ;;
  Ok (psum zs).

(** Lines 404-407 and 619-622: the terms [0.01 * x[t, q, i, j]]. *)
Definition small_swap_terms (b : Built) (keys : list Var) (ts : list nat)
  : result (list (LinExpr Q)) :=
  flat_mapM
    (fun t =>
       flat_mapM
         (fun q =>
            mapM
              (fun a : nat * nat =>
                 xv <- lookup keys (X t q (fst a) (snd a)) ;;
                 Ok (Times xv (1 # 100)%Q))
              (_arcs (self b)))
         (range (num_vqubits (self b))))
    ts.

(** [objexr += term] for every term, in order. *)
Definition accumulate (objexr : LinExpr Q) (terms : list (LinExpr Q))
  : LinExpr Q :=
  fold_left Plus terms objexr.

(** Lines 402-440: the objective of the exact model. *)
Definition exact_objective (b : Built) (keys : list Var) (objective : string)
  (depth_obj_weight : Q) : result (LinExpr Q) :=
  let m := self b in
  if String.eqb objective "depth" then
    zsum <- dummy_z_sum b keys (range (depth m)) ;;
    xs <- small_swap_terms b keys (range (depth m - 1)) ;;
    Ok (accumulate zsum xs)
  else if String.eqb objective "gate_error" || String.eqb objective "balanced"
  then
    body <- flat_mapM
              (fun t =>
                 lay <- gates_at (gates m) t ;;
                 gs <- flat_mapM (gate_cost_terms b keys t) lay ;;
                 us <- unused_swap_terms b keys t lay ;;
                 Ok (gs ++ us))
              (range (depth m - 1)) ;;
    lay <- py_index (gates m) (Z.of_nat (depth m) - 1) ;;
    last <- flat_mapM (gate_only_terms b keys (depth m - 1)) lay ;;
    let objexr := accumulate (Num 0%Q) (body ++ last) in
    if String.eqb objective "balanced" then
      zsum <- dummy_z_sum b keys (range (depth m)) ;;
      Ok (Plus objexr (Times zsum depth_obj_weight))
    else Ok objexr
  else Raise TranspilerError.

(** Lines 258-400: variables and constraints of the exact model. *)
Definition exact_variables (m : BIPMappingModel)
  : result (list Var * list Var * list Var) :=
  let w := w_keys (depth m) (num_vqubits m) (num_pqubits m) in
  y <- y_keys (gates m) (_arcs m) (depth m) ;;
  let x := x_keys (fun _ => neighbors (_coupling m)) (depth m)
             (num_vqubits m) (num_pqubits m) in
  Ok (w, y, x).

Definition exact_main_constraints (m : BIPMappingModel) (keys : list Var)
  : result (list Constraint) :=
  let d := depth m in
  let nv := num_vqubits m in
  let np := num_pqubits m in
  let nb := neighbors (_coupling m) in
  c1 <- add_constraints keys (assignment_vqubits d nv np) ;;
  c2 <- add_constraints keys (assignment_pqubits d nv np) ;;
  c3 <- for_gates (gates m) (range d) keys (implement_gate (_arcs m)) ;;
  c4 <- for_gates (gates m) (range (d - 1)) keys (mccormick_strong (_arcs m)) ;;
  last <- py_index (gates m) (Z.of_nat d - 1) ;;
  c5 <- add_constraints keys (flat_map (mccormick_last (_arcs m) (d - 1)) last) ;;
  c6 <- add_constraints keys
          (flat_map
             (fun t =>
                flat_map
                  (fun q => map (fun i => flow_out (nb i) t q i) (range np))
                  (range nv))
             (range (d - 1))) ;;
  c7 <- add_constraints keys
          (flat_map
             (fun t =>
                flat_map
                  (fun q => map (fun i => flow_in (nb i) t q i) (range np))
                  (range nv))
             (seq 1 (d - 1))) ;;
  c8 <- for_gates (gates m) (range (d - 1)) keys (swap (_arcs m)) ;;
  c9 <- for_swap_no_gate (gates m) (range (d - 1)) keys (_arcs m) nv ;;
  Ok (c1 ++ c2 ++ c3 ++ c4 ++ c5 ++ c6 ++ c7 ++ c8 ++ c9).

Definition exact_model (m : BIPMappingModel) (bp : option (nat -> nat -> Q))
  (rate : option Q) (objective : string) (depth_obj_weight : Q)
  : result Built :=
  wyx <- exact_variables m ;;
  let '(w, y, x) := wyx in
  main <- exact_main_constraints m (w ++ y ++ x) ;;
  z <- z_keys m (range (depth m)) ;;
  let keys := w ++ y ++ x ++ z in
  c10 <- for_dummy_ts_needed m (range (depth m)) keys ;;
  c11 <- for_dummy_precedence m (range (depth m - 1)) keys ;;
  let b0 := {| self := m; bprop := bp; default_cx_error_rate := rate;
               w_dict := w; y_dict := y; x_dict := x; z_dict := z;
               problem := {| variables := []; constraints := [];
                             objective := None; time_limit := None;
                             threads := None; randomseed := None |};
               heur_problem := [] |} in
  objexr <- exact_objective b0 keys objective depth_obj_weight ;;
  Ok {| self := m; bprop := bp; default_cx_error_rate := rate;
        w_dict := w; y_dict := y; x_dict := x; z_dict := z;
        problem := {| variables := map binary_var (w ++ y ++ x ++ z);
                      constraints := main ++ c10 ++ c11;
                      objective := Some objexr;
                      time_limit := None; threads := None;
                      randomseed := None |};
        heur_problem := [] |}.

(** ** [create_cpx_problem]: the reduced models of the window heuristic *)

(** [self.heur_gates[split]], [self.heur_last_layer[split]] and
    [self._long_coupling_neighbors[i]]: [split] ranges over the windows and
    [i] over the physical qubits, which is what these lists are indexed
    by. *)
Definition heur_gates_of (m : BIPMappingModel) (split : nat)
  : list (list Gate) := nth split (heur_gates m) [].

Definition heur_last_layer_of (m : BIPMappingModel) (split : nat) : nat :=
  nth split (heur_last_layer m) 0.

Definition long_neighbors (m : BIPMappingModel) (i : nat) : list nat :=
  nth i (_long_coupling_neighbors m) [].

(** The neighbours a qubit may move to from step [t] of window [split]:
    the coupling map before the boundary, the long arcs from there on. *)
Definition heur_neighbors (m : BIPMappingModel) (split t i : nat)
  : list nat :=
  if t <? heur_last_layer_of m split - 1 then neighbors (_coupling m) i
  else long_neighbors m i.

(** Lines 504-532. *)
Definition heur_mccormick (m : BIPMappingModel) (split t : nat) (g : Gate)
  : list Constraint :=
  let '((p, q), _) := g in
  flat_map
    (fun a : nat * nat =>
       let '(i, j) := a in
       McCormickLB t p q i j (McCormickLB_at p q i j t)
       :: (if t <? heur_last_layer_of m split - 1
           then [McCormickUB1_strong t p q i j; McCormickUB2_strong t p q i j]
           else [McCormickUB1_regular t p q i j (McCormickUB1_at p q i j t);
                 McCormickUB2_regular t p q i j (McCormickUB2_at p q i j t)]))
    (_arcs m).

Definition heur_variables (m : BIPMappingModel) (split : nat)
  : result (list Var * list Var * list Var) :=
  let hg := heur_gates_of m split in
  let depth := length hg in
  let w := w_keys depth (num_vqubits m) (num_pqubits m) in
  y <- y_keys hg (_arcs m) depth ;;
  let x := x_keys (heur_neighbors m split) depth
             (num_vqubits m) (num_pqubits m) in
  Ok (w, y, x).

Definition heur_main_constraints (m : BIPMappingModel) (split : nat)
  (keys : list Var) : result (list Constraint) :=
  let hg := heur_gates_of m split in
  let last := heur_last_layer_of m split in
  let d := length hg in
  let nv := num_vqubits m in
  let np := num_pqubits m in
  c1 <- add_constraints keys (assignment_vqubits d nv np) ;;
  c2 <- add_constraints keys (assignment_pqubits d nv np) ;;
  c3 <- for_gates hg (range d) keys (implement_gate (_arcs m)) ;;
  c4 <- for_gates hg (range d) keys (heur_mccormick m split) ;;
  c6 <- add_constraints keys
          (flat_map
             (fun t =>
                flat_map
                  (fun q =>
                     map (fun i => flow_out (heur_neighbors m split t i) t q i)
                         (range np))
                  (range nv))
             (range (d - 1))) ;;
  c7 <- add_constraints keys
          (flat_map
             (fun t =>
                flat_map
                  (fun q =>
                     map
                       (fun i =>
                          flow_in
                            (if t <? last then neighbors (_coupling m) i
                             else long_neighbors m i)
                            t q i)
                       (range np))
                  (range nv))
             (seq 1 (d - 1))) ;;
  c8 <- for_gates hg (range (last - 1)) keys (swap (_arcs m)) ;;
  c9 <- for_swap_no_gate hg (range (last - 1)) keys (_arcs m) nv ;;
  Ok (c1 ++ c2 ++ c3 ++ c4 ++ c6 ++ c7 ++ c8 ++ c9).

(** [self._long_arcs_cost[(i, j)]]. *)
Definition long_arc_cost (m : BIPMappingModel) (i j : nat) : result nat :=
  match
    find (fun e : (nat * nat) * nat =>
            (fst (fst e) =? i) && (snd (fst e) =? j))
         (_long_arcs_cost m)
  with
  | Some e => Ok (snd e)
  | None => Raise KeyError
  end.

(** Lines 661-670: the approximate cost of a move along a long arc. *)
Definition long_swap_terms (b : Built) (keys : list Var) (t : nat)
  : result (list (LinExpr Q)) :=
  flat_mapM
    (fun q =>
       flat_mapM
         (fun i =>
            mapM
              (fun j =>
                 xv <- lookup keys (X t q i j) ;;
                 avg <- _avg_cx_fidelity b ;;
                 c <- long_arc_cost (self b) i j ;;
                 Ok (Times (Times (Over (Times xv (-3)%Q) 2) (np_log avg))
                           (inject_Z (Z.of_nat c))))
              (long_neighbors (self b) i))
         (range (num_pqubits (self b))))
    (range (num_vqubits (self b))).

(** Lines 615-682: the objective of window [split].  [mdl.minimize] stands
    inside the innermost loop for ['depth'] (so it runs once per term, the
    last time with the whole expression) and inside the ['balanced'] branch
    for the error objectives. *)
Definition heur_objective (b : Built) (split : nat) (keys : list Var)
  (objective : string) (depth_obj_weight : Q)
  : result (option (LinExpr Q)) :=
  let m := self b in
  let hg := heur_gates_of m split in
  let last := heur_last_layer_of m split in
  let depth := length hg in
  if String.eqb objective "depth" then
    zsum <- dummy_z_sum b keys (range last) ;;
    xs <- small_swap_terms b keys (range (last - 1)) ;;
    Ok (if is_empty xs then None else Some (accumulate zsum xs))
  else if String.eqb objective "gate_error" || String.eqb objective "balanced"
  then
    body <- flat_mapM
              (fun t =>
                 if t <? last then
                   lay <- gates_at hg t ;;
                   gs <- flat_mapM (gate_cost_terms b keys t) lay ;;
                   us <- unused_swap_terms b keys t lay ;;
                   Ok (gs ++ us)
                 else
                   lay <- gates_at hg t ;;
                   gs <- flat_mapM (gate_only_terms b keys t) lay ;;
                   us <- long_swap_terms b keys t ;;
                   Ok (gs ++ us))
              (range (depth - 1)) ;;
    lay <- py_index hg (Z.of_nat depth - 1) ;;
    tail <- flat_mapM (gate_only_terms b keys (depth - 1)) lay ;;
    let objexr := accumulate (Num 0%Q) (body ++ tail) in
    if String.eqb objective "balanced" then
      zsum <- dummy_z_sum b keys (range last) ;;
      Ok (Some (Plus objexr (Times zsum depth_obj_weight)))
    else Ok None
  else Raise TranspilerError.

Definition heur_model (b : Built) (split : nat) (objective : string)
  (depth_obj_weight : Q) : result Model :=
  let m := self b in
  let last := heur_last_layer_of m split in
  wyx <- heur_variables m split ;;
  let '(w, y, x) := wyx in
  main <- heur_main_constraints m split (w ++ y ++ x) ;;
  z <- z_keys m (range last) ;;
  let keys := w ++ y ++ x ++ z in
  c10 <- for_dummy_ts_needed m (range last) keys ;;
  c11 <- for_dummy_precedence m (range (last - 1)) keys ;;
  obj <- heur_objective b split keys objective depth_obj_weight ;;
  Ok {| variables := map binary_var (w ++ y ++ x ++ z);
        constraints := main ++ c10 ++ c11;
        objective := obj;
        time_limit := None; threads := None; randomseed := None |}.

(** [user_model_modifier(self, mdl)] when one is given. *)
Definition modified (user_model_modifier : option (Model -> result Model))
  (mdl : Model) : result Model :=
  match user_model_modifier with
  | Some f => f mdl
  | None => Ok mdl
  end.

Definition num_windows (m : BIPMappingModel) : nat :=
  Z.to_nat (_num_splits m - 1).

(** [create_cpx_problem(objective, backend_prop, depth_obj_weight,
    default_cx_error_rate, user_model_modifier)]. *)
Definition create_cpx_problem (m : BIPMappingModel) (objective : string)
  (backend_prop : option (nat -> nat -> Q)) (depth_obj_weight : Q)
  (default_cx_error_rate : option Q)
  (user_model_modifier : option (Model -> result Model)) : result Built :=
  match backend_prop, default_cx_error_rate with
  | None, None => Raise TranspilerError
  | _, _ =>
      b <- exact_model m backend_prop default_cx_error_rate objective
             depth_obj_weight ;;
      p <- modified user_model_modifier (problem b) ;;
      hs <- mapM
              (fun split =>
                 h <- heur_model b split objective depth_obj_weight ;;
                 modified user_model_modifier h)
              (range (num_windows m)) ;;
      Ok {| self := m; bprop := backend_prop;
            default_cx_error_rate := default_cx_error_rate;
            w_dict := w_dict b; y_dict := y_dict b; x_dict := x_dict b;
            z_dict := z_dict b; problem := p; heur_problem := hs |}
  end.

(** ** [BIPMappingModel.solve_cpx_problem] *)

(** CPLEX itself: what [solve()] leaves in a model, the value of every
    variable when a solution was found, and the status string. *)
Variable cplex_solve : Model -> option (Var -> Q) * string.

Definition has_var (mdl : Model) (name : Var) : bool :=
  existsb (fun bv => Var_eqb (var_name bv) name) (variables mdl).

(** [mdl.get_var_by_name(name).solution_value]: [get_var_by_name] gives
    [None] for an unknown name, and a model without a solution has no
    values. *)
Definition solution_value (mdl : Model) (sol : option (Var -> Q))
  (name : Var) : result Q :=
  if has_var mdl name then
    match sol with
    | Some s => Ok (s name)
    | None => Raise DOcplexException
    end
  else Raise AttributeError.

(** [v = mdl.get_var_by_name(name); v.lb = val; v.ub = val]. *)
Definition fix_bounds (mdl : Model) (name : Var) (val : Q) : result Model :=
  if has_var mdl name then
    Ok {| variables :=
            map (fun bv =>
                   if Var_eqb (var_name bv) name
                   then {| var_name := name; lb := val; ub := val |}
                   else bv)
                (variables mdl);
          constraints := constraints mdl;
          objective := objective mdl;
          time_limit := time_limit mdl;
          threads := threads mdl;
          randomseed := randomseed mdl |}
  else Raise AttributeError.

(** The assignments of one loop of lines 785-818: read the value in the
    solved window, fix it in the next problem. *)
Definition fix_variables (cur : Model) (sol : option (Var -> Q))
  (names : list Var) (next : Model) : result Model :=
  fold_left
    (fun (acc : result Model) name =>
       nx <- acc ;;
       val <- solution_value cur sol name ;;
       fix_bounds nx name val)
    names (Ok next).

Definition w_names_at (m : BIPMappingModel) (t : nat) : list Var :=
  flat_map
    (fun q => map (fun j => W t q j) (range (num_pqubits m)))
    (range (num_vqubits m)).

Definition y_names_at (m : BIPMappingModel) (t : nat) (lay : list Gate)
  : list Var :=
  flat_map
    (fun g : Gate =>
       let '((p, q), _) := g in
       map (fun a : nat * nat => Y t p q (fst a) (snd a)) (_arcs m))
    lay.

Definition x_names_at (m : BIPMappingModel) (t : nat) : list Var :=
  flat_map
    (fun q =>
       flat_map
         (fun i => map (fun j => X t q i j) (neighbors (_coupling m) i ++ [i]))
         (range (num_pqubits m)))
    (range (num_vqubits m)).

(** Lines 786-818: time step [t] of window [split]. *)
Definition fix_time_step (b : Built) (split : nat) (cur : Model)
  (sol : option (Var -> Q)) (t : nat) (next : Model) : result Model :=
  let m := self b in
  n1 <- fix_variables cur sol (w_names_at m t) next ;;
  lay <- gates_at (heur_gates_of m split) t ;;
  n2 <- fix_variables cur sol (y_names_at m t lay) n1 ;;
  n3 <- (if t <? heur_last_layer_of m split - 1
         then fix_variables cur sol (x_names_at m t) n2
         else Ok n2) ;;
  d <- _is_dummy_step m t ;;
  if d then fix_variables cur sol [Zv t] n3 else Ok n3.

(** Lines 785-818. *)
Definition fix_window (b : Built) (split : nat) (cur : Model)
  (sol : option (Var -> Q)) (next : Model) : result Model :=
  fold_left
    (fun (acc : result Model) t =>
       nx <- acc ;; fix_time_step b split cur sol t nx)
    (range (heur_last_layer_of (self b) split)) (Ok next).

Definition set_time_limit (mdl : Model) (t : float) : Model :=
  {| variables := variables mdl; constraints := constraints mdl;
     objective := objective mdl; time_limit := Some t;
     threads := threads mdl; randomseed := randomseed mdl |}.

(** Lines 773-775 and 821-823. *)
Definition set_parameters (mdl : Model) (thr : option nat) : Model :=
  {| variables := variables mdl; constraints := constraints mdl;
     objective := objective mdl; time_limit := time_limit mdl;
     threads := match thr with Some n => Some n | None => threads mdl end;
     randomseed := Some 777 |}.

(** [self._num_splits * (self._num_splits + 1) / 2]: [/] on two [int]s
    gives the double nearest to the quotient, and the quotient is an
    integer here (one of two consecutive numbers is even). *)
Definition total_shares (splits : Z) : float :=
  float_of_int (splits * (splits + 1) / 2).

(** [a / b] on floats. *)
Definition py_div (a b : float) : result float :=
  if is_zero b then Raise ZeroDivisionError else Ok (fdiv a b).

(** Lines 767-771: the time limit of window [split],
    [time_limit * (self._num_splits - split) / (...)], the product first.
    [time_limit] is a [float], as the signature says; an [int] that a
    double holds exactly, like the default [60], gives the same values as
    the [float] equal to it. *)
Definition heur_time_limit (splits : Z) (time_limit : float) (split : nat)
  : result float :=
  py_div (fmul time_limit (float_of_int (splits - Z.of_nat split)))
         (total_shares splits).

(** Line 820. *)
Definition exact_time_limit (splits : Z) (time_limit : float)
  : result float :=
  py_div time_limit (total_shares splits).

Definition replace_nth {A} (l : list A) (i : nat) (v : A) : list A :=
  firstn i l ++ v :: skipn (S i) l.

Definition with_problems (b : Built) (p : Model) (hs : list Model) : Built :=
  {| self := self b; bprop := bprop b;
     default_cx_error_rate := default_cx_error_rate b;
     w_dict := w_dict b; y_dict := y_dict b; x_dict := x_dict b;
     z_dict := z_dict b; problem := p; heur_problem := hs |}.

(** Lines 762-818: one iteration of the loop over the windows. *)
Definition solve_split (b : Built) (time_limit : float) (thr : option nat)
  (split : nat) : result Built :=
  let splits := _num_splits (self b) in
  time <- heur_time_limit splits time_limit split ;;
  h <- py_index (heur_problem b) (Z.of_nat split) ;;
  let h' := set_parameters (set_time_limit h time) thr in
  let hs := replace_nth (heur_problem b) split h' in
  let sol := fst (cplex_solve h') in
  if (Z.of_nat split <? splits - 2)%Z then
    next <- py_index hs (Z.of_nat split + 1) ;;
    next' <- fix_window b split h' sol next ;;
    Ok (with_problems b (problem b) (replace_nth hs (split + 1) next'))
  else
    next' <- fix_window b split h' sol (problem b) ;;
    Ok (with_problems b next' hs).

(** Lines 760-829: the state after the call, the solution of the exact
    model and the status string. *)
Definition solve_cpx_problem (b : Built) (time_limit : float)
  (thr : option nat)
  : result (Built * option (Var -> Q) * string) :=
  let splits := _num_splits (self b) in
  b1 <- (if (1 <? splits)%Z then
           fold_left
             (fun (acc : result Built) split =>
                st <- acc ;; solve_split st time_limit thr split)
             (range (Z.to_nat (splits - 1))) (Ok b)
         else Ok b) ;;
  time <- exact_time_limit splits time_limit ;;
  let p := set_parameters (set_time_limit (problem b1) time) thr in
  let r := cplex_solve p in
  Ok (with_problems b1 p (heur_problem b1), fst r, snd r).

(** ** [BIPMappingModel]: the layers of the circuit, and the solution *)

(** [to_su4layer_depth] and [is_su4layer] (lines 183-204); [depth] is a
    position in [dag.layers()]. *)
Definition to_su4layer_depth (m : BIPMappingModel) (depth : Z) : result Z :=
  py_index (_to_su4layer m) depth.

Definition is_su4layer (m : BIPMappingModel) (depth : Z) : result bool :=
  v <- py_index (_to_su4layer m) depth ;; Ok (0 <=? v)%Z.

(** [self.solution] is [None] until [solve_cpx_problem] stores a solution;
    [get_value(name)] is DOcplex's, and so is what it does with a name the
    model does not have. *)
Definition Solution : Type := option (Var -> result Q).

Definition get_value (solution : Solution) (name : Var) : result Q :=
  match solution with
  | Some value => value name
  | None => Raise AttributeError
  end.

(** [x > 0.5]. *)
Definition above_half (x : Q) : bool := negb (Qle_bool x (1 # 2)).

(** [get_layout] (lines 831-848): the dictionary handed to [Layout], as the
    list of its stores, oldest first.  The virtual qubit
    [_index_to_virtual[q]] is written [q]; the registers added to the
    layout afterwards are left out. *)
Definition get_layout (m : BIPMappingModel) (solution : Solution) (t : nat)
  : result (list (nat * nat)) :=
  flat_mapM
    (fun q =>
       flat_mapM
         (fun i =>
            v <- get_value solution (W t q i) ;;
            if above_half v then
              g <- py_index (global_qubit m) (Z.of_nat i) ;;
              Ok [(q, g)]
            else Ok [])
         (range (num_pqubits m)))
    (range (num_vqubits m)).

(** [get_swaps] (lines 850-867). *)
Definition get_swaps (m : BIPMappingModel) (solution : Solution) (t : nat)
  : result (list (nat * nat)) :=
  flat_mapM
    (fun a : nat * nat =>
       let '(i, j) := a in
       if j <=? i then Ok []
       else
         flat_mapM
           (fun q =>
              v <- get_value solution (X t q i j) ;;
              if above_half v then
                gi <- py_index (global_qubit m) (Z.of_nat i) ;;
                gj <- py_index (global_qubit m) (Z.of_nat j) ;;
                Ok [(gi, gj)]
              else Ok [])
           (range (num_vqubits m)))
    (_arcs m).

End Builder.

End BIP.

(** ** [mip_model]: the flat-index builder *)

Module MIP.

(** A Python [dict] as the list of its stores, oldest first: a later store
    on a key replaces the earlier one. *)
Fixpoint dict_get {K V} (eqb : K -> K -> bool) (d : list (K * V)) (k : K)
  : result V :=
  match d with
  | [] => Raise KeyError
  | (k', v) :: d' =>
      match dict_get eqb d' k with
      | Ok v' => Ok v'
      | Raise _ => if eqb k k' then Ok v else Raise KeyError
      end
  end.

Definition pair_eqb (a b : nat * nat) : bool :=
  (fst a =? fst b) && (snd a =? snd b).

Definition triple_eqb (a b : nat * nat * nat) : bool :=
  pair_eqb (fst a) (fst b) && (snd a =? snd b).

(** [l[i] = v]. *)
Fixpoint list_set {A} (l : list A) (i : nat) (v : A) : result (list A) :=
  match l, i with
  | [], _ => Raise IndexError
  | _ :: l', 0 => Ok (v :: l')
  | a :: l', S i' => r <- list_set l' i' v ;; Ok (a :: r)
  end.

(** *** [_CircuitModel] *)

Record _CircuitModel : Type := {
  num_qubits : nat;
  gates : list (list (nat * nat));
  _gate_to_index : list ((nat * nat * nat) * nat);
  _gate_fidelity : list ((nat * nat * nat) * list Q);
  _gate_mfidelity : list ((nat * nat * nat) * list Q)
}.

Definition depth (qc : _CircuitModel) : nat := length (gates qc).

(** Lines 564-574: the layers with the dummy steps in between. *)
Definition new_gates (gs : list (list (nat * nat))) (dummy_timesteps : nat)
  : result (list (list (nat * nat))) :=
  let new_depth :=
    (1 + (Z.of_nat (length gs) - 1) * (1 + Z.of_nat dummy_timesteps))%Z in
  mapM
    (fun t =>
       if t mod (dummy_timesteps + 1) =? 0 then
         py_index gs (Z.of_nat (t / (dummy_timesteps + 1)))
       else Ok [])
    (range (Z.to_nat new_depth)).

(** Lines 576-581. *)
Definition gate_index_table (gs : list (list (nat * nat)))
  : list ((nat * nat * nat) * nat) :=
  let keys :=
    flat_map
      (fun tl : nat * list (nat * nat) =>
         map (fun g : nat * nat => (fst tl, fst g, snd g)) (snd tl))
      (enumerate gs) in
  combine keys (seq 0 (length keys)).

Definition init_CircuitModel (nq : nat) (gs : list (list (nat * nat)))
  (dummy_timesteps : nat) : result _CircuitModel :=
  ng <- new_gates gs dummy_timesteps ;;
  Ok {| num_qubits := nq; gates := ng;
        _gate_to_index := gate_index_table ng;
        _gate_fidelity := []; _gate_mfidelity := [] |}.

Definition gate_to_index (qc : _CircuitModel) (t : nat) (g : nat * nat)
  : result nat :=
  dict_get triple_eqb (_gate_to_index qc) (t, fst g, snd g).

Definition gate_fidelity (qc : _CircuitModel) (t : nat) (g : nat * nat)
  : result (list Q) :=
  dict_get triple_eqb (_gate_fidelity qc) (t, fst g, snd g).

Definition gate_mfidelity (qc : _CircuitModel) (t : nat) (g : nat * nat)
  : result (list Q) :=
  dict_get triple_eqb (_gate_mfidelity qc) (t, fst g, snd g).

(** *** [_HardwareTopology] *)

Record _HardwareTopology : Type := {
  ht_num_qubits : nat;
  connectivity : list (list nat);
  edges : list (nat * nat);
  arcs : list (nat * nat);
  num_edges : nat;
  num_arcs : nat;
  outstar_by_node : list (list nat);
  instar_by_node : list (list nat);
  _edge_to_index : list ((nat * nat) * nat);
  _arc_to_index : list ((nat * nat) * nat);
  _arc_basis_fidelity : list ((nat * nat) * Q)
}.

Definition mem_pair (a : nat * nat) (l : list (nat * nat)) : bool :=
  existsb (pair_eqb a) l.

(** Lines 630-634.  The edges are kept in a Python [set]; its iteration
    order is taken to be the order of insertion. *)
Definition edge_set_of (n : nat) (conn : list (list nat))
  : result (list (nat * nat)) :=
  let step (acc : result (list (nat * nat))) (u : nat) :=
    es <- acc ;;
    vs <- py_index conn (Z.of_nat u) ;;
    Ok (fold_left
          (fun es v =>
             if negb (mem_pair (u, v) es) && negb (mem_pair (v, u) es)
             then es ++ [(u, v)] else es)
          vs es) in
  fold_left step (range n) (Ok []).

(** Lines 663-671. *)
Definition arc_fidelity_table (n : nat) (conn : list (list nat))
  (basis_fidelity : list (list Q)) : result (list ((nat * nat) * Q)) :=
  let entries (flip : bool) :=
    flat_mapM
      (fun u =>
         vs <- py_index conn (Z.of_nat u) ;;
         mapM
           (fun iv : nat * nat =>
              row <- py_index basis_fidelity (Z.of_nat u) ;;
              f <- py_index row (Z.of_nat (fst iv)) ;;
              Ok ((if flip then (snd iv, u) else (u, snd iv)), f))
           (enumerate vs))
      (range n) in
  direct <- entries false ;;
  flipped <- entries true ;;
  Ok (direct ++ flipped).

Definition init_HardwareTopology (n : nat) (conn : list (list nat))
  (basis_fidelity : list (list Q)) : result _HardwareTopology :=
  es <- edge_set_of n conn ;;
  let ars := es ++ map (fun e : nat * nat => (snd e, fst e)) es in
  fid <- arc_fidelity_table n conn basis_fidelity ;;
  Ok {| ht_num_qubits := n;
        connectivity := conn;
        edges := es;
        arcs := ars;
        num_edges := length es;
        num_arcs := 2 * length es;
        outstar_by_node :=
          map (fun i => map snd (filter (fun a => fst a =? i) ars)) (range n);
        instar_by_node :=
          map (fun i => map fst (filter (fun a => snd a =? i) ars)) (range n);
        _edge_to_index := combine es (seq 0 (length es));
        _arc_to_index := combine ars (seq 0 (length ars));
        _arc_basis_fidelity := fid |}.

Definition edge_to_index (ht : _HardwareTopology) (e : nat * nat)
  : result nat := dict_get pair_eqb (_edge_to_index ht) e.

Definition arc_to_index (ht : _HardwareTopology) (a : nat * nat)
  : result nat := dict_get pair_eqb (_arc_to_index ht) a.

Definition arc_basis_fidelity (ht : _HardwareTopology) (a : nat * nat)
  : result Q := dict_get pair_eqb (_arc_basis_fidelity ht) a.

(** *** [MIPMappingModel.__init__] *)

Record MIPMappingModel : Type := {
  circuit_model : _CircuitModel;
  toplogy_model : _HardwareTopology
}.

Definition init (dag : DAGCircuit) (coupling_map : CouplingMap)
  (dummy_timesteps : nat) : result MIPMappingModel :=
  let gs :=
    filter (fun l => negb (is_empty l))
      (map (map (fun nd => (qarg0 nd, qarg1 nd))) (layers dag)) in
  qc <- init_CircuitModel (num_dag_qubits dag) gs dummy_timesteps ;;
  let conn := map (neighbors coupling_map) (range (size coupling_map)) in
  ht <- init_HardwareTopology (size coupling_map) conn
          (map (map (fun _ => (96 # 100)%Q)) conn) ;;
  Ok {| circuit_model := qc; toplogy_model := ht |}.

(** *** [_IndexCalculator] *)

(** The counts are [nat]: a list repeated a negative number of times is
    empty, which is what [(depth - 1) * ...] amounts to when [depth = 0]
    (no index is computed then). *)
Record _IndexCalculator : Type := {
  qc : _CircuitModel;
  ht : _HardwareTopology;
  num_lqubits : nat;
  num_pqubits : nat;
  ic_depth : nat;
  num_gates : nat;
  w_start : nat;
  num_w_vars : nat;
  y_start : nat;
  num_y_vars : nat;
  x_start : nat;
  num_x_vars : nat;
  x_var_mapping : list (list (nat * nat));
  wd_start : nat;
  num_wd_vars : nat;
  eu_start : nat;
  num_eu_vars : nat
}.

Definition nth_outstar (h : _HardwareTopology) (i : nat) : result (list nat) :=
  py_index (outstar_by_node h) (Z.of_nat i).

Definition nth_instar (h : _HardwareTopology) (i : nat) : result (list nat) :=
  py_index (instar_by_node h) (Z.of_nat i).

(** Lines 757-764: the position of the flow variable [(i, j)] among those
    of one logical qubit at one step. *)
Definition build_x_var_mapping (h : _HardwareTopology) (np : nat)
  : result (list (list (nat * nat))) :=
  r <- fold_left
         (fun (acc : result (nat * list (list (nat * nat)))) i =>
            st <- acc ;;
            out <- nth_outstar h i ;;
            let var_index := fst st in
            let row :=
              (i, var_index)
              :: combine out (seq (S var_index) (length out)) in
            Ok (S var_index + length out, snd st ++ [row]))
         (range np) (Ok (0, [])) ;;
  Ok (snd r).

Definition init_IndexCalculator (c : _CircuitModel) (h : _HardwareTopology)
  : result _IndexCalculator :=
  let nl := ht_num_qubits h in
  let np := ht_num_qubits h in
  let d := depth c in
  let ng := list_sum (map (@length _) (gates c)) in
  let nw := d * nl * np in
  let ny := ng * length (arcs h) in
  let nx := (d - 1) * nl * (num_arcs h + np) in
  xm <- build_x_var_mapping h np ;;
  Ok {| qc := c; ht := h; num_lqubits := nl; num_pqubits := np;
        ic_depth := d; num_gates := ng;
        w_start := 0; num_w_vars := nw;
        y_start := 0 + nw; num_y_vars := ny;
        x_start := 0 + nw + ny; num_x_vars := nx;
        x_var_mapping := xm;
        wd_start := 0 + nw + ny + nx; num_wd_vars := d;
        eu_start := 0 + nw + ny + nx + d;
        num_eu_vars := num_edges h * (d - 1) |}.

Definition w_index (ic : _IndexCalculator) (l p t : nat) : nat :=
  w_start ic + t * num_lqubits ic * num_pqubits ic + p * num_lqubits ic + l.

Definition y_index (ic : _IndexCalculator) (t : nat) (g a : nat * nat)
  : result nat :=
  gate_index <- gate_to_index (qc ic) t g ;;
  arc_index <- arc_to_index (ht ic) a ;;
  Ok (y_start ic + arc_index * num_gates ic + gate_index).

Definition x_index (ic : _IndexCalculator) (l p1 p2 t : nat) : result nat :=
  row <- py_index (x_var_mapping ic) (Z.of_nat p1) ;;
  k <- dict_get Nat.eqb row p2 ;;
  Ok (x_start ic
      + t * num_lqubits ic * (num_arcs (ht ic) + num_pqubits ic)
      + l * (num_arcs (ht ic) + num_pqubits ic)
      + k).

Definition wd_index (ic : _IndexCalculator) (t : nat) : nat := wd_start ic + t.

Definition eu_index (ic : _IndexCalculator) (t : nat) (e : nat * nat)
  : result nat :=
  k <- edge_to_index (ht ic) e ;;
  Ok (eu_start ic + t * num_edges (ht ic) + k).

(** *** The Cplex problem *)

Inductive VarName : Set :=
| w_name (l p t : nat)
| y_name (t p q i j : nat)
| x_name (q i j t : nat)
| wd_name (t : nat)
| eu_name (t i j : nat).

Inductive RowName : Set :=
| assignment_lqubits (q t : nat)
| assignment_pqubits (j t : nat)
| w_y_p (t p q i j : nat)
| w_y_q (t p q i j : nat)
| assignment_y (t p q : nat)
| swap_row (t p q i j : nat)
| swap_no_gate_row (t i j : nat)
| dummy_ts_needed_row (t p : nat)
| dummy_precedence_row (t : nat)
| sym_break_line (h : nat)
| flow_out_row (t q i : nat)
| flow_in_row (t q j : nat)
| eu_def (t i j : nat).

(** A row [SparsePair(ind, val) sense rhs]. *)
Record LinearConstraint : Set := {
  lin_ind : list nat;
  lin_val : list Z;
  lin_sense : Sense;
  lin_rhs : Z;
  lin_name : RowName
}.

(** A [Cplex] problem: all variables are binary; [lower_bounds] and
    [objective_linear] list the calls of [set_lower_bounds] and
    [objective.set_linear], oldest first. *)
Record Cplex : Type := {
  var_names : list (option VarName);
  lower_bounds : list (nat * Z);
  linear_constraints : list LinearConstraint;
  objective_linear : list (nat * Q)
}.

(** [SparsePair(ind, val)]: Cplex refuses lists of different lengths. *)
Definition row (ind : list nat) (val : list Z) (s : Sense) (rhs : Z)
  (n : RowName) : result LinearConstraint :=
  if length ind =? length val
  then Ok {| lin_ind := ind; lin_val := val; lin_sense := s; lin_rhs := rhs;
             lin_name := n |}
  else Raise CplexError.

Definition ones {A} (l : list A) : list Z := map (fun _ => 1%Z) l.
Definition minus_ones {A} (l : list A) : list Z := map (fun _ => (-1)%Z) l.

Definition lhs_value (a : nat -> Z) (c : LinearConstraint) : Z :=
  fold_right Z.add 0%Z
    (map (fun iv : nat * Z => (snd iv * a (fst iv))%Z)
         (combine (lin_ind c) (lin_val c))).

Definition row_sat (a : nat -> Z) (c : LinearConstraint) : Prop :=
  match lin_sense c with
  | EQ => lhs_value a c = lin_rhs c
  | LE => (lhs_value a c <= lin_rhs c)%Z
  | GE => (lhs_value a c >= lin_rhs c)%Z
  end.

Definition row_satb (a : nat -> Z) (c : LinearConstraint) : bool :=
  match lin_sense c with
  | EQ => (lhs_value a c =? lin_rhs c)%Z
  | LE => (lhs_value a c <=? lin_rhs c)%Z
  | GE => (lhs_value a c >=? lin_rhs c)%Z
  end.

(** An assignment of the variables (by index) that Cplex may return. *)
Definition feasible (p : Cplex) (a : nat -> Z) : Prop :=
  (forall i, i < length (var_names p) -> a i = 0%Z \/ a i = 1%Z) /\
  Forall (fun b : nat * Z => (snd b <= a (fst b))%Z) (lower_bounds p) /\
  Forall (row_sat a) (linear_constraints p).

Definition feasibleb (p : Cplex) (a : nat -> Z) : bool :=
  forallb (fun i => (a i =? 0)%Z || (a i =? 1)%Z)
          (range (length (var_names p)))
  && forallb (fun b : nat * Z => (snd b <=? a (fst b))%Z) (lower_bounds p)
  && forallb (row_satb a) (linear_constraints p).

(** The coefficient of variable [i] in the objective: the last
    [set_linear(i, c)], [0] when there was none. *)
Fixpoint objective_coef (calls : list (nat * Q)) (i : nat) : Q :=
  match calls with
  | [] => 0%Q
  | (k, c) :: calls' =>
      if existsb (fun e : nat * Q => fst e =? i) calls' then
        objective_coef calls' i
      else if k =? i then c else 0%Q
  end.

Definition objective_value (p : Cplex) (a : nat -> Z) : Q :=
  fold_right Qplus 0%Q
    (map (fun i => (objective_coef (objective_linear p) i * inject_Z (a i))%Q)
         (range (length (var_names p)))).

Section Create.

Variable np_log : Q -> Q.
Variable math_log : Q -> Q.

Variable ic : _IndexCalculator.

Definition gates_at (t : nat) : result (list (nat * nat)) :=
  py_index (gates (qc ic)) (Z.of_nat t).

(** Stores of names by position, in loop order. *)
Definition store_names (n : nat) (stores : list (nat * VarName))
  : result (list (option VarName)) :=
  fold_left
    (fun (acc : result (list (option VarName))) (s : nat * VarName) =>
       l <- acc ;; list_set l (fst s) (Some (snd s)))
    stores (Ok (repeat None n)).

(** Lines 146-154. *)
Definition w_names : result (list (option VarName)) :=
  store_names (num_w_vars ic)
    (flat_map
       (fun l =>
          flat_map
            (fun p =>
               map (fun t => (w_index ic l p t, w_name l p t))
                   (range (ic_depth ic)))
            (range (num_pqubits ic)))
       (range (num_lqubits ic))).

(** Lines 156-165. *)
Definition y_names : result (list (option VarName)) :=
  stores <- flat_mapM
              (fun t =>
                 lay <- gates_at t ;;
                 flat_mapM
                   (fun g : nat * nat =>
                      mapM
                        (fun a : nat * nat =>
                           k <- y_index ic t g a ;;
                           Ok (k - y_start ic,
                               y_name t (fst g) (snd g) (fst a) (snd a)))
                        (arcs (ht ic)))
                   lay)
              (range (ic_depth ic)) ;;
  store_names (num_y_vars ic) stores.

(** Lines 167-177. *)
Definition x_names : result (list (option VarName)) :=
  stores <- flat_mapM
              (fun q =>
                 flat_mapM
                   (fun i =>
                      out <- nth_outstar (ht ic) i ;;
                      flat_mapM
                        (fun j =>
                           mapM
                             (fun t =>
                                k <- x_index ic q i j t ;;
                                Ok (k - x_start ic, x_name q i j t))
                             (range (ic_depth ic - 1)))
                        out)
                   (range (num_pqubits ic)))
              (range (num_lqubits ic)) ;;
  store_names (num_x_vars ic) stores.

(** Lines 179-181. *)
Definition wd_names : list (option VarName) :=
  map (fun t => Some (wd_name t)) (range (ic_depth ic)).

(** Lines 183-189. *)
Definition eu_names : result (list (option VarName)) :=
  stores <- flat_mapM
              (fun t =>
                 mapM
                   (fun e : nat * nat =>
                      k <- eu_index ic t e ;;
                      Ok (k - eu_start ic, eu_name t (fst e) (snd e)))
                   (edges (ht ic)))
              (range (ic_depth ic - 1)) ;;
  store_names (num_eu_vars ic) stores.

(** Lines 193-201: [for q ... for t ...]. *)
Definition rows_assignment_lqubits : result (list LinearConstraint) :=
  flat_mapM
    (fun q =>
       mapM
         (fun t =>
            let ind := map (fun j => w_index ic q j t) (range (num_pqubits ic)) in
            row ind (ones (range (num_pqubits ic))) EQ 1 (assignment_lqubits q t))
         (range (ic_depth ic)))
    (range (num_lqubits ic)).

(** Lines 202-210. *)
Definition rows_assignment_pqubits : result (list LinearConstraint) :=
  flat_mapM
    (fun j =>
       mapM
         (fun t =>
            let ind := map (fun q => w_index ic q j t) (range (num_lqubits ic)) in
            row ind (ones (range (num_lqubits ic))) EQ 1 (assignment_pqubits j t))
         (range (ic_depth ic)))
    (range (num_pqubits ic)).

(** Lines 214-253: a gate is on an arc only if its qubits are at the ends. *)
Definition rows_w_y : result (list LinearConstraint) :=
  flat_mapM
    (fun t =>
       lay <- gates_at t ;;
       flat_mapM
         (fun g : nat * nat =>
            let '(p, q) := g in
            flat_mapM
              (fun i =>
                 out <- nth_outstar (ht ic) i ;;
                 flat_mapM
                   (fun j =>
                      if t =? ic_depth ic - 1 then
                        y1 <- y_index ic t (p, q) (i, j) ;;
                        r1 <- row [w_index ic p i t; y1] [(-1)%Z; 1%Z] LE 0
                                (w_y_p t p q i j) ;;
                        y2 <- y_index ic t (p, q) (i, j) ;;
                        r2 <- row [w_index ic q j t; y2] [(-1)%Z; 1%Z] LE 0
                                (w_y_q t p q i j) ;;
                        Ok [r1; r2]
                      else
                        xa <- x_index ic p i i t ;;
                        xb <- x_index ic p i j t ;;
                        y1 <- y_index ic t (p, q) (i, j) ;;
                        r1 <- row [xa; xb; y1] [(-1)%Z; (-1)%Z; 1%Z] LE 0
                                (w_y_p t p q i j) ;;
                        xc <- x_index ic q j j t ;;
                        xd <- x_index ic q j i t ;;
                        y2 <- y_index ic t (p, q) (i, j) ;;
                        r2 <- row [xc; xd; y2] [(-1)%Z; (-1)%Z; 1%Z] LE 0
                                (w_y_q t p q i j) ;;
                        Ok [r1; r2])
                   out)
              (range (num_pqubits ic)))
         lay)
    (range (ic_depth ic)).

(** Lines 255-262. *)
Definition rows_assignment_y : result (list LinearConstraint) :=
  flat_mapM
    (fun t =>
       lay <- gates_at t ;;
       mapM
         (fun g : nat * nat =>
            ind <- mapM (y_index ic t g) (arcs (ht ic)) ;;
            row ind (ones (arcs (ht ic))) EQ 1 (assignment_y t (fst g) (snd g)))
         lay)
    (range (ic_depth ic)).

(** Lines 265-275. *)
Definition rows_swap : result (list LinearConstraint) :=
  flat_mapM
    (fun t =>
       lay <- gates_at t ;;
       flat_mapM
         (fun g : nat * nat =>
            let '(p, q) := g in
            mapM
              (fun a : nat * nat =>
                 let '(i, j) := a in
                 xa <- x_index ic p i j t ;;
                 xb <- x_index ic q j i t ;;
                 row [xa; xb] [1%Z; (-1)%Z] EQ 0 (swap_row t p q i j))
              (arcs (ht ic)))
         lay)
    (range (ic_depth ic - 1)).

Fixpoint q_no_gate (lay : list (nat * nat)) (acc : list nat)
  : result (list nat) :=
  match lay with
  | [] => Ok acc
  | (p, q) :: lay' =>
      acc1 <- list_remove p acc ;;
      acc2 <- list_remove q acc1 ;;
      q_no_gate lay' acc2
  end.

(** Lines 277-289. *)
Definition rows_swap_no_gate : result (list LinearConstraint) :=
  flat_mapM
    (fun t =>
       lay <- gates_at t ;;
       free <- q_no_gate lay (range (num_lqubits ic)) ;;
       mapM
         (fun a : nat * nat =>
            let '(i, j) := a in
            fwd <- mapM (fun q => x_index ic q i j t) free ;;
            bwd <- mapM (fun p => x_index ic p j i t) free ;;
            row (fwd ++ bwd) (ones free ++ minus_ones free) EQ 0
                (swap_no_gate_row t i j))
         (arcs (ht ic)))
    (range (ic_depth ic - 1)).

(** Lines 293-308: a dummy step is used if some qubit moves in it; the
    steps with gates are always used. *)
Definition rows_dummy_ts_needed
  : result (list LinearConstraint * list (nat * Z)) :=
  r <- mapM
         (fun t =>
            lay <- gates_at t ;;
            if is_empty lay then
              rows <- mapM
                        (fun p =>
                           xs <- mapM
                                   (fun a : nat * nat =>
                                      x_index ic p (fst a) (snd a) t)
                                   (arcs (ht ic)) ;;
                           row (xs ++ [wd_index ic t])
                               (ones (arcs (ht ic)) ++ [(-1)%Z]) LE 0
                               (dummy_ts_needed_row t p))
                        (range (num_lqubits ic)) ;;
              Ok (rows, [])
            else Ok ([], [(wd_index ic t, 1%Z)]))
         (range (ic_depth ic)) ;;
  Ok (concat (map fst r), concat (map snd r)).

(** Lines 317-327. *)
Definition rows_dummy_precedence : result (list LinearConstraint) :=
  flat_mapM
    (fun t =>
       lay <- gates_at t ;;
       if is_empty lay then
         lay' <- gates_at (t + 1) ;;
         if is_empty lay' then
           r <- row [wd_index ic t; wd_index ic (t + 1)] [1%Z; (-1)%Z] GE 0
                  (dummy_precedence_row t) ;;
           Ok [r]
         else Ok []
       else Ok [])
    (range (ic_depth ic - 1)).

(** Lines 329-338. *)
Definition rows_line_symm : result (list LinearConstraint) :=
  mapM
    (fun h =>
       row (map (fun p => w_index ic p 0 0) (range h)
            ++ map (fun q => w_index ic q (num_pqubits ic - 1) 0)
                   (seq h (num_lqubits ic - h)))
           (ones (range (num_lqubits ic))) GE 1 (sym_break_line h))
    (seq 1 (num_lqubits ic - 1)).

(** Lines 343-371. *)
Definition rows_flow : result (list LinearConstraint) :=
  flat_mapM
    (fun t =>
       flat_mapM
         (fun q =>
            outs <- (if t <? ic_depth ic - 1 then
                       mapM
                         (fun i =>
                            xi <- x_index ic q i i t ;;
                            out <- nth_outstar (ht ic) i ;;
                            xs <- mapM (fun j => x_index ic q i j t) out ;;
                            out' <- nth_outstar (ht ic) i ;;
                            row (w_index ic q i t :: xi :: xs)
                                (1%Z :: (-1)%Z :: minus_ones out') EQ 0
                                (flow_out_row t q i))
                         (range (num_pqubits ic))
                     else Ok []) ;;
            ins <- (if 0 <? t then
                      mapM
                        (fun j =>
                           xj <- x_index ic q j j (t - 1) ;;
                           inn <- nth_instar (ht ic) j ;;
                           xs <- mapM (fun i => x_index ic q i j (t - 1)) inn ;;
                           out' <- nth_outstar (ht ic) j ;;
                           row (w_index ic q j t :: xj :: xs)
                               (1%Z :: (-1)%Z :: minus_ones out') EQ 0
                               (flow_in_row t q j))
                        (range (num_pqubits ic))
                    else Ok []) ;;
            Ok (outs ++ ins))
         (range (num_lqubits ic)))
    (range (ic_depth ic)).

(** Lines 374-381: the variables that stand for a use of each edge. *)
Definition edge_representation_gates (t : nat) (lay : list (nat * nat))
  : result (list bool * list (list nat)) :=
  fold_left
    (fun (acc : result (list bool * list (list nat))) (g : nat * nat) =>
       st <- acc ;;
       let '(p, q) := g in
       u1 <- list_set (fst st) p true ;;
       u2 <- list_set u1 q true ;;
       reps <- mapM
                 (fun er : list nat * (nat * nat) =>
                    let '(i, j) := snd er in
                    y1 <- y_index ic t (p, q) (i, j) ;;
                    y2 <- y_index ic t (p, q) (j, i) ;;
                    Ok (fst er ++ [y1; y2]))
                 (combine (snd st) (edges (ht ic))) ;;
       Ok (u2, reps))
    lay
    (Ok (repeat false (num_lqubits ic), map (fun _ => []) (edges (ht ic)))).

(** Lines 382-386. *)
Definition edge_representation_moves (t : nat) (used : list bool)
  (reps : list (list nat)) : result (list (list nat)) :=
  fold_left
    (fun (acc : result (list (list nat))) (e : nat * nat) =>
       fold_left
         (fun (acc' : result (list (list nat))) q =>
            rs <- acc' ;;
            index <- edge_to_index (ht ic) e ;;
            u <- py_index used (Z.of_nat q) ;;
            if u then Ok rs
            else
              xi <- x_index ic q (fst e) (snd e) t ;;
              rep <- py_index rs (Z.of_nat index) ;;
              if existsb (Nat.eqb xi) rep then Ok rs
              else list_set rs index (rep ++ [xi]))
         (range (num_lqubits ic)) acc)
    (edges (ht ic)) (Ok reps).

(** Lines 373-393. *)
Definition rows_eu_def : result (list LinearConstraint) :=
  flat_mapM
    (fun t =>
       lay <- gates_at t ;;
       st <- edge_representation_gates t lay ;;
       reps <- edge_representation_moves t (fst st) (snd st) ;;
       mapM
         (fun ke : nat * (nat * nat) =>
            rep <- py_index reps (Z.of_nat (fst ke)) ;;
            eu <- eu_index ic t (snd ke) ;;
            rep' <- py_index reps (Z.of_nat (fst ke)) ;;
            row (rep ++ [eu]) (ones rep' ++ [(-1)%Z]) EQ 0
                (eu_def t (fst (snd ke)) (snd (snd ke))))
         (enumerate (edges (ht ic))))
    (range (ic_depth ic - 1)).

(** Lines 409-422. *)
Definition set_depth_obj : list (nat * Q) :=
  map (fun i => (i, 1%Q)) (seq (wd_start ic) (num_wd_vars ic)).

Definition np_max (l : list Q) : result Q :=
  match l with
  | [] => Raise ValueError
  | x :: r => Ok (fold_left Qmax r x)
  end.

(** [[fid[k] * arc_basis_fidelity((i, j)) ** k for k in range(4)]]. *)
Definition expected_fidelities (fid : list Q) (i j : nat) : result (list Q) :=
  mapM
    (fun k =>
       f <- py_index fid (Z.of_nat k) ;;
       b <- arc_basis_fidelity (ht ic) (i, j) ;;
       Ok (f * Qpower b (Z.of_nat k))%Q)
    (range 4).

(** The lists [used_qubit], [used_qubit_fidelity] and
    [used_qubit_mfidelity] of one time step (lines 439-441); the [0] an
    unused entry of the last two holds is the empty list here, and is never
    subscripted. *)
Record UsedQubits : Type := {
  used_qubit : list bool;
  used_qubit_fidelity : list (list Q);
  used_qubit_mfidelity : list (list Q)
}.

(** Lines 442-459: the gates of step [t]. *)
Definition error_rate_gates (t : nat) (lay : list (nat * nat))
  : result (UsedQubits * list (nat * Q)) :=
  fold_left
    (fun (acc : result (UsedQubits * list (nat * Q))) (g : nat * nat) =>
       s <- acc ;;
       let '(p, q) := g in
       u1 <- list_set (used_qubit (fst s)) p true ;;
       u2 <- list_set u1 q true ;;
       fp <- gate_fidelity (qc ic) t (p, q) ;;
       f1 <- list_set (used_qubit_fidelity (fst s)) p fp ;;
       fq <- gate_fidelity (qc ic) t (p, q) ;;
       f2 <- list_set f1 q fq ;;
       mp <- gate_mfidelity (qc ic) t (p, q) ;;
       m1 <- list_set (used_qubit_mfidelity (fst s)) p mp ;;
       mq <- gate_mfidelity (qc ic) t (p, q) ;;
       m2 <- list_set m1 q mq ;;
       cs <- mapM
               (fun a : nat * nat =>
                  fid <- py_index f2 (Z.of_nat p) ;;
                  ef <- expected_fidelities fid (fst a) (snd a) ;;
                  mx <- np_max ef ;;
                  yi <- y_index ic t (p, q) a ;;
                  Ok (yi, (- np_log mx)%Q))
               (arcs (ht ic)) ;;
       Ok ({| used_qubit := u2; used_qubit_fidelity := f2;
              used_qubit_mfidelity := m2 |}, snd s ++ cs))
    lay
    (Ok ({| used_qubit := repeat false (num_lqubits ic);
            used_qubit_fidelity := repeat [] (num_lqubits ic);
            used_qubit_mfidelity := repeat [] (num_lqubits ic) |}, [])).

(** Lines 460-486: the moves of step [t]. *)
Definition error_rate_moves (t : nat) (u : UsedQubits)
  : result (list (nat * Q)) :=
  flat_mapM
    (fun i =>
       flat_mapM
         (fun q =>
            out <- nth_outstar (ht ic) i ;;
            mapM
              (fun j =>
                 used <- py_index (used_qubit u) (Z.of_nat q) ;;
                 if negb used then
                   xi <- x_index ic q i j t ;;
                   b <- arc_basis_fidelity (ht ic) (i, j) ;;
                   Ok (xi, ((-3) / 2 * math_log b)%Q)
                 else
                   fid <- py_index (used_qubit_fidelity u) (Z.of_nat q) ;;
                   ef <- expected_fidelities fid i j ;;
                   fidm <- py_index (used_qubit_mfidelity u) (Z.of_nat q) ;;
                   efm <- expected_fidelities fidm i j ;;
                   mx <- np_max ef ;;
                   mxm <- np_max efm ;;
                   xi <- x_index ic q i j t ;;
                   Ok (xi, ((- np_log mxm - - np_log mx) / 2)%Q))
              out)
         (range (num_lqubits ic)))
    (range (num_pqubits ic)).

(** Lines 425-486. *)
Definition set_error_rate_obj : result (list (nat * Q)) :=
  flat_mapM
    (fun t =>
       lay <- gates_at t ;;
       st <- error_rate_gates t lay ;;
       xs <- (if t <? ic_depth ic - 1 then error_rate_moves t (fst st)
              else Ok []) ;;
       Ok (snd st ++ xs))
    (range (ic_depth ic)).

End Create.

(** [create_cpx_problem(objective, line_symm, cycle_symm)]: the problem and
    the index calculator it stores. *)
Definition create_cpx_problem (np_log math_log : Q -> Q) (m : MIPMappingModel)
  (objective : string) (line_symm cycle_symm : bool)
  : result (Cplex * _IndexCalculator) :=
  ic <- init_IndexCalculator (circuit_model m) (toplogy_model m) ;;
  wn <- w_names ic ;;
  yn <- y_names ic ;;
  xn <- x_names ic ;;
  en <- eu_names ic ;;
  r1 <- rows_assignment_lqubits ic ;;
  r2 <- rows_assignment_pqubits ic ;;
  r3 <- rows_w_y ic ;;
  r4 <- rows_assignment_y ic ;;
  r5 <- rows_swap ic ;;
  r6 <- rows_swap_no_gate ic ;;
  r7 <- rows_dummy_ts_needed ic ;;
  r8 <- rows_dummy_precedence ic ;;
  r9 <- (if line_symm then rows_line_symm ic else Ok []) ;;
  let lbs :=
    snd r7 ++ (if cycle_symm then [(w_index ic 0 0 0, 1%Z)] else []) in
  r10 <- rows_flow ic ;;
  r11 <- rows_eu_def ic ;;
  obj <- (if String.eqb objective "error" then set_error_rate_obj np_log math_log ic
          else if String.eqb objective "depth" then Ok (set_depth_obj ic)
          else Raise TranspilerError) ;;
  Ok ({| var_names := wn ++ yn ++ xn ++ wd_names ic ++ en;
         lower_bounds := lbs;
         linear_constraints :=
           r1 ++ r2 ++ r3 ++ r4 ++ r5 ++ r6 ++ fst r7 ++ r8 ++ r9 ++ r10 ++ r11;
         objective_linear := obj |}, ic).

(** [is_assigned] and [is_swapped] (lines 75-102), for the index calculator
    that [create_cpx_problem] has stored; [get_values] is
    [problem.solution.get_values], which is Cplex's. *)
Definition is_assigned (ic : _IndexCalculator) (get_values : nat -> result Q)
  (q i t : nat) : result bool :=
  v <- get_values (w_index ic q i t) ;; Ok (negb (Qle_bool v (1 # 2))).

Definition is_swapped (ic : _IndexCalculator) (get_values : nat -> result Q)
  (q i j t : nat) : result bool :=
  k <- x_index ic q i j t ;;
  v <- get_values k ;; Ok (negb (Qle_bool v (1 # 2))).

End MIP.

(** * Properties of the embedding *)

Unset Implicit Arguments.

(** ** Exceptions and loops *)

Lemma bind_ok {A B} (m : result A) (k : A -> result B) (b : B) :
  bind m k = Ok b -> exists a, m = Ok a /\ k a = Ok b.
Proof.
  destruct m as [a|e]; simpl; intros H.
  - exists a. split; [reflexivity | exact H].
  - discriminate H.
Qed.

(** Splits a hypothesis [x <- m ;; k = Ok b] into its successful steps. *)
Ltac bind_inv H :=
  let a := fresh "a" in
  let Ha := fresh "Hstep" in
  apply bind_ok in H; destruct H as [a [Ha H]].

Tactic Notation "bind_as" hyp(H) ident(x) ident(Hx) :=
  apply bind_ok in H; destruct H as [x [Hx H]].

(** The value of a closed computation that succeeds. *)
Ltac ok_value t :=
  let r := eval vm_compute in t in
  match r with Ok ?v => exact v end.

Ltac binds_inv H :=
  repeat (apply bind_ok in H;
          let a := fresh "a" in
          let Ha := fresh "Hstep" in
          destruct H as [a [Ha H]]).

Lemma mapM_Forall2 {A B} (f : A -> result B) (l : list A) (r : list B) :
  mapM f l = Ok r <-> Forall2 (fun a b => f a = Ok b) l r.
Proof.
  revert r. induction l as [|a l IH]; intros r; simpl.
  - split; intros H.
    + injection H as <-. constructor.
    + inversion H. reflexivity.
  - split; intros H.
    + bind_inv H. bind_inv H. injection H as <-.
      constructor; [assumption | apply IH; assumption].
    + inversion H as [|? b ? r' Hab Hrest]; subst.
      rewrite Hab. simpl. apply IH in Hrest. rewrite Hrest. reflexivity.
Qed.

Lemma mapM_pure {A B} (f : A -> result B) (g : A -> B) (l : list A)
  (r : list B) :
  (forall a b, In a l -> f a = Ok b -> b = g a) ->
  mapM f l = Ok r -> r = map g l.
Proof.
  intros Hf H. apply mapM_Forall2 in H.
  induction H as [|a b l r Hab _ IH]; simpl.
  - reflexivity.
  - f_equal.
    + apply Hf; [left; reflexivity | exact Hab].
    + apply IH. intros a' b' Hin. apply Hf. right. exact Hin.
Qed.

Lemma mapM_total {A B} (f : A -> result B) (g : A -> B) (l : list A) :
  (forall a, In a l -> f a = Ok (g a)) -> mapM f l = Ok (map g l).
Proof.
  intros Hf. apply mapM_Forall2.
  induction l as [|a l IH]; simpl; constructor.
  - apply Hf. left. reflexivity.
  - apply IH. intros a' Hin. apply Hf. right. exact Hin.
Qed.

Lemma mapM_ext {A B} (f g : A -> result B) (l : list A) :
  (forall a, f a = g a) -> mapM f l = mapM g l.
Proof.
  intros Hfg. induction l as [|a l IH]; simpl; [reflexivity|].
  rewrite Hfg, IH. reflexivity.
Qed.

Lemma bind_Ok_r {A} (m : result A) : bind m Ok = m.
Proof. destruct m; reflexivity. Qed.


Lemma mapM_length {A B} (f : A -> result B) (l : list A) (r : list B) :
  mapM f l = Ok r -> length r = length l.
Proof.
  intros H. apply mapM_Forall2 in H.
  induction H; simpl; congruence.
Qed.

Lemma mapM_app {A B} (f : A -> result B) (l1 l2 : list A) :
  mapM f (l1 ++ l2) =
  (r1 <- mapM f l1 ;; r2 <- mapM f l2 ;; Ok (r1 ++ r2)).
Proof.
  induction l1 as [|a l1 IH]; simpl.
  - destruct (mapM f l2); reflexivity.
  - destruct (f a) as [b|e]; simpl; [|reflexivity].
    rewrite IH. destruct (mapM f l1); simpl; [|reflexivity].
    destruct (mapM f l2); reflexivity.
Qed.

Lemma flat_mapM_pure {A B} (f : A -> result (list B)) (g : A -> list B)
  (l : list A) (r : list B) :
  (forall a b, In a l -> f a = Ok b -> b = g a) ->
  flat_mapM f l = Ok r -> r = flat_map g l.
Proof.
  intros Hf H. unfold flat_mapM in H. bind_inv H. injection H as <-.
  rewrite (mapM_pure f g l a Hf Hstep). symmetry. apply flat_map_concat_map.
Qed.

Lemma flat_mapM_total {A B} (f : A -> result (list B)) (g : A -> list B)
  (l : list A) :
  (forall a, In a l -> f a = Ok (g a)) -> flat_mapM f l = Ok (flat_map g l).
Proof.
  intros Hf. unfold flat_mapM. rewrite (mapM_total f g l Hf). simpl.
  rewrite flat_map_concat_map. reflexivity.
Qed.

(** ** Subscripts *)

Lemma py_index_nat {A} (l : list A) (t : nat) (d : A) :
  py_index l (Z.of_nat t) =
  if t <? length l then Ok (nth t l d) else Raise IndexError.
Proof.
  unfold py_index.
  destruct (Z.ltb_spec (Z.of_nat t) 0) as [Hneg|_]; [lia|].
  destruct (Z.leb_spec 0 (Z.of_nat t)) as [_|Hneg]; [|lia].
  rewrite Nat2Z.id. simpl.
  destruct (Nat.ltb_spec t (length l)) as [Hlt|Hge].
  - destruct (Z.ltb_spec (Z.of_nat t) (Z.of_nat (length l))) as [_|H]; [|lia].
    rewrite (nth_error_nth' l d Hlt). reflexivity.
  - destruct (Z.ltb_spec (Z.of_nat t) (Z.of_nat (length l))) as [H|_]; [lia|].
    reflexivity.
Qed.

Lemma py_index_ok {A} (l : list A) (t : nat) (d : A) :
  t < length l -> py_index l (Z.of_nat t) = Ok (nth t l d).
Proof.
  intros H. rewrite (py_index_nat l t d).
  destruct (Nat.ltb_spec t (length l)); [reflexivity | lia].
Qed.

Lemma py_index_inv {A} (l : list A) (t : nat) (a d : A) :
  py_index l (Z.of_nat t) = Ok a -> t < length l /\ a = nth t l d.
Proof.
  rewrite (py_index_nat l t d).
  destruct (Nat.ltb_spec t (length l)) as [Hlt|Hge]; intros Heq;
    [|discriminate Heq].
  injection Heq as <-. split; [assumption | reflexivity].
Qed.

(** [l[len(l) - 1]] is the last element, and raises on the empty list. *)
Lemma py_index_last_empty {A} :
  py_index (@nil A) (Z.of_nat 0 - 1) = Raise IndexError.
Proof. reflexivity. Qed.

Lemma py_index_last {A} (l : list A) (d : A) :
  l <> [] ->
  py_index l (Z.of_nat (length l) - 1) = Ok (nth (length l - 1) l d).
Proof.
  intros Hne.
  assert (Hlen : 0 < length l) by (destruct l; [congruence | simpl; lia]).
  replace (Z.of_nat (length l) - 1)%Z with (Z.of_nat (length l - 1)) by lia.
  apply py_index_ok. lia.
Qed.

Lemma stored_In keys v : stored keys v = true <-> In v keys.
Proof.
  unfold stored. rewrite existsb_exists. split.
  - intros [x [Hin Heq]]. apply Var_eqb_eq in Heq. subst. exact Hin.
  - intros H. exists v. split; [exact H | apply Var_eqb_refl].
Qed.

Lemma checked_ok keys c c' : checked keys c = Ok c' -> c' = c.
Proof.
  unfold checked.
  destruct (forallb _ _); intros H; [injection H as <-; reflexivity | discriminate H].
Qed.

Lemma add_constraints_ok keys cs r : add_constraints keys cs = Ok r -> r = cs.
Proof.
  unfold add_constraints. intros H.
  rewrite (mapM_pure (checked keys) (fun c => c) cs r).
  - apply map_id.
  - intros a b _ Hab. apply checked_ok in Hab. exact Hab.
  - exact H.
Qed.

Lemma add_constraints_total keys cs :
  (forall c v, In c cs ->
               In v (subscripts (ct_lhs c) ++ subscripts (ct_rhs c)) ->
               In v keys) ->
  add_constraints keys cs = Ok cs.
Proof.
  intros H. unfold add_constraints.
  rewrite (mapM_total (checked keys) (fun c => c)).
  - rewrite map_id. reflexivity.
  - intros c Hc. unfold checked.
    replace (forallb _ _) with true; [reflexivity|].
    symmetry. apply forallb_forall. intros v Hv. apply stored_In.
    apply (H c v Hc Hv).
Qed.

(** ** Example inputs *)

(** Three physical qubits on a line, [0 - 1 - 2], both directions of every
    edge listed. *)
Definition line3 : CouplingMap :=
  {| size := 3;
     get_edges := [(0, 1); (1, 0); (1, 2); (2, 1)];
     neighbors := fun i =>
       match i with 0 => [1] | 1 => [0; 2] | 2 => [1] | _ => [] end;
     distance := fun i j =>
       if i =? j then 0
       else if (i + j =? 2) && negb (i =? 1) then 2 else 1 |}.

Definition cx (a b n : nat) : TwoQubitOp :=
  {| qarg0 := a; qarg1 := b; op_node := n |}.

(** [cx q1 q0; h q0; cx q0 q2]: two layers with a two-qubit gate, and the
    layer of the [h] in between. *)
Definition circuit2 : DAGCircuit :=
  {| num_dag_qubits := 3; layers := [[cx 1 0 7]; []; [cx 0 2 8]] |}.

(** Four layers with a two-qubit gate each. *)
Definition circuit4 : DAGCircuit :=
  {| num_dag_qubits := 3;
     layers := [[cx 1 0 7]; [cx 0 2 8]; [cx 1 0 9]; [cx 0 2 10]] |}.

(** A circuit without two-qubit gates: a single [h]. *)
Definition circuit0 : DAGCircuit :=
  {| num_dag_qubits := 3; layers := [[]] |}.

(** Stand-ins for what the builder takes from numpy and from the
    decomposition of a gate: a first-order logarithm, and fidelity curves
    of a gate that needs one entangling gate (its mirror needs three). *)
Definition approx_log (x : Q) : Q := (x - 1)%Q.
Definition cnot_fid (_ : nat) : list Q := [(1 # 2); 1; 1; 1]%Q.
Definition cnot_mfid (_ : nat) : list Q := [(1 # 4); (1 # 2); (1 # 2); 1]%Q.
Definition no_mean (_ : list Q) : result Q := Raise TypeError.

(** A solver that answers zero for every variable. *)
Definition zero_solver (_ : Model) : option (Var -> Q) * string :=
  (Some (fun _ => 0%Q), "optimal"%string).

(** [BIPMappingModel(dag, line3, [0, 1, 2], dummy_timesteps, num_splits)]
    followed by [create_cpx_problem(objective, depth_obj_weight=weight)],
    backend properties absent and the other arguments at their defaults. *)
Definition build_weighted (dag : DAGCircuit) (dummy_timesteps : nat)
  (num_splits : Z) (objective : string) (weight : Q) : result BIP.Built :=
  m <- BIP.init dag line3 [0; 1; 2] dummy_timesteps num_splits ;;
  BIP.create_cpx_problem approx_log cnot_fid cnot_mfid no_mean m objective
    None weight (Some (5 # 1000)%Q) None.

(** The same with [depth_obj_weight] at its default, [0.1]. *)
Definition build_on_line3 (dag : DAGCircuit) (dummy_timesteps : nat)
  (num_splits : Z) (objective : string) : result BIP.Built :=
  build_weighted dag dummy_timesteps num_splits objective (1 # 10)%Q.

(** Logical qubit 0 on physical qubit 1 and logical 1 on physical 0, held
    through every step: both gates of [circuit2] act on an edge. *)
Definition layout_swap01 (q : nat) : nat :=
  match q with 0 => 1 | 1 => 0 | _ => q end.

Definition static_assignment (v : Var) : Z :=
  match v with
  | W _ q j => if layout_swap01 q =? j then 1%Z else 0%Z
  | X _ q i j => if (i =? j) && (layout_swap01 q =? i) then 1%Z else 0%Z
  | Y 0 1 0 0 1 => 1%Z
  | Y 2 0 2 1 2 => 1%Z
  | _ => 0%Z
  end.

(** ** The layered schedule *)

(** The layers of the circuit that hold a two-qubit gate. *)
Definition real_layers (dag : DAGCircuit) : list (list TwoQubitOp) :=
  filter (fun lay => negb (is_empty lay)) (layers dag).

(** The schedule both builders aim at: the real layers, with [D] empty steps
    after each of them but the last. *)
Fixpoint with_dummy_steps {A} (D : nat) (l : list (list A)) : list (list A) :=
  match l with
  | [] => []
  | x :: r =>
      match r with
      | [] => [x]
      | _ :: _ => x :: repeat [] D ++ with_dummy_steps D r
      end
  end.

(** [sched] holds the layers [real] at the steps [k * (D + 1)], and [D]
    empty steps after each of them but the last. *)
Definition layered_schedule {A} (real : list (list A)) (D : nat)
  (sched : list (list A)) : Prop :=
  length sched = length real + D * (length real - 1) /\
  (forall k, k < length real ->
             nth (k * (D + 1)) sched [] = nth k real [] /\
             is_empty (nth (k * (D + 1)) sched []) = false) /\
  (forall k d, k + 1 < length real -> 1 <= d <= D ->
               nth (k * (D + 1) + d) sched [] = []) /\
  (1 <= length real ->
   nth (length sched - 1) sched [] = nth (length real - 1) real [] /\
   is_empty (nth (length sched - 1) sched []) = false).

Lemma with_dummy_steps_cons {A} D (x y : list A) r :
  with_dummy_steps D (x :: y :: r)
  = x :: repeat [] D ++ with_dummy_steps D (y :: r).
Proof. reflexivity. Qed.

Lemma with_dummy_steps_length {A} D (l : list (list A)) :
  length (with_dummy_steps D l) = length l + D * (length l - 1).
Proof.
  induction l as [|x r IH]; [simpl; lia|].
  destruct r as [|y r].
  - simpl. lia.
  - rewrite with_dummy_steps_cons.
    change (length (x :: repeat [] D ++ with_dummy_steps D (y :: r)))
      with (S (length (repeat (@nil A) D ++ with_dummy_steps D (y :: r)))).
    rewrite length_app, repeat_length, IH. simpl length.
    rewrite !Nat.sub_succ, !Nat.sub_0_r. lia.
Qed.

Lemma with_dummy_steps_real {A} D (l : list (list A)) k :
  k < length l -> nth (k * (D + 1)) (with_dummy_steps D l) [] = nth k l [].
Proof.
  revert k. induction l as [|x r IH]; intros k Hk; [simpl in Hk; lia|].
  destruct r as [|y r].
  - simpl in Hk. assert (k = 0) by lia. subst. reflexivity.
  - rewrite with_dummy_steps_cons. destruct k as [|k]; [reflexivity|].
    replace (S k * (D + 1)) with (S (D + k * (D + 1))) by lia.
    cbn [nth]. rewrite app_nth2; rewrite repeat_length; [|lia].
    replace (D + k * (D + 1) - D) with (k * (D + 1)) by lia.
    apply IH. simpl in Hk |- *. lia.
Qed.

Lemma with_dummy_steps_dummy {A} D (l : list (list A)) k d :
  k + 1 < length l -> 1 <= d <= D ->
  nth (k * (D + 1) + d) (with_dummy_steps D l) [] = [].
Proof.
  revert k. induction l as [|x r IH]; intros k Hk Hd; [simpl in Hk; lia|].
  destruct r as [|y r]; [simpl in Hk; lia|].
  rewrite with_dummy_steps_cons. destruct k as [|k].
  - simpl Nat.mul. simpl Nat.add. destruct d as [|d]; [lia|].
    cbn [nth]. rewrite app_nth1; [|rewrite repeat_length; lia].
    apply nth_repeat.
  - replace (S k * (D + 1) + d) with (S (D + (k * (D + 1) + d))) by lia.
    cbn [nth]. rewrite app_nth2; rewrite repeat_length; [|lia].
    replace (D + (k * (D + 1) + d) - D) with (k * (D + 1) + d) by lia.
    apply IH; [simpl in Hk |- *; lia | exact Hd].
Qed.

Lemma is_empty_false {A} (l : list A) : is_empty l = false <-> l <> [].
Proof. destruct l; simpl; split; congruence. Qed.

Lemma with_dummy_steps_layered {A} D (real : list (list A)) :
  Forall (fun lay => is_empty lay = false) real ->
  layered_schedule real D (with_dummy_steps D real).
Proof.
  intros Hne.
  assert (Hnth : forall k, k < length real -> is_empty (nth k real []) = false).
  { intros k Hk. rewrite Forall_forall in Hne. apply Hne. apply nth_In. exact Hk. }
  repeat split.
  - apply with_dummy_steps_length.
  - apply with_dummy_steps_real. assumption.
  - rewrite with_dummy_steps_real by assumption. apply Hnth. assumption.
  - intros k d Hk Hd. apply with_dummy_steps_dummy; assumption.
  - rewrite with_dummy_steps_length.
    replace (length real + D * (length real - 1) - 1)
      with ((length real - 1) * (D + 1)) by nia.
    apply with_dummy_steps_real. lia.
  - rewrite with_dummy_steps_length.
    replace (length real + D * (length real - 1) - 1)
      with ((length real - 1) * (D + 1)) by nia.
    rewrite with_dummy_steps_real by lia. apply Hnth. lia.
Qed.

(** Every step of the schedule is a real layer or a dummy step, by its
    position. *)
Lemma with_dummy_steps_nth {A} D (l : list (list A)) t :
  t < length (with_dummy_steps D l) ->
  nth t (with_dummy_steps D l) [] =
  if t mod (D + 1) =? 0 then nth (t / (D + 1)) l [] else [].
Proof.
  rewrite with_dummy_steps_length. intros Ht.
  pose proof (Nat.div_mod_eq t (D + 1)) as Hdm.
  pose proof (Nat.mod_upper_bound t (D + 1) ltac:(lia)) as Hmod.
  set (k := t / (D + 1)) in *. set (d := t mod (D + 1)) in *.
  assert (Ht' : t = k * (D + 1) + d) by lia.
  destruct (Nat.eqb_spec d 0) as [Hd|Hd].
  - rewrite Ht', Hd, Nat.add_0_r. apply with_dummy_steps_real. nia.
  - rewrite Ht'. apply with_dummy_steps_dummy; [nia | lia].
Qed.

(** *** [bip_model] *)

Lemma laygates_of_empty lay :
  is_empty (BIP.laygates_of lay) = is_empty lay.
Proof. destruct lay; reflexivity. Qed.

Lemma extract_su4layers_acc lays to_su4 su4 :
  snd (fold_left
         (fun (acc : list Z * list (list Gate)) lay =>
            let '(to_su4, su4) := acc in
            let laygates := BIP.laygates_of lay in
            if is_empty laygates then (to_su4 ++ [(-1)%Z], su4)
            else (to_su4 ++ [Z.of_nat (length su4)], su4 ++ [laygates]))
         lays (to_su4, su4))
  = su4 ++ map BIP.laygates_of
             (filter (fun lay => negb (is_empty lay)) lays).
Proof.
  revert to_su4 su4. induction lays as [|lay lays IH]; intros to_su4 su4.
  - simpl. rewrite app_nil_r. reflexivity.
  - cbn [fold_left filter]. rewrite laygates_of_empty.
    destruct (is_empty lay); cbn [negb].
    + apply IH.
    + rewrite IH. cbn [map]. rewrite <- app_assoc. reflexivity.
Qed.

Lemma extract_su4layers_real lays :
  snd (BIP.extract_su4layers lays)
  = map BIP.laygates_of (filter (fun lay => negb (is_empty lay)) lays).
Proof. unfold BIP.extract_su4layers. apply extract_su4layers_acc. Qed.

Lemma add_dummy_steps_acc (D total : nat) (r : list (list Gate)) k acc :
  total = k + length r ->
  fold_left
    (fun gs (kl : nat * list Gate) =>
       let '(k, lay) := kl in
       if k =? total - 1 then gs ++ [lay]
       else (gs ++ [lay]) ++ repeat [] D)
    (combine (seq k (length r)) r) acc
  = acc ++ with_dummy_steps D r.
Proof.
  revert k acc. induction r as [|x r IH]; intros k acc Htot.
  - simpl. rewrite app_nil_r. reflexivity.
  - cbn [length seq combine fold_left].
    destruct r as [|y r].
    + simpl in Htot. replace (k =? total - 1) with true
        by (symmetry; apply Nat.eqb_eq; lia).
      reflexivity.
    + replace (k =? total - 1) with false
        by (symmetry; apply Nat.eqb_neq; simpl in Htot; lia).
      rewrite IH by (simpl in Htot |- *; lia).
      rewrite with_dummy_steps_cons.
      rewrite <- !app_assoc. reflexivity.
Qed.

Lemma add_dummy_steps_eq su4 D :
  BIP.add_dummy_steps su4 D = with_dummy_steps D su4.
Proof.
  unfold BIP.add_dummy_steps, enumerate.
  rewrite (add_dummy_steps_acc D (length su4) su4 0 []); reflexivity.
Qed.

(** What [__init__] stores, when it returns. *)
Lemma init_fields dag coupling subset D ns m :
  BIP.init dag coupling subset D ns = Ok m ->
  BIP.su4layers m = map BIP.laygates_of (real_layers dag) /\
  BIP.gates m = with_dummy_steps D (BIP.su4layers m) /\
  BIP._num_splits m = BIP.adjust_num_splits ns (length (real_layers dag)) /\
  BIP.num_vqubits m = num_dag_qubits dag /\
  BIP.num_pqubits m = size coupling /\
  BIP.num_vqubits m = BIP.num_pqubits m /\
  BIP._arcs m = get_edges coupling /\
  BIP._coupling m = coupling /\
  (-1 <= ns)%Z.
Proof.
  unfold BIP.init. intros H.
  destruct (Z.ltb_spec ns (-1)) as [|Hns]; [discriminate H|].
  destruct (Nat.eqb_spec (num_dag_qubits dag) (size coupling)) as [Hsz|];
    [|discriminate H].
  cbn [negb] in H.
  pose proof (extract_su4layers_real (layers dag)) as Hsu4.
  destruct (BIP.extract_su4layers (layers dag)) as [to_su4 su4].
  cbn [snd] in Hsu4. injection H as <-. cbn.
  fold (real_layers dag) in Hsu4. subst su4.
  rewrite add_dummy_steps_eq, !length_map.
  repeat split; try reflexivity; assumption.
Qed.

Lemma init_no_windows dag coupling subset D ns m :
  BIP.init dag coupling subset D ns = Ok m ->
  BIP._num_splits m = 1%Z ->
  BIP.heur_gates m = [] /\ BIP.heur_last_layer m = [].
Proof.
  unfold BIP.init. intros H.
  destruct (ns <? -1)%Z; [discriminate H|].
  destruct (negb _); [discriminate H|].
  destruct (BIP.extract_su4layers (layers dag)) as [to_su4 su4].
  injection H as <-. cbn [BIP._num_splits BIP.heur_gates BIP.heur_last_layer].
  intros ->. simpl. destruct (_ <? _)%Z; split; reflexivity.
Qed.

Lemma real_layers_nonempty dag :
  Forall (fun lay => is_empty lay = false) (real_layers dag).
Proof.
  apply Forall_forall. intros lay Hin.
  apply filter_In in Hin. destruct Hin as [_ Hne].
  destruct (is_empty lay); [discriminate Hne | reflexivity].
Qed.

Lemma map_nonempty {A B} (f : list A -> list B) (l : list (list A)) :
  (forall x, is_empty (f x) = is_empty x) ->
  Forall (fun lay => is_empty lay = false) l ->
  Forall (fun lay => is_empty lay = false) (map f l).
Proof.
  intros Hf H. induction H; simpl; constructor; [rewrite Hf|]; assumption.
Qed.

(** *** [mip_model] *)

Definition pair_of (nd : TwoQubitOp) : nat * nat := (qarg0 nd, qarg1 nd).

Lemma filter_map_nonempty {A B} (f : A -> B) (l : list (list A)) :
  filter (fun x => negb (is_empty x)) (map (map f) l)
  = map (map f) (filter (fun x => negb (is_empty x)) l).
Proof.
  induction l as [|x l IH]; [reflexivity|].
  simpl. destruct x; simpl; rewrite IH; reflexivity.
Qed.

Lemma new_gates_eq (gs : list (list (nat * nat))) D :
  MIP.new_gates gs D = Ok (with_dummy_steps D gs).
Proof.
  unfold MIP.new_gates.
  set (n := Z.to_nat _).
  assert (Hn : n = length (with_dummy_steps D gs)).
  { rewrite with_dummy_steps_length. unfold n.
    destruct gs as [|x r]; simpl length; lia. }
  rewrite (mapM_total _
             (fun t => if t mod (D + 1) =? 0
                       then nth (t / (D + 1)) gs [] else [])).
  - f_equal. apply nth_ext with (d := []) (d' := []).
    + rewrite length_map. unfold range. rewrite length_seq. exact Hn.
    + intros t Ht. rewrite length_map in Ht. unfold range in Ht |- *.
      rewrite length_seq in Ht.
      rewrite (nth_indep _ [] (if 0 mod (D + 1) =? 0
                               then nth (0 / (D + 1)) gs [] else []))
        by (rewrite length_map, length_seq; exact Ht).
      rewrite (map_nth
                 (fun t => if t mod (D + 1) =? 0
                           then nth (t / (D + 1)) gs [] else [])).
      rewrite seq_nth by exact Ht. simpl Nat.add.
      symmetry. apply with_dummy_steps_nth. lia.
  - intros t Ht. unfold range in Ht. apply in_seq in Ht.
    destruct (Nat.eqb_spec (t mod (D + 1)) 0) as [Hd|]; [|reflexivity].
    apply py_index_ok.
    rewrite Hn, with_dummy_steps_length in Ht.
    pose proof (Nat.div_mod_eq t (D + 1)). nia.
Qed.

(** ** The schedule and the split count of [__init__] *)

(** C7.  For a circuit with [L >= 1] layers holding two-qubit gates and
    [D >= 0] configured dummy steps, the schedule of [BIPMappingModel] and
    the one of [_CircuitModel] have depth [L + D * (L - 1)]: the real
    layers stand at the steps [k * (D + 1)], each but the last is followed
    by exactly [D] empty steps, and the final step is the last real layer
    (so it is no dummy step). *)
Theorem layered_schedule_depth :
  forall dag coupling subset D ns m,
    BIP.init dag coupling subset D ns = Ok m ->
    1 <= length (real_layers dag) ->
    let L := length (real_layers dag) in
    (BIP.depth m = L + D * (L - 1) /\
     layered_schedule (map BIP.laygates_of (real_layers dag)) D (BIP.gates m) /\
     BIP._is_dummy_step m (BIP.depth m - 1) = Ok false) /\
    (exists qc,
        MIP.init_CircuitModel (num_dag_qubits dag)
          (map (map pair_of) (real_layers dag)) D = Ok qc /\
        MIP.depth qc = L + D * (L - 1) /\
        layered_schedule (map (map pair_of) (real_layers dag)) D (MIP.gates qc) /\
        is_empty (nth (MIP.depth qc - 1) (MIP.gates qc) []) = false /\
        forall cm mm, MIP.init dag cm D = Ok mm -> MIP.circuit_model mm = qc).
Proof.
  intros dag coupling subset D ns m Hinit HL L.
  apply init_fields in Hinit.
  destruct Hinit as (Hsu4 & Hgates & _).
  rewrite Hsu4 in Hgates.
  assert (Hb : layered_schedule (map BIP.laygates_of (real_layers dag)) D
                 (BIP.gates m)).
  { rewrite Hgates. apply with_dummy_steps_layered.
    apply map_nonempty; [apply laygates_of_empty | apply real_layers_nonempty]. }
  assert (Hm : layered_schedule (map (map pair_of) (real_layers dag)) D
                 (with_dummy_steps D (map (map pair_of) (real_layers dag)))).
  { apply with_dummy_steps_layered.
    apply map_nonempty; [|apply real_layers_nonempty].
    intros x. destruct x; reflexivity. }
  split.
  - pose proof Hb as (Hlen & _ & _ & Hlast).
    rewrite length_map in Hlen, Hlast. unfold BIP.depth.
    split; [exact Hlen|]. split; [exact Hb|].
    unfold BIP._is_dummy_step.
    assert (Hpos : length (BIP.gates m) - 1 < length (BIP.gates m))
      by (rewrite Hlen; generalize (D * (length (real_layers dag) - 1)); lia).
    rewrite (py_index_ok (BIP.gates m) _ [] Hpos).
    simpl. f_equal. apply Hlast. exact HL.
  - unfold MIP.init_CircuitModel. rewrite new_gates_eq. simpl.
    eexists. split; [reflexivity|].
    pose proof Hm as (Hlen & _ & _ & Hlast).
    rewrite length_map in Hlen, Hlast.
    unfold MIP.depth. cbn [MIP.gates].
    split; [exact Hlen|]. split; [exact Hm|].
    split; [apply Hlast; exact HL|].
    intros cm mm Hmm. unfold MIP.init in Hmm.
    rewrite filter_map_nonempty in Hmm.
    fold (real_layers dag) in Hmm. fold pair_of in Hmm.
    unfold MIP.init_CircuitModel in Hmm. rewrite new_gates_eq in Hmm.
    simpl in Hmm. bind_inv Hmm. injection Hmm as <-. reflexivity.
Qed.

(** The theorem at [circuit2] on the line of three qubits, one dummy step:
    depth [2 + 1 * 1 = 3]. *)
Lemma layered_schedule_depth_example :
  exists m,
    BIP.init circuit2 line3 [0; 1; 2] 1 1 = Ok m /\
    BIP.depth m = 3 /\
    BIP._is_dummy_step m (BIP.depth m - 1) = Ok false.
Proof.
  eexists. split; [reflexivity|].
  pose proof (layered_schedule_depth circuit2 line3 [0; 1; 2] 1 1 _
                eq_refl ltac:(simpl; lia)) as [[Hd [_ Hl]] _].
  split; [exact Hd | exact Hl].
Defined.

(** C6.  With [num_splits = -1] the split count is
    [max(1, (L - 2) // 2)]; a requested count above one is clamped to at
    most [max(1, L - 2)]; and a circuit with [L <= 2] real layers gets
    split count one, whatever was requested, so that [create_cpx_problem]
    builds no window model for it. *)
Theorem split_count_choice :
  forall dag coupling subset D ns m,
    BIP.init dag coupling subset D ns = Ok m ->
    let L := Z.of_nat (length (real_layers dag)) in
    (ns = (-1)%Z -> BIP._num_splits m = Z.max 1 ((L - 2) / 2)) /\
    ((1 < ns)%Z ->
     BIP._num_splits m = Z.min ns (Z.max 1 (L - 2)) /\
     (BIP._num_splits m <= Z.max 1 (L - 2))%Z) /\
    ((L <= 2)%Z ->
     BIP._num_splits m = 1%Z /\
     BIP.heur_gates m = [] /\
     forall np_log gf mgf npeml objective bp weight rate modifier b,
       BIP.create_cpx_problem np_log gf mgf npeml m objective bp weight rate
         modifier = Ok b ->
       BIP.heur_problem b = []).
Proof.
  intros dag coupling subset D ns m Hinit L.
  pose proof (init_fields _ _ _ _ _ _ Hinit) as (_ & _ & Hs & _ & _ & _ & _ & _ & Hns).
  fold L in Hs.
  assert (Hsplit : BIP._num_splits m
                   = BIP.adjust_num_splits ns (length (real_layers dag)))
    by exact Hs.
  unfold BIP.adjust_num_splits, BIP.requested_splits in Hs. fold L in Hs.
  split; [|split].
  - intros ->. rewrite Hs. simpl Z.eqb. cbv iota.
    destruct (Z.ltb_spec 1 (Z.max 1 ((L - 2) / 2))) as [Hlt|Hge];
      [|reflexivity].
    apply Z.min_l.
    assert (0 <= L)%Z by (unfold L; lia).
    pose proof (Z.div_le_upper_bound (L - 2) 2 (L - 2)).
    assert ((L - 2) / 2 <= L - 2)%Z.
    { destruct (Z.le_gt_cases 0 (L - 2)).
      - apply Z.div_le_upper_bound; lia.
      - assert ((L - 2) / 2 < 0)%Z by (apply Z.div_lt_upper_bound; lia). lia. }
    lia.
  - intros Hgt. rewrite Hs.
    destruct (Z.eqb_spec ns 0); [lia|].
    destruct (Z.eqb_spec ns (-1)); [lia|].
    destruct (Z.ltb_spec 1 ns); [|lia].
    split; [reflexivity | lia].
  - intros HL.
    assert (Hone : BIP._num_splits m = 1%Z).
    { rewrite Hs.
      assert ((L - 2) / 2 <= 0)%Z.
      { assert ((L - 2) / 2 < 1)%Z by (apply Z.div_lt_upper_bound; lia). lia. }
      destruct (Z.eqb_spec ns 0); [reflexivity|].
      destruct (Z.eqb_spec ns (-1)).
      - replace (Z.max 1 ((L - 2) / 2)) with 1%Z by lia. reflexivity.
      - destruct (Z.ltb_spec 1 ns); lia. }
    split; [exact Hone|]. split.
    + apply (init_no_windows _ _ _ _ _ _ Hinit Hone).
    + intros np_log gf mgf npeml objective bp weight rate modifier b Hb.
      unfold BIP.create_cpx_problem in Hb.
      unfold BIP.num_windows in Hb. rewrite Hone in Hb. simpl in Hb.
      destruct bp, rate; try discriminate Hb;
        binds_inv Hb; injection Hb as <-; reflexivity.
Qed.

(** The theorem at [circuit2] ([L = 2]) with eight splits requested. *)
Lemma split_count_choice_example :
  exists m,
    BIP.init circuit2 line3 [0; 1; 2] 1 8 = Ok m /\
    BIP._num_splits m = 1%Z /\ BIP.heur_gates m = [].
Proof.
  eexists. split; [reflexivity|].
  pose proof (split_count_choice circuit2 line3 [0; 1; 2] 1 8 _ eq_refl)
    as (_ & _ & H).
  destruct (H ltac:(simpl; lia)) as (H1 & H2 & _).
  split; [exact H1 | exact H2].
Defined.

(** ** Rounding to binary64 *)

Section FloatFacts.

Local Open Scope Z_scope.

Lemma digits2_size p : SpecFloat.digits2_pos p = Pos.size p.
Proof.
  induction p as [p IH|p IH|]; cbn; [rewrite IH | rewrite IH |];
    reflexivity.
Qed.

Lemma Zdigits2_log2 m : 0 < m -> SpecFloat.Zdigits2 m = Z.log2 m + 1.
Proof.
  destruct m as [|p|p]; try lia. intros _. cbn [SpecFloat.Zdigits2].
  rewrite digits2_size. destruct p as [p|p|]; cbn; try reflexivity.
  - rewrite Pos.add_1_r. reflexivity.
  - rewrite Pos.add_1_r. reflexivity.
Qed.

Lemma iter_pos_nat {A} (f : A -> A) n x :
  SpecFloat.iter_pos f n x = Nat.iter (Pos.to_nat n) f x.
Proof.
  revert x. induction n as [n IH|n IH|]; intros x; cbn [SpecFloat.iter_pos].
  - rewrite !IH, Pos2Nat.inj_xI, <- Nat.iter_add.
    replace (S (2 * Pos.to_nat n))%nat
      with (S (Pos.to_nat n + Pos.to_nat n))%nat by lia.
    rewrite Nat.iter_succ_r. reflexivity.
  - rewrite !IH, Pos2Nat.inj_xO, <- Nat.iter_add.
    replace (2 * Pos.to_nat n)%nat with (Pos.to_nat n + Pos.to_nat n)%nat
      by lia.
    reflexivity.
  - reflexivity.
Qed.

Lemma shr_1_m r :
  0 <= SpecFloat.shr_m r ->
  SpecFloat.shr_m (SpecFloat.shr_1 r) = SpecFloat.shr_m r / 2.
Proof.
  destruct r as [m rb sb]. cbn [SpecFloat.shr_m SpecFloat.shr_1]. intros Hm.
  destruct m as [|p|p]; [reflexivity | | lia].
  destruct p as [p|p|]; cbn [SpecFloat.shr_m].
  - rewrite Pos2Z.inj_xI. rewrite Z.mul_comm, Z.div_add_l by lia.
    rewrite Z.div_small by lia. lia.
  - rewrite Pos2Z.inj_xO. rewrite Z.mul_comm, Z.div_mul by lia. reflexivity.
  - reflexivity.
Qed.

Lemma shr_iter_m k r :
  0 <= SpecFloat.shr_m r ->
  SpecFloat.shr_m (Nat.iter k SpecFloat.shr_1 r)
  = SpecFloat.shr_m r / 2 ^ Z.of_nat k.
Proof.
  intros Hm. induction k as [|k IH].
  - cbn. rewrite Z.div_1_r. reflexivity.
  - rewrite Nat.iter_succ, shr_1_m.
    + rewrite IH, Z.div_div by lia.
      rewrite Nat2Z.inj_succ, Z.pow_succ_r by lia.
      rewrite (Z.mul_comm 2). reflexivity.
    + rewrite IH. apply Z.div_pos; [exact Hm | apply Z.pow_pos_nonneg; lia].
Qed.

(** What [shr] leaves of a positive mantissa. *)
Lemma shr_m_pos m l e n :
  0 < m -> n < SpecFloat.Zdigits2 m ->
  0 < SpecFloat.shr_m
        (fst (SpecFloat.shr (SpecFloat.shr_record_of_loc m l) e n)).
Proof.
  intros Hm Hn.
  assert (Hr : SpecFloat.shr_m (SpecFloat.shr_record_of_loc m l) = m)
    by (destruct l as [|[]]; reflexivity).
  unfold SpecFloat.shr. destruct n as [|p|p]; cbn [fst]; try lia.
  rewrite iter_pos_nat, shr_iter_m by lia.
  rewrite Hr, positive_nat_Z.
  rewrite (Zdigits2_log2 m Hm) in Hn.
  apply Z.div_str_pos. split; [apply Z.pow_pos_nonneg; lia|].
  apply Z.le_trans with (2 ^ Z.log2 m).
  - apply Z.pow_le_mono_r; lia.
  - apply Z.log2_spec. exact Hm.
Qed.

Lemma round_nearest_even_ge m l : m <= SpecFloat.round_nearest_even m l.
Proof.
  unfold SpecFloat.round_nearest_even.
  destruct l as [|[]]; try destruct (Z.even m); lia.
Qed.

Lemma Zdigits2_mono a b :
  0 < a -> a <= b -> SpecFloat.Zdigits2 a <= SpecFloat.Zdigits2 b.
Proof.
  intros Ha Hab. rewrite !Zdigits2_log2 by lia.
  pose proof (Z.log2_le_mono a b Hab). lia.
Qed.

Lemma shr_e m l e n :
  snd (SpecFloat.shr (SpecFloat.shr_record_of_loc m l) e n)
  = e + Z.max n 0.
Proof. unfold SpecFloat.shr. destruct n; cbn [snd]; lia. Qed.

Lemma shr_digits m l e n :
  0 < m -> 0 <= n < SpecFloat.Zdigits2 m ->
  SpecFloat.Zdigits2
    (SpecFloat.shr_m
       (fst (SpecFloat.shr (SpecFloat.shr_record_of_loc m l) e n)))
  = SpecFloat.Zdigits2 m - n.
Proof.
  intros Hm Hn.
  pose proof (shr_m_pos m l e n Hm ltac:(lia)) as Hpos.
  assert (Hr : SpecFloat.shr_m (SpecFloat.shr_record_of_loc m l) = m)
    by (destruct l as [|[]]; reflexivity).
  revert Hpos. unfold SpecFloat.shr. destruct n as [|p|p]; cbn [fst]; try lia.
  - rewrite Hr. lia.
  - rewrite iter_pos_nat, shr_iter_m by lia.
    rewrite Hr, positive_nat_Z. intros Hpos.
    rewrite !Zdigits2_log2 by lia.
    rewrite <- Z.shiftr_div_pow2 by lia.
    rewrite <- Z.shiftr_div_pow2 in Hpos by lia.
    rewrite Z.log2_shiftr by lia.
    rewrite (Zdigits2_log2 m Hm) in Hn. lia.
Qed.

(** A double other than the zeros and NaN. *)
Definition is_number (x : float) : bool :=
  match x with
  | SpecFloat.S754_finite _ _ _ | SpecFloat.S754_infinity _ => true
  | _ => false
  end.

(** Rounding a positive mantissa in the range of the normal numbers gives
    a finite number that is not zero, or an infinity. *)
Lemma binary_round_aux_number sx mx ex lx :
  0 < mx -> -1074 <= SpecFloat.Zdigits2 mx + ex - 53 ->
  is_number (SpecFloat.binary_round_aux 53 1024 sx mx ex lx) = true.
Proof.
  intros Hm Hrange. unfold SpecFloat.binary_round_aux, SpecFloat.shr_fexp.
  set (n1 := SpecFloat.fexp 53 1024 (SpecFloat.Zdigits2 mx + ex) - ex).
  assert (Hn1 : n1 = SpecFloat.Zdigits2 mx - 53).
  { unfold n1, SpecFloat.fexp, SpecFloat.emin. lia. }
  pose proof (Zdigits2_log2 mx Hm) as Hd. pose proof (Z.log2_nonneg mx) as Hl.
  pose proof (shr_m_pos mx lx ex n1 Hm ltac:(lia)) as Hp1.
  pose proof (shr_e mx lx ex n1) as He1.
  assert (Hd1 : SpecFloat.Zdigits2 mx + ex
                <= SpecFloat.Zdigits2
                     (SpecFloat.shr_m
                        (fst (SpecFloat.shr
                                (SpecFloat.shr_record_of_loc mx lx) ex n1)))
                   + snd (SpecFloat.shr
                            (SpecFloat.shr_record_of_loc mx lx) ex n1)).
  { rewrite He1. destruct (Z.le_gt_cases n1 0) as [Hle|Hgt].
    - replace (Z.max n1 0) with 0 by lia.
      assert (E : fst (SpecFloat.shr (SpecFloat.shr_record_of_loc mx lx) ex n1)
                  = SpecFloat.shr_record_of_loc mx lx)
        by (unfold SpecFloat.shr; destruct n1; try reflexivity; lia).
      rewrite E.
      assert (Hr : SpecFloat.shr_m (SpecFloat.shr_record_of_loc mx lx) = mx)
        by (destruct lx as [|[]]; reflexivity).
      rewrite Hr. lia.
    - rewrite shr_digits by lia. lia. }
  destruct (SpecFloat.shr (SpecFloat.shr_record_of_loc mx lx) ex n1)
    as [mrs1 e1]. cbn [fst snd] in *.
  set (m2 := SpecFloat.round_nearest_even (SpecFloat.shr_m mrs1)
               (SpecFloat.loc_of_shr_record mrs1)).
  pose proof (round_nearest_even_ge (SpecFloat.shr_m mrs1)
                (SpecFloat.loc_of_shr_record mrs1)) as Hge. fold m2 in Hge.
  assert (Hm2 : 0 < m2) by lia.
  pose proof (Zdigits2_mono _ _ Hp1 Hge) as Hmono.
  set (n2 := SpecFloat.fexp 53 1024 (SpecFloat.Zdigits2 m2 + e1) - e1).
  assert (Hn2 : n2 = SpecFloat.Zdigits2 m2 - 53).
  { unfold n2, SpecFloat.fexp, SpecFloat.emin. lia. }
  pose proof (Zdigits2_log2 m2 Hm2) as Hdm2.
  pose proof (Z.log2_nonneg m2) as Hl2.
  pose proof (shr_m_pos m2 SpecFloat.loc_Exact e1 n2 Hm2 ltac:(lia)) as Hp2.
  destruct (SpecFloat.shr (SpecFloat.shr_record_of_loc m2 SpecFloat.loc_Exact)
              e1 n2) as [mrs2 e2]. cbn [fst] in Hp2.
  destruct (SpecFloat.shr_m mrs2) as [|p|p]; try lia.
  destruct (e2 <=? 1024 - 53); reflexivity.
Qed.

Lemma float_of_int_number z : z <> 0 -> is_number (float_of_int z) = true.
Proof.
  intros Hz. unfold float_of_int, SpecFloat.binary_normalize.
  assert (H : forall s p, is_number (SpecFloat.binary_round 53 1024 s p 0)
                          = true).
  { intros s p. unfold SpecFloat.binary_round, SpecFloat.shl_align.
    set (d := Z.pos (SpecFloat.digits2_pos p)).
    assert (Hd : 1 <= d) by (unfold d; lia).
    assert (Hf : SpecFloat.fexp 53 1024 (d + 0) = d - 53)
      by (unfold SpecFloat.fexp, SpecFloat.emin; lia).
    rewrite Hf.
    destruct (d - 53 - 0) as [|k|k] eqn:E.
    - apply binary_round_aux_number; [lia|].
      change (SpecFloat.Zdigits2 (Z.pos p)) with d. lia.
    - apply binary_round_aux_number; [lia|].
      change (SpecFloat.Zdigits2 (Z.pos p)) with d. lia.
    - apply binary_round_aux_number; [lia|].
      cbn [SpecFloat.Zdigits2].
      pose proof (Pos2Z.is_pos (SpecFloat.digits2_pos (Pos.iter xO p k))).
      lia. }
  destruct z as [|p|p]; [contradiction | apply H | apply H].
Qed.

Lemma float_of_int_nonzero z : z <> 0 -> is_zero (float_of_int z) = false.
Proof.
  intros Hz. pose proof (float_of_int_number z Hz) as H.
  destruct (float_of_int z); cbn in *; congruence.
Qed.



End FloatFacts.
(** ** The time budget of [solve_cpx_problem] *)

(** The time limit that window [i] gets of the total limit [T] when there
    are [S] problems to solve: [T * (S - i) / (S * (S + 1) / 2)], each
    operation rounded. *)
Definition share (s : Z) (T : float) (i : nat) : float :=
  fdiv (fmul T (float_of_int (s - Z.of_nat i))) (BIP.total_shares s).

Lemma nth_error_replace_nth_same {A} (l : list A) i v :
  i < length l -> nth_error (BIP.replace_nth l i v) i = Some v.
Proof.
  intros Hi. unfold BIP.replace_nth.
  rewrite nth_error_app2; rewrite length_firstn, Nat.min_l by lia; [|lia].
  rewrite Nat.sub_diag. reflexivity.
Qed.


Lemma length_replace_nth {A} (l : list A) i v :
  i < length l -> length (BIP.replace_nth l i v) = length l.
Proof.
  intros Hi. unfold BIP.replace_nth.
  rewrite length_app. cbn [length].
  rewrite length_firstn, length_skipn, Nat.min_l by lia. lia.
Qed.


(** The divisor of the shares is never zero. *)
Lemma total_shares_nonzero (s : Z) :
  (0 < s)%Z -> is_zero (BIP.total_shares s) = false.
Proof.
  intros Hs. unfold BIP.total_shares. apply float_of_int_nonzero.
  assert (H : (0 < s * (s + 1) / 2)%Z)
    by (apply Z.div_str_pos; nia).
  lia.
Qed.

Lemma heur_time_limit_total (s : Z) (T : float) (i : nat) :
  (0 < s)%Z -> BIP.heur_time_limit s T i = Ok (share s T i).
Proof.
  intros Hs. unfold BIP.heur_time_limit, BIP.py_div.
  rewrite (total_shares_nonzero s Hs). reflexivity.
Qed.


Section Driver.

Variable cplex_solve : Model -> option (Var -> Q) * string.



End Driver.




(** The limits that [solve_cpx_problem] computes for [S] problems, in the
    order they are solved: lines 767-771 for the windows, line 820 for the
    exact model. *)
Definition time_limits (s : Z) (T : float) : result (list float) :=
  hs <- mapM (BIP.heur_time_limit s T) (range (Z.to_nat (s - 1))) ;;
  e <- BIP.exact_time_limit s T ;;
  Ok (hs ++ [e]).

(** The rational number that a finite double is. *)
Definition value_of (x : float) : Q :=
  match x with
  | SpecFloat.S754_finite s m e =>
      (inject_Z (if s then Z.neg m else Z.pos m) * Qpower 2 e)%Q
  | _ => 0%Q
  end.

Definition sum_Q (l : list Q) : Q := fold_right Qplus 0%Q l.

(** [x < y] on floats. *)
Definition fltb (x y : float) : bool := SpecFloat.SFltb x y.

(** C5 as the spec words it: the limits sum to [T] ... *)
Definition sum_to_limit (s : Z) (T : float) : Prop :=
  exists l, time_limits s T = Ok l
            /\ (sum_Q (map value_of l) == value_of T)%Q.

(** ... and each is below the one before it. *)
Definition strictly_decreasing (s : Z) (T : float) : Prop :=
  exists l, time_limits s T = Ok l
            /\ forall i, i + 1 < length l ->
                 fltb (nth (i + 1) l SpecFloat.S754_nan)
                      (nth i l SpecFloat.S754_nan) = true.

(** [2 ^ -1073], which Python prints as [1e-323]. *)
Definition tiny : float := SpecFloat.S754_finite false 2 (-1074).

(** Both fail for doubles.  With [T = 60] and [S = 11] the eleven limits
    are not the exact fractions of 60, their sum as numbers is not 60, and
    added up as doubles from the first to the last they give
    [59.99999999999999] (the double below 60).  With the positive limit
    [T = 1e-323] and [S = 4] the first two windows get the same limit,
    [5e-324], and the third window and the exact model get [0.0]. *)
Lemma time_limits_are_rounded :
  ~ sum_to_limit 11 (float_of_int 60)
  /\ (exists l,
        time_limits 11 (float_of_int 60) = Ok l
        /\ fold_left fadd l (float_of_int 0)
           = SpecFloat.S754_finite false 8444249301319679 (-47)
        /\ float_of_int 60
           = SpecFloat.S754_finite false 8444249301319680 (-47))
  /\ is_double tiny = true
  /\ fltb (float_of_int 0) tiny = true
  /\ ~ strictly_decreasing 4 tiny
  /\ time_limits 4 tiny
     = Ok [SpecFloat.S754_finite false 1 (-1074);
           SpecFloat.S754_finite false 1 (-1074);
           SpecFloat.S754_zero false; SpecFloat.S754_zero false].
Proof.
  pose (l := ltac:(ok_value (time_limits 11 (float_of_int 60)))).
  assert (Hl : time_limits 11 (float_of_int 60) = Ok l)
    by (vm_compute; reflexivity).
  split; [|split; [|split; [|split; [|split]]]].
  - intros [l' [Hl' Hsum]]. rewrite Hl in Hl'. injection Hl' as <-.
    revert Hsum. vm_compute. discriminate.
  - exists l. split; [exact Hl|]. split; vm_compute; reflexivity.
  - vm_compute. reflexivity.
  - vm_compute. reflexivity.
  - intros [l' [Hl' Hdec]].
    assert (E : l' = [SpecFloat.S754_finite false 1 (-1074);
                      SpecFloat.S754_finite false 1 (-1074);
                      SpecFloat.S754_zero false; SpecFloat.S754_zero false])
      by (vm_compute in Hl'; injection Hl' as <-; reflexivity).
    subst l'. specialize (Hdec 0 ltac:(cbn; lia)).
    vm_compute in Hdec. discriminate Hdec.
  - vm_compute. reflexivity.
Qed.

(** ** The schedules of the windows *)

(** Layers each followed by [D] empty steps. *)
Definition padded {A} (D : nat) (l : list (list A)) : list (list A) :=
  flat_map (fun lay => lay :: repeat [] D) l.

Lemma padded_length {A} D (l : list (list A)) :
  length (padded D l) = length l * (D + 1).
Proof.
  induction l as [|x l IH]; [reflexivity|].
  unfold padded in *. cbn [flat_map]. cbn [app length].
  rewrite length_app, repeat_length, IH. simpl. lia.
Qed.

Lemma heur_window_acc (D K : nat) (r : list (list Gate)) k0 hg last :
  fold_left
    (fun (acc : list (list Gate) * nat) (kl : nat * list Gate) =>
       let '(hg, last) := acc in
       let '(k, lay) := kl in
       let hg1 := hg ++ [lay] in
       if k <? K then (hg1 ++ repeat [] D, last)
       else if k =? K then (hg1, length hg1)
       else (hg1, last))
    (combine (seq k0 (length r)) r) (hg, last)
  = (hg ++ padded D (firstn (K - k0) r) ++ skipn (K - k0) r,
     if (k0 <=? K) && (K <? k0 + length r)
     then length hg + (K - k0) * (D + 1) + 1 else last).
Proof.
  revert k0 hg last. induction r as [|lay r IH]; intros k0 hg last.
  - simpl. rewrite firstn_nil, skipn_nil. simpl. rewrite app_nil_r.
    f_equal. rewrite Nat.add_0_r.
    destruct (Nat.leb_spec k0 K), (Nat.ltb_spec K k0); simpl; try reflexivity.
    lia.
  - cbn [length seq combine fold_left].
    destruct (Nat.ltb_spec k0 K) as [Hlt|Hge].
    + rewrite IH.
      replace (K - k0) with (S (K - S k0)) by lia.
      cbn [firstn skipn]. unfold padded. cbn [flat_map].
      f_equal.
      * rewrite <- !app_assoc. reflexivity.
      * destruct (Nat.leb_spec (S k0) K); [|lia].
        destruct (Nat.leb_spec k0 K); [|lia]. cbn [andb].
        replace (S k0 + length r) with (k0 + S (length r)) by lia.
        destruct (Nat.ltb_spec K (k0 + S (length r))); [|reflexivity].
        rewrite !length_app, repeat_length. simpl. lia.
    + destruct (Nat.eqb_spec k0 K) as [Heq|Hne].
      * rewrite IH. subst K. rewrite Nat.sub_diag.
        replace (k0 - S k0) with 0 by lia. cbn [firstn skipn].
        unfold padded. cbn [flat_map app]. f_equal.
        -- rewrite <- app_assoc. reflexivity.
        -- destruct (Nat.leb_spec (S k0) k0); [lia|]. cbn [andb].
           destruct (Nat.leb_spec k0 k0); [|lia].
           destruct (Nat.ltb_spec k0 (k0 + S (length r))); [|lia].
           cbn [andb]. rewrite length_app. simpl. lia.
      * rewrite IH.
        replace (K - k0) with 0 by lia. replace (K - S k0) with 0 by lia.
        cbn [firstn skipn]. unfold padded. cbn [flat_map app]. f_equal.
        -- rewrite <- app_assoc. reflexivity.
        -- destruct (Nat.leb_spec (S k0) K); [lia|].
           destruct (Nat.leb_spec k0 K); [lia|]. reflexivity.
Qed.

(** The schedule and the boundary depth of a window whose boundary layer
    [K] exists. *)
Lemma heur_window_eq su4 D ss s :
  ss * (s + 1) < length su4 ->
  BIP.heur_window su4 D ss s
  = (padded D (firstn (ss * (s + 1)) su4) ++ skipn (ss * (s + 1)) su4,
     ss * (s + 1) * (D + 1) + 1).
Proof.
  intros HK.
  etransitivity; [exact (heur_window_acc D (ss * (s + 1)) su4 0 [] 0)|].
  rewrite Nat.sub_0_r. cbn [app length Nat.add]. f_equal.
  destruct (Nat.ltb_spec (ss * (s + 1)) (length su4)); [reflexivity | lia].
Qed.

Lemma with_dummy_steps_split {A} D (l : list (list A)) K :
  K < length l ->
  with_dummy_steps D l
  = padded D (firstn K l) ++ with_dummy_steps D (skipn K l).
Proof.
  revert l. induction K as [|K IH]; intros l HK; [reflexivity|].
  destruct l as [|x l]; [simpl in HK; lia|].
  destruct l as [|y l]; [simpl in HK; lia|].
  rewrite with_dummy_steps_cons. cbn [firstn skipn].
  unfold padded. cbn [flat_map]. fold (padded D (firstn K (y :: l))).
  rewrite (IH (y :: l)) by (simpl in HK |- *; lia).
  rewrite <- !app_assoc. reflexivity.
Qed.

(** Below the boundary depth a window has the steps of the full
    schedule. *)
Lemma window_prefix D (su4 : list (list Gate)) K t :
  K < length su4 ->
  t < K * (D + 1) + 1 ->
  nth t (padded D (firstn K su4) ++ skipn K su4) []
  = nth t (with_dummy_steps D su4) [].
Proof.
  intros HK Ht. rewrite (with_dummy_steps_split D su4 K HK).
  assert (Hlen : length (padded D (firstn K su4)) = K * (D + 1))
    by (rewrite padded_length, length_firstn, Nat.min_l by lia; reflexivity).
  destruct (Nat.lt_ge_cases t (K * (D + 1))) as [Hlt|Hge].
  - rewrite !app_nth1 by lia. reflexivity.
  - rewrite !app_nth2 by lia.
    replace (t - length (padded D (firstn K su4))) with 0 by lia.
    destruct (skipn K su4) as [|x r] eqn:Hs.
    + pose proof (length_skipn K su4) as Hl. rewrite Hs in Hl. simpl in Hl. lia.
    + destruct r; reflexivity.
Qed.

(** The layer at which window [s] ends its exact part (line 146). *)
Definition boundary_layer (m : BIP.BIPMappingModel) (s : nat) : nat :=
  BIP.split_size_of (BIP._num_splits m) (length (BIP.su4layers m)) * (s + 1).

(** What [__init__] stores for the windows, when the heuristic is used. *)
Record windows_ok (m : BIP.BIPMappingModel) (D : nat) : Prop := {
  wo_layers : 4 <= length (BIP.su4layers m);
  wo_count : length (BIP.heur_gates m) = BIP.num_windows m;
  wo_count_last : length (BIP.heur_last_layer m) = BIP.num_windows m;
  wo_boundary_lt :
    forall s, s < BIP.num_windows m ->
              boundary_layer m s < length (BIP.su4layers m) - 1;
  wo_boundary_mono :
    forall s, s + 1 < BIP.num_windows m ->
              boundary_layer m s < boundary_layer m (s + 1);
  wo_gates :
    forall s, s < BIP.num_windows m ->
      BIP.heur_gates_of m s
      = padded D (firstn (boundary_layer m s) (BIP.su4layers m))
        ++ skipn (boundary_layer m s) (BIP.su4layers m);
  wo_last :
    forall s, s < BIP.num_windows m ->
      BIP.heur_last_layer_of m s = boundary_layer m s * (D + 1) + 1
}.

Lemma init_windows dag coupling subset D ns m :
  BIP.init dag coupling subset D ns = Ok m ->
  (1 < BIP._num_splits m)%Z ->
  windows_ok m D.
Proof.
  intros Hinit HS.
  pose proof (init_fields _ _ _ _ _ _ Hinit) as (Hsu4 & _ & Hsplits & _).
  rewrite <- (length_map BIP.laygates_of), <- Hsu4 in Hsplits.
  unfold BIP.init in Hinit.
  destruct (ns <? -1)%Z; [discriminate Hinit|].
  destruct (negb _); [discriminate Hinit|].
  destruct (BIP.extract_su4layers (layers dag)) as [to_su4 su4].
  injection Hinit as <-.
  cbn [BIP._num_splits BIP.su4layers] in *.
  set (L := length su4) in *.
  set (S := BIP.adjust_num_splits ns L) in *.
  assert (Hreq : (1 <? BIP.requested_splits ns L)%Z = true).
  { unfold S, BIP.adjust_num_splits in HS.
    destruct (1 <? BIP.requested_splits ns L)%Z eqn:E; [reflexivity|].
    apply Z.ltb_ge in E. lia. }
  assert (HSle : (S <= Z.of_nat L - 2)%Z).
  { unfold S, BIP.adjust_num_splits in HS |- *. rewrite Hreq in HS |- *. lia. }
  set (ss := BIP.split_size_of S L).
  assert (Hss : 1 <= ss /\ ss * Z.to_nat S <= L - 2).
  { unfold ss, BIP.split_size_of.
    assert (Hq : (1 <= (Z.of_nat L - 2) / S)%Z)
      by (apply Z.div_le_lower_bound; lia).
    assert (Hq' : ((Z.of_nat L - 2) / S * S <= Z.of_nat L - 2)%Z).
    { rewrite Z.mul_comm. apply Z.mul_div_le. lia. }
    replace (Z.max 1 (Z.of_nat L - 2)) with (Z.of_nat L - 2)%Z by lia.
    replace (Z.max 1 ((Z.of_nat L - 2) / S)) with ((Z.of_nat L - 2) / S)%Z
      by lia.
    split; [lia|]. nia. }
  destruct Hss as [Hss1 Hss2].
  assert (HK : forall s, s < Z.to_nat (S - 1) -> ss * (s + 1) < L - 1).
  { intros s Hs.
    assert (ss * (s + 1) <= ss * (Z.to_nat S - 1)) by (apply Nat.mul_le_mono_l; lia).
    nia. }
  constructor;
    unfold BIP.num_windows, BIP.heur_gates_of, BIP.heur_last_layer_of,
      boundary_layer;
    cbn [BIP._num_splits BIP.su4layers BIP.heur_gates BIP.heur_last_layer];
    fold L; fold S; fold ss; rewrite ?Hreq.
  - lia.
  - rewrite !length_map. unfold range. apply length_seq.
  - rewrite !length_map. unfold range. apply length_seq.
  - exact HK.
  - intros s Hs. nia.
  - intros s Hs.
    rewrite (nth_indep _ [] (fst (BIP.heur_window su4 D ss 0)))
      by (rewrite !length_map; unfold range; rewrite length_seq; exact Hs).
    rewrite map_map.
    rewrite (map_nth (fun x => fst (BIP.heur_window su4 D ss x)) (range _) 0 s).
    unfold range. rewrite seq_nth by exact Hs. cbn [Nat.add].
    rewrite heur_window_eq by (specialize (HK s Hs); fold L; lia).
    reflexivity.
  - intros s Hs.
    rewrite (nth_indep _ 0 (snd (BIP.heur_window su4 D ss 0)))
      by (rewrite !length_map; unfold range; rewrite length_seq; exact Hs).
    rewrite map_map.
    rewrite (map_nth (fun x => snd (BIP.heur_window su4 D ss x)) (range _) 0 s).
    unfold range. rewrite seq_nth by exact Hs. cbn [Nat.add].
    rewrite heur_window_eq by (specialize (HK s Hs); fold L; lia).
    reflexivity.
Qed.

(** ** What [create_cpx_problem] builds

    When the builder returns, every subscript it evaluated was stored and
    every list position was in range, so the constraints of the model are
    the ones the loops enumerate. *)

Definition gates_flat (gs : list (list Gate)) (ts : list nat)
  (body : nat -> Gate -> list Constraint) : list Constraint :=
  flat_map (fun t => flat_map (body t) (nth t gs [])) ts.

Definition free_qubits (lay : list Gate) (nv : nat) : list nat :=
  match BIP.q_no_gate lay (range nv) with
  | Ok l => l
  | Raise _ => []
  end.

Definition swap_no_gate_flat (gs : list (list Gate)) (ts : list nat)
  (arcs : list (nat * nat)) (nv : nat) : list Constraint :=
  flat_map
    (fun t => BIP.swap_no_gate arcs t (free_qubits (nth t gs []) nv)) ts.

Definition is_dummy (m : BIP.BIPMappingModel) (t : nat) : bool :=
  is_empty (nth t (BIP.gates m) []).

Definition z_keys_flat (m : BIP.BIPMappingModel) (ts : list nat) : list Var :=
  flat_map (fun t => if is_dummy m t then [Zv t] else []) ts.

Definition dummy_ts_needed_flat (m : BIP.BIPMappingModel) (ts : list nat)
  : list Constraint :=
  flat_map
    (fun t =>
       if is_dummy m t
       then BIP.dummy_ts_needed (BIP._arcs m) (BIP.num_vqubits m) t
       else [])
    ts.

Definition dummy_precedence_flat (m : BIP.BIPMappingModel) (ts : list nat)
  : list Constraint :=
  flat_map
    (fun t =>
       if is_dummy m t && is_dummy m (t + 1)
       then [ct (Ref (Zv t)) GE (Ref (Zv (t + 1))) (dummy_precedence t)]
       else [])
    ts.

Definition flow_out_flat (nbrs : nat -> nat -> list nat) (d nv np : nat)
  : list Constraint :=
  flat_map
    (fun t =>
       flat_map
         (fun q => map (fun i => BIP.flow_out (nbrs t i) t q i) (range np))
         (range nv))
    (range (d - 1)).

Definition flow_in_flat (nbrs : nat -> nat -> list nat) (d nv np : nat)
  : list Constraint :=
  flat_map
    (fun t =>
       flat_map
         (fun q => map (fun i => BIP.flow_in (nbrs t i) t q i) (range np))
         (range nv))
    (seq 1 (d - 1)).

(** The constraints of the exact model, in the order they are added. *)
Definition exact_constraints (m : BIP.BIPMappingModel) : list Constraint :=
  let d := BIP.depth m in
  let nv := BIP.num_vqubits m in
  let np := BIP.num_pqubits m in
  let nb := fun _ : nat => neighbors (BIP._coupling m) in
  BIP.assignment_vqubits d nv np
  ++ BIP.assignment_pqubits d nv np
  ++ gates_flat (BIP.gates m) (range d) (BIP.implement_gate (BIP._arcs m))
  ++ gates_flat (BIP.gates m) (range (d - 1)) (BIP.mccormick_strong (BIP._arcs m))
  ++ flat_map (BIP.mccormick_last (BIP._arcs m) (d - 1))
       (nth (d - 1) (BIP.gates m) [])
  ++ flow_out_flat nb d nv np
  ++ flow_in_flat nb d nv np
  ++ gates_flat (BIP.gates m) (range (d - 1)) (BIP.swap (BIP._arcs m))
  ++ swap_no_gate_flat (BIP.gates m) (range (d - 1)) (BIP._arcs m) nv
  ++ dummy_ts_needed_flat m (range d)
  ++ dummy_precedence_flat m (range (d - 1)).

Definition y_keys_flat (gs : list (list Gate)) (arcs : list (nat * nat))
  (d : nat) : list Var :=
  flat_map
    (fun t =>
       flat_map
         (fun g : Gate =>
            let '((p, q), _) := g in
            map (fun a : nat * nat => Y t p q (fst a) (snd a)) arcs)
         (nth t gs []))
    (range d).

Definition exact_keys (m : BIP.BIPMappingModel) : list Var :=
  BIP.w_keys (BIP.depth m) (BIP.num_vqubits m) (BIP.num_pqubits m)
  ++ y_keys_flat (BIP.gates m) (BIP._arcs m) (BIP.depth m)
  ++ BIP.x_keys (fun _ => neighbors (BIP._coupling m)) (BIP.depth m)
       (BIP.num_vqubits m) (BIP.num_pqubits m)
  ++ z_keys_flat m (range (BIP.depth m)).

(** The constraints of window [split], in the order they are added. *)
Definition heur_constraints (m : BIP.BIPMappingModel) (split : nat)
  : list Constraint :=
  let hg := BIP.heur_gates_of m split in
  let last := BIP.heur_last_layer_of m split in
  let d := length hg in
  let nv := BIP.num_vqubits m in
  let np := BIP.num_pqubits m in
  BIP.assignment_vqubits d nv np
  ++ BIP.assignment_pqubits d nv np
  ++ gates_flat hg (range d) (BIP.implement_gate (BIP._arcs m))
  ++ gates_flat hg (range d) (BIP.heur_mccormick m split)
  ++ flow_out_flat (BIP.heur_neighbors m split) d nv np
  ++ flow_in_flat
       (fun t i => if t <? last then neighbors (BIP._coupling m) i
                   else BIP.long_neighbors m i) d nv np
  ++ gates_flat hg (range (last - 1)) (BIP.swap (BIP._arcs m))
  ++ swap_no_gate_flat hg (range (last - 1)) (BIP._arcs m) nv
  ++ dummy_ts_needed_flat m (range last)
  ++ dummy_precedence_flat m (range (last - 1)).

Definition heur_keys (m : BIP.BIPMappingModel) (split : nat) : list Var :=
  let hg := BIP.heur_gates_of m split in
  BIP.w_keys (length hg) (BIP.num_vqubits m) (BIP.num_pqubits m)
  ++ y_keys_flat hg (BIP._arcs m) (length hg)
  ++ BIP.x_keys (BIP.heur_neighbors m split) (length hg)
       (BIP.num_vqubits m) (BIP.num_pqubits m)
  ++ z_keys_flat m (range (BIP.heur_last_layer_of m split)).

Lemma gates_at_inv gs t lay :
  BIP.gates_at gs t = Ok lay -> t < length gs /\ lay = nth t gs [].
Proof. unfold BIP.gates_at. apply py_index_inv. Qed.

Lemma for_gates_ok gs ts keys body r :
  BIP.for_gates gs ts keys body = Ok r -> r = gates_flat gs ts body.
Proof.
  unfold BIP.for_gates, gates_flat. apply flat_mapM_pure.
  intros t b _ H. bind_as H lay Hlay.
  apply gates_at_inv in Hlay. destruct Hlay as [_ ->].
  apply add_constraints_ok in H. exact H.
Qed.

Lemma for_swap_no_gate_ok gs ts keys arcs nv r :
  BIP.for_swap_no_gate gs ts keys arcs nv = Ok r ->
  r = swap_no_gate_flat gs ts arcs nv.
Proof.
  unfold BIP.for_swap_no_gate, swap_no_gate_flat. apply flat_mapM_pure.
  intros t b _ H. bind_as H lay Hlay.
  apply gates_at_inv in Hlay. destruct Hlay as [_ ->].
  bind_as H free Hfree. apply add_constraints_ok in H.
  unfold free_qubits. rewrite Hfree. exact H.
Qed.

Lemma is_dummy_step_inv m t d :
  BIP._is_dummy_step m t = Ok d ->
  t < length (BIP.gates m) /\ d = is_dummy m t.
Proof.
  unfold BIP._is_dummy_step, is_dummy. intros H. bind_as H lay Hlay.
  apply (py_index_inv _ _ _ []) in Hlay. destruct Hlay as [Hlt ->].
  injection H as <-. split; [exact Hlt | reflexivity].
Qed.

Lemma z_keys_ok m ts r : BIP.z_keys m ts = Ok r -> r = z_keys_flat m ts.
Proof.
  unfold BIP.z_keys, z_keys_flat. apply flat_mapM_pure.
  intros t b _ H. bind_as H d Hd.
  apply is_dummy_step_inv in Hd. destruct Hd as [_ ->].
  injection H as <-. reflexivity.
Qed.

Lemma for_dummy_ts_needed_ok m ts keys r :
  BIP.for_dummy_ts_needed m ts keys = Ok r -> r = dummy_ts_needed_flat m ts.
Proof.
  unfold BIP.for_dummy_ts_needed, dummy_ts_needed_flat. apply flat_mapM_pure.
  intros t b _ H. bind_as H d Hd.
  apply is_dummy_step_inv in Hd. destruct Hd as [_ ->].
  destruct (is_dummy m t).
  - apply add_constraints_ok in H. exact H.
  - injection H as <-. reflexivity.
Qed.

Lemma for_dummy_precedence_ok m ts keys r :
  BIP.for_dummy_precedence m ts keys = Ok r ->
  r = dummy_precedence_flat m ts.
Proof.
  unfold BIP.for_dummy_precedence, dummy_precedence_flat.
  apply flat_mapM_pure.
  intros t b _ H. bind_as H d Hd.
  apply is_dummy_step_inv in Hd. destruct Hd as [_ ->].
  destruct (is_dummy m t); cbn [andb].
  - bind_as H d' Hd'.
    apply is_dummy_step_inv in Hd'. destruct Hd' as [_ ->].
    destruct (is_dummy m (t + 1)).
    + apply add_constraints_ok in H. exact H.
    + injection H as <-. reflexivity.
  - injection H as <-. reflexivity.
Qed.

Lemma y_keys_ok gs arcs d r :
  BIP.y_keys gs arcs d = Ok r -> r = y_keys_flat gs arcs d.
Proof.
  unfold BIP.y_keys, y_keys_flat. apply flat_mapM_pure.
  intros t b _ H. bind_as H lay Hlay.
  apply gates_at_inv in Hlay. destruct Hlay as [_ ->].
  injection H as <-. reflexivity.
Qed.

Section BuilderFacts.

Variable np_log : Q -> Q.
Variable gf mgf : nat -> list Q.
Variable npeml : list Q -> result Q.

(** The exact model, when it is built. *)
Lemma exact_model_ok m bp rate obj weight b :
  BIP.exact_model np_log gf mgf m bp rate obj weight = Ok b ->
  BIP.self b = m /\
  BIP.bprop b = bp /\
  BIP.default_cx_error_rate b = rate /\
  BIP.heur_problem b = [] /\
  BIP.gates m <> [] /\
  map var_name (variables (BIP.problem b)) = exact_keys m /\
  variables (BIP.problem b) = map binary_var (exact_keys m) /\
  constraints (BIP.problem b) = exact_constraints m /\
  exists objexr, objective (BIP.problem b) = Some objexr.
Proof.
  unfold BIP.exact_model. intros H.
  bind_as H wyx Hwyx. destruct wyx as [[w y] x].
  unfold BIP.exact_variables in Hwyx. bind_as Hwyx y' Hy.
  injection Hwyx as <- <- <-. apply y_keys_ok in Hy. subst y'.
  bind_as H main Hmain. bind_as H z Hz. apply z_keys_ok in Hz. subst z.
  bind_as H c10 Hc10. apply for_dummy_ts_needed_ok in Hc10. subst c10.
  bind_as H c11 Hc11. apply for_dummy_precedence_ok in Hc11. subst c11.
  bind_as H objexr Hobj. injection H as <-.
  cbn [BIP.self BIP.bprop BIP.default_cx_error_rate BIP.heur_problem
       BIP.problem variables constraints objective].
  unfold BIP.exact_main_constraints in Hmain.
  bind_as Hmain c1 Hc1. apply add_constraints_ok in Hc1. subst c1.
  bind_as Hmain c2 Hc2. apply add_constraints_ok in Hc2. subst c2.
  bind_as Hmain c3 Hc3. apply for_gates_ok in Hc3. subst c3.
  bind_as Hmain c4 Hc4. apply for_gates_ok in Hc4. subst c4.
  bind_as Hmain last Hlast.
  assert (Hne : BIP.gates m <> []).
  { intros Hnil. unfold BIP.depth in Hlast. rewrite Hnil in Hlast.
    discriminate Hlast. }
  unfold BIP.depth in Hlast.
  rewrite (py_index_last (BIP.gates m) [] Hne) in Hlast.
  injection Hlast as <-.
  bind_as Hmain c5 Hc5. apply add_constraints_ok in Hc5. subst c5.
  bind_as Hmain c6 Hc6. apply add_constraints_ok in Hc6. subst c6.
  bind_as Hmain c7 Hc7. apply add_constraints_ok in Hc7. subst c7.
  bind_as Hmain c8 Hc8. apply for_gates_ok in Hc8. subst c8.
  bind_as Hmain c9 Hc9. apply for_swap_no_gate_ok in Hc9. subst c9.
  injection Hmain as <-.
  repeat split; try reflexivity.
  - exact Hne.
  - rewrite map_map. cbn [var_name binary_var]. rewrite map_id.
    unfold exact_keys. reflexivity.
  - unfold exact_constraints, flow_out_flat, flow_in_flat, BIP.depth.
    rewrite <- !app_assoc. reflexivity.
  - exists objexr. reflexivity.
Qed.

(** A window model, when it is built. *)
Lemma heur_model_ok b split obj weight h :
  BIP.heur_model np_log gf mgf npeml b split obj weight = Ok h ->
  variables h = map binary_var (heur_keys (BIP.self b) split) /\
  constraints h = heur_constraints (BIP.self b) split /\
  BIP.heur_objective np_log gf mgf npeml b split
    (heur_keys (BIP.self b) split) obj weight = Ok (objective h) /\
  time_limit h = None.
Proof.
  unfold BIP.heur_model. intros H.
  bind_as H wyx Hwyx. destruct wyx as [[w y] x].
  unfold BIP.heur_variables in Hwyx. bind_as Hwyx y' Hy.
  injection Hwyx as <- <- <-. apply y_keys_ok in Hy. subst y'.
  bind_as H main Hmain. bind_as H z Hz. apply z_keys_ok in Hz. subst z.
  bind_as H c10 Hc10. apply for_dummy_ts_needed_ok in Hc10. subst c10.
  bind_as H c11 Hc11. apply for_dummy_precedence_ok in Hc11. subst c11.
  bind_as H ob Hobj. injection H as <-.
  cbn [variables constraints objective time_limit].
  unfold BIP.heur_main_constraints in Hmain.
  bind_as Hmain c1 Hc1. apply add_constraints_ok in Hc1. subst c1.
  bind_as Hmain c2 Hc2. apply add_constraints_ok in Hc2. subst c2.
  bind_as Hmain c3 Hc3. apply for_gates_ok in Hc3. subst c3.
  bind_as Hmain c4 Hc4. apply for_gates_ok in Hc4. subst c4.
  bind_as Hmain c6 Hc6. apply add_constraints_ok in Hc6. subst c6.
  bind_as Hmain c7 Hc7. apply add_constraints_ok in Hc7. subst c7.
  bind_as Hmain c8 Hc8. apply for_gates_ok in Hc8. subst c8.
  bind_as Hmain c9 Hc9. apply for_swap_no_gate_ok in Hc9. subst c9.
  injection Hmain as <-.
  repeat split.
  - unfold heur_constraints, flow_out_flat, flow_in_flat.
    rewrite <- !app_assoc. reflexivity.
  - exact Hobj.
Qed.

(** [create_cpx_problem] without a user modifier. *)
Lemma create_cpx_problem_ok m obj bp weight rate b :
  BIP.create_cpx_problem np_log gf mgf npeml m obj bp weight rate None
  = Ok b ->
  exists b0,
    BIP.exact_model np_log gf mgf m bp rate obj weight = Ok b0 /\
    BIP.self b = m /\
    BIP.problem b = BIP.problem b0 /\
    mapM (fun split =>
            BIP.heur_model np_log gf mgf npeml b0 split obj weight)
         (range (BIP.num_windows m)) = Ok (BIP.heur_problem b).
Proof.
  unfold BIP.create_cpx_problem. intros H.
  assert (H' :
    bind (BIP.exact_model np_log gf mgf m bp rate obj weight)
      (fun b0 =>
         bind (BIP.modified None (BIP.problem b0))
           (fun p =>
              bind (mapM
                      (fun split =>
                         bind (BIP.heur_model np_log gf mgf npeml b0 split
                                 obj weight)
                              (BIP.modified None))
                      (range (BIP.num_windows m)))
                (fun hs =>
                   Ok {| BIP.self := m; BIP.bprop := bp;
                         BIP.default_cx_error_rate := rate;
                         BIP.w_dict := BIP.w_dict b0;
                         BIP.y_dict := BIP.y_dict b0;
                         BIP.x_dict := BIP.x_dict b0;
                         BIP.z_dict := BIP.z_dict b0;
                         BIP.problem := p; BIP.heur_problem := hs |})))
    = Ok b).
  { destruct bp, rate; try discriminate H; exact H. }
  clear H. bind_as H' b0 Hb0. bind_as H' p Hp. bind_as H' hs Hhs.
  injection Hp as <-. injection H' as <-.
  exists b0. cbn [BIP.self BIP.problem BIP.heur_problem].
  repeat split; try reflexivity; try exact Hb0.
  rewrite <- Hhs. apply mapM_ext. intros split.
  unfold BIP.modified. symmetry. apply bind_Ok_r.
Qed.

End BuilderFacts.

(** ** The circuit without two-qubit gates *)

Lemma with_dummy_steps_nil_iff {A} D (l : list (list A)) :
  with_dummy_steps D l = [] <-> l = [].
Proof.
  split; [|intros ->; reflexivity].
  destruct l as [|x [|y r]]; [reflexivity | discriminate | discriminate].
Qed.

Lemma exact_model_empty_schedule np_log gf mgf m bp rate obj weight :
  BIP.gates m = [] ->
  BIP.exact_model np_log gf mgf m bp rate obj weight = Raise IndexError.
Proof.
  intros Hnil. unfold BIP.exact_model, BIP.exact_variables,
    BIP.exact_main_constraints, BIP.depth.
  rewrite Hnil. reflexivity.
Qed.

(** C10.  A circuit without two-qubit gates gives an empty schedule
    ([depth = 0]); [create_cpx_problem] then raises [IndexError] at
    [self.gates[self.depth - 1]] (once the check of its arguments has
    passed) and returns no model.  With at least one layer holding a
    two-qubit gate that subscript is in range: it is the last real
    layer. *)
Theorem create_needs_a_two_qubit_layer :
  forall dag coupling subset D ns m,
    BIP.init dag coupling subset D ns = Ok m ->
    (real_layers dag = [] ->
     BIP.depth m = 0 /\
     forall np_log gf mgf npeml obj bp weight rate modifier,
       (bp = None -> rate = None -> False) ->
       BIP.create_cpx_problem np_log gf mgf npeml m obj bp weight rate
         modifier = Raise IndexError) /\
    (real_layers dag <> [] ->
     py_index (BIP.gates m) (Z.of_nat (BIP.depth m) - 1)
     = Ok (BIP.laygates_of (last (real_layers dag) [])) /\
     BIP.laygates_of (last (real_layers dag) []) <> []).
Proof.
  intros dag coupling subset D ns m Hinit.
  pose proof (init_fields _ _ _ _ _ _ Hinit) as (Hsu4 & Hgates & _).
  rewrite Hsu4 in Hgates. split.
  - intros Hnil. rewrite Hnil in Hgates. simpl in Hgates.
    split; [unfold BIP.depth; rewrite Hgates; reflexivity|].
    intros np_log gf mgf npeml obj bp weight rate modifier Hargs.
    unfold BIP.create_cpx_problem.
    rewrite (exact_model_empty_schedule np_log gf mgf m bp rate obj weight Hgates).
    destruct bp, rate; try reflexivity. exfalso. apply Hargs; reflexivity.
  - intros Hne.
    assert (Hne' : BIP.gates m <> []).
    { rewrite Hgates. intros H. apply with_dummy_steps_nil_iff in H.
      apply map_eq_nil in H. contradiction. }
    unfold BIP.depth. rewrite (py_index_last (BIP.gates m) [] Hne').
    pose proof (with_dummy_steps_layered D (map BIP.laygates_of (real_layers dag)))
      as Hlay.
    destruct Hlay as (_ & _ & _ & Hlast).
    { apply map_nonempty; [apply laygates_of_empty | apply real_layers_nonempty]. }
    rewrite <- Hgates in Hlast. rewrite length_map in Hlast.
    assert (Hlen : 1 <= length (real_layers dag))
      by (destruct (real_layers dag); [contradiction | simpl; lia]).
    destruct (Hlast Hlen) as [Heq Hnonempty].
    rewrite Heq in Hnonempty |- *.
    assert (Hl : nth (length (real_layers dag) - 1)
                   (map BIP.laygates_of (real_layers dag)) []
                 = BIP.laygates_of (last (real_layers dag) [])).
    { change (@nil Gate) with (BIP.laygates_of []). rewrite map_nth.
      f_equal. clear. induction (real_layers dag) as [|x l IH]; [reflexivity|].
      destruct l as [|y l]; [reflexivity|].
      simpl length in IH |- *. rewrite Nat.sub_succ, Nat.sub_0_r in IH |- *.
      exact IH. }
    rewrite Hl in Hnonempty |- *. split; [reflexivity|].
    apply is_empty_false. exact Hnonempty.
Qed.

(** The theorem at [circuit0], a single [h] gate. *)
Lemma create_needs_a_two_qubit_layer_example :
  build_on_line3 circuit0 1 1 "depth" = Raise IndexError.
Proof.
  pose (m := ltac:(ok_value (BIP.init circuit0 line3 [0; 1; 2] 1 1))).
  assert (Hm : BIP.init circuit0 line3 [0; 1; 2] 1 1 = Ok m) by reflexivity.
  unfold build_on_line3, build_weighted. rewrite Hm. cbn [bind].
  apply (proj1 (create_needs_a_two_qubit_layer _ _ _ _ _ _ Hm)).
  - reflexivity.
  - intros _ H. discriminate H.
Defined.

(** ** Assignment constraints and bijections *)

Definition sum_Z (l : list Z) : Z := fold_right Z.add 0%Z l.

(** [w] relates every logical qubit below [nv] to exactly one physical
    qubit below [np], and every physical qubit to exactly one logical
    qubit. *)
Definition is_bijection (nv np : nat) (w : nat -> nat -> Z) : Prop :=
  (forall q, q < nv -> exists! j, j < np /\ w q j = 1%Z) /\
  (forall j, j < np -> exists! q, q < nv /\ w q j = 1%Z).

Lemma sum_Z_app l1 l2 : sum_Z (l1 ++ l2) = (sum_Z l1 + sum_Z l2)%Z.
Proof.
  unfold sum_Z. induction l1 as [|x l1 IH]; simpl; [reflexivity|].
  rewrite IH. lia.
Qed.

Lemma range_S n : range (S n) = range n ++ [n].
Proof. unfold range. rewrite seq_S. reflexivity. Qed.

Lemma in_range i n : In i (range n) <-> i < n.
Proof. unfold range. rewrite in_seq. lia. Qed.

Lemma binary_sum_bounds (f : nat -> Z) n :
  (forall j, j < n -> f j = 0%Z \/ f j = 1%Z) ->
  (0 <= sum_Z (map f (range n)))%Z /\
  (sum_Z (map f (range n)) = 0%Z -> forall j, j < n -> f j = 0%Z).
Proof.
  induction n as [|n IH]; intros Hbin.
  - split; [simpl; lia | intros _ j Hj; lia].
  - rewrite range_S, map_app, sum_Z_app. cbn [map sum_Z fold_right].
    destruct IH as [Hpos Hzero]; [intros j Hj; apply Hbin; lia|].
    destruct (Hbin n ltac:(lia)) as [Hn|Hn]; rewrite Hn.
    + split; [lia|]. intros Hs j Hj.
      destruct (Nat.eq_dec j n) as [->|Hne]; [exact Hn|].
      apply Hzero; lia.
    + split; [lia|]. intros Hs. lia.
Qed.

(** Binary values that sum to one: exactly one of them is one. *)
Lemma binary_sum_one (f : nat -> Z) n :
  (forall j, j < n -> f j = 0%Z \/ f j = 1%Z) ->
  sum_Z (map f (range n)) = 1%Z ->
  exists! j, j < n /\ f j = 1%Z.
Proof.
  induction n as [|n IH]; intros Hbin Hsum.
  - simpl in Hsum. discriminate Hsum.
  - rewrite range_S, map_app, sum_Z_app in Hsum.
    cbn [map sum_Z fold_right] in Hsum.
    assert (Hbin' : (forall j, j < n -> f j = 0%Z \/ f j = 1%Z))
      by (intros j Hj; apply Hbin; lia).
    destruct (binary_sum_bounds f n Hbin') as [Hpos Hzero].
    destruct (Hbin n ltac:(lia)) as [Hn|Hn]; rewrite Hn in Hsum.
    + destruct (IH Hbin' ltac:(lia)) as [j [[Hj Hfj] Huniq]].
      exists j. split; [split; [lia | exact Hfj]|].
      intros j' [Hj' Hfj'].
      destruct (Nat.eq_dec j' n) as [->|Hne]; [lia|].
      apply Huniq. split; [lia | exact Hfj'].
    + exists n. split; [split; [lia | exact Hn]|].
      intros j' [Hj' Hfj'].
      destruct (Nat.eq_dec j' n) as [->|Hne]; [reflexivity|].
      rewrite (Hzero ltac:(lia) j' ltac:(lia)) in Hfj'. discriminate Hfj'.
Qed.

(** The value of a Python [sum] of variables. *)
Lemma eval_accumulate_Z a (l : list (LinExpr Z)) acc :
  eval a (fold_left Plus l acc) = (eval a acc + sum_Z (map (eval a) l))%Z.
Proof.
  revert acc. induction l as [|e l IH]; intros acc; simpl.
  - lia.
  - rewrite IH. simpl. unfold sum_Z. lia.
Qed.

Lemma eval_psum_refs a (f : nat -> Var) (l : list nat) :
  eval a (psum (map (fun j => Ref (f j)) l)) = sum_Z (map (fun j => a (f j)) l).
Proof.
  unfold psum. rewrite eval_accumulate_Z. rewrite map_map. simpl. reflexivity.
Qed.

Lemma in_w_keys d nv np t q j :
  t < d -> q < nv -> j < np -> In (W t q j) (BIP.w_keys d nv np).
Proof.
  intros Ht Hq Hj. unfold BIP.w_keys.
  apply in_flat_map. exists t. split; [apply in_range; exact Ht|].
  apply in_flat_map. exists q. split; [apply in_range; exact Hq|].
  apply in_map. apply in_range. exact Hj.
Qed.

Lemma in_assignment_vqubits d nv np t q :
  t < d -> q < nv ->
  In (ct (psum (map (fun j => Ref (W t q j)) (range np))) EQ (Num 1%Z)
         (assignment_vqubits_at q t))
     (BIP.assignment_vqubits d nv np).
Proof.
  intros Ht Hq. unfold BIP.assignment_vqubits.
  apply in_flat_map. exists t. split; [apply in_range; exact Ht|].
  apply (in_map (fun q => ct (psum (map (fun j => Ref (W t q j)) (range np)))
                          EQ (Num 1%Z) (assignment_vqubits_at q t))).
  apply in_range. exact Hq.
Qed.

Lemma in_assignment_pqubits d nv np t j :
  t < d -> j < np ->
  In (ct (psum (map (fun q => Ref (W t q j)) (range nv))) EQ (Num 1%Z)
         (assignment_pqubits_at j t))
     (BIP.assignment_pqubits d nv np).
Proof.
  intros Ht Hj. unfold BIP.assignment_pqubits.
  apply in_flat_map. exists t. split; [apply in_range; exact Ht|].
  apply (in_map (fun j => ct (psum (map (fun q => Ref (W t q j)) (range nv)))
                          EQ (Num 1%Z) (assignment_pqubits_at j t))).
  apply in_range. exact Hj.
Qed.

(** The two assignment constraints of step [t], as a model holds them. *)
Definition has_assignment_constraints (mdl : Model) (nv np t : nat) : Prop :=
  (forall q, q < nv ->
     In (ct (psum (map (fun j => Ref (W t q j)) (range np))) EQ (Num 1%Z)
            (assignment_vqubits_at q t))
        (constraints mdl)) /\
  (forall j, j < np ->
     In (ct (psum (map (fun q => Ref (W t q j)) (range nv))) EQ (Num 1%Z)
            (assignment_pqubits_at j t))
        (constraints mdl)).

(** A model with the assignment constraints of step [t] over declared
    [w] variables forces a bijection at [t]. *)
Lemma assignment_bijection (mdl : Model) nv np t a :
  has_assignment_constraints mdl nv np t ->
  (forall q j, q < nv -> j < np ->
               In (W t q j) (map var_name (variables mdl))) ->
  feasible mdl a ->
  is_bijection nv np (fun q j => a (W t q j)).
Proof.
  intros [Hv Hp] Hvars [Hbnd Hsat].
  assert (Hbin : forall q j, q < nv -> j < np ->
                   a (W t q j) = 0%Z \/ a (W t q j) = 1%Z).
  { intros q j Hq Hj. specialize (Hvars q j Hq Hj).
    apply in_map_iff in Hvars. destruct Hvars as [bv [Hname Hin]].
    rewrite Forall_forall in Hbnd. destruct (Hbnd bv Hin) as [Hb _].
    rewrite Hname in Hb. exact Hb. }
  rewrite Forall_forall in Hsat. split.
  - intros q Hq. specialize (Hsat _ (Hv q Hq)).
    unfold sat in Hsat. cbn [ct_sense ct ct_lhs ct_rhs] in Hsat.
    rewrite (eval_psum_refs a (fun j => W t q j)) in Hsat. simpl in Hsat.
    apply (binary_sum_one (fun j => a (W t q j)) np); [|exact Hsat].
    intros j Hj. apply Hbin; assumption.
  - intros j Hj. specialize (Hsat _ (Hp j Hj)).
    unfold sat in Hsat. cbn [ct_sense ct ct_lhs ct_rhs] in Hsat.
    rewrite (eval_psum_refs a (fun q => W t q j)) in Hsat. simpl in Hsat.
    apply (binary_sum_one (fun q => a (W t q j)) nv); [|exact Hsat].
    intros q Hq. apply Hbin; assumption.
Qed.

Lemma exact_has_assignment np_log gf mgf m bp rate obj weight b t :
  BIP.exact_model np_log gf mgf m bp rate obj weight = Ok b ->
  t < BIP.depth m ->
  has_assignment_constraints (BIP.problem b) (BIP.num_vqubits m)
    (BIP.num_pqubits m) t /\
  (forall q j, q < BIP.num_vqubits m -> j < BIP.num_pqubits m ->
               In (W t q j) (map var_name (variables (BIP.problem b)))).
Proof.
  intros Hb Ht. apply exact_model_ok in Hb.
  destruct Hb as (_ & _ & _ & _ & _ & Hkeys & _ & Hcs & _).
  split; [split|].
  - intros q Hq. rewrite Hcs. unfold exact_constraints.
    apply in_or_app. left. apply in_assignment_vqubits; assumption.
  - intros j Hj. rewrite Hcs. unfold exact_constraints.
    apply in_or_app. right. apply in_or_app. left.
    apply in_assignment_pqubits; assumption.
  - intros q j Hq Hj. rewrite Hkeys. unfold exact_keys.
    apply in_or_app. left. apply in_w_keys; assumption.
Qed.


(** ** Fixing the variables of a solved window *)

Definition names_of (mdl : Model) : list Var := map var_name (variables mdl).

Definition with_variables (mdl : Model) (vs : list BinaryVar) : Model :=
  {| variables := vs; constraints := constraints mdl;
     objective := objective mdl; time_limit := time_limit mdl;
     threads := threads mdl; randomseed := randomseed mdl |}.

(** The variable [bv] with both bounds at its solved value when it is one
    of the [fixed] ones, untouched otherwise. *)
Definition fixed_to (s : Var -> Q) (fixed : Var -> bool) (bv : BinaryVar)
  : BinaryVar :=
  if fixed (var_name bv)
  then {| var_name := var_name bv; lb := s (var_name bv); ub := s (var_name bv) |}
  else bv.

Lemma has_var_In mdl v : BIP.has_var mdl v = true <-> In v (names_of mdl).
Proof.
  unfold BIP.has_var, names_of. rewrite existsb_exists, in_map_iff.
  split; intros [bv [H1 H2]]; exists bv.
  - apply Var_eqb_eq in H2. split; assumption.
  - split; [exact H2 | apply Var_eqb_eq; exact H1].
Qed.

Lemma names_of_fixed_to s fixed vs :
  map var_name (map (fixed_to s fixed) vs) = map var_name vs.
Proof.
  rewrite map_map. apply map_ext. intros bv. unfold fixed_to.
  destruct (fixed (var_name bv)); reflexivity.
Qed.

Lemma fix_variables_app cur sol l1 l2 next :
  BIP.fix_variables cur sol (l1 ++ l2) next
  = bind (BIP.fix_variables cur sol l1 next) (BIP.fix_variables cur sol l2).
Proof.
  unfold BIP.fix_variables. rewrite fold_left_app.
  generalize (fold_left
                (fun (acc : result Model) name =>
                   bind acc (fun nx =>
                     bind (BIP.solution_value cur sol name)
                          (fun val => BIP.fix_bounds nx name val)))
                l1 (Ok next)).
  intros r. destruct r as [mdl|e]; [reflexivity|].
  induction l2 as [|x l2 IH]; [reflexivity | exact IH].
Qed.

Lemma fix_variables_ok cur s names next :
  (forall v, In v names -> In v (names_of cur) /\ In v (names_of next)) ->
  BIP.fix_variables cur (Some s) names next
  = Ok (with_variables next
          (map (fixed_to s (stored names)) (variables next))).
Proof.
  revert next. induction names as [|n names IH]; intros next Hin.
  - unfold BIP.fix_variables. simpl. f_equal. destruct next. unfold with_variables.
    cbn. f_equal. unfold fixed_to, stored. simpl. symmetry. apply map_id.
  - change (n :: names) with ([n] ++ names). rewrite fix_variables_app.
    destruct (Hin n ltac:(left; reflexivity)) as [Hc Hn].
    unfold BIP.fix_variables at 1. cbn [fold_left bind].
    unfold BIP.solution_value, BIP.fix_bounds.
    rewrite (proj2 (has_var_In cur n) Hc), (proj2 (has_var_In next n) Hn).
    cbn [bind].
    set (next1 := {| variables := _ |}).
    rewrite (IH next1).
    + f_equal. unfold with_variables, next1. cbn. f_equal.
      rewrite map_map. apply map_ext. intros bv.
      unfold fixed_to, stored. cbn [existsb app].
      destruct (Var_eqb (var_name bv) n) eqn:E.
      * apply Var_eqb_eq in E. cbn [var_name]. rewrite E.
        cbn [orb]. destruct (existsb (Var_eqb n) names); reflexivity.
      * cbn [orb]. reflexivity.
    + intros v Hv. destruct (Hin v ltac:(right; exact Hv)) as [Hvc Hvn].
      split; [exact Hvc|].
      unfold names_of, next1. cbn [variables]. rewrite map_map.
      unfold names_of in Hvn. apply in_map_iff in Hvn.
      destruct Hvn as [bv [Hname Hbv]]. apply in_map_iff.
      exists bv. split; [|exact Hbv].
      destruct (Var_eqb (var_name bv) n) eqn:E; [|exact Hname].
      apply Var_eqb_eq in E. cbn [var_name]. congruence.
Qed.

(** The variables one time step of lines 786-818 fixes, in order. *)
Definition step_names (m : BIP.BIPMappingModel) (split t : nat) : list Var :=
  BIP.w_names_at m t
  ++ BIP.y_names_at m t (nth t (BIP.heur_gates_of m split) [])
  ++ (if t <? BIP.heur_last_layer_of m split - 1 then BIP.x_names_at m t
      else [])
  ++ (if is_dummy m t then [Zv t] else []).

Definition window_names (m : BIP.BIPMappingModel) (split : nat) : list Var :=
  flat_map (step_names m split) (range (BIP.heur_last_layer_of m split)).

Lemma fix_variables_nil cur sol next :
  BIP.fix_variables cur sol [] next = Ok next.
Proof. reflexivity. Qed.

Lemma fix_time_step_eq b split cur sol t next :
  t < length (BIP.heur_gates_of (BIP.self b) split) ->
  t < length (BIP.gates (BIP.self b)) ->
  BIP.fix_time_step b split cur sol t next
  = BIP.fix_variables cur sol (step_names (BIP.self b) split t) next.
Proof.
  intros Hhg Hg. unfold BIP.fix_time_step, step_names.
  unfold BIP.gates_at, BIP._is_dummy_step.
  rewrite (py_index_ok _ _ [] Hhg), (py_index_ok _ _ [] Hg). cbn [bind].
  fold (is_dummy (BIP.self b) t). rewrite fix_variables_app.
  destruct (BIP.fix_variables cur sol (BIP.w_names_at (BIP.self b) t) next)
    as [n1|e]; [|reflexivity].
  cbn [bind]. rewrite fix_variables_app.
  destruct (BIP.fix_variables cur sol (BIP.y_names_at _ _ _) n1)
    as [n2|e]; [|reflexivity].
  cbn [bind]. rewrite fix_variables_app.
  destruct (t <? BIP.heur_last_layer_of (BIP.self b) split - 1).
  - destruct (BIP.fix_variables cur sol (BIP.x_names_at _ _) n2)
      as [n3|e]; [|reflexivity].
    cbn [bind]. destruct (is_dummy (BIP.self b) t); reflexivity.
  - rewrite fix_variables_nil. cbn [bind].
    destruct (is_dummy (BIP.self b) t); reflexivity.
Qed.

Lemma bind_Ok_id {A} (r : result A) : bind r (fun x => Ok x) = r.
Proof. destruct r; reflexivity. Qed.

Lemma fix_steps_eq b split cur sol ts (r : result Model) :
  (forall t, In t ts ->
     t < length (BIP.heur_gates_of (BIP.self b) split)
     /\ t < length (BIP.gates (BIP.self b))) ->
  fold_left
    (fun (acc : result Model) t =>
       bind acc (fun nx => BIP.fix_time_step b split cur sol t nx))
    ts r
  = bind r (BIP.fix_variables cur sol
              (flat_map (step_names (BIP.self b) split) ts)).
Proof.
  revert r. induction ts as [|t ts IH]; intros r Hts.
  - cbn [fold_left flat_map]. destruct r; reflexivity.
  - cbn [fold_left flat_map]. rewrite IH.
    2:{ intros t' Ht'. apply Hts. right. exact Ht'. }
    destruct (Hts t ltac:(left; reflexivity)) as [Hhg Hg].
    destruct r as [nx|e]; [|reflexivity].
    cbn [bind]. rewrite fix_variables_app.
    rewrite (fix_time_step_eq b split cur sol t nx Hhg Hg). reflexivity.
Qed.

Lemma fix_window_eq b split cur sol next :
  BIP.heur_last_layer_of (BIP.self b) split
  <= length (BIP.heur_gates_of (BIP.self b) split) ->
  BIP.heur_last_layer_of (BIP.self b) split <= length (BIP.gates (BIP.self b)) ->
  BIP.fix_window b split cur sol next
  = BIP.fix_variables cur sol (window_names (BIP.self b) split) next.
Proof.
  intros Hhg Hg. unfold BIP.fix_window, window_names.
  rewrite fix_steps_eq; [reflexivity|].
  intros t Ht. apply in_range in Ht. lia.
Qed.

(** Which variables the window [split] fixes, read off lines 786-818:
    [w] for every step below the boundary depth, [y] for the gates of
    those steps, [x] (self loops included) for every step but the last
    one below the boundary, [z] for the dummy steps below it. *)
Definition is_fixed (m : BIP.BIPMappingModel) (split : nat) (v : Var) : bool :=
  let hll := BIP.heur_last_layer_of m split in
  match v with
  | W t q j =>
      (t <? hll) && (q <? BIP.num_vqubits m) && (j <? BIP.num_pqubits m)
  | Y t p q i j =>
      (t <? hll)
      && existsb (fun g : Gate =>
                    (fst (fst g) =? p) && (snd (fst g) =? q))
                 (nth t (BIP.heur_gates_of m split) [])
      && existsb (fun a : nat * nat => (fst a =? i) && (snd a =? j))
                 (BIP._arcs m)
  | X t q i j =>
      (t <? hll - 1) && (q <? BIP.num_vqubits m) && (i <? BIP.num_pqubits m)
      && (BIP.mem_nat j (neighbors (BIP._coupling m) i) || (j =? i))
  | Zv t => (t <? hll) && is_dummy m t
  end.

Lemma in_w_names_at m t v :
  In v (BIP.w_names_at m t)
  <-> exists q j, q < BIP.num_vqubits m /\ j < BIP.num_pqubits m
                  /\ v = W t q j.
Proof.
  unfold BIP.w_names_at. rewrite in_flat_map. split.
  - intros [q [Hq Hv]]. apply in_map_iff in Hv. destruct Hv as [j [Hj Hjn]].
    apply in_range in Hq, Hjn. exists q, j. auto.
  - intros [q [j [Hq [Hj Hv]]]]. exists q. split; [apply in_range; exact Hq|].
    apply in_map_iff. exists j. split; [auto | apply in_range; exact Hj].
Qed.

Lemma in_y_names_at m t lay v :
  In v (BIP.y_names_at m t lay)
  <-> exists g a, In g lay /\ In a (BIP._arcs m)
                  /\ v = Y t (fst (fst g)) (snd (fst g)) (fst a) (snd a).
Proof.
  unfold BIP.y_names_at. rewrite in_flat_map. split.
  - intros [[[p q] n] [Hg Hv]]. apply in_map_iff in Hv.
    destruct Hv as [a [Ha Hin]]. exists (p, q, n), a. auto.
  - intros [[[p q] n] [a [Hg [Ha Hv]]]]. exists (p, q, n).
    split; [exact Hg|]. apply in_map_iff. exists a. auto.
Qed.

Lemma in_x_names_at m t v :
  In v (BIP.x_names_at m t)
  <-> exists q i j, q < BIP.num_vqubits m /\ i < BIP.num_pqubits m
                    /\ (In j (neighbors (BIP._coupling m) i) \/ j = i)
                    /\ v = X t q i j.
Proof.
  unfold BIP.x_names_at. rewrite in_flat_map. split.
  - intros [q [Hq Hv]]. apply in_flat_map in Hv. destruct Hv as [i [Hi Hv]].
    apply in_map_iff in Hv. destruct Hv as [j [Hj Hjn]].
    apply in_range in Hq, Hi. exists q, i, j.
    repeat split; auto. apply in_app_iff in Hjn.
    destruct Hjn as [H|[H|[]]]; auto.
  - intros [q [i [j [Hq [Hi [Hj Hv]]]]]]. exists q.
    split; [apply in_range; exact Hq|]. apply in_flat_map. exists i.
    split; [apply in_range; exact Hi|]. apply in_map_iff. exists j.
    split; [auto|]. apply in_app_iff. destruct Hj as [H|H]; [left; exact H|].
    right. left. auto.
Qed.

Lemma mem_nat_In q l : BIP.mem_nat q l = true <-> In q l.
Proof.
  unfold BIP.mem_nat. rewrite existsb_exists. split.
  - intros [x [Hx E]]. apply Nat.eqb_eq in E. subst. exact Hx.
  - intros H. exists q. split; [exact H | apply Nat.eqb_refl].
Qed.

Lemma in_window_names m split v :
  In v (window_names m split) <-> is_fixed m split v = true.
Proof.
  unfold window_names. rewrite in_flat_map. split.
  - intros [t [Ht Hv]]. apply in_range in Ht. unfold step_names in Hv.
    rewrite !in_app_iff in Hv. destruct Hv as [Hv|[Hv|[Hv|Hv]]].
    + apply in_w_names_at in Hv. destruct Hv as [q [j [Hq [Hj ->]]]].
      cbn [is_fixed]. rewrite !andb_true_iff, !Nat.ltb_lt. auto.
    + apply in_y_names_at in Hv. destruct Hv as [g [a [Hg [Ha ->]]]].
      cbn [is_fixed]. rewrite !andb_true_iff, Nat.ltb_lt. repeat split.
      * exact Ht.
      * apply existsb_exists. exists g. split; [exact Hg|].
        rewrite !Nat.eqb_refl. reflexivity.
      * apply existsb_exists. exists a. split; [exact Ha|].
        rewrite !Nat.eqb_refl. reflexivity.
    + destruct (t <? BIP.heur_last_layer_of m split - 1) eqn:E; [|destruct Hv].
      apply in_x_names_at in Hv.
      destruct Hv as [q [i [j [Hq [Hi [Hj ->]]]]]].
      cbn [is_fixed]. rewrite E, !andb_true_iff, orb_true_iff, !Nat.ltb_lt.
      rewrite mem_nat_In, Nat.eqb_eq. auto.
    + destruct (is_dummy m t) eqn:E; [|destruct Hv].
      destruct Hv as [<-|[]]. cbn [is_fixed].
      rewrite E, andb_true_iff, Nat.ltb_lt. auto.
  - intros H. destruct v as [t q j|t p q i j|t q i j|t]; cbn [is_fixed] in H.
    + rewrite !andb_true_iff, !Nat.ltb_lt in H. destruct H as [[Ht Hq] Hj].
      exists t. split; [apply in_range; exact Ht|]. unfold step_names.
      apply in_app_iff. left. apply in_w_names_at. exists q, j. auto.
    + rewrite !andb_true_iff, Nat.ltb_lt in H. destruct H as [[Ht Hg] Ha].
      apply existsb_exists in Hg, Ha.
      destruct Hg as [g [Hg Eg]]. destruct Ha as [a [Ha Ea]].
      rewrite andb_true_iff, !Nat.eqb_eq in Eg, Ea.
      destruct Eg as [<- <-]. destruct Ea as [<- <-].
      exists t. split; [apply in_range; exact Ht|]. unfold step_names.
      apply in_app_iff. right. apply in_app_iff. left.
      apply in_y_names_at. exists g, a. auto.
    + rewrite !andb_true_iff, orb_true_iff in H.
      destruct H as [[[Ht Hq] Hi] Hj].
      rewrite mem_nat_In, Nat.eqb_eq in Hj.
      exists t. split.
      * apply in_range. apply Nat.ltb_lt in Ht. lia.
      * unfold step_names. rewrite Ht. rewrite !in_app_iff.
        right. right. left. apply in_x_names_at.
        apply Nat.ltb_lt in Hq, Hi. exists q, i, j. auto.
    + rewrite andb_true_iff, Nat.ltb_lt in H. destruct H as [Ht Hd].
      exists t. split; [apply in_range; exact Ht|]. unfold step_names.
      rewrite Hd. rewrite !in_app_iff. right. right. right. left. reflexivity.
Qed.

Lemma stored_window_names m split v :
  stored (window_names m split) v = is_fixed m split v.
Proof.
  destruct (is_fixed m split v) eqn:E.
  - apply stored_In. apply in_window_names. exact E.
  - destruct (stored (window_names m split) v) eqn:S; [|reflexivity].
    apply stored_In in S. apply in_window_names in S. congruence.
Qed.

(** The keys of a model over the schedule [hg] of [d] steps, with moves
    along [nbrs] and a [z] variable for the dummy steps below [zr]. *)
Definition keys_of (m : BIP.BIPMappingModel) (hg : list (list Gate))
  (nbrs : nat -> nat -> list nat) (d zr : nat) : list Var :=
  BIP.w_keys d (BIP.num_vqubits m) (BIP.num_pqubits m)
  ++ y_keys_flat hg (BIP._arcs m) d
  ++ BIP.x_keys nbrs d (BIP.num_vqubits m) (BIP.num_pqubits m)
  ++ z_keys_flat m (range zr).

Lemma exact_keys_of m :
  exact_keys m
  = keys_of m (BIP.gates m) (fun _ => neighbors (BIP._coupling m))
      (BIP.depth m) (BIP.depth m).
Proof. reflexivity. Qed.

Lemma heur_keys_of m split :
  heur_keys m split
  = keys_of m (BIP.heur_gates_of m split) (BIP.heur_neighbors m split)
      (length (BIP.heur_gates_of m split)) (BIP.heur_last_layer_of m split).
Proof. reflexivity. Qed.

Lemma fixed_in_keys m split hg nbrs d zr v :
  BIP.heur_last_layer_of m split <= d ->
  BIP.heur_last_layer_of m split <= zr ->
  (forall t, t < BIP.heur_last_layer_of m split ->
             nth t hg [] = nth t (BIP.heur_gates_of m split) []) ->
  (forall t i, t < BIP.heur_last_layer_of m split - 1 ->
               nbrs t i = neighbors (BIP._coupling m) i) ->
  is_fixed m split v = true ->
  In v (keys_of m hg nbrs d zr).
Proof.
  intros Hd Hzr Hhg Hnb H. unfold keys_of. rewrite !in_app_iff.
  destruct v as [t q j|t p q i j|t q i j|t]; cbn [is_fixed] in H.
  - rewrite !andb_true_iff, !Nat.ltb_lt in H. destruct H as [[Ht Hq] Hj].
    left. unfold BIP.w_keys. apply in_flat_map. exists t.
    split; [apply in_range; lia|]. apply in_flat_map. exists q.
    split; [apply in_range; exact Hq|]. apply in_map_iff. exists j.
    split; [reflexivity | apply in_range; exact Hj].
  - rewrite !andb_true_iff, Nat.ltb_lt in H. destruct H as [[Ht Hg] Ha].
    apply existsb_exists in Hg, Ha.
    destruct Hg as [[[p' q'] n] [Hg Eg]]. destruct Ha as [a [Ha Ea]].
    rewrite andb_true_iff, !Nat.eqb_eq in Eg, Ea. cbn [fst snd] in Eg.
    destruct Eg as [-> ->]. destruct Ea as [<- <-].
    right. left. unfold y_keys_flat. apply in_flat_map. exists t.
    split; [apply in_range; lia|]. apply in_flat_map. exists (p, q, n).
    split; [rewrite (Hhg t Ht); exact Hg|].
    apply in_map_iff. exists a. auto.
  - rewrite !andb_true_iff, orb_true_iff, !Nat.ltb_lt in H.
    destruct H as [[[Ht Hq] Hi] Hj]. rewrite mem_nat_In, Nat.eqb_eq in Hj.
    right. right. left. unfold BIP.x_keys. apply in_flat_map. exists t.
    split; [apply in_range; lia|]. apply in_flat_map. exists q.
    split; [apply in_range; exact Hq|]. apply in_flat_map. exists i.
    split; [apply in_range; exact Hi|]. rewrite (Hnb t i Ht).
    destruct Hj as [Hj| ->]; [right | left; reflexivity].
    apply in_map_iff. exists j. auto.
  - rewrite andb_true_iff, Nat.ltb_lt in H. destruct H as [Ht Hz].
    right. right. right. unfold z_keys_flat. apply in_flat_map. exists t.
    split; [apply in_range; lia|]. rewrite Hz. left. reflexivity.
Qed.

(** Window [s] against the full schedule and against the next window. *)
Lemma window_schedule m D s :
  windows_ok m D ->
  BIP.gates m = with_dummy_steps D (BIP.su4layers m) ->
  s < BIP.num_windows m ->
  BIP.heur_last_layer_of m s <= length (BIP.heur_gates_of m s)
  /\ BIP.heur_last_layer_of m s <= BIP.depth m
  /\ (forall t, t < BIP.heur_last_layer_of m s ->
                nth t (BIP.heur_gates_of m s) [] = nth t (BIP.gates m) [])
  /\ (s + 1 < BIP.num_windows m ->
      BIP.heur_last_layer_of m s < BIP.heur_last_layer_of m (s + 1)).
Proof.
  intros Hw Hg Hs.
  pose proof (wo_boundary_lt _ _ Hw s Hs) as HK.
  pose proof (wo_gates _ _ Hw s Hs) as Hhg.
  pose proof (wo_last _ _ Hw s Hs) as Hlast.
  set (K := boundary_layer m s) in *.
  set (L := length (BIP.su4layers m)) in *.
  repeat split.
  - rewrite Hhg, Hlast, length_app, padded_length, length_firstn, length_skipn.
    fold L. rewrite Nat.min_l by lia. lia.
  - unfold BIP.depth. rewrite Hg, with_dummy_steps_length, Hlast. fold L.
    assert (HKL : K + 2 <= L) by lia.
    replace (L - 1) with (L - 2 + 1) by lia.
    assert (K * (D + 1) <= (L - 2) * (D + 1))
      by (apply Nat.mul_le_mono_r; lia).
    nia.
  - intros t Ht. rewrite Hhg, Hg. apply window_prefix; [fold L; lia|].
    rewrite <- Hlast. exact Ht.
  - intros Hs'. rewrite Hlast, (wo_last _ _ Hw (s + 1) Hs').
    pose proof (wo_boundary_mono _ _ Hw s Hs') as Hmono. fold K in Hmono.
    assert (K * (D + 1) < boundary_layer m (s + 1) * (D + 1))
      by (apply Nat.mul_lt_mono_pos_r; lia).
    lia.
Qed.

(** ** The loop over the windows *)

Lemma fixed_names_known m D s v :
  windows_ok m D ->
  BIP.gates m = with_dummy_steps D (BIP.su4layers m) ->
  s < BIP.num_windows m ->
  is_fixed m s v = true ->
  In v (heur_keys m s)
  /\ In v (exact_keys m)
  /\ (s + 1 < BIP.num_windows m -> In v (heur_keys m (s + 1))).
Proof.
  intros Hw Hg Hs Hv.
  destruct (window_schedule m D s Hw Hg Hs) as (Hlen & Hdepth & Hpre & Hnext).
  split; [|split].
  - rewrite heur_keys_of. apply (fixed_in_keys m s); auto.
    intros t i Ht. unfold BIP.heur_neighbors.
    destruct (Nat.ltb_spec t (BIP.heur_last_layer_of m s - 1)); [reflexivity|lia].
  - rewrite exact_keys_of. apply (fixed_in_keys m s); auto.
    intros t Ht. symmetry. apply Hpre. exact Ht.
  - intros Hs'. specialize (Hnext Hs').
    destruct (window_schedule m D (s + 1) Hw Hg Hs') as (Hlen' & _ & Hpre' & _).
    rewrite heur_keys_of. apply (fixed_in_keys m s); auto; try lia.
    + intros t Ht. rewrite Hpre' by lia. symmetry. apply Hpre. exact Ht.
    + intros t i Ht. unfold BIP.heur_neighbors.
      destruct (Nat.ltb_spec t (BIP.heur_last_layer_of m (s + 1) - 1));
        [reflexivity|lia].
Qed.

Lemma fix_bounds_names mdl n val mdl' :
  BIP.fix_bounds mdl n val = Ok mdl' -> names_of mdl' = names_of mdl.
Proof.
  unfold BIP.fix_bounds. destruct (BIP.has_var mdl n); [|discriminate].
  intros H. injection H as <-. unfold names_of. cbn [variables].
  rewrite map_map. apply map_ext. intros bv.
  destruct (Var_eqb (var_name bv) n) eqn:E; [|reflexivity].
  apply Var_eqb_eq in E. cbn [var_name]. congruence.
Qed.

Lemma fix_variables_names cur sol names next next' :
  BIP.fix_variables cur sol names next = Ok next' ->
  names_of next' = names_of next.
Proof.
  revert next. induction names as [|n names IH]; intros next H.
  - rewrite fix_variables_nil in H. injection H as <-. reflexivity.
  - change (n :: names) with ([n] ++ names) in H.
    rewrite fix_variables_app in H. bind_as H n1 Hn1.
    unfold BIP.fix_variables in Hn1. cbn [fold_left bind] in Hn1.
    bind_as Hn1 val Hval. apply fix_bounds_names in Hn1.
    rewrite (IH _ H). exact Hn1.
Qed.

Lemma map_replace_nth_same {A B} (f : A -> B) (l : list A) i v d :
  i < length l -> f v = f (nth i l d) ->
  map f (BIP.replace_nth l i v) = map f l.
Proof.
  revert i. induction l as [|x l IH]; intros i Hi Hv; [simpl in Hi; lia|].
  destruct i as [|i].
  - unfold BIP.replace_nth. cbn. cbn in Hv. rewrite Hv. reflexivity.
  - unfold BIP.replace_nth in *. cbn [firstn skipn app map].
    cbn [nth] in Hv. f_equal. apply IH; [simpl in Hi; lia | exact Hv].
Qed.

Lemma nth_replace_nth_same {A} (l : list A) i v d :
  i < length l -> nth i (BIP.replace_nth l i v) d = v.
Proof.
  intros Hi. apply nth_error_nth. apply nth_error_replace_nth_same. exact Hi.
Qed.

Lemma nth_replace_nth_below {A} (l : list A) i j v d :
  j < i -> i < length l -> nth j (BIP.replace_nth l i v) d = nth j l d.
Proof.
  intros Hj Hi. unfold BIP.replace_nth.
  rewrite app_nth1 by (rewrite length_firstn, Nat.min_l; lia).
  rewrite <- (firstn_skipn i l) at 2.
  rewrite app_nth1 by (rewrite length_firstn, Nat.min_l; lia). reflexivity.
Qed.

Lemma nth_replace_nth_above {A} (l : list A) i j v d :
  i < j -> nth j (BIP.replace_nth l i v) d = nth j l d.
Proof.
  revert i j. induction l as [|x l IH]; intros i j Hij.
  - unfold BIP.replace_nth. rewrite firstn_nil, skipn_nil. cbn [app].
    destruct j as [|j]; [lia|]. cbn [nth]. destruct j; reflexivity.
  - destruct j as [|j]; [lia|]. destruct i as [|i]; [reflexivity|].
    unfold BIP.replace_nth in *. cbn [firstn skipn app nth].
    apply IH. lia.
Qed.

(** Every model of the state has the variables its builder declared. *)
Definition names_ok (m : BIP.BIPMappingModel) (st : BIP.Built) : Prop :=
  BIP.self st = m
  /\ map names_of (BIP.heur_problem st)
     = map (heur_keys m) (range (BIP.num_windows m))
  /\ names_of (BIP.problem st) = exact_keys m.

Lemma names_at m n hs k h :
  map names_of hs = map (heur_keys m) (range n) ->
  nth_error hs k = Some h ->
  k < n /\ names_of h = heur_keys m k.
Proof.
  intros Hmap Hk.
  assert (Hlen : length hs = n).
  { apply (f_equal (@length _)) in Hmap.
    rewrite !length_map in Hmap. unfold range in Hmap.
    rewrite length_seq in Hmap. exact Hmap. }
  assert (Hkn : k < n).
  { rewrite <- Hlen. apply nth_error_Some. congruence. }
  split; [exact Hkn|].
  pose proof (map_nth_error names_of k hs Hk) as H1.
  rewrite Hmap in H1.
  assert (H2 : nth_error (range n) k = Some k).
  { unfold range. rewrite nth_error_seq.
    destruct (Nat.ltb_spec k n); [reflexivity | lia]. }
  rewrite (map_nth_error (heur_keys m) k (range n) H2) in H1.
  congruence.
Qed.

Lemma names_length m st :
  names_ok m st -> length (BIP.heur_problem st) = BIP.num_windows m.
Proof.
  intros (_ & Hmap & _). apply (f_equal (@length _)) in Hmap.
  rewrite !length_map in Hmap. unfold range in Hmap.
  rewrite length_seq in Hmap. exact Hmap.
Qed.

Section FixingLoop.

Variable cplex_solve : Model -> option (Var -> Q) * string.

Lemma solve_split_names m D st T thr split st' :
  windows_ok m D ->
  BIP.gates m = with_dummy_steps D (BIP.su4layers m) ->
  names_ok m st ->
  split < BIP.num_windows m ->
  BIP.solve_split cplex_solve st T thr split = Ok st' ->
  names_ok m st'.
Proof.
  intros Hw Hg Hok Hs H.
  pose proof (names_length m st Hok) as Hlen.
  destruct Hok as (Hself & Hmap & Hex).
  destruct (window_schedule m D split Hw Hg Hs) as (Hl1 & Hl2 & _ & _).
  unfold BIP.solve_split in H.
  bind_as H time Htime. bind_as H h Hh.
  apply (py_index_inv _ _ _ h) in Hh. destruct Hh as [Hsl Hh].
  set (h' := BIP.set_parameters (BIP.set_time_limit h time) thr) in *.
  set (hs := BIP.replace_nth (BIP.heur_problem st) split h') in *.
  assert (Hhs : map names_of hs = map names_of (BIP.heur_problem st)).
  { apply (map_replace_nth_same names_of _ split h' h Hsl).
    rewrite <- Hh. reflexivity. }
  assert (Hfixeq : forall next,
            BIP.fix_window st split h' (fst (cplex_solve h')) next
            = BIP.fix_variables h' (fst (cplex_solve h'))
                (window_names (BIP.self st) split) next).
  { intros next. apply fix_window_eq; rewrite Hself; assumption. }
  destruct (_ <? _)%Z.
  - bind_as H next Hnext.
    replace (Z.of_nat split + 1)%Z with (Z.of_nat (split + 1)) in Hnext by lia.
    apply (py_index_inv _ _ _ h) in Hnext. destruct Hnext as [Hsl' Hnext].
    bind_as H next' Hfix. rewrite Hfixeq in Hfix.
    apply fix_variables_names in Hfix. injection H as <-.
    unfold names_ok. cbn [BIP.self BIP.with_problems BIP.heur_problem BIP.problem].
    split; [exact Hself|]. split; [|exact Hex].
    rewrite (map_replace_nth_same names_of hs (split + 1) next' h Hsl').
    + rewrite Hhs. exact Hmap.
    + rewrite <- Hnext. exact Hfix.
  - bind_as H next' Hfix. rewrite Hfixeq in Hfix.
    apply fix_variables_names in Hfix. injection H as <-.
    unfold names_ok. cbn [BIP.self BIP.with_problems BIP.heur_problem BIP.problem].
    split; [exact Hself|]. split; [rewrite Hhs; exact Hmap|].
    rewrite Hfix. exact Hex.
Qed.

(** The state after the loop of line 761 ran for the windows below [k]. *)
Definition windows_solved (b : BIP.Built) (T : float) (thr : option nat)
  (k : nat) : result BIP.Built :=
  fold_left
    (fun (acc : result BIP.Built) split =>
       bind acc (fun st => BIP.solve_split cplex_solve st T thr split))
    (range k) (Ok b).

Lemma windows_solved_names m D b T thr k st :
  windows_ok m D ->
  BIP.gates m = with_dummy_steps D (BIP.su4layers m) ->
  names_ok m b ->
  k <= BIP.num_windows m ->
  windows_solved b T thr k = Ok st ->
  names_ok m st.
Proof.
  intros Hw Hg Hb. revert st. induction k as [|k IH]; intros st Hk H.
  - unfold windows_solved in H. simpl in H. injection H as <-. exact Hb.
  - unfold windows_solved in H. rewrite range_S, fold_left_app in H.
    cbn [fold_left] in H. bind_as H st1 Hst1.
    apply (solve_split_names m D st1 T thr k st Hw Hg); [|lia|exact H].
    apply IH; [lia | exact Hst1].
Qed.

End FixingLoop.

(** ** Fixing a solved window into the next model *)

Lemma names_of_binary_var keys :
  map var_name (map binary_var keys) = keys.
Proof. rewrite map_map. cbn [binary_var var_name]. apply map_id. Qed.

Lemma create_names_ok np_log gf mgf npeml m obj bp weight rate b :
  BIP.create_cpx_problem np_log gf mgf npeml m obj bp weight rate None
  = Ok b ->
  names_ok m b.
Proof.
  intros H.
  destruct (create_cpx_problem_ok np_log gf mgf npeml m obj bp weight rate b H)
    as (b0 & Hb0 & Hself & Hprob & Hheur).
  destruct (exact_model_ok np_log gf mgf m bp rate obj weight b0 Hb0)
    as (Hself0 & _ & _ & _ & _ & Hnames & _).
  unfold names_ok. split; [exact Hself|]. split.
  - apply mapM_Forall2 in Hheur. clear H Hb0 Hprob Hnames.
    induction Hheur as [|k h ks hs Hk _ IH]; [reflexivity|].
    cbn [map]. f_equal; [|exact IH].
    apply heur_model_ok in Hk. destruct Hk as (Hv & _).
    unfold names_of. rewrite Hv, Hself0. apply names_of_binary_var.
  - unfold names_of. rewrite Hprob. exact Hnames.
Qed.

(** Lines 781-784: the model the values of window [split] are copied
    into. *)
Definition next_problem (st : BIP.Built) (split : nat) : option Model :=
  if (Z.of_nat split <? BIP._num_splits (BIP.self st) - 2)%Z
  then nth_error (BIP.heur_problem st) (split + 1)
  else Some (BIP.problem st).

Section Fixing.

Variable cplex_solve : Model -> option (Var -> Q) * string.

Lemma solve_split_fixes m D st T thr split h s :
  windows_ok m D ->
  BIP.gates m = with_dummy_steps D (BIP.su4layers m) ->
  (1 < BIP._num_splits m)%Z ->
  names_ok m st ->
  split < BIP.num_windows m ->
  nth_error (BIP.heur_problem st) split = Some h ->
  fst (cplex_solve
         (BIP.set_parameters
            (BIP.set_time_limit h (share (BIP._num_splits m) T split)) thr))
  = Some s ->
  exists st' next,
    BIP.solve_split cplex_solve st T thr split = Ok st'
    /\ next_problem st split = Some next
    /\ next_problem st' split
       = Some (with_variables next
                 (map (fixed_to s (is_fixed m split)) (variables next))).
Proof.
  intros Hw Hg Hsplits Hok Hs Hh Hsol.
  pose proof (names_length m st Hok) as Hlen.
  pose proof Hok as (Hself & Hmap & Hex).
  destruct (window_schedule m D split Hw Hg Hs) as (Hl1 & Hl2 & _ & _).
  destruct (names_at m _ _ _ _ Hmap Hh) as [_ Hhn].
  unfold BIP.solve_split, next_problem. rewrite Hself.
  rewrite (heur_time_limit_total (BIP._num_splits m) T split) by lia.
  cbn [bind].
  assert (Hsl : split < length (BIP.heur_problem st)) by lia.
  rewrite (py_index_ok _ _ h Hsl).
  rewrite (nth_error_nth _ _ h Hh). cbn [bind].
  fold (share (BIP._num_splits m) T split).
  set (h' := BIP.set_parameters (BIP.set_time_limit h _) thr) in *.
  set (hs := BIP.replace_nth (BIP.heur_problem st) split h').
  assert (Hfix : forall next,
            (forall v, is_fixed m split v = true -> In v (names_of next)) ->
            BIP.fix_window st split h' (fst (cplex_solve h')) next
            = Ok (with_variables next
                    (map (fixed_to s (is_fixed m split)) (variables next)))).
  { intros next Hnext.
    rewrite fix_window_eq by (rewrite Hself; assumption).
    rewrite Hsol, Hself, fix_variables_ok.
    - f_equal. f_equal. apply map_ext. intros bv. unfold fixed_to.
      rewrite stored_window_names. reflexivity.
    - intros v Hv. apply in_window_names in Hv. split; [|apply Hnext; exact Hv].
      change (names_of h') with (names_of h). rewrite Hhn.
      apply (fixed_names_known m D split v Hw Hg Hs Hv). }
  assert (Hsz : (Z.of_nat split < BIP._num_splits m - 1)%Z)
    by (unfold BIP.num_windows in Hs; lia).
  destruct (Z.ltb_spec (Z.of_nat split) (BIP._num_splits m - 2)) as [Hlt|Hge].
  - assert (Hs' : split + 1 < BIP.num_windows m)
      by (unfold BIP.num_windows; lia).
    assert (Hsl' : split + 1 < length (BIP.heur_problem st)) by lia.
    destruct (nth_error (BIP.heur_problem st) (split + 1)) as [next|] eqn:Hn;
      [|apply nth_error_None in Hn; lia].
    assert (Hhsl : split + 1 < length hs)
      by (unfold hs; rewrite length_replace_nth; assumption).
    replace (Z.of_nat split + 1)%Z with (Z.of_nat (split + 1)) by lia.
    rewrite (py_index_ok _ _ h Hhsl).
    assert (Hnx : nth (split + 1) hs h = next).
    { unfold hs. rewrite nth_replace_nth_above by lia.
      apply nth_error_nth. exact Hn. }
    rewrite Hnx. cbn [bind].
    rewrite Hfix.
    + cbn [bind]. eexists. exists next. split; [reflexivity|].
      split; [reflexivity|].
      cbn [BIP.self BIP.heur_problem BIP.with_problems]. rewrite Hself.
      destruct (Z.ltb_spec (Z.of_nat split) (BIP._num_splits m - 2)); [|lia].
      apply nth_error_replace_nth_same. exact Hhsl.
    + intros v Hv. destruct (names_at m _ _ _ _ Hmap Hn) as [_ ->].
      apply (fixed_names_known m D split v Hw Hg Hs Hv). exact Hs'.
  - rewrite Hfix.
    + cbn [bind]. eexists. exists (BIP.problem st). split; [reflexivity|].
      split; [reflexivity|].
      cbn [BIP.self BIP.problem BIP.with_problems]. rewrite Hself.
      destruct (Z.ltb_spec (Z.of_nat split) (BIP._num_splits m - 2)); [lia|].
      reflexivity.
    + intros v Hv. rewrite Hex.
      apply (fixed_names_known m D split v Hw Hg Hs Hv).
Qed.

End Fixing.

(** C4.  Let the loop of [solve_cpx_problem] have reached window [split],
    with [h] the model of that window, and let the solver return the
    solution [s] for it.  Then the iteration succeeds, and the next model
    (window [split + 1], or the exact model after the last window) leaves
    it with the same constraints, objective and variables, where a variable
    has both bounds at its value in [s] when it is one of those the loop
    of lines 785-818 names, and its bounds untouched otherwise.  The
    variables named are: [w[t,q,j]] for every step [t] below the boundary
    depth [heur_last_layer[split]], [y[t,p,q,i,j]] for the gates of those
    steps, [z[t]] for the dummy steps among them, and [x[t,q,i,j]] over the
    neighbours of [i] and [i] itself for [t < heur_last_layer[split] - 1]. *)
Theorem window_values_fixed_in_next_model :
  forall cplex_solve np_log gf mgf npeml dag coupling subset D ns m
         obj bp weight rate b T thr split st h s,
    BIP.init dag coupling subset D ns = Ok m ->
    BIP.create_cpx_problem np_log gf mgf npeml m obj bp weight rate None
    = Ok b ->
    split < BIP.num_windows m ->
    windows_solved cplex_solve b T thr split = Ok st ->
    nth_error (BIP.heur_problem st) split = Some h ->
    fst (cplex_solve
           (BIP.set_parameters
              (BIP.set_time_limit h (share (BIP._num_splits m) T split)) thr))
    = Some s ->
    let B := BIP.heur_last_layer_of m split in
    exists st' next next',
      BIP.solve_split cplex_solve st T thr split = Ok st'
      /\ next_problem st split = Some next
      /\ next_problem st' split = Some next'
      /\ constraints next' = constraints next
      /\ objective next' = objective next
      /\ map var_name (variables next') = map var_name (variables next)
      /\ (forall k bv,
            nth_error (variables next) k = Some bv ->
            nth_error (variables next') k
            = Some (if is_fixed m split (var_name bv)
                    then {| var_name := var_name bv;
                            lb := s (var_name bv); ub := s (var_name bv) |}
                    else bv))
      /\ (forall v, is_fixed m split v = true
                    <-> In v (window_names m split))
      /\ (forall t q j,
            is_fixed m split (W t q j) = true
            <-> t < B /\ q < BIP.num_vqubits m /\ j < BIP.num_pqubits m)
      /\ (forall t p q i j,
            is_fixed m split (Y t p q i j) = true
            <-> t < B
                /\ (exists n, In (p, q, n) (nth t (BIP.gates m) []))
                /\ In (i, j) (BIP._arcs m))
      /\ (forall t q i j,
            is_fixed m split (X t q i j) = true
            <-> t < B - 1 /\ q < BIP.num_vqubits m /\ i < BIP.num_pqubits m
                /\ (In j (neighbors (BIP._coupling m) i) \/ j = i))
      /\ (forall t,
            is_fixed m split (Zv t) = true
            <-> t < B /\ nth t (BIP.gates m) [] = []).
Proof.
  intros cplex_solve np_log gf mgf npeml dag coupling subset D ns m
         obj bp weight rate b T thr split st h s
         Hinit Hcreate Hsplit Hloop Hh Hsol B.
  assert (Hsplits : (1 < BIP._num_splits m)%Z)
    by (unfold BIP.num_windows in Hsplit; lia).
  pose proof (init_windows _ _ _ _ _ _ Hinit Hsplits) as Hw.
  destruct (init_fields _ _ _ _ _ _ Hinit) as (_ & Hg & _).
  pose proof (create_names_ok _ _ _ _ _ _ _ _ _ _ Hcreate) as Hb.
  assert (Hst : names_ok m st).
  { apply (windows_solved_names cplex_solve m D b T thr split st Hw Hg Hb);
      [lia | exact Hloop]. }
  destruct (solve_split_fixes cplex_solve m D st T thr split h s
              Hw Hg Hsplits Hst Hsplit Hh Hsol)
    as (st' & next & Hsolve & Hnext & Hnext').
  destruct (window_schedule m D split Hw Hg Hsplit) as (_ & _ & Hpre & _).
  exists st', next, (with_variables next
                       (map (fixed_to s (is_fixed m split)) (variables next))).
  split; [exact Hsolve|]. split; [exact Hnext|]. split; [exact Hnext'|].
  split; [reflexivity|]. split; [reflexivity|].
  cbn [with_variables variables].
  split; [apply names_of_fixed_to|].
  split.
  { intros k bv Hk. apply (map_nth_error (fixed_to s (is_fixed m split))) in Hk.
    exact Hk. }
  split.
  { intros v. symmetry. apply in_window_names. }
  split.
  { intros t q j. cbn [is_fixed]. fold B.
    rewrite !andb_true_iff, !Nat.ltb_lt. tauto. }
  split.
  { intros t p q i j. cbn [is_fixed]. fold B.
    rewrite !andb_true_iff, Nat.ltb_lt, !existsb_exists. split.
    - intros [[Ht [g [Hg' Eg]]] [a [Ha Ea]]].
      rewrite andb_true_iff, !Nat.eqb_eq in Eg, Ea.
      destruct g as [[p' q'] n]. destruct a as [i' j'].
      cbn [fst snd] in Eg, Ea. destruct Eg as [-> ->]. destruct Ea as [-> ->].
      rewrite (Hpre t Ht) in Hg'. split; [exact Ht|].
      split; [exists n; exact Hg' | exact Ha].
    - intros [Ht [[n Hn] Ha]]. split; [split; [exact Ht|]|].
      + exists (p, q, n). rewrite (Hpre t Ht).
        split; [exact Hn|]. cbn [fst snd]. rewrite !Nat.eqb_refl. reflexivity.
      + exists (i, j). split; [exact Ha|]. cbn [fst snd].
        rewrite !Nat.eqb_refl. reflexivity. }
  split.
  { intros t q i j. cbn [is_fixed]. fold B.
    rewrite !andb_true_iff, orb_true_iff, !Nat.ltb_lt, mem_nat_In, Nat.eqb_eq.
    tauto. }
  intros t. cbn [is_fixed]. fold B.
  rewrite andb_true_iff, Nat.ltb_lt. unfold is_dummy, is_empty.
  destruct (nth t (BIP.gates m) []); split; intros [Ht Hd];
    (split; [exact Ht|]); try reflexivity; discriminate Hd.
Qed.

Lemma window_values_fixed_in_next_model_example :
  exists m b h st' next',
    BIP.init circuit4 line3 [0; 1; 2] 1 2 = Ok m
    /\ build_on_line3 circuit4 1 2 "depth" = Ok b
    /\ nth_error (BIP.heur_problem b) 0 = Some h
    /\ BIP.solve_split zero_solver b (float_of_int 60) None 0 = Ok st'
    /\ next_problem st' 0 = Some next'
    /\ constraints next' = constraints (BIP.problem b)
    /\ In {| var_name := W 2 0 0; lb := 0%Q; ub := 0%Q |} (variables next')
    /\ In {| var_name := W 3 0 0; lb := 0%Q; ub := 1%Q |} (variables next').
Proof.
  pose (m := ltac:(ok_value (BIP.init circuit4 line3 [0; 1; 2] 1 2))).
  pose (b := ltac:(ok_value (build_on_line3 circuit4 1 2 "depth"))).
  assert (Hm : BIP.init circuit4 line3 [0; 1; 2] 1 2 = Ok m)
    by (vm_compute; reflexivity).
  assert (Hb : build_on_line3 circuit4 1 2 "depth" = Ok b)
    by (vm_compute; reflexivity).
  assert (Hc : BIP.create_cpx_problem approx_log cnot_fid cnot_mfid no_mean m
                 "depth" None (1 # 10)%Q (Some (5 # 1000)%Q) None = Ok b)
    by (vm_compute; reflexivity).
  pose (h := nth 0 (BIP.heur_problem b) (BIP.problem b)).
  assert (Hh : nth_error (BIP.heur_problem b) 0 = Some h)
    by (vm_compute; reflexivity).
  destruct (window_values_fixed_in_next_model
              zero_solver approx_log cnot_fid cnot_mfid no_mean
              circuit4 line3 [0; 1; 2] 1 2%Z m "depth" None (1 # 10)%Q
              (Some (5 # 1000)%Q) b (float_of_int 60) None 0 b h (fun _ => 0%Q)
              Hm Hc ltac:(vm_compute; lia) eq_refl Hh eq_refl)
    as (st' & next & next' & Hsolve & Hnext & Hnext' & Hcons & _ & _ & Hvars & _).
  assert (Hnx : next = BIP.problem b)
    by (vm_compute in Hnext; injection Hnext as <-; reflexivity).
  exists m, b, h, st', next'.
  split; [exact Hm|]. split; [exact Hb|]. split; [exact Hh|].
  split; [exact Hsolve|]. split; [exact Hnext'|].
  split; [rewrite Hcons, Hnx; reflexivity|].
  subst next. split.
  - apply (nth_error_In _ 18). rewrite (Hvars 18 _ eq_refl).
    vm_compute. reflexivity.
  - apply (nth_error_In _ 27). rewrite (Hvars 27 _ eq_refl).
    vm_compute. reflexivity.
Defined.

(** ** What [MIPMappingModel.create_cpx_problem] builds *)

Definition mk_row (ind : list nat) (val : list Z) (s : Sense) (rhs : Z)
  (n : MIP.RowName) : MIP.LinearConstraint :=
  {| MIP.lin_ind := ind; MIP.lin_val := val; MIP.lin_sense := s;
     MIP.lin_rhs := rhs; MIP.lin_name := n |}.

Lemma row_ok ind val s rhs n r :
  MIP.row ind val s rhs n = Ok r ->
  r = mk_row ind val s rhs n /\ length ind = length val.
Proof.
  unfold MIP.row. destruct (Nat.eqb_spec (length ind) (length val)) as [He|];
    intros H; [|discriminate H].
  injection H as <-. split; [reflexivity | exact He].
Qed.

Lemma row_total ind val s rhs n :
  length ind = length val -> MIP.row ind val s rhs n = Ok (mk_row ind val s rhs n).
Proof.
  intros He. unfold MIP.row. rewrite He, Nat.eqb_refl. reflexivity.
Qed.

Lemma list_set_length {A} (l : list A) i v l' :
  MIP.list_set l i v = Ok l' -> length l' = length l.
Proof.
  revert i l'. induction l as [|x l IH]; intros i l' H; [discriminate H|].
  destruct i as [|i]; simpl in H.
  - injection H as <-. reflexivity.
  - bind_as H r Hr. injection H as <-. simpl. f_equal. apply (IH _ _ Hr).
Qed.

Lemma store_names_length n stores l :
  MIP.store_names n stores = Ok l -> length l = n.
Proof.
  unfold MIP.store_names.
  assert (Hgen : forall (init : result (list (option MIP.VarName))) l,
            fold_left
              (fun (acc : result (list (option MIP.VarName)))
                   (s : nat * MIP.VarName) =>
                 bind acc (fun l0 => MIP.list_set l0 (fst s) (Some (snd s))))
              stores init = Ok l ->
            exists l0, init = Ok l0 /\ length l = length l0).
  { induction stores as [|s stores IH]; intros init l1 H; simpl in H.
    - exists l1. split; [exact H | reflexivity].
    - apply IH in H. destruct H as [l0 [Hl0 Hlen]].
      bind_as Hl0 l2 Hl2. exists l2. split; [exact Hl2|].
      apply list_set_length in Hl0. congruence. }
  intros H. apply Hgen in H. destruct H as [l0 [Hl0 Hlen]].
  injection Hl0 as <-. rewrite Hlen. apply repeat_length.
Qed.

(** The fields of the index calculator. *)
Lemma init_IndexCalculator_ok c h ic :
  MIP.init_IndexCalculator c h = Ok ic ->
  MIP.qc ic = c /\ MIP.ht ic = h /\
  MIP.num_lqubits ic = MIP.ht_num_qubits h /\
  MIP.num_pqubits ic = MIP.ht_num_qubits h /\
  MIP.ic_depth ic = MIP.depth c /\
  MIP.w_start ic = 0 /\
  MIP.num_w_vars ic
  = MIP.depth c * MIP.ht_num_qubits h * MIP.ht_num_qubits h /\
  MIP.build_x_var_mapping h (MIP.ht_num_qubits h) = Ok (MIP.x_var_mapping ic) /\
  MIP.y_start ic = MIP.num_w_vars ic /\
  MIP.num_y_vars ic = MIP.num_gates ic * length (MIP.arcs h) /\
  MIP.x_start ic = MIP.num_w_vars ic + MIP.num_y_vars ic /\
  MIP.num_x_vars ic
  = (MIP.depth c - 1) * MIP.ht_num_qubits h
    * (MIP.num_arcs h + MIP.ht_num_qubits h) /\
  MIP.wd_start ic = MIP.x_start ic + MIP.num_x_vars ic /\
  MIP.num_wd_vars ic = MIP.depth c /\
  MIP.eu_start ic = MIP.wd_start ic + MIP.depth c /\
  MIP.num_eu_vars ic = MIP.num_edges h * (MIP.depth c - 1) /\
  MIP.num_gates ic = list_sum (map (@length _) (MIP.gates c)).
Proof.
  unfold MIP.init_IndexCalculator. intros H. bind_as H xm Hxm.
  injection H as <-. cbn. repeat split; try reflexivity. exact Hxm.
Qed.

(** The assignment rows, when they are built. *)
Definition assignment_lqubits_row (ic : MIP._IndexCalculator) (q t : nat)
  : MIP.LinearConstraint :=
  mk_row (map (fun j => MIP.w_index ic q j t) (range (MIP.num_pqubits ic)))
         (MIP.ones (range (MIP.num_pqubits ic))) EQ 1
         (MIP.assignment_lqubits q t).

Definition assignment_pqubits_row (ic : MIP._IndexCalculator) (j t : nat)
  : MIP.LinearConstraint :=
  mk_row (map (fun q => MIP.w_index ic q j t) (range (MIP.num_lqubits ic)))
         (MIP.ones (range (MIP.num_lqubits ic))) EQ 1
         (MIP.assignment_pqubits j t).

Lemma rows_assignment_lqubits_ok ic r :
  MIP.rows_assignment_lqubits ic = Ok r ->
  r = flat_map
        (fun q => map (assignment_lqubits_row ic q) (range (MIP.ic_depth ic)))
        (range (MIP.num_lqubits ic)).
Proof.
  unfold MIP.rows_assignment_lqubits. apply flat_mapM_pure.
  intros q b _ H. apply (mapM_pure _ (assignment_lqubits_row ic q) _ _) in H;
    [exact H|].
  intros t r0 _ Hr. apply row_ok in Hr. destruct Hr as [-> _]. reflexivity.
Qed.

Lemma rows_assignment_pqubits_ok ic r :
  MIP.rows_assignment_pqubits ic = Ok r ->
  r = flat_map
        (fun j => map (assignment_pqubits_row ic j) (range (MIP.ic_depth ic)))
        (range (MIP.num_pqubits ic)).
Proof.
  unfold MIP.rows_assignment_pqubits. apply flat_mapM_pure.
  intros j b _ H. apply (mapM_pure _ (assignment_pqubits_row ic j) _ _) in H;
    [exact H|].
  intros t r0 _ Hr. apply row_ok in Hr. destruct Hr as [-> _]. reflexivity.
Qed.

(** The parts of the problem, when [create_cpx_problem] returns. *)
Lemma mip_create_ok np_log math_log mm obj line_symm cycle_symm p ic :
  MIP.create_cpx_problem np_log math_log mm obj line_symm cycle_symm
  = Ok (p, ic) ->
  MIP.init_IndexCalculator (MIP.circuit_model mm) (MIP.toplogy_model mm)
  = Ok ic /\
  exists wn yn xn en r1 r2 r3 r4 r5 r6 r7 r8 r9 r10 r11,
    MIP.w_names ic = Ok wn /\
    MIP.y_names ic = Ok yn /\
    MIP.x_names ic = Ok xn /\
    MIP.eu_names ic = Ok en /\
    MIP.rows_assignment_lqubits ic = Ok r1 /\
    MIP.rows_assignment_pqubits ic = Ok r2 /\
    MIP.rows_w_y ic = Ok r3 /\
    MIP.rows_assignment_y ic = Ok r4 /\
    MIP.rows_swap ic = Ok r5 /\
    MIP.rows_swap_no_gate ic = Ok r6 /\
    MIP.rows_dummy_ts_needed ic = Ok r7 /\
    MIP.rows_dummy_precedence ic = Ok r8 /\
    (if line_symm then MIP.rows_line_symm ic else Ok []) = Ok r9 /\
    MIP.rows_flow ic = Ok r10 /\
    MIP.rows_eu_def ic = Ok r11 /\
    MIP.var_names p = wn ++ yn ++ xn ++ MIP.wd_names ic ++ en /\
    MIP.lower_bounds p
    = snd r7 ++ (if cycle_symm then [(MIP.w_index ic 0 0 0, 1%Z)] else []) /\
    MIP.linear_constraints p
    = r1 ++ r2 ++ r3 ++ r4 ++ r5 ++ r6 ++ fst r7 ++ r8 ++ r9 ++ r10 ++ r11 /\
    (if String.eqb obj "error"
     then MIP.set_error_rate_obj np_log math_log ic
     else if String.eqb obj "depth" then Ok (MIP.set_depth_obj ic)
          else Raise TranspilerError) = Ok (MIP.objective_linear p).
Proof.
  unfold MIP.create_cpx_problem. intros H.
  bind_as H ic0 Hic. bind_as H wn Hwn. bind_as H yn Hyn. bind_as H xn Hxn.
  bind_as H en Hen. bind_as H r1 Hr1. bind_as H r2 Hr2. bind_as H r3 Hr3.
  bind_as H r4 Hr4. bind_as H r5 Hr5. bind_as H r6 Hr6. bind_as H r7 Hr7.
  bind_as H r8 Hr8. bind_as H r9 Hr9. bind_as H r10 Hr10. bind_as H r11 Hr11.
  bind_as H ob Hob. injection H as <- <-.
  split; [exact Hic|].
  exists wn, yn, xn, en, r1, r2, r3, r4, r5, r6, r7, r8, r9, r10, r11.
  cbn [MIP.var_names MIP.lower_bounds MIP.linear_constraints
       MIP.objective_linear].
  repeat split; assumption.
Qed.






(** ** Deciding feasibility *)

Lemma satb_sat a c : satb a c = true -> sat a c.
Proof.
  unfold satb, sat. destruct (ct_sense c); intros H.
  - apply Z.eqb_eq. exact H.
  - apply Z.leb_le. exact H.
  - apply Z.le_ge. rewrite Z.geb_leb in H. apply Z.leb_le. exact H.
Qed.

Lemma in_boundsb_in_bounds a bv : in_boundsb a bv = true -> in_bounds a bv.
Proof.
  unfold in_boundsb, in_bounds. intros H.
  apply andb_prop in H. destruct H as [H Hub].
  apply andb_prop in H. destruct H as [Hbin Hlb].
  split; [|split].
  - apply orb_prop in Hbin. destruct Hbin as [H0|H1].
    + left. apply Z.eqb_eq. exact H0.
    + right. apply Z.eqb_eq. exact H1.
  - apply Qle_bool_iff. exact Hlb.
  - apply Qle_bool_iff. exact Hub.
Qed.

Lemma feasibleb_feasible m a : feasibleb m a = true -> feasible m a.
Proof.
  unfold feasibleb, feasible. intros H.
  apply andb_prop in H. destruct H as [Hb Hs]. split.
  - apply Forall_forall. intros bv Hin. apply in_boundsb_in_bounds.
    rewrite forallb_forall in Hb. apply Hb. exact Hin.
  - apply Forall_forall. intros c Hin. apply satb_sat.
    rewrite forallb_forall in Hs. apply Hs. exact Hin.
Qed.

(** ** Every model forces a bijection at every time step *)



(** ** Gate legality: the McCormick bounds by position *)













(** ** The objective of the window models *)

Definition empty_model : Model :=
  {| variables := []; constraints := []; objective := None;
     time_limit := None; threads := None; randomseed := None |}.

(** For ['gate_error'] no window model is given an objective: the call of
    [mdl.minimize] stands inside the ['balanced'] branch (line 680). *)
Lemma heur_gate_error_objective np_log gf mgf npeml b split weight h :
  BIP.heur_model np_log gf mgf npeml b split "gate_error" weight = Ok h ->
  objective h = None.
Proof.
  intros H. apply heur_model_ok in H. destruct H as (_ & _ & Hobj & _).
  unfold BIP.heur_objective in Hobj. simpl String.eqb in Hobj.
  cbv iota in Hobj. cbn [orb] in Hobj.
  bind_as Hobj body Hbody. bind_as Hobj lay Hlay. bind_as Hobj tail Htail.
  injection Hobj as <-. reflexivity.
Qed.

(** For ['balanced'] every window model gets one. *)
Lemma heur_balanced_objective np_log gf mgf npeml b split weight h :
  BIP.heur_model np_log gf mgf npeml b split "balanced" weight = Ok h ->
  exists e, objective h = Some e.
Proof.
  intros H. apply heur_model_ok in H. destruct H as (_ & _ & Hobj & _).
  unfold BIP.heur_objective in Hobj. simpl String.eqb in Hobj.
  cbv iota in Hobj. cbn [orb] in Hobj.
  bind_as Hobj body Hbody. bind_as Hobj lay Hlay. bind_as Hobj tail Htail.
  bind_as Hobj zsum Hz. injection Hobj as <-. eexists. reflexivity.
Qed.

(** C2 at [circuit4] on the line of three qubits, one dummy step, two
    splits, objective ['gate_error']: the exact model has an objective, the
    window model has none. *)
Lemma window_gate_error_objective_missing :
  exists b h e,
    build_on_line3 circuit4 1 2 "gate_error" = Ok b /\
    nth_error (BIP.heur_problem b) 0 = Some h /\
    objective (BIP.problem b) = Some e /\
    objective h = None.
Proof.
  pose (b := ltac:(ok_value (build_on_line3 circuit4 1 2 "gate_error"))).
  exists b, (nth 0 (BIP.heur_problem b) empty_model).
  destruct (objective (BIP.problem b)) as [e|] eqn:He;
    [|vm_compute in He; discriminate He].
  exists e. split; [vm_compute; reflexivity|].
  split; [reflexivity|]. split; [reflexivity|].
  vm_compute. reflexivity.
Qed.

(** C8 at the same input: with ['balanced'] and [depth_obj_weight = 0] the
    window model is given an objective, with ['gate_error'] it is given
    none. *)
Lemma window_balanced_zero_differs :
  exists b1 b2 h1 h2 e,
    build_weighted circuit4 1 2 "gate_error" 0 = Ok b1 /\
    build_weighted circuit4 1 2 "balanced" 0 = Ok b2 /\
    nth_error (BIP.heur_problem b1) 0 = Some h1 /\
    nth_error (BIP.heur_problem b2) 0 = Some h2 /\
    objective h1 = None /\
    objective h2 = Some e.
Proof.
  pose (b1 := ltac:(ok_value (build_weighted circuit4 1 2 "gate_error" 0))).
  pose (b2 := ltac:(ok_value (build_weighted circuit4 1 2 "balanced" 0))).
  exists b1, b2, (nth 0 (BIP.heur_problem b1) empty_model),
    (nth 0 (BIP.heur_problem b2) empty_model).
  destruct (objective (nth 0 (BIP.heur_problem b2) empty_model)) as [e|] eqn:He;
    [|vm_compute in He; discriminate He].
  exists e. split; [vm_compute; reflexivity|].
  split; [vm_compute; reflexivity|].
  split; [reflexivity|]. split; [reflexivity|].
  split; [vm_compute; reflexivity | reflexivity].
Qed.

(** ** The two builders side by side *)

(** The index the flat builder gives to a variable of the DOcplex builder:
    [w[t,q,j]] is [w_index(q, j, t)], [y[t,p,q,i,j]] is
    [y_index(t, (p, q), (i, j))], [x[t,q,i,j]] is [x_index(q, i, j, t)] and
    [z[t]] is [wd_index(t)]. *)
Definition var_index (ic : MIP._IndexCalculator) (v : Var) : result nat :=
  match v with
  | W t q j => Ok (MIP.w_index ic q j t)
  | Y t p q i j => MIP.y_index ic t (p, q) (i, j)
  | X t q i j => MIP.x_index ic q i j t
  | Zv t => Ok (MIP.wd_index ic t)
  end.

(** An assignment of the flat model read as one of the DOcplex model. *)
Definition pull (ic : MIP._IndexCalculator) (f : nat -> Z) (v : Var) : Z :=
  match var_index ic v with
  | Ok k => f k
  | Raise _ => 0%Z
  end.

(** The assignment that is [1] at the listed indices. *)
Definition ones_at (l : list nat) (k : nat) : Z :=
  if existsb (Nat.eqb k) l then 1%Z else 0%Z.

(** [MIPMappingModel(dag, line3, dummy_timesteps)] followed by
    [create_cpx_problem(objective)]. *)
Definition mip_on_line3 (dag : DAGCircuit) (dummy_timesteps : nat)
  (objective : string) : result (MIP.Cplex * MIP._IndexCalculator) :=
  bind (MIP.init dag line3 dummy_timesteps)
       (fun mm =>
          MIP.create_cpx_problem approx_log approx_log mm objective
            false false).

(** The claim about the objectives, in the spec's words: on points that are
    feasible for both models the two objectives rank alike, so that the
    models have the same optimal solutions. *)
Definition same_objective_order (b : BIP.Built) (p : MIP.Cplex)
  (ic : MIP._IndexCalculator) : Prop :=
  exists e,
    objective (BIP.problem b) = Some e /\
    forall f g,
      MIP.feasible p f -> MIP.feasible p g ->
      feasible (BIP.problem b) (pull ic f) ->
      feasible (BIP.problem b) (pull ic g) ->
      ((eval (pull ic f) e <= eval (pull ic g) e)%Q
       <-> (MIP.objective_value p f <= MIP.objective_value p g)%Q).

(** Two layouts for [circuit2] on the line, as assignments of the flat
    model: [held_layout] keeps logical qubits 0 and 1 on physical qubits 1
    and 0 throughout; [mirrored_layout] starts from the identity and swaps
    the two right after the first gate. *)
Definition held_layout : nat -> Z :=
  ones_at [1; 3; 8; 10; 12; 17; 19; 21; 26; 27; 30; 37; 42; 54; 58; 63; 75;
           77; 79; 80].

Definition mirrored_layout : nat -> Z :=
  ones_at [0; 4; 8; 10; 12; 17; 19; 21; 26; 31; 30; 36; 46; 54; 58; 63; 75;
           77; 79; 80].

Lemma row_satb_sat a c : MIP.row_satb a c = true -> MIP.row_sat a c.
Proof.
  unfold MIP.row_satb, MIP.row_sat. destruct (MIP.lin_sense c); intros H;
    first [ apply Z.eqb_eq; exact H
          | apply Z.leb_le; exact H
          | apply Z.geb_le in H; lia ].
Qed.

Lemma mip_feasibleb_feasible p a :
  MIP.feasibleb p a = true -> MIP.feasible p a.
Proof.
  unfold MIP.feasibleb, MIP.feasible. rewrite !andb_true_iff.
  intros [[Hb Hl] Hr]. split; [|split].
  - intros i Hi. rewrite forallb_forall in Hb.
    specialize (Hb i (proj2 (in_range i _) Hi)).
    apply orb_true_iff in Hb. destruct Hb as [H|H]; apply Z.eqb_eq in H; auto.
  - apply Forall_forall. intros x Hx. rewrite forallb_forall in Hl.
    apply Z.leb_le. apply Hl. exact Hx.
  - apply Forall_forall. intros x Hx. rewrite forallb_forall in Hr.
    apply row_satb_sat. apply Hr. exact Hx.
Qed.

(** C9, the objectives: for [circuit2] on the line with one dummy step and
    objective ['depth'], both layouts are feasible for both models and use
    no dummy step.  The flat model gives both the value 2 (it counts the
    two steps with a gate); the DOcplex model gives the first the value 0
    and the second 0.02 (it charges 0.01 for every move along an arc). *)
Lemma depth_objectives_rank_differently :
  exists b p ic,
    build_on_line3 circuit2 1 0 "depth" = Ok b /\
    mip_on_line3 circuit2 1 "depth" = Ok (p, ic) /\
    ~ same_objective_order b p ic.
Proof.
  pose (b := ltac:(ok_value (build_on_line3 circuit2 1 0 "depth"))).
  pose (r := ltac:(ok_value (mip_on_line3 circuit2 1 "depth"))).
  exists b, (fst r), (snd r).
  split; [vm_compute; reflexivity|]. split; [vm_compute; reflexivity|].
  intros [e [He Hall]].
  assert (Ee : e = match objective (BIP.problem b) with
                   | Some x => x
                   | None => Num 0%Q
                   end) by (rewrite He; reflexivity).
  destruct (Hall mirrored_layout held_layout) as [_ Hrank].
  - apply mip_feasibleb_feasible. vm_compute. reflexivity.
  - apply mip_feasibleb_feasible. vm_compute. reflexivity.
  - apply feasibleb_feasible. vm_compute. reflexivity.
  - apply feasibleb_feasible. vm_compute. reflexivity.
  - assert (Hm : (MIP.objective_value (fst r) mirrored_layout
                  <= MIP.objective_value (fst r) held_layout)%Q)
      by (vm_compute; discriminate).
    apply Hrank in Hm. rewrite Ee in Hm. vm_compute in Hm.
    apply Hm. reflexivity.
Qed.

(** ** The constraint system both builders write down *)

(** The routing conditions on an assignment [a], for [n] qubits, depth
    [d], the gates [gs t] of step [t], the arcs, the neighbours a qubit can
    move to ([out]) and come from ([inn]), and the qubits [free t] that are
    in no gate of step [t].  The lower McCormick bound is kept apart. *)
Record routing (n d : nat) (gs : nat -> list (nat * nat))
  (arcs : list (nat * nat)) (out inn : nat -> list nat)
  (free : nat -> list nat) (a : Var -> Z) : Prop := {
  r_assign_v :
    forall t q, t < d -> q < n ->
      sum_Z (map (fun j => a (W t q j)) (range n)) = 1%Z;
  r_assign_p :
    forall t j, t < d -> j < n ->
      sum_Z (map (fun q => a (W t q j)) (range n)) = 1%Z;
  r_gate :
    forall t p q, t < d -> In (p, q) (gs t) ->
      sum_Z (map (fun e : nat * nat => a (Y t p q (fst e) (snd e))) arcs)
      = 1%Z;
  r_ub_strong :
    forall t p q i j, t < d - 1 -> In (p, q) (gs t) -> In (i, j) arcs ->
      (a (Y t p q i j) <= a (X t p i i) + a (X t p i j))%Z
      /\ (a (Y t p q i j) <= a (X t q j i) + a (X t q j j))%Z;
  r_ub_last :
    forall p q i j, 0 < d -> In (p, q) (gs (d - 1)) -> In (i, j) arcs ->
      (a (Y (d - 1) p q i j) <= a (W (d - 1) p i))%Z
      /\ (a (Y (d - 1) p q i j) <= a (W (d - 1) q j))%Z;
  r_flow_out :
    forall t q i, t < d - 1 -> q < n -> i < n ->
      a (W t q i)
      = (a (X t q i i) + sum_Z (map (fun j => a (X t q i j)) (out i)))%Z;
  r_flow_in :
    forall t q i, 0 < t -> t < d -> q < n -> i < n ->
      a (W t q i)
      = (a (X (t - 1) q i i)
         + sum_Z (map (fun j => a (X (t - 1) q j i)) (inn i)))%Z;
  r_swap :
    forall t p q i j, t < d - 1 -> In (p, q) (gs t) -> In (i, j) arcs ->
      a (X t p i j) = a (X t q j i);
  r_swap_free :
    forall t i j, t < d - 1 -> In (i, j) arcs ->
      sum_Z (map (fun q => a (X t q i j)) (free t))
      = sum_Z (map (fun q => a (X t q j i)) (free t));
  r_dummy :
    forall t q, t < d -> gs t = [] -> q < n ->
      (sum_Z (map (fun e : nat * nat => a (X t q (fst e) (snd e))) arcs)
       <= a (Zv t))%Z;
  r_prec :
    forall t, t < d - 1 -> gs t = [] -> gs (t + 1) = [] ->
      (a (Zv t) >= a (Zv (t + 1)))%Z
}.

(** The lower McCormick bound, which only the DOcplex builder writes. *)
Definition lower_bound (d : nat) (gs : nat -> list (nat * nat))
  (arcs : list (nat * nat)) (a : Var -> Z) : Prop :=
  forall t p q i j, t < d -> In (p, q) (gs t) -> In (i, j) arcs ->
    (a (Y t p q i j) >= a (W t p i) + a (W t q j) - 1)%Z.

(** ** The constraints of the exact DOcplex model, read as conditions *)

Lemma eval_psum_map {A} a (f : A -> Var) (l : list A) :
  eval a (psum (map (fun x => Ref (f x)) l)) = sum_Z (map (fun x => a (f x)) l).
Proof.
  unfold psum. rewrite eval_accumulate_Z. rewrite map_map. simpl. reflexivity.
Qed.

Lemma Forall_gates_flat (P : Constraint -> Prop) gs ts body :
  Forall P (gates_flat gs ts body)
  <-> forall t g, In t ts -> In g (nth t gs []) -> Forall P (body t g).
Proof.
  unfold gates_flat. rewrite Forall_flat_map, Forall_forall. split.
  - intros H t g Ht Hg. specialize (H t Ht).
    rewrite Forall_flat_map, Forall_forall in H. apply H. exact Hg.
  - intros H t Ht. apply Forall_flat_map, Forall_forall. intros g Hg.
    apply H; assumption.
Qed.

Lemma sat_assignment_vqubits a d nv np :
  Forall (sat a) (BIP.assignment_vqubits d nv np)
  <-> forall t q, t < d -> q < nv ->
        sum_Z (map (fun j => a (W t q j)) (range np)) = 1%Z.
Proof.
  unfold BIP.assignment_vqubits. rewrite Forall_flat_map, Forall_forall. split.
  - intros H t q Ht Hq. specialize (H t (proj2 (in_range t d) Ht)).
    rewrite Forall_map, Forall_forall in H.
    specialize (H q (proj2 (in_range q nv) Hq)).
    unfold sat in H. cbn [ct ct_sense ct_lhs ct_rhs] in H.
    rewrite eval_psum_map in H. exact H.
  - intros H t Ht. apply Forall_map, Forall_forall. intros q Hq.
    apply in_range in Ht, Hq. unfold sat. cbn [ct ct_sense ct_lhs ct_rhs].
    rewrite eval_psum_map. apply H; assumption.
Qed.

Lemma sat_assignment_pqubits a d nv np :
  Forall (sat a) (BIP.assignment_pqubits d nv np)
  <-> forall t j, t < d -> j < np ->
        sum_Z (map (fun q => a (W t q j)) (range nv)) = 1%Z.
Proof.
  unfold BIP.assignment_pqubits. rewrite Forall_flat_map, Forall_forall. split.
  - intros H t j Ht Hj. specialize (H t (proj2 (in_range t d) Ht)).
    rewrite Forall_map, Forall_forall in H.
    specialize (H j (proj2 (in_range j np) Hj)).
    unfold sat in H. cbn [ct ct_sense ct_lhs ct_rhs] in H.
    rewrite eval_psum_map in H. exact H.
  - intros H t Ht. apply Forall_map, Forall_forall. intros j Hj.
    apply in_range in Ht, Hj. unfold sat. cbn [ct ct_sense ct_lhs ct_rhs].
    rewrite eval_psum_map. apply H; assumption.
Qed.

Lemma sat_implement_gate a gs arcs d :
  Forall (sat a) (gates_flat gs (range d) (BIP.implement_gate arcs))
  <-> forall t p q n, t < d -> In (p, q, n) (nth t gs []) ->
        sum_Z (map (fun e : nat * nat => a (Y t p q (fst e) (snd e))) arcs)
        = 1%Z.
Proof.
  rewrite Forall_gates_flat. split.
  - intros H t p q n Ht Hg.
    specialize (H t (p, q, n) (proj2 (in_range t d) Ht) Hg).
    unfold BIP.implement_gate in H. apply Forall_inv in H.
    unfold sat in H. cbn [ct ct_sense ct_lhs ct_rhs] in H.
    rewrite (eval_psum_map a (fun e : nat * nat => Y t p q (fst e) (snd e)))
      in H.
    exact H.
  - intros H t [[p q] n] Ht Hg. apply in_range in Ht.
    unfold BIP.implement_gate. constructor; [|constructor].
    unfold sat. cbn [ct ct_sense ct_lhs ct_rhs].
    rewrite (eval_psum_map a (fun e : nat * nat => Y t p q (fst e) (snd e))).
    apply (H t p q n); assumption.
Qed.

Lemma sat_mccormick_strong a arcs t p q n :
  Forall (sat a) (BIP.mccormick_strong arcs t (p, q, n))
  <-> forall i j, In (i, j) arcs ->
        (a (Y t p q i j) >= a (W t p i) + a (W t q j) - 1)%Z
        /\ (a (Y t p q i j) <= a (X t p i i) + a (X t p i j))%Z
        /\ (a (Y t p q i j) <= a (X t q j i) + a (X t q j j))%Z.
Proof.
  unfold BIP.mccormick_strong. rewrite Forall_flat_map, Forall_forall. split.
  - intros H i j Ha. specialize (H (i, j) Ha). cbn beta iota in H.
    inversion H as [|c1 l1 Hc1 H']. inversion H' as [|c2 l2 Hc2 H''].
    apply Forall_inv in H''. repeat split; assumption.
  - intros H [i j] Ha. destruct (H i j Ha) as (H1 & H2 & H3).
    repeat constructor; assumption.
Qed.

Lemma sat_mccormick_last a arcs t p q n :
  Forall (sat a) (BIP.mccormick_last arcs t (p, q, n))
  <-> forall i j, In (i, j) arcs ->
        (a (Y t p q i j) >= a (W t p i) + a (W t q j) - 1)%Z
        /\ (a (Y t p q i j) <= a (W t p i))%Z
        /\ (a (Y t p q i j) <= a (W t q j))%Z.
Proof.
  unfold BIP.mccormick_last. rewrite Forall_flat_map, Forall_forall. split.
  - intros H i j Ha. specialize (H (i, j) Ha). cbn beta iota in H.
    inversion H as [|c1 l1 Hc1 H']. inversion H' as [|c2 l2 Hc2 H''].
    apply Forall_inv in H''. repeat split; assumption.
  - intros H [i j] Ha. destruct (H i j Ha) as (H1 & H2 & H3).
    repeat constructor; assumption.
Qed.

Lemma sat_flow_out a (nb : nat -> list nat) d nv np :
  Forall (sat a) (flow_out_flat (fun _ => nb) d nv np)
  <-> forall t q i, t < d - 1 -> q < nv -> i < np ->
        a (W t q i)
        = (a (X t q i i) + sum_Z (map (fun j => a (X t q i j)) (nb i)))%Z.
Proof.
  unfold flow_out_flat. rewrite Forall_flat_map, Forall_forall. split.
  - intros H t q i Ht Hq Hi. specialize (H t (proj2 (in_range t _) Ht)).
    rewrite Forall_flat_map, Forall_forall in H.
    specialize (H q (proj2 (in_range q _) Hq)).
    rewrite Forall_map, Forall_forall in H.
    specialize (H i (proj2 (in_range i _) Hi)).
    unfold sat, BIP.flow_out in H. cbn [ct ct_sense ct_lhs ct_rhs eval] in H.
    rewrite (eval_psum_map a (fun j => X t q i j)) in H. exact H.
  - intros H t Ht. apply Forall_flat_map, Forall_forall. intros q Hq.
    apply Forall_map, Forall_forall. intros i Hi.
    apply in_range in Ht, Hq, Hi.
    unfold sat, BIP.flow_out. cbn [ct ct_sense ct_lhs ct_rhs eval].
    rewrite (eval_psum_map a (fun j => X t q i j)). apply H; assumption.
Qed.

Lemma sat_flow_in a (nb : nat -> list nat) d nv np :
  Forall (sat a) (flow_in_flat (fun _ => nb) d nv np)
  <-> forall t q i, 0 < t -> t < d -> q < nv -> i < np ->
        a (W t q i)
        = (a (X (t - 1) q i i)
           + sum_Z (map (fun j => a (X (t - 1) q j i)) (nb i)))%Z.
Proof.
  unfold flow_in_flat. rewrite Forall_flat_map, Forall_forall. split.
  - intros H t q i Ht0 Ht Hq Hi.
    specialize (H t ltac:(apply in_seq; lia)).
    rewrite Forall_flat_map, Forall_forall in H.
    specialize (H q (proj2 (in_range q _) Hq)).
    rewrite Forall_map, Forall_forall in H.
    specialize (H i (proj2 (in_range i _) Hi)).
    unfold sat, BIP.flow_in in H. cbn [ct ct_sense ct_lhs ct_rhs eval] in H.
    rewrite (eval_psum_map a (fun j => X (t - 1) q j i)) in H. exact H.
  - intros H t Ht. apply Forall_flat_map, Forall_forall. intros q Hq.
    apply Forall_map, Forall_forall. intros i Hi.
    apply in_seq in Ht. apply in_range in Hq, Hi.
    unfold sat, BIP.flow_in. cbn [ct ct_sense ct_lhs ct_rhs eval].
    rewrite (eval_psum_map a (fun j => X (t - 1) q j i)).
    apply H; try assumption; lia.
Qed.

Lemma sat_swap a arcs t p q n :
  Forall (sat a) (BIP.swap arcs t (p, q, n))
  <-> forall i j, In (i, j) arcs -> a (X t p i j) = a (X t q j i).
Proof.
  unfold BIP.swap. rewrite Forall_map, Forall_forall. split.
  - intros H i j Ha. exact (H (i, j) Ha).
  - intros H [i j] Ha. exact (H i j Ha).
Qed.

Lemma sat_swap_no_gate a gs d arcs nv :
  Forall (sat a) (swap_no_gate_flat gs (range d) arcs nv)
  <-> forall t i j, t < d -> In (i, j) arcs ->
        sum_Z (map (fun q => a (X t q i j)) (free_qubits (nth t gs []) nv))
        = sum_Z (map (fun q => a (X t q j i)) (free_qubits (nth t gs []) nv)).
Proof.
  unfold swap_no_gate_flat. rewrite Forall_flat_map, Forall_forall. split.
  - intros H t i j Ht Ha. specialize (H t (proj2 (in_range t _) Ht)).
    unfold BIP.swap_no_gate in H. rewrite Forall_map, Forall_forall in H.
    specialize (H (i, j) Ha).
    unfold sat in H. cbn [ct ct_sense ct_lhs ct_rhs] in H.
    rewrite (eval_psum_map a (fun q => X t q i j)),
            (eval_psum_map a (fun q => X t q j i)) in H.
    exact H.
  - intros H t Ht. apply in_range in Ht. unfold BIP.swap_no_gate.
    apply Forall_map, Forall_forall. intros [i j] Ha.
    unfold sat. cbn [ct ct_sense ct_lhs ct_rhs].
    rewrite (eval_psum_map a (fun q => X t q i j)),
            (eval_psum_map a (fun q => X t q j i)).
    apply H; assumption.
Qed.

Lemma sat_dummy_ts_needed a m d :
  Forall (sat a) (dummy_ts_needed_flat m (range d))
  <-> forall t q, t < d -> is_dummy m t = true -> q < BIP.num_vqubits m ->
        (sum_Z (map (fun e : nat * nat => a (X t q (fst e) (snd e)))
                    (BIP._arcs m))
         <= a (Zv t))%Z.
Proof.
  unfold dummy_ts_needed_flat. rewrite Forall_flat_map, Forall_forall. split.
  - intros H t q Ht Hd Hq. specialize (H t (proj2 (in_range t _) Ht)).
    rewrite Hd in H. unfold BIP.dummy_ts_needed in H.
    rewrite Forall_map, Forall_forall in H.
    specialize (H q (proj2 (in_range q _) Hq)).
    unfold sat in H. cbn [ct ct_sense ct_lhs ct_rhs eval] in H.
    rewrite (eval_psum_map a (fun e : nat * nat => X t q (fst e) (snd e)))
      in H.
    exact H.
  - intros H t Ht. apply in_range in Ht.
    destruct (is_dummy m t) eqn:Hd; [|constructor].
    unfold BIP.dummy_ts_needed. apply Forall_map, Forall_forall.
    intros q Hq. apply in_range in Hq.
    unfold sat. cbn [ct ct_sense ct_lhs ct_rhs eval].
    rewrite (eval_psum_map a (fun e : nat * nat => X t q (fst e) (snd e))).
    apply H; assumption.
Qed.

Lemma sat_dummy_precedence a m d :
  Forall (sat a) (dummy_precedence_flat m (range d))
  <-> forall t, t < d -> is_dummy m t = true -> is_dummy m (t + 1) = true ->
        (a (Zv t) >= a (Zv (t + 1)))%Z.
Proof.
  unfold dummy_precedence_flat. rewrite Forall_flat_map, Forall_forall. split.
  - intros H t Ht Hd Hd'. specialize (H t (proj2 (in_range t _) Ht)).
    rewrite Hd, Hd' in H. apply Forall_inv in H. exact H.
  - intros H t Ht. apply in_range in Ht.
    destruct (is_dummy m t) eqn:Hd; [|constructor].
    destruct (is_dummy m (t + 1)) eqn:Hd'; [|constructor].
    constructor; [|constructor]. apply (H t Ht Hd Hd').
Qed.

(** The gates of step [t] as pairs of logical qubits, and the qubits in
    none of them. *)
Definition bip_gates (m : BIP.BIPMappingModel) (t : nat) : list (nat * nat) :=
  map fst (nth t (BIP.gates m) []).

Definition bip_free (m : BIP.BIPMappingModel) (t : nat) : list nat :=
  free_qubits (nth t (BIP.gates m) []) (BIP.num_vqubits m).

Lemma in_bip_gates m t p q :
  In (p, q) (bip_gates m t) <-> exists n, In (p, q, n) (nth t (BIP.gates m) []).
Proof.
  unfold bip_gates. rewrite in_map_iff. split.
  - intros [[[p' q'] n] [E H]]. cbn in E. injection E as -> ->.
    exists n. exact H.
  - intros [n H]. exists (p, q, n). split; [reflexivity | exact H].
Qed.

Lemma bip_gates_nil m t : bip_gates m t = [] <-> is_dummy m t = true.
Proof.
  unfold bip_gates, is_dummy. destruct (nth t (BIP.gates m) []); simpl;
    split; intros H; try reflexivity; discriminate H.
Qed.

Lemma bip_sat_iff m a :
  BIP.num_vqubits m = BIP.num_pqubits m ->
  Forall (sat a) (exact_constraints m)
  <-> routing (BIP.num_pqubits m) (BIP.depth m) (bip_gates m) (BIP._arcs m)
        (neighbors (BIP._coupling m)) (neighbors (BIP._coupling m))
        (bip_free m) a
      /\ lower_bound (BIP.depth m) (bip_gates m) (BIP._arcs m) a.
Proof.
  intros Hn. unfold exact_constraints, bip_free. rewrite !Forall_app.
  rewrite sat_assignment_vqubits, sat_assignment_pqubits, sat_implement_gate.
  rewrite sat_flow_out, sat_flow_in, sat_swap_no_gate.
  rewrite sat_dummy_ts_needed, sat_dummy_precedence.
  rewrite !Forall_gates_flat, Forall_flat_map, Forall_forall.
  rewrite Hn. split.
  - intros (H1 & H2 & H3 & H4 & H5 & H6 & H7 & H8 & H9 & H10 & H11).
    split; [constructor|].
    + exact H1.
    + exact H2.
    + intros t p q Ht Hg. apply in_bip_gates in Hg. destruct Hg as [n Hg].
      apply (H3 t p q n Ht Hg).
    + intros t p q i j Ht Hg Ha. apply in_bip_gates in Hg.
      destruct Hg as [n Hg].
      specialize (H4 t (p, q, n) (proj2 (in_range t _) Ht) Hg).
      rewrite sat_mccormick_strong in H4. destruct (H4 i j Ha) as (_ & U1 & U2).
      split; assumption.
    + intros p q i j Hd Hg Ha. apply in_bip_gates in Hg.
      destruct Hg as [n Hg]. specialize (H5 (p, q, n) Hg).
      rewrite sat_mccormick_last in H5. destruct (H5 i j Ha) as (_ & U1 & U2).
      split; assumption.
    + exact H6.
    + exact H7.
    + intros t p q i j Ht Hg Ha. apply in_bip_gates in Hg.
      destruct Hg as [n Hg].
      specialize (H8 t (p, q, n) (proj2 (in_range t _) Ht) Hg).
      rewrite sat_swap in H8. apply H8. exact Ha.
    + exact H9.
    + intros t q Ht Hg Hq. apply bip_gates_nil in Hg. apply H10; assumption.
    + intros t Ht Hg Hg'. apply bip_gates_nil in Hg, Hg'. apply H11; assumption.
    + intros t p q i j Ht Hg Ha. apply in_bip_gates in Hg.
      destruct Hg as [n Hg].
      destruct (Nat.lt_ge_cases t (BIP.depth m - 1)) as [Hlt|Hge].
      * specialize (H4 t (p, q, n) (proj2 (in_range t _) Hlt) Hg).
        rewrite sat_mccormick_strong in H4. apply (H4 i j Ha).
      * assert (Et : t = BIP.depth m - 1) by lia. subst t.
        specialize (H5 (p, q, n) Hg).
        rewrite sat_mccormick_last in H5. apply (H5 i j Ha).
  - intros [R LB].
    split; [exact (r_assign_v _ _ _ _ _ _ _ _ R)|].
    split; [exact (r_assign_p _ _ _ _ _ _ _ _ R)|].
    split.
    { intros t p q n Ht Hg. apply (r_gate _ _ _ _ _ _ _ _ R t p q Ht).
      apply in_bip_gates. exists n. exact Hg. }
    split.
    { intros t [[p q] n] Ht Hg. apply in_range in Ht.
      apply sat_mccormick_strong. intros i j Ha.
      assert (Hg' : In (p, q) (bip_gates m t))
        by (apply in_bip_gates; exists n; exact Hg).
      split; [apply LB; try assumption; lia|].
      apply (r_ub_strong _ _ _ _ _ _ _ _ R t p q i j Ht Hg' Ha). }
    split.
    { intros [[p q] n] Hg. apply sat_mccormick_last. intros i j Ha.
      assert (Hd : 0 < BIP.depth m).
      { destruct (BIP.gates m) as [|x l] eqn:E; [|unfold BIP.depth; rewrite E; simpl; lia].
        unfold BIP.depth in Hg. rewrite E in Hg. destruct Hg. }
      assert (Hg' : In (p, q) (bip_gates m (BIP.depth m - 1)))
        by (apply in_bip_gates; exists n; exact Hg).
      split; [apply LB; try assumption; lia|].
      apply (r_ub_last _ _ _ _ _ _ _ _ R p q i j Hd Hg' Ha). }
    split; [exact (r_flow_out _ _ _ _ _ _ _ _ R)|].
    split; [exact (r_flow_in _ _ _ _ _ _ _ _ R)|].
    split.
    { intros t [[p q] n] Ht Hg. apply in_range in Ht.
      apply sat_swap. intros i j Ha.
      apply (r_swap _ _ _ _ _ _ _ _ R t p q i j Ht); [|exact Ha].
      apply in_bip_gates. exists n. exact Hg. }
    split; [exact (r_swap_free _ _ _ _ _ _ _ _ R)|].
    split.
    { intros t q Ht Hd Hq. apply bip_gates_nil in Hd.
      apply (r_dummy _ _ _ _ _ _ _ _ R); assumption. }
    intros t Ht Hd Hd'. apply bip_gates_nil in Hd, Hd'.
    apply (r_prec _ _ _ _ _ _ _ _ R); assumption.
Qed.

(** ** The index calculator *)

Lemma bip_bounds_iff keys a :
  Forall (in_bounds a) (map binary_var keys)
  <-> forall v, In v keys -> a v = 0%Z \/ a v = 1%Z.
Proof.
  rewrite Forall_map, Forall_forall. split.
  - intros H v Hv. destruct (H v Hv) as [Hb _]. exact Hb.
  - intros H v Hv. specialize (H v Hv). unfold in_bounds.
    cbn [binary_var var_name lb ub]. split; [exact H|].
    destruct H as [-> | ->]; split; unfold Qle; simpl; lia.
Qed.

Lemma dict_get_In {K V} (eqb : K -> K -> bool) (d : list (K * V)) k v :
  MIP.dict_get eqb d k = Ok v ->
  exists k', In (k', v) d /\ eqb k k' = true.
Proof.
  induction d as [|[k' v'] d IH]; intros H; [discriminate H|].
  cbn [MIP.dict_get] in H. destruct (MIP.dict_get eqb d k) as [v0|e].
  - injection H as <-. destruct (IH eq_refl) as [k0 [Hin He]].
    exists k0. split; [right; exact Hin | exact He].
  - destruct (eqb k k') eqn:E; [|discriminate H]. injection H as <-.
    exists k'. split; [left; reflexivity | exact E].
Qed.

Lemma dict_get_total {K V} (eqb : K -> K -> bool) (d : list (K * V)) k k' v' :
  In (k', v') d -> eqb k k' = true -> exists v, MIP.dict_get eqb d k = Ok v.
Proof.
  induction d as [|[k0 v0] d IH]; intros Hin He; [destruct Hin|].
  cbn [MIP.dict_get]. destruct (MIP.dict_get eqb d k) as [v1|e] eqn:E.
  - exists v1. reflexivity.
  - destruct Hin as [Hhd|Htl].
    + injection Hhd as -> ->. rewrite He. exists v'. reflexivity.
    + destruct (IH Htl He) as [v Hv]. discriminate Hv.
Qed.

Lemma in_combine_seq {K} (l : list K) s k v :
  In (k, v) (combine l (seq s (length l))) ->
  s <= v /\ v < s + length l /\ nth_error l (v - s) = Some k.
Proof.
  revert s. induction l as [|x l IH]; intros s H; [destruct H|].
  cbn [length seq combine] in H. destruct H as [H|H].
  - injection H as -> ->. rewrite Nat.sub_diag. simpl. repeat split; lia.
  - apply IH in H. destruct H as (H1 & H2 & H3).
    replace (v - s) with (S (v - S s)) by lia. simpl. repeat split; try lia.
    exact H3.
Qed.

Lemma combine_seq_In {K} (l : list K) s i k :
  nth_error l i = Some k -> In (k, s + i) (combine l (seq s (length l))).
Proof.
  revert s i. induction l as [|x l IH]; intros s i H; [destruct i; discriminate H|].
  cbn [length seq combine]. destruct i as [|i].
  - injection H as ->. left. rewrite Nat.add_0_r. reflexivity.
  - right. replace (s + S i) with (S s + i) by lia. apply IH. exact H.
Qed.

Lemma pair_eqb_eq a b : MIP.pair_eqb a b = true <-> a = b.
Proof.
  unfold MIP.pair_eqb. rewrite andb_true_iff, !Nat.eqb_eq.
  destruct a, b; simpl; split; [intros [-> ->]; reflexivity|].
  intros H. injection H as -> ->. split; reflexivity.
Qed.

Lemma triple_eqb_eq a b : MIP.triple_eqb a b = true <-> a = b.
Proof.
  unfold MIP.triple_eqb. rewrite andb_true_iff, pair_eqb_eq, Nat.eqb_eq.
  destruct a as [a1 a2], b as [b1 b2]; simpl; split;
    [intros [-> ->]; reflexivity|].
  intros H. injection H as -> ->. split; reflexivity.
Qed.

(** A lookup in a table that numbers the entries of [l] from [s]. *)
Lemma dict_get_numbered {K} (eqb : K -> K -> bool) (l : list K) s k v :
  (forall x y, eqb x y = true <-> x = y) ->
  MIP.dict_get eqb (combine l (seq s (length l))) k = Ok v ->
  s <= v /\ v < s + length l /\ nth_error l (v - s) = Some k.
Proof.
  intros Heq H. apply dict_get_In in H. destruct H as [k' [Hin He]].
  apply Heq in He. subst k'. apply in_combine_seq. exact Hin.
Qed.

Lemma dict_get_numbered_total {K} (eqb : K -> K -> bool) (l : list K) s k :
  (forall x y, eqb x y = true <-> x = y) ->
  In k l ->
  exists v, MIP.dict_get eqb (combine l (seq s (length l))) k = Ok v.
Proof.
  intros Heq Hin. apply In_nth_error in Hin. destruct Hin as [i Hi].
  apply (dict_get_total eqb _ k k (s + i)).
  - apply combine_seq_In. exact Hi.
  - apply Heq. reflexivity.
Qed.

(** *** The flow variables of one qubit at one step *)

Definition out_of (h : MIP._HardwareTopology) (i : nat) : list nat :=
  nth i (MIP.outstar_by_node h) [].

Definition inn_of (h : MIP._HardwareTopology) (i : nat) : list nat :=
  nth i (MIP.instar_by_node h) [].

(** The position of the self loop of [i]: one self loop and the out-star
    of every smaller qubit come before it. *)
Definition x_off (h : MIP._HardwareTopology) (i : nat) : nat :=
  list_sum (map (fun i' => S (length (out_of h i'))) (range i)).

Definition x_row (h : MIP._HardwareTopology) (i : nat) : list (nat * nat) :=
  (i, x_off h i)
  :: combine (out_of h i) (seq (S (x_off h i)) (length (out_of h i))).

Lemma x_off_S h i : x_off h (S i) = x_off h i + S (length (out_of h i)).
Proof.
  unfold x_off. rewrite range_S, map_app, list_sum_app. simpl. lia.
Qed.

Lemma x_off_mono h i i' : i <= i' -> x_off h i <= x_off h i'.
Proof.
  induction 1 as [|i' _ IH]; [lia|]. rewrite x_off_S. lia.
Qed.

Lemma build_x_var_mapping_ok h np xm :
  MIP.build_x_var_mapping h np = Ok xm ->
  np <= length (MIP.outstar_by_node h) /\ xm = map (x_row h) (range np).
Proof.
  unfold MIP.build_x_var_mapping. intros H. bind_as H r Hr. injection H as <-.
  assert (Hgen : forall n r,
            fold_left
              (fun (acc : result (nat * list (list (nat * nat)))) i =>
                 bind acc (fun st =>
                   bind (MIP.nth_outstar h i) (fun out =>
                     Ok (S (fst st) + length out,
                         snd st
                         ++ [(i, fst st)
                             :: combine out (seq (S (fst st)) (length out))]))))
              (range n) (Ok (0, [])) = Ok r ->
            n <= length (MIP.outstar_by_node h)
            /\ fst r = x_off h n /\ snd r = map (x_row h) (range n)).
  { clear r Hr. induction n as [|n IH]; intros r H.
    - simpl in H. injection H as <-. simpl. repeat split. lia.
    - rewrite range_S, fold_left_app in H. cbn [fold_left] in H.
      bind_as H st Hst. bind_as H out Hout. injection H as <-.
      destruct (IH _ Hst) as (Hn & Hfst & Hsnd).
      unfold MIP.nth_outstar in Hout.
      apply (py_index_inv _ _ _ []) in Hout. destruct Hout as [Hlt ->].
      fold (out_of h n). cbn [fst snd]. split; [lia|]. split.
      + rewrite x_off_S, Hfst. lia.
      + rewrite range_S, map_app, Hsnd, Hfst. reflexivity. }
  destruct (Hgen np r Hr) as (Hn & _ & Hsnd). split; assumption.
Qed.

(** Where [x_var_mapping[i][j]] points. *)
Definition x_pos (h : MIP._HardwareTopology) (i j pos : nat) : Prop :=
  (S (x_off h i) <= pos /\ pos < S (x_off h i) + length (out_of h i)
   /\ nth_error (out_of h i) (pos - S (x_off h i)) = Some j)
  \/ (pos = x_off h i /\ j = i).

Lemma x_row_get h i j pos :
  MIP.dict_get Nat.eqb (x_row h i) j = Ok pos -> x_pos h i j pos.
Proof.
  unfold x_row. cbn [MIP.dict_get].
  destruct (MIP.dict_get Nat.eqb
              (combine (out_of h i)
                 (seq (S (x_off h i)) (length (out_of h i)))) j)
    as [v|e] eqn:E.
  - intros H. injection H as <-. left.
    apply (dict_get_numbered Nat.eqb) in E; [exact E|].
    intros x y. apply Nat.eqb_eq.
  - destruct (Nat.eqb_spec j i) as [->|]; intros H; [|discriminate H].
    injection H as <-. right. split; reflexivity.
Qed.

Lemma x_row_total h i j :
  j = i \/ In j (out_of h i) ->
  exists pos, MIP.dict_get Nat.eqb (x_row h i) j = Ok pos.
Proof.
  intros [->|Hin].
  - apply (dict_get_total Nat.eqb _ i i (x_off h i)).
    + left. reflexivity.
    + apply Nat.eqb_refl.
  - apply In_nth_error in Hin. destruct Hin as [k Hk].
    apply (dict_get_total Nat.eqb _ j j (S (x_off h i) + k)).
    + right. apply combine_seq_In. exact Hk.
    + apply Nat.eqb_refl.
Qed.

Lemma x_pos_bound h i j pos : x_pos h i j pos -> x_off h i <= pos < x_off h (S i).
Proof. rewrite x_off_S. unfold x_pos. intros [(H1 & H2 & _)|[-> _]]; lia. Qed.

Lemma x_pos_inj h i j i' j' pos :
  x_pos h i j pos -> x_pos h i' j' pos -> i = i' /\ j = j'.
Proof.
  intros H H'.
  pose proof (x_pos_bound _ _ _ _ H) as B.
  pose proof (x_pos_bound _ _ _ _ H') as B'.
  assert (Ei : i = i').
  { destruct (Nat.lt_trichotomy i i') as [Hlt|[He|Hgt]]; [|exact He|].
    - pose proof (x_off_mono h (S i) i' Hlt). lia.
    - pose proof (x_off_mono h (S i') i Hgt). lia. }
  subst i'. split; [reflexivity|].
  destruct H as [(H1 & H2 & H3)|[H1 H2]], H' as [(H1' & H2' & H3')|[H1' H2']];
    try lia; congruence.
Qed.

(** ** What the two [__init__] store for one circuit and coupling map *)

Definition flip (e : nat * nat) : nat * nat := (snd e, fst e).

Lemma map_with_dummy_steps {A B} (f : A -> B) D (l : list (list A)) :
  map (map f) (with_dummy_steps D l) = with_dummy_steps D (map (map f) l).
Proof.
  induction l as [|x r IH]; [reflexivity|].
  destruct r as [|y r]; [reflexivity|].
  rewrite with_dummy_steps_cons. cbn [map].
  rewrite with_dummy_steps_cons. rewrite map_app, IH, map_repeat.
  reflexivity.
Qed.

Lemma init_HardwareTopology_ok n conn fid h :
  MIP.init_HardwareTopology n conn fid = Ok h ->
  MIP.ht_num_qubits h = n /\
  exists es,
    MIP.edge_set_of n conn = Ok es /\
    MIP.edges h = es /\
    MIP.arcs h = es ++ map flip es /\
    MIP.num_edges h = length es /\
    MIP.num_arcs h = 2 * length es /\
    MIP.outstar_by_node h
    = map (fun i => map snd (filter (fun a => fst a =? i) (MIP.arcs h)))
          (range n) /\
    MIP.instar_by_node h
    = map (fun i => map fst (filter (fun a => snd a =? i) (MIP.arcs h)))
          (range n) /\
    MIP._edge_to_index h = combine es (seq 0 (length es)) /\
    MIP._arc_to_index h
    = combine (MIP.arcs h) (seq 0 (length (MIP.arcs h))).
Proof.
  unfold MIP.init_HardwareTopology. intros H.
  bind_as H es Hes. bind_as H f Hf. injection H as <-.
  cbn. split; [reflexivity|]. exists es. split; [exact Hes|].
  repeat split; reflexivity.
Qed.

Lemma mip_init_ok dag coupling D mm :
  MIP.init dag coupling D = Ok mm ->
  MIP.gates (MIP.circuit_model mm)
  = with_dummy_steps D (map (map pair_of) (real_layers dag))
  /\ MIP._gate_to_index (MIP.circuit_model mm)
     = MIP.gate_index_table (MIP.gates (MIP.circuit_model mm))
  /\ exists fid,
       MIP.init_HardwareTopology (size coupling)
         (map (neighbors coupling) (range (size coupling))) fid
       = Ok (MIP.toplogy_model mm).
Proof.
  unfold MIP.init. intros H. bind_as H qc Hqc. bind_as H ht Hht.
  injection H as <-. cbn [MIP.circuit_model MIP.toplogy_model].
  unfold MIP.init_CircuitModel in Hqc. bind_as Hqc ng Hng.
  injection Hqc as <-. cbn [MIP.gates MIP._gate_to_index].
  rewrite new_gates_eq in Hng. injection Hng as <-.
  split; [|split; [reflexivity | eexists; exact Hht]].
  f_equal. unfold real_layers.
  rewrite <- (filter_map_nonempty pair_of). reflexivity.
Qed.

Lemma bip_gates_mip dag coupling subset D ns m mm t :
  BIP.init dag coupling subset D ns = Ok m ->
  MIP.init dag coupling D = Ok mm ->
  bip_gates m t = nth t (MIP.gates (MIP.circuit_model mm)) []
  /\ BIP.depth m = MIP.depth (MIP.circuit_model mm).
Proof.
  intros Hb Hm. apply init_fields in Hb. destruct Hb as (Hsu & Hg & _).
  apply mip_init_ok in Hm. destruct Hm as (Hgm & _).
  assert (E : map (map fst) (BIP.gates m)
              = MIP.gates (MIP.circuit_model mm)).
  { rewrite Hg, Hsu, Hgm, map_with_dummy_steps, map_map. f_equal.
    apply map_ext. intros lay. unfold BIP.laygates_of. rewrite map_map.
    reflexivity. }
  split.
  - unfold bip_gates. rewrite <- E.
    change (@nil (nat * nat)) with (map (@fst (nat * nat) nat) []).
    rewrite map_nth. reflexivity.
  - unfold BIP.depth, MIP.depth. rewrite <- E, length_map. reflexivity.
Qed.

(** ** The hardware topology of a symmetric coupling map *)

(** What the builders expect of the coupling map once it is symmetric:
    [get_edges] lists every arc once and in both directions, without self
    loops, and [neighbors] is consistent with it. *)
Record coupling_ok (c : CouplingMap) : Prop := {
  co_edges : forall i j,
    In (i, j) (get_edges c) <-> i < size c /\ In j (neighbors c i);
  co_range : forall i j, In (i, j) (get_edges c) -> j < size c;
  co_sym : forall i j, In (i, j) (get_edges c) -> In (j, i) (get_edges c);
  co_loop : forall i, ~ In (i, i) (get_edges c);
  co_nodup : NoDup (get_edges c);
  co_nodup_nb : forall i, NoDup (neighbors c i)
}.

Lemma mem_pair_In a l : MIP.mem_pair a l = true <-> In a l.
Proof.
  unfold MIP.mem_pair. rewrite existsb_exists. split.
  - intros [x [Hx E]]. apply pair_eqb_eq in E. subst. exact Hx.
  - intros H. exists a. split; [exact H | apply pair_eqb_eq; reflexivity].
Qed.

Definition edge_step (u : nat) (es : list (nat * nat)) (v : nat)
  : list (nat * nat) :=
  if negb (MIP.mem_pair (u, v) es) && negb (MIP.mem_pair (v, u) es)
  then es ++ [(u, v)] else es.

(** One adjacency list added to the edge set. *)
Lemma edge_steps u vs es :
  let es' := fold_left (edge_step u) vs es in
  incl es es'
  /\ (forall v, In v vs -> In (u, v) es' \/ In (v, u) es')
  /\ (forall e, In e es' -> In e es \/ exists v, In v vs /\ e = (u, v))
  /\ (NoDup es -> NoDup es')
  /\ ((forall e, In e es -> In (flip e) es -> flip e = e) ->
      forall e, In e es' -> In (flip e) es' -> flip e = e).
Proof.
  revert es. induction vs as [|v vs IH]; intros es; cbn [fold_left].
  - repeat split; try tauto.
    + intros e H. exact H.
    + intros v [].
  - destruct (IH (edge_step u es v)) as (I1 & I2 & I3 & I4 & I5).
    assert (Hstep : incl es (edge_step u es v)).
    { unfold edge_step. destruct (_ && _); [|intros e H; exact H].
      intros e H. apply in_or_app. left. exact H. }
    assert (Hv : In (u, v) (edge_step u es v) \/ In (v, u) (edge_step u es v)).
    { unfold edge_step.
      destruct (MIP.mem_pair (u, v) es) eqn:E1; cbn [negb andb].
      - left. apply mem_pair_In. exact E1.
      - destruct (MIP.mem_pair (v, u) es) eqn:E2; cbn [negb andb].
        + right. apply mem_pair_In. exact E2.
        + left. apply in_or_app. right. left. reflexivity. }
    assert (Hnew : forall e, In e (edge_step u es v) -> In e es \/ e = (u, v)).
    { unfold edge_step. destruct (_ && _); intros e H; [|left; exact H].
      apply in_app_or in H. destruct H as [H|[H|[]]]; [left|right]; auto. }
    split; [|split; [|split; [|split]]].
    + intros e H. apply I1, Hstep. exact H.
    + intros v' [<-|Hv']; [|apply I2; exact Hv'].
      destruct Hv as [H|H]; [left|right]; apply I1; exact H.
    + intros e H. destruct (I3 e H) as [H'|[v' [Hv' ->]]].
      * destruct (Hnew e H') as [H''| ->]; [left; exact H''|].
        right. exists v. split; [left; reflexivity | reflexivity].
      * right. exists v'. split; [right; exact Hv' | reflexivity].
    + intros Hnd. apply I4. unfold edge_step.
      destruct (MIP.mem_pair (u, v) es) eqn:E1; cbn [negb andb];
        [exact Hnd|].
      destruct (MIP.mem_pair (v, u) es) eqn:E2; cbn [negb andb];
        [exact Hnd|].
      apply NoDup_app; [exact Hnd | repeat constructor; intros [] |].
      intros e He [<-|[]]. apply mem_pair_In in He. congruence.
    + intros Hfl. apply I5. unfold edge_step.
      destruct (MIP.mem_pair (u, v) es) eqn:E1; cbn [negb andb];
        [exact Hfl|].
      destruct (MIP.mem_pair (v, u) es) eqn:E2; cbn [negb andb];
        [exact Hfl|].
      intros e He Hfe. apply in_app_or in He, Hfe.
      destruct He as [He|[<-|[]]], Hfe as [Hfe|[Hfe|[]]].
      * apply Hfl; assumption.
      * destruct e as [x y]. unfold flip in Hfe. cbn in Hfe.
        injection Hfe as -> ->. apply mem_pair_In in He. congruence.
      * unfold flip in Hfe. cbn in Hfe. apply mem_pair_In in Hfe. congruence.
      * unfold flip in Hfe |- *. cbn in Hfe |- *. congruence.
Qed.

Lemma edge_set_of_ok n (nb : nat -> list nat) es :
  MIP.edge_set_of n (map nb (range n)) = Ok es ->
  NoDup es
  /\ (forall e, In e es -> In (flip e) es -> flip e = e)
  /\ (forall u v, In (u, v) es -> u < n /\ In v (nb u))
  /\ (forall u v, u < n -> In v (nb u) -> In (u, v) es \/ In (v, u) es).
Proof.
  unfold MIP.edge_set_of.
  assert (Hgen : forall k es,
            k <= n ->
            fold_left
              (fun (acc : result (list (nat * nat))) u =>
                 bind acc (fun es0 =>
                   bind (py_index (map nb (range n)) (Z.of_nat u)) (fun vs =>
                     Ok (fold_left
                           (fun es1 v =>
                              if negb (MIP.mem_pair (u, v) es1)
                                 && negb (MIP.mem_pair (v, u) es1)
                              then es1 ++ [(u, v)] else es1)
                           vs es0))))
              (range k) (Ok []) = Ok es ->
            NoDup es
            /\ (forall e, In e es -> In (flip e) es -> flip e = e)
            /\ (forall u v, In (u, v) es -> u < k /\ In v (nb u))
            /\ (forall u v, u < k -> In v (nb u) ->
                            In (u, v) es \/ In (v, u) es)).
  { induction k as [|k IH]; intros es0 Hk H.
    - simpl in H. injection H as <-. repeat split.
      + constructor.
      + intros e [].
      + destruct H.
      + destruct H.
      + intros; lia.
    - rewrite range_S, fold_left_app in H. cbn [fold_left] in H.
      bind_as H es1 Hes1. bind_as H vs Hvs. injection H as <-.
      destruct (IH es1 ltac:(lia) Hes1) as (N1 & F1 & R1 & C1).
      apply (py_index_inv _ _ _ []) in Hvs. destruct Hvs as [_ ->].
      assert (Evs : nth k (map nb (range n)) [] = nb k).
      { rewrite (nth_indep _ [] (nb 0))
          by (rewrite length_map; unfold range; rewrite length_seq; lia).
        rewrite (map_nth nb). unfold range. rewrite seq_nth by lia.
        reflexivity. }
      rewrite Evs.
      destruct (edge_steps k (nb k) es1) as (I1 & I2 & I3 & I4 & I5).
      fold (edge_step k). split; [exact (I4 N1)|].
      split; [exact (I5 F1)|]. split.
      + intros u v H. destruct (I3 _ H) as [H'|[v' [Hv' E]]].
        * destruct (R1 u v H') as [Hu Hv]. split; [lia | exact Hv].
        * injection E as -> ->. split; [lia | exact Hv'].
      + intros u v Hu Hv. destruct (Nat.eq_dec u k) as [->|Hne].
        * apply I2. exact Hv.
        * destruct (C1 u v ltac:(lia) Hv) as [H|H]; [left|right];
            apply I1; exact H. }
  intros H. apply (Hgen n es (le_n n) H).
Qed.

Lemma NoDup_map_on {A B} (f : A -> B) (l : list A) :
  NoDup l ->
  (forall a b, In a l -> In b l -> f a = f b -> a = b) ->
  NoDup (map f l).
Proof.
  induction 1 as [|x l Hx Hnd IH]; intros Hinj; [constructor|].
  cbn [map]. constructor.
  - intros Hin. apply in_map_iff in Hin. destruct Hin as [y [Hy Hyl]].
    assert (y = x) by (apply Hinj; [right; exact Hyl | left; reflexivity | exact Hy]).
    subst y. contradiction.
  - apply IH. intros a b Ha Hb. apply Hinj; right; assumption.
Qed.

Lemma sum_Z_perm {A} (f : A -> Z) l l' :
  Permutation l l' -> sum_Z (map f l) = sum_Z (map f l').
Proof.
  induction 1; simpl; unfold sum_Z in *; simpl; lia.
Qed.

Lemma flip_flip e : flip (flip e) = e.
Proof. destruct e; reflexivity. Qed.

(** The arcs and the stars of the topology against the coupling map. *)
Record topology_ok (c : CouplingMap) (h : MIP._HardwareTopology) : Prop := {
  to_size : MIP.ht_num_qubits h = size c;
  to_num_arcs : MIP.num_arcs h = length (MIP.arcs h);
  to_num_edges : MIP.num_edges h = length (MIP.edges h);
  to_arcs_nodup : NoDup (MIP.arcs h);
  to_arcs : forall a, In a (MIP.arcs h) <-> In a (get_edges c);
  to_edges : forall e, In e (MIP.edges h) -> In e (MIP.arcs h);
  to_edges_nodup : NoDup (MIP.edges h);
  to_edges_flip : forall e, In e (MIP.edges h) -> ~ In (flip e) (MIP.edges h);
  to_arcs_edges :
    forall a, In a (MIP.arcs h) ->
              In a (MIP.edges h) \/ In (flip a) (MIP.edges h);
  to_outstar_len : length (MIP.outstar_by_node h) = size c;
  to_instar_len : length (MIP.instar_by_node h) = size c;
  to_out : forall i j, i < size c -> In j (out_of h i) <-> In (i, j) (MIP.arcs h);
  to_inn : forall i j, i < size c -> In j (inn_of h i) <-> In (j, i) (MIP.arcs h);
  to_out_total : x_off h (size c) <= length (MIP.arcs h) + size c;
  to_out_nodup : forall i, i < size c -> NoDup (out_of h i);
  to_inn_nodup : forall i, i < size c -> NoDup (inn_of h i);
  to_edge_index : MIP._edge_to_index h
                  = combine (MIP.edges h) (seq 0 (length (MIP.edges h)));
  to_arc_index : MIP._arc_to_index h
                 = combine (MIP.arcs h) (seq 0 (length (MIP.arcs h)))
}.

Lemma list_sum_indicator x n :
  list_sum (map (fun i => if x =? i then 1 else 0) (range n)) <= 1.
Proof.
  assert (H : list_sum (map (fun i => if x =? i then 1 else 0) (range n))
              = if x <? n then 1 else 0).
  { induction n as [|n IH]; [reflexivity|].
    rewrite range_S, map_app, list_sum_app, IH. cbn [map list_sum].
    destruct (Nat.ltb_spec x n), (Nat.eqb_spec x n), (Nat.ltb_spec x (S n));
      simpl; lia. }
  rewrite H. destruct (x <? n); lia.
Qed.

Lemma list_sum_map_add {A} (f g : A -> nat) l :
  list_sum (map (fun i => f i + g i) l)
  = list_sum (map f l) + list_sum (map g l).
Proof. induction l as [|x l IH]; simpl; lia. Qed.

Lemma filter_fst_total (l : list (nat * nat)) n :
  list_sum
    (map (fun i => length (map snd (filter (fun a => fst a =? i) l)))
         (range n))
  <= length l.
Proof.
  induction l as [|a l IH]; simpl.
  - induction (range n); simpl; lia.
  - rewrite (map_ext _
               (fun i => (if fst a =? i then 1 else 0)
                         + length (map snd (filter (fun a0 => fst a0 =? i) l)))).
    + rewrite list_sum_map_add. pose proof (list_sum_indicator (fst a) n). lia.
    + intros i. destruct (fst a =? i); reflexivity.
Qed.

Lemma x_off_total h n :
  x_off h n = n + list_sum (map (fun i => length (out_of h i)) (range n)).
Proof.
  induction n as [|n IH]; [reflexivity|].
  rewrite x_off_S, IH, range_S, map_app, list_sum_app. simpl. lia.
Qed.

Lemma nth_map_range {A} (F : nat -> A) n i d :
  i < n -> nth i (map F (range n)) d = F i.
Proof.
  intros Hi.
  rewrite (nth_indep _ d (F 0))
    by (rewrite length_map; unfold range; rewrite length_seq; exact Hi).
  rewrite (map_nth F). unfold range. rewrite seq_nth by exact Hi. reflexivity.
Qed.

Lemma init_topology_ok c fid h :
  coupling_ok c ->
  MIP.init_HardwareTopology (size c) (map (neighbors c) (range (size c))) fid
  = Ok h ->
  topology_ok c h.
Proof.
  intros Hc H. apply init_HardwareTopology_ok in H.
  destruct H as (Hn & es & Hes & Hedges & Harcs & Hne & Hna & Hout & Hinn
                 & Hei & Hai).
  apply edge_set_of_ok in Hes. destruct Hes as (N & F & R & C).
  assert (Hin_es : forall e, In e es -> In e (get_edges c)).
  { intros [u v] He. apply (co_edges c Hc). apply R. exact He. }
  assert (Hnoflip : forall e, In e es -> ~ In (flip e) es).
  { intros e He Hfe. pose proof (F e He Hfe) as E.
    destruct e as [u v]. unfold flip in E. cbn in E.
    assert (Euv : u = v) by congruence. subst v.
    apply (co_loop c Hc u). apply Hin_es. exact He. }
  assert (Harcs_in : forall a, In a (MIP.arcs h) <-> In a (get_edges c)).
  { intros a. rewrite Harcs, in_app_iff. split.
    - intros [Ha|Ha]; [apply Hin_es; exact Ha|].
      apply in_map_iff in Ha. destruct Ha as [[u v] [<- He]].
      unfold flip. cbn. apply (co_sym c Hc). apply Hin_es. exact He.
    - intros Ha. destruct a as [u v].
      apply (co_edges c Hc) in Ha. destruct Ha as [Hu Hv].
      destruct (C u v Hu Hv) as [H|H]; [left; exact H|].
      right. apply in_map_iff. exists (v, u). split; [reflexivity | exact H]. }
  assert (Harcs_nd : NoDup (MIP.arcs h)).
  { rewrite Harcs. apply NoDup_app; [exact N | |].
    - apply NoDup_map_on; [exact N|].
      intros a b _ _ E. rewrite <- (flip_flip a), E. apply flip_flip.
    - intros e He Hfe. apply in_map_iff in Hfe.
      destruct Hfe as [e' [<- He']]. apply (Hnoflip e' He').
      exact He. }
  assert (Hfilter_out : forall i j,
            In j (map snd (filter (fun a => fst a =? i) (MIP.arcs h)))
            <-> In (i, j) (MIP.arcs h)).
  { intros i j. rewrite in_map_iff. split.
    - intros [[u v] [E Hf]]. apply filter_In in Hf. destruct Hf as [Hin Hfst].
      cbn in E, Hfst. apply Nat.eqb_eq in Hfst. subst. exact Hin.
    - intros Hin. exists (i, j). split; [reflexivity|].
      apply filter_In. split; [exact Hin | apply Nat.eqb_refl]. }
  assert (Hfilter_inn : forall i j,
            In j (map fst (filter (fun a => snd a =? i) (MIP.arcs h)))
            <-> In (j, i) (MIP.arcs h)).
  { intros i j. rewrite in_map_iff. split.
    - intros [[u v] [E Hf]]. apply filter_In in Hf. destruct Hf as [Hin Hsnd].
      cbn in E, Hsnd. apply Nat.eqb_eq in Hsnd. subst. exact Hin.
    - intros Hin. exists (j, i). split; [reflexivity|].
      apply filter_In. split; [exact Hin | apply Nat.eqb_refl]. }
  constructor.
  - exact Hn.
  - rewrite Hna, Harcs, length_app, length_map. lia.
  - rewrite Hne, Hedges. reflexivity.
  - exact Harcs_nd.
  - exact Harcs_in.
  - intros e He. rewrite Harcs. apply in_or_app. left. rewrite <- Hedges.
    exact He.
  - rewrite Hedges. exact N.
  - rewrite Hedges. exact Hnoflip.
  - intros a Ha. rewrite Harcs in Ha. rewrite Hedges.
    apply in_app_or in Ha. destruct Ha as [Ha|Ha]; [left; exact Ha|].
    right. apply in_map_iff in Ha. destruct Ha as [e [<- He]].
    rewrite flip_flip. exact He.
  - rewrite Hout, length_map. unfold range. apply length_seq.
  - rewrite Hinn, length_map. unfold range. apply length_seq.
  - intros i j Hi. unfold out_of. rewrite Hout, nth_map_range by exact Hi.
    apply Hfilter_out.
  - intros i j Hi. unfold inn_of. rewrite Hinn, nth_map_range by exact Hi.
    apply Hfilter_inn.
  - rewrite x_off_total.
    pose proof (filter_fst_total (MIP.arcs h) (size c)) as Hsum.
    rewrite (map_ext_in (fun i => length (out_of h i))
               (fun i => length (map snd (filter (fun a => fst a =? i)
                                            (MIP.arcs h))))).
    + lia.
    + intros i Hi. apply in_range in Hi. unfold out_of.
      rewrite Hout, nth_map_range by exact Hi. reflexivity.
  - intros i Hi. unfold out_of. rewrite Hout, nth_map_range by exact Hi.
    apply NoDup_map_on; [apply NoDup_filter; exact Harcs_nd|].
    intros [u v] [u' v'] Ha Hb E. apply filter_In in Ha, Hb.
    destruct Ha as [_ Ha], Hb as [_ Hb]. cbn in *.
    apply Nat.eqb_eq in Ha, Hb. congruence.
  - intros i Hi. unfold inn_of. rewrite Hinn, nth_map_range by exact Hi.
    apply NoDup_map_on; [apply NoDup_filter; exact Harcs_nd|].
    intros [u v] [u' v'] Ha Hb E. apply filter_In in Ha, Hb.
    destruct Ha as [_ Ha], Hb as [_ Hb]. cbn in *.
    apply Nat.eqb_eq in Ha, Hb. congruence.
  - rewrite Hei, Hedges. reflexivity.
  - exact Hai.
Qed.

(** ** The indices of the variables *)

Lemma in_combine_seq_l {A} (l : list A) s k x :
  In (k, x) (combine (seq s (length l)) l)
  <-> s <= k /\ nth_error l (k - s) = Some x.
Proof.
  revert s. induction l as [|y l IH]; intros s; cbn [length seq combine].
  - split; [intros [] | intros [_ H]; destruct (k - s); discriminate H].
  - split.
    + intros [H|H].
      * injection H as -> ->. rewrite Nat.sub_diag. split; [lia | reflexivity].
      * apply IH in H. destruct H as [H1 H2].
        replace (k - s) with (S (k - S s)) by lia. split; [lia | exact H2].
    + intros [H1 H2]. destruct (Nat.eq_dec k s) as [->|Hne].
      * rewrite Nat.sub_diag in H2. injection H2 as ->. left. reflexivity.
      * right. apply IH. split; [lia|].
        replace (k - s) with (S (k - S s)) in H2 by lia. exact H2.
Qed.

Lemma in_enumerate {A} (l : list A) k x :
  In (k, x) (enumerate l) <-> nth_error l k = Some x.
Proof.
  unfold enumerate. rewrite in_combine_seq_l, Nat.sub_0_r.
  split; [intros [_ H]; exact H | intros H; split; [lia | exact H]].
Qed.

Lemma nth_error_nth_iff {A} (l : list (list A)) t x :
  x <> [] -> (nth_error l t = Some x <-> t < length l /\ nth t l [] = x).
Proof.
  intros Hx. split.
  - intros H. split; [apply nth_error_Some; congruence|].
    apply nth_error_nth. exact H.
  - intros [Ht <-]. apply nth_error_nth'. exact Ht.
Qed.

(** The keys of [_gate_to_index], in the order they are numbered. *)
Definition gate_keys (gs : list (list (nat * nat))) : list (nat * nat * nat) :=
  flat_map
    (fun tl : nat * list (nat * nat) =>
       map (fun g : nat * nat => (fst tl, fst g, snd g)) (snd tl))
    (enumerate gs).

Lemma in_gate_keys gs t p q :
  In (t, p, q) (gate_keys gs) <-> t < length gs /\ In (p, q) (nth t gs []).
Proof.
  unfold gate_keys. rewrite in_flat_map. split.
  - intros [[t' lay] [Hin Hg]]. apply in_enumerate in Hin.
    cbn [fst snd] in Hg. apply in_map_iff in Hg.
    destruct Hg as [[p' q'] [E Hg]]. cbn in E. injection E as -> -> ->.
    split; [apply nth_error_Some; congruence|].
    rewrite (nth_error_nth _ _ [] Hin). exact Hg.
  - intros [Ht Hg]. exists (t, nth t gs []). split.
    + apply in_enumerate. apply nth_error_nth'. exact Ht.
    + cbn [fst snd]. apply in_map_iff. exists (p, q). split; [reflexivity|].
      exact Hg.
Qed.

Lemma length_gate_keys gs :
  length (gate_keys gs) = list_sum (map (@length _) gs).
Proof.
  unfold gate_keys, enumerate. generalize 0 as s.
  induction gs as [|lay gs IH]; intros s; [reflexivity|].
  cbn [length seq combine flat_map map list_sum].
  rewrite length_app, length_map, IH. reflexivity.
Qed.

Lemma gate_index_table_eq gs :
  MIP.gate_index_table gs
  = combine (gate_keys gs) (seq 0 (length (gate_keys gs))).
Proof. reflexivity. Qed.

(** What is known of an index calculator built for the coupling map [c]. *)
Record ic_ok (c : CouplingMap) (ic : MIP._IndexCalculator) : Prop := {
  io_ht : topology_ok c (MIP.ht ic);
  io_nl : MIP.num_lqubits ic = size c;
  io_np : MIP.num_pqubits ic = size c;
  io_depth : MIP.ic_depth ic = length (MIP.gates (MIP.qc ic));
  io_gate_index :
    MIP._gate_to_index (MIP.qc ic)
    = combine (gate_keys (MIP.gates (MIP.qc ic)))
              (seq 0 (length (gate_keys (MIP.gates (MIP.qc ic)))));
  io_num_gates : MIP.num_gates ic = length (gate_keys (MIP.gates (MIP.qc ic)));
  io_xmap : MIP.x_var_mapping ic = map (x_row (MIP.ht ic)) (range (size c));
  io_w_start : MIP.w_start ic = 0;
  io_num_w : MIP.num_w_vars ic = MIP.ic_depth ic * size c * size c;
  io_y_start : MIP.y_start ic = MIP.num_w_vars ic;
  io_num_y :
    MIP.num_y_vars ic = MIP.num_gates ic * length (MIP.arcs (MIP.ht ic));
  io_x_start : MIP.x_start ic = MIP.num_w_vars ic + MIP.num_y_vars ic;
  io_num_x :
    MIP.num_x_vars ic
    = (MIP.ic_depth ic - 1) * size c
      * (length (MIP.arcs (MIP.ht ic)) + size c);
  io_wd_start : MIP.wd_start ic = MIP.x_start ic + MIP.num_x_vars ic;
  io_num_wd : MIP.num_wd_vars ic = MIP.ic_depth ic;
  io_eu_start : MIP.eu_start ic = MIP.wd_start ic + MIP.ic_depth ic;
  io_num_eu :
    MIP.num_eu_vars ic
    = length (MIP.edges (MIP.ht ic)) * (MIP.ic_depth ic - 1)
}.

Lemma mip_ic_ok dag c D mm ic :
  coupling_ok c ->
  MIP.init dag c D = Ok mm ->
  MIP.init_IndexCalculator (MIP.circuit_model mm) (MIP.toplogy_model mm)
  = Ok ic ->
  ic_ok c ic
  /\ MIP.gates (MIP.qc ic)
     = with_dummy_steps D (map (map pair_of) (real_layers dag)).
Proof.
  intros Hc Hmm Hic. apply mip_init_ok in Hmm.
  destruct Hmm as (Hg & Hgi & fid & Hht).
  pose proof (init_topology_ok c fid _ Hc Hht) as Hto.
  apply init_IndexCalculator_ok in Hic.
  destruct Hic as (Hqc & Hh & Hnl & Hnp & Hd & Hws & Hnw & Hxm & Hys & Hny
                   & Hxs & Hnx & Hwds & Hnwd & Heus & Hneu & Hng).
  apply build_x_var_mapping_ok in Hxm. destruct Hxm as [_ Hxm].
  pose proof (to_size _ _ Hto) as Hsz.
  split; [|rewrite Hqc; exact Hg].
  constructor.
  - rewrite Hh. exact Hto.
  - rewrite Hnl. exact Hsz.
  - rewrite Hnp. exact Hsz.
  - rewrite Hd, Hqc. reflexivity.
  - rewrite Hqc, Hgi. apply gate_index_table_eq.
  - rewrite Hng, Hqc. symmetry. apply length_gate_keys.
  - rewrite Hxm, Hh, Hsz. reflexivity.
  - exact Hws.
  - rewrite Hnw, Hd, Hsz. reflexivity.
  - exact Hys.
  - rewrite Hny, Hh. reflexivity.
  - exact Hxs.
  - rewrite Hnx, Hd, Hsz, (to_num_arcs _ _ Hto), Hh. reflexivity.
  - exact Hwds.
  - rewrite Hnwd, Hd. reflexivity.
  - rewrite Heus, Hd. reflexivity.
  - rewrite Hneu, Hd, (to_num_edges _ _ Hto), Hh. reflexivity.
Qed.

Section Indices.

Variable c : CouplingMap.
Variable ic : MIP._IndexCalculator.
Hypothesis Hic : ic_ok c ic.

Let n := size c.
Let d := MIP.ic_depth ic.
Let h := MIP.ht ic.
Let gs := MIP.gates (MIP.qc ic).
Let A := length (MIP.arcs h).
Let G := MIP.num_gates ic.

Lemma y_index_inv t p q i j k :
  MIP.y_index ic t (p, q) (i, j) = Ok k ->
  exists gi ai,
    k = MIP.y_start ic + ai * G + gi
    /\ gi < G /\ ai < A
    /\ nth_error (gate_keys gs) gi = Some (t, p, q)
    /\ nth_error (MIP.arcs h) ai = Some (i, j).
Proof.
  unfold MIP.y_index, MIP.gate_to_index, MIP.arc_to_index. intros H.
  bind_as H gi Hgi. bind_as H ai Hai. injection H as <-.
  rewrite (io_gate_index _ _ Hic) in Hgi.
  rewrite (to_arc_index _ _ (io_ht _ _ Hic)) in Hai.
  apply (dict_get_numbered _ _ _ _ _ triple_eqb_eq) in Hgi.
  apply (dict_get_numbered _ _ _ _ _ pair_eqb_eq) in Hai.
  destruct Hgi as (_ & Hgi & Hgn). destruct Hai as (_ & Hai & Han).
  rewrite Nat.sub_0_r in Hgn, Han. cbn [fst snd] in Hgn.
  exists gi, ai. unfold G, A, gs, h in *. rewrite (io_num_gates _ _ Hic).
  repeat split; try assumption; lia.
Qed.

Lemma y_index_total t p q i j :
  t < d -> In (p, q) (nth t gs []) -> In (i, j) (MIP.arcs h) ->
  exists k, MIP.y_index ic t (p, q) (i, j) = Ok k.
Proof.
  intros Ht Hg Ha. unfold MIP.y_index, MIP.gate_to_index, MIP.arc_to_index.
  rewrite (io_gate_index _ _ Hic), (to_arc_index _ _ (io_ht _ _ Hic)).
  destruct (dict_get_numbered_total MIP.triple_eqb (gate_keys gs) 0 (t, p, q)
              triple_eqb_eq) as [gi Hgi].
  { apply in_gate_keys. split; [|exact Hg].
    unfold d in Ht. rewrite (io_depth _ _ Hic) in Ht. exact Ht. }
  destruct (dict_get_numbered_total MIP.pair_eqb (MIP.arcs h) 0 (i, j)
              pair_eqb_eq Ha) as [ai Hai].
  cbn [fst snd]. fold gs. rewrite Hgi. cbn [bind]. fold h. rewrite Hai.
  cbn [bind]. eexists. reflexivity.
Qed.

Lemma y_index_gate t p q i j k :
  MIP.y_index ic t (p, q) (i, j) = Ok k ->
  t < d /\ In (p, q) (nth t gs []) /\ In (i, j) (MIP.arcs h).
Proof.
  intros H. apply y_index_inv in H.
  destruct H as (gi & ai & _ & _ & _ & Hg & Ha).
  apply nth_error_In in Hg, Ha. apply in_gate_keys in Hg.
  destruct Hg as [Ht Hg]. unfold d. rewrite (io_depth _ _ Hic).
  repeat split; assumption.
Qed.

Lemma x_index_inv l i j t k :
  MIP.x_index ic l i j t = Ok k ->
  i < n /\
  exists pos,
    k = MIP.x_start ic + t * n * (A + n) + l * (A + n) + pos
    /\ x_pos h i j pos.
Proof.
  unfold MIP.x_index. intros H. bind_as H row Hrow. bind_as H pos Hpos.
  injection H as <-. rewrite (io_xmap _ _ Hic) in Hrow.
  apply (py_index_inv _ _ _ []) in Hrow. destruct Hrow as [Hi ->].
  rewrite length_map in Hi. unfold range in Hi. rewrite length_seq in Hi.
  rewrite nth_map_range in Hpos by exact Hi.
  apply x_row_get in Hpos. split; [exact Hi|]. exists pos.
  rewrite (io_nl _ _ Hic), (io_np _ _ Hic),
          (to_num_arcs _ _ (io_ht _ _ Hic)).
  split; [reflexivity | exact Hpos].
Qed.

Lemma x_index_total l i j t :
  i < n -> j = i \/ In j (out_of h i) ->
  exists k, MIP.x_index ic l i j t = Ok k.
Proof.
  intros Hi Hj. unfold MIP.x_index. rewrite (io_xmap _ _ Hic).
  rewrite (py_index_ok _ _ [])
    by (rewrite length_map; unfold range; rewrite length_seq; exact Hi).
  rewrite nth_map_range by exact Hi. cbn [bind].
  destruct (x_row_total h i j Hj) as [pos Hpos]. fold h. rewrite Hpos.
  cbn [bind]. eexists. reflexivity.
Qed.

Lemma x_pos_lt i j pos : i < n -> x_pos h i j pos -> pos < A + n.
Proof.
  intros Hi H. apply x_pos_bound in H.
  pose proof (x_off_mono h (S i) n Hi).
  pose proof (to_out_total _ _ (io_ht _ _ Hic)). unfold A, n, h in *. lia.
Qed.

End Indices.

(** ** The rows of the flat model, when they are built *)

(** The index functions made total: they are used only where the lookup
    succeeds. *)
Definition yi (ic : MIP._IndexCalculator) (t p q i j : nat) : nat :=
  match MIP.y_index ic t (p, q) (i, j) with Ok k => k | Raise _ => 0 end.

Definition xi (ic : MIP._IndexCalculator) (q i j t : nat) : nat :=
  match MIP.x_index ic q i j t with Ok k => k | Raise _ => 0 end.

Lemma yi_ok ic t p q i j k :
  MIP.y_index ic t (p, q) (i, j) = Ok k -> yi ic t p q i j = k.
Proof. unfold yi. intros ->. reflexivity. Qed.

Lemma xi_ok ic q i j t k :
  MIP.x_index ic q i j t = Ok k -> xi ic q i j t = k.
Proof. unfold xi. intros ->. reflexivity. Qed.

Definition mip_gates (ic : MIP._IndexCalculator) (t : nat) : list (nat * nat) :=
  nth t (MIP.gates (MIP.qc ic)) [].

Definition mip_free (ic : MIP._IndexCalculator) (t : nat) : list nat :=
  match MIP.q_no_gate (mip_gates ic t) (range (MIP.num_lqubits ic)) with
  | Ok l => l
  | Raise _ => []
  end.

Lemma mip_gates_at ic t lay :
  MIP.gates_at ic t = Ok lay ->
  t < length (MIP.gates (MIP.qc ic)) /\ lay = mip_gates ic t.
Proof. unfold MIP.gates_at, mip_gates. apply py_index_inv. Qed.

Section PureRows.

Variable ic : MIP._IndexCalculator.

Let d := MIP.ic_depth ic.
Let nl := MIP.num_lqubits ic.
Let np := MIP.num_pqubits ic.
Let h := MIP.ht ic.

Definition w_y_rows (t : nat) (g : nat * nat) (i j : nat)
  : list MIP.LinearConstraint :=
  let '(p, q) := g in
  if t =? d - 1 then
    [mk_row [MIP.w_index ic p i t; yi ic t p q i j] [(-1)%Z; 1%Z] LE 0
            (MIP.w_y_p t p q i j);
     mk_row [MIP.w_index ic q j t; yi ic t p q i j] [(-1)%Z; 1%Z] LE 0
            (MIP.w_y_q t p q i j)]
  else
    [mk_row [xi ic p i i t; xi ic p i j t; yi ic t p q i j]
            [(-1)%Z; (-1)%Z; 1%Z] LE 0 (MIP.w_y_p t p q i j);
     mk_row [xi ic q j j t; xi ic q j i t; yi ic t p q i j]
            [(-1)%Z; (-1)%Z; 1%Z] LE 0 (MIP.w_y_q t p q i j)].

Definition pure_w_y : list MIP.LinearConstraint :=
  flat_map
    (fun t =>
       flat_map
         (fun g =>
            flat_map
              (fun i => flat_map (w_y_rows t g i) (out_of h i))
              (range np))
         (mip_gates ic t))
    (range d).

Lemma rows_w_y_ok r : MIP.rows_w_y ic = Ok r -> r = pure_w_y.
Proof.
  unfold MIP.rows_w_y, pure_w_y. apply flat_mapM_pure.
  intros t b _ H. bind_as H lay Hlay. apply mip_gates_at in Hlay.
  destruct Hlay as [_ ->]. revert H. apply flat_mapM_pure.
  intros [p q] b1 _ H. revert H. apply flat_mapM_pure.
  intros i b2 _ H. bind_as H out Hout. unfold MIP.nth_outstar in Hout.
  apply (py_index_inv _ _ _ []) in Hout. destruct Hout as [_ ->].
  revert H. apply flat_mapM_pure.
  intros j b3 _ H. unfold w_y_rows. fold d in H.
  destruct (t =? d - 1).
  - bind_as H y1 Hy1. bind_as H r1 Hr1. bind_as H y2 Hy2. bind_as H r2 Hr2.
    injection H as <-. apply row_ok in Hr1, Hr2.
    destruct Hr1 as [-> _], Hr2 as [-> _].
    assert (E : y2 = y1) by congruence. subst y2.
    rewrite (yi_ok _ _ _ _ _ _ _ Hy1). reflexivity.
  - bind_as H xa Hxa. bind_as H xb Hxb. bind_as H y1 Hy1. bind_as H r1 Hr1.
    bind_as H xc Hxc. bind_as H xd Hxd. bind_as H y2 Hy2. bind_as H r2 Hr2.
    injection H as <-. apply row_ok in Hr1, Hr2.
    destruct Hr1 as [-> _], Hr2 as [-> _].
    assert (E : y2 = y1) by congruence. subst y2.
    rewrite (xi_ok _ _ _ _ _ _ Hxa), (xi_ok _ _ _ _ _ _ Hxb),
            (xi_ok _ _ _ _ _ _ Hxc), (xi_ok _ _ _ _ _ _ Hxd).
    rewrite (yi_ok _ _ _ _ _ _ _ Hy1). reflexivity.
Qed.

Definition pure_assignment_y : list MIP.LinearConstraint :=
  flat_map
    (fun t =>
       map
         (fun g : nat * nat =>
            mk_row
              (map (fun a : nat * nat => yi ic t (fst g) (snd g) (fst a) (snd a))
                   (MIP.arcs h))
              (MIP.ones (MIP.arcs h)) EQ 1
              (MIP.assignment_y t (fst g) (snd g)))
         (mip_gates ic t))
    (range d).

Lemma rows_assignment_y_ok r :
  MIP.rows_assignment_y ic = Ok r -> r = pure_assignment_y.
Proof.
  unfold MIP.rows_assignment_y, pure_assignment_y. apply flat_mapM_pure.
  intros t b _ H. bind_as H lay Hlay. apply mip_gates_at in Hlay.
  destruct Hlay as [_ ->]. revert H. apply mapM_pure.
  intros [p q] b1 _ H. bind_as H ind Hind. apply row_ok in H.
  destruct H as [-> _]. f_equal. revert Hind. apply mapM_pure.
  intros [i j] k _ Hk. symmetry. apply yi_ok. exact Hk.
Qed.

Definition pure_swap : list MIP.LinearConstraint :=
  flat_map
    (fun t =>
       flat_map
         (fun g : nat * nat =>
            map
              (fun a : nat * nat =>
                 mk_row [xi ic (fst g) (fst a) (snd a) t;
                         xi ic (snd g) (snd a) (fst a) t]
                        [1%Z; (-1)%Z] EQ 0
                        (MIP.swap_row t (fst g) (snd g) (fst a) (snd a)))
              (MIP.arcs h))
         (mip_gates ic t))
    (range (d - 1)).

Lemma rows_swap_ok r : MIP.rows_swap ic = Ok r -> r = pure_swap.
Proof.
  unfold MIP.rows_swap, pure_swap. apply flat_mapM_pure.
  intros t b _ H. bind_as H lay Hlay. apply mip_gates_at in Hlay.
  destruct Hlay as [_ ->]. revert H. apply flat_mapM_pure.
  intros [p q] b1 _ H. revert H. apply mapM_pure.
  intros [i j] b2 _ H. bind_as H xa Hxa. bind_as H xb Hxb.
  apply row_ok in H. destruct H as [-> _]. cbn [fst snd].
  rewrite (xi_ok _ _ _ _ _ _ Hxa), (xi_ok _ _ _ _ _ _ Hxb). reflexivity.
Qed.

Definition pure_swap_no_gate : list MIP.LinearConstraint :=
  flat_map
    (fun t =>
       map
         (fun a : nat * nat =>
            mk_row
              (map (fun q => xi ic q (fst a) (snd a) t) (mip_free ic t)
               ++ map (fun p => xi ic p (snd a) (fst a) t) (mip_free ic t))
              (MIP.ones (mip_free ic t) ++ MIP.minus_ones (mip_free ic t))
              EQ 0 (MIP.swap_no_gate_row t (fst a) (snd a)))
         (MIP.arcs h))
    (range (d - 1)).

Lemma rows_swap_no_gate_ok r :
  MIP.rows_swap_no_gate ic = Ok r -> r = pure_swap_no_gate.
Proof.
  unfold MIP.rows_swap_no_gate, pure_swap_no_gate. apply flat_mapM_pure.
  intros t b _ H. bind_as H lay Hlay. apply mip_gates_at in Hlay.
  destruct Hlay as [_ ->]. bind_as H free Hfree.
  assert (Efree : mip_free ic t = free) by (unfold mip_free; rewrite Hfree; reflexivity).
  rewrite Efree. revert H. apply mapM_pure.
  intros [i j] b1 _ H. bind_as H fwd Hfwd. bind_as H bwd Hbwd.
  apply row_ok in H. destruct H as [-> _]. cbn [fst snd].
  f_equal. f_equal.
  - revert Hfwd. apply mapM_pure. intros q k _ Hk. symmetry. apply xi_ok.
    exact Hk.
  - revert Hbwd. apply mapM_pure. intros q k _ Hk. symmetry. apply xi_ok.
    exact Hk.
Qed.

Definition pure_dummy_ts_needed : list MIP.LinearConstraint :=
  flat_map
    (fun t =>
       if is_empty (mip_gates ic t) then
         map
           (fun p =>
              mk_row
                (map (fun a : nat * nat => xi ic p (fst a) (snd a) t)
                     (MIP.arcs h)
                 ++ [MIP.wd_index ic t])
                (MIP.ones (MIP.arcs h) ++ [(-1)%Z]) LE 0
                (MIP.dummy_ts_needed_row t p))
           (range nl)
       else [])
    (range d).

Definition pure_lower_bounds : list (nat * Z) :=
  flat_map
    (fun t =>
       if is_empty (mip_gates ic t) then [] else [(MIP.wd_index ic t, 1%Z)])
    (range d).

Lemma rows_dummy_ts_needed_ok r :
  MIP.rows_dummy_ts_needed ic = Ok r ->
  fst r = pure_dummy_ts_needed /\ snd r = pure_lower_bounds.
Proof.
  unfold MIP.rows_dummy_ts_needed, pure_dummy_ts_needed, pure_lower_bounds.
  intros H. bind_as H rs Hrs. injection H as <-. cbn [fst snd].
  rewrite !flat_map_concat_map.
  assert (Hpure :
    rs = map (fun t =>
                (if is_empty (mip_gates ic t) then
                   map
                     (fun p =>
                        mk_row
                          (map (fun a : nat * nat => xi ic p (fst a) (snd a) t)
                               (MIP.arcs h)
                           ++ [MIP.wd_index ic t])
                          (MIP.ones (MIP.arcs h) ++ [(-1)%Z]) LE 0
                          (MIP.dummy_ts_needed_row t p))
                     (range nl)
                 else [],
                 if is_empty (mip_gates ic t) then []
                 else [(MIP.wd_index ic t, 1%Z)]))
             (range d)).
  { revert Hrs. apply mapM_pure. intros t b _ H.
    bind_as H lay Hlay. apply mip_gates_at in Hlay. destruct Hlay as [_ ->].
    destruct (is_empty (mip_gates ic t)).
    - bind_as H rows Hrows. injection H as <-. f_equal.
      revert Hrows. apply mapM_pure. intros p b1 _ H.
      bind_as H xs Hxs. apply row_ok in H. destruct H as [-> _].
      f_equal. f_equal. revert Hxs. apply mapM_pure.
      intros [i j] k _ Hk. symmetry. apply xi_ok. exact Hk.
    - injection H as <-. reflexivity. }
  rewrite Hpure, !map_map. cbn [fst snd]. split; reflexivity.
Qed.

Definition pure_dummy_precedence : list MIP.LinearConstraint :=
  flat_map
    (fun t =>
       if is_empty (mip_gates ic t) && is_empty (mip_gates ic (t + 1)) then
         [mk_row [MIP.wd_index ic t; MIP.wd_index ic (t + 1)] [1%Z; (-1)%Z]
                 GE 0 (MIP.dummy_precedence_row t)]
       else [])
    (range (d - 1)).

Lemma rows_dummy_precedence_ok r :
  MIP.rows_dummy_precedence ic = Ok r -> r = pure_dummy_precedence.
Proof.
  unfold MIP.rows_dummy_precedence, pure_dummy_precedence.
  apply flat_mapM_pure. intros t b _ H.
  bind_as H lay Hlay. apply mip_gates_at in Hlay. destruct Hlay as [_ ->].
  destruct (is_empty (mip_gates ic t)); cbn [andb].
  - bind_as H lay' Hlay'. apply mip_gates_at in Hlay'.
    destruct Hlay' as [_ ->].
    destruct (is_empty (mip_gates ic (t + 1))).
    + bind_as H r0 Hr0. injection H as <-. apply row_ok in Hr0.
      destruct Hr0 as [-> _]. reflexivity.
    + injection H as <-. reflexivity.
  - injection H as <-. reflexivity.
Qed.

Definition flow_out_rows (t q : nat) : list MIP.LinearConstraint :=
  map
    (fun i =>
       mk_row (MIP.w_index ic q i t :: xi ic q i i t
               :: map (fun j => xi ic q i j t) (out_of h i))
              (1%Z :: (-1)%Z :: MIP.minus_ones (out_of h i)) EQ 0
              (MIP.flow_out_row t q i))
    (range np).

Definition flow_in_rows (t q : nat) : list MIP.LinearConstraint :=
  map
    (fun j =>
       mk_row (MIP.w_index ic q j t :: xi ic q j j (t - 1)
               :: map (fun i => xi ic q i j (t - 1)) (inn_of h j))
              (1%Z :: (-1)%Z :: MIP.minus_ones (out_of h j)) EQ 0
              (MIP.flow_in_row t q j))
    (range np).

Definition pure_flow : list MIP.LinearConstraint :=
  flat_map
    (fun t =>
       flat_map
         (fun q =>
            (if t <? d - 1 then flow_out_rows t q else [])
            ++ (if 0 <? t then flow_in_rows t q else []))
         (range nl))
    (range d).

Lemma rows_flow_ok r : MIP.rows_flow ic = Ok r -> r = pure_flow.
Proof.
  unfold MIP.rows_flow, pure_flow. apply flat_mapM_pure.
  intros t b _ H. revert H. apply flat_mapM_pure.
  intros q b1 _ H. bind_as H outs Houts. bind_as H ins Hins.
  injection H as <-. f_equal.
  - fold d in Houts. destruct (t <? d - 1); [|injection Houts as <-; reflexivity].
    revert Houts. apply mapM_pure. intros i b2 _ H.
    bind_as H x0 Hx0. bind_as H out Hout. bind_as H xs Hxs.
    bind_as H out' Hout'. apply row_ok in H. destruct H as [-> _].
    unfold MIP.nth_outstar in Hout, Hout'.
    apply (py_index_inv _ _ _ []) in Hout, Hout'.
    destruct Hout as [_ ->], Hout' as [_ ->]. fold (out_of h i).
    fold (out_of h i) in Hxs.
    rewrite (xi_ok _ _ _ _ _ _ Hx0). f_equal. f_equal. f_equal.
    revert Hxs. apply mapM_pure. intros j k _ Hk. symmetry. apply xi_ok.
    exact Hk.
  - destruct (0 <? t); [|injection Hins as <-; reflexivity].
    revert Hins. apply mapM_pure. intros j b2 _ H.
    bind_as H x0 Hx0. bind_as H inn Hinn. bind_as H xs Hxs.
    bind_as H out' Hout'. apply row_ok in H. destruct H as [-> _].
    unfold MIP.nth_outstar in Hout'. unfold MIP.nth_instar in Hinn.
    apply (py_index_inv _ _ _ []) in Hinn, Hout'.
    destruct Hinn as [_ ->], Hout' as [_ ->]. fold (out_of h j).
    fold (inn_of h j) in Hxs. fold (inn_of h j).
    rewrite (xi_ok _ _ _ _ _ _ Hx0). f_equal. f_equal. f_equal.
    revert Hxs. apply mapM_pure. intros i k _ Hk. symmetry. apply xi_ok.
    exact Hk.
Qed.

End PureRows.

(** ** The rows of the flat model, read as conditions *)

Definition dot (f : nat -> Z) (ind : list nat) (val : list Z) : Z :=
  fold_right Z.add 0%Z
    (map (fun iv : nat * Z => (snd iv * f (fst iv))%Z) (combine ind val)).

Lemma lhs_value_dot f ind val s rhs n :
  MIP.lhs_value f (mk_row ind val s rhs n) = dot f ind val.
Proof. reflexivity. Qed.

Lemma dot_cons f i ind v val :
  dot f (i :: ind) (v :: val) = (v * f i + dot f ind val)%Z.
Proof. reflexivity. Qed.

Lemma dot_nil f val : dot f [] val = 0%Z.
Proof. reflexivity. Qed.

Lemma dot_app f i1 i2 v1 v2 :
  length i1 = length v1 ->
  dot f (i1 ++ i2) (v1 ++ v2) = (dot f i1 v1 + dot f i2 v2)%Z.
Proof.
  revert v1. induction i1 as [|i i1 IH]; intros v1 Hl.
  - destruct v1; [|discriminate Hl]. simpl. reflexivity.
  - destruct v1 as [|v v1]; [discriminate Hl|].
    cbn [app]. rewrite !dot_cons, IH by (simpl in Hl; lia). lia.
Qed.

Lemma dot_ones {A} f ind (l : list A) :
  length ind = length l -> dot f ind (MIP.ones l) = sum_Z (map f ind).
Proof.
  revert l. induction ind as [|i ind IH]; intros l Hl; [reflexivity|].
  destruct l as [|x l]; [discriminate Hl|].
  unfold MIP.ones. cbn [map]. rewrite dot_cons.
  fold (MIP.ones l). rewrite IH by (simpl in Hl; lia).
  unfold sum_Z. simpl. destruct (f i); reflexivity.
Qed.

Lemma dot_minus_ones {A} f ind (l : list A) :
  length ind = length l ->
  dot f ind (MIP.minus_ones l) = (- sum_Z (map f ind))%Z.
Proof.
  revert l. induction ind as [|i ind IH]; intros l Hl; [reflexivity|].
  destruct l as [|x l]; [discriminate Hl|].
  unfold MIP.minus_ones. cbn [map]. rewrite dot_cons.
  fold (MIP.minus_ones l). rewrite IH by (simpl in Hl; lia).
  unfold sum_Z. cbn [map fold_right]. lia.
Qed.

Lemma row_sat_mk f ind val s rhs n :
  MIP.row_sat f (mk_row ind val s rhs n)
  <-> match s with
      | EQ => dot f ind val = rhs
      | LE => (dot f ind val <= rhs)%Z
      | GE => (dot f ind val >= rhs)%Z
      end.
Proof. unfold MIP.row_sat. cbn. destruct s; reflexivity. Qed.

Lemma pull_w ic f t q j : pull ic f (W t q j) = f (MIP.w_index ic q j t).
Proof. reflexivity. Qed.

Lemma pull_z ic f t : pull ic f (Zv t) = f (MIP.wd_index ic t).
Proof. reflexivity. Qed.

Lemma pull_x ic f t q i j :
  (exists k, MIP.x_index ic q i j t = Ok k) ->
  pull ic f (X t q i j) = f (xi ic q i j t).
Proof.
  intros [k Hk]. unfold pull, xi. cbn [var_index]. rewrite Hk. reflexivity.
Qed.

Lemma pull_y ic f t p q i j :
  (exists k, MIP.y_index ic t (p, q) (i, j) = Ok k) ->
  pull ic f (Y t p q i j) = f (yi ic t p q i j).
Proof.
  intros [k Hk]. unfold pull, yi. cbn [var_index]. rewrite Hk. reflexivity.
Qed.

Ltac forall_at H x Hx :=
  rewrite Forall_flat_map, Forall_forall in H; specialize (H x Hx).
Ltac forall_map_at H x Hx :=
  rewrite Forall_map, Forall_forall in H; specialize (H x Hx).
Ltac forall_in x Hx := apply Forall_flat_map, Forall_forall; intros x Hx.
Ltac forall_map_in x Hx := apply Forall_map, Forall_forall; intros x Hx.

Section MipSem.

Variable c : CouplingMap.
Variable ic : MIP._IndexCalculator.
Hypothesis Hc : coupling_ok c.
Hypothesis Hic : ic_ok c ic.
Variable f : nat -> Z.

Let a := pull ic f.
Let n := size c.
Let d := MIP.ic_depth ic.
Let h := MIP.ht ic.

Lemma arc_ends i j :
  In (i, j) (MIP.arcs h) ->
  i < n /\ j < n /\ In j (out_of h i) /\ In i (inn_of h j)
  /\ In (j, i) (MIP.arcs h).
Proof.
  intros Ha. pose proof (io_ht _ _ Hic) as Hto.
  pose proof (proj1 (to_arcs _ _ Hto (i, j)) Ha) as He.
  pose proof (co_range _ Hc i j He) as Hj.
  pose proof (proj1 (co_edges _ Hc i j) He) as [Hi _].
  split; [exact Hi|]. split; [exact Hj|]. split; [|split].
  - apply (to_out _ _ Hto i j Hi). exact Ha.
  - apply (to_inn _ _ Hto j i Hj). exact Ha.
  - apply (to_arcs _ _ Hto). apply (co_sym _ Hc). exact He.
Qed.

Lemma out_arc i j : i < n -> In j (out_of h i) -> In (i, j) (MIP.arcs h).
Proof. intros Hi Hj. apply (to_out _ _ (io_ht _ _ Hic) i j Hi). exact Hj. Qed.

Lemma inn_arc i j : i < n -> In j (inn_of h i) -> In (j, i) (MIP.arcs h).
Proof. intros Hi Hj. apply (to_inn _ _ (io_ht _ _ Hic) i j Hi). exact Hj. Qed.

Lemma a_x_arc t q i j :
  In (i, j) (MIP.arcs h) -> a (X t q i j) = f (xi ic q i j t).
Proof.
  intros Ha. destruct (arc_ends i j Ha) as (Hi & _ & Ho & _).
  apply pull_x. apply (x_index_total c ic Hic); [exact Hi | right; exact Ho].
Qed.

Lemma a_x_self t q i : i < n -> a (X t q i i) = f (xi ic q i i t).
Proof.
  intros Hi. apply pull_x.
  apply (x_index_total c ic Hic); [exact Hi | left; reflexivity].
Qed.

Lemma a_y t p q i j :
  t < d -> In (p, q) (mip_gates ic t) -> In (i, j) (MIP.arcs h) ->
  a (Y t p q i j) = f (yi ic t p q i j).
Proof.
  intros Ht Hg Ha. apply pull_y.
  apply (y_index_total c ic Hic); assumption.
Qed.

Lemma inn_out_perm j : j < n -> Permutation (inn_of h j) (out_of h j).
Proof.
  intros Hj. pose proof (io_ht _ _ Hic) as Hto.
  apply NoDup_Permutation.
  - apply (to_inn_nodup _ _ Hto). exact Hj.
  - apply (to_out_nodup _ _ Hto). exact Hj.
  - intros i. split; intros H.
    + apply (inn_arc j i Hj) in H. apply arc_ends in H.
      destruct H as (_ & _ & _ & _ & H). apply arc_ends in H. tauto.
    + apply (out_arc j i Hj) in H. apply arc_ends in H.
      destruct H as (_ & _ & _ & _ & H). apply arc_ends in H. tauto.
Qed.

Lemma sem_w_y :
  Forall (MIP.row_sat f) (pure_w_y ic)
  <-> (forall t p q i j,
         t < d - 1 -> In (p, q) (mip_gates ic t) -> In (i, j) (MIP.arcs h) ->
         (a (Y t p q i j) <= a (X t p i i) + a (X t p i j))%Z
         /\ (a (Y t p q i j) <= a (X t q j i) + a (X t q j j))%Z)
      /\ (forall p q i j,
            0 < d -> In (p, q) (mip_gates ic (d - 1)) ->
            In (i, j) (MIP.arcs h) ->
            (a (Y (d - 1) p q i j) <= a (W (d - 1) p i))%Z
            /\ (a (Y (d - 1) p q i j) <= a (W (d - 1) q j))%Z).
Proof.
  unfold pure_w_y. rewrite (io_np _ _ Hic). fold d h n. split.
  - intros H. split.
    + intros t p q i j Ht Hg Ha.
      destruct (arc_ends i j Ha) as (Hi & Hj & Ho & _ & Har).
      forall_at H t (proj2 (in_range t d) ltac:(lia)).
      forall_at H (p, q) Hg. forall_at H i (proj2 (in_range i n) Hi).
      forall_at H j Ho. unfold w_y_rows in H. fold d in H.
      destruct (Nat.eqb_spec t (d - 1)) as [E|_]; [lia|].
      inversion H as [|r1 l1 H1 H']. apply Forall_inv in H'.
      apply row_sat_mk in H1, H'. rewrite !dot_cons, dot_nil in H1, H'.
      rewrite (a_y t p q i j ltac:(lia) Hg Ha).
      rewrite (a_x_self t p i Hi), (a_x_arc t p i j Ha).
      rewrite (a_x_arc t q j i Har), (a_x_self t q j Hj). lia.
    + intros p q i j Hd Hg Ha.
      destruct (arc_ends i j Ha) as (Hi & Hj & Ho & _ & Har).
      forall_at H (d - 1) (proj2 (in_range (d - 1) d) ltac:(lia)).
      forall_at H (p, q) Hg. forall_at H i (proj2 (in_range i n) Hi).
      forall_at H j Ho. unfold w_y_rows in H. fold d in H.
      rewrite Nat.eqb_refl in H.
      inversion H as [|r1 l1 H1 H']. apply Forall_inv in H'.
      apply row_sat_mk in H1, H'. rewrite !dot_cons, dot_nil in H1, H'.
      rewrite (a_y (d - 1) p q i j ltac:(lia) Hg Ha).
      unfold a. rewrite !pull_w. lia.
  - intros [Hs Hl]. forall_in t Ht. forall_in g Hg. forall_in i Hi.
    forall_in j Ho. apply in_range in Ht, Hi. destruct g as [p q].
    pose proof (out_arc i j Hi Ho) as Ha.
    destruct (arc_ends i j Ha) as (_ & Hj & _ & _ & Har).
    unfold w_y_rows. fold d.
    destruct (Nat.eqb_spec t (d - 1)) as [E|E].
    + subst t. destruct (Hl p q i j ltac:(lia) Hg Ha) as [U1 U2].
      rewrite (a_y (d - 1) p q i j ltac:(lia) Hg Ha) in U1, U2.
      unfold a in U1, U2. rewrite !pull_w in U1, U2.
      repeat constructor; apply row_sat_mk; rewrite !dot_cons, dot_nil; lia.
    + destruct (Hs t p q i j ltac:(lia) Hg Ha) as [U1 U2].
      rewrite (a_y t p q i j ltac:(lia) Hg Ha) in U1, U2.
      rewrite (a_x_self t p i Hi), (a_x_arc t p i j Ha) in U1.
      rewrite (a_x_arc t q j i Har), (a_x_self t q j Hj) in U2.
      repeat constructor; apply row_sat_mk; rewrite !dot_cons, dot_nil; lia.
Qed.

Lemma sem_assignment_y :
  Forall (MIP.row_sat f) (pure_assignment_y ic)
  <-> forall t p q, t < d -> In (p, q) (mip_gates ic t) ->
        sum_Z (map (fun e : nat * nat => a (Y t p q (fst e) (snd e)))
                   (MIP.arcs h))
        = 1%Z.
Proof.
  unfold pure_assignment_y. fold d h.
  assert (Hrow : forall t p q,
            t < d -> In (p, q) (mip_gates ic t) ->
            dot f (map (fun e : nat * nat => yi ic t p q (fst e) (snd e))
                       (MIP.arcs h))
                (MIP.ones (MIP.arcs h))
            = sum_Z (map (fun e : nat * nat => a (Y t p q (fst e) (snd e)))
                         (MIP.arcs h))).
  { intros t p q Ht Hg. rewrite dot_ones by apply length_map.
    rewrite map_map. f_equal. apply map_ext_in. intros [i j] Ha.
    symmetry. apply a_y; assumption. }
  split.
  - intros H t p q Ht Hg. forall_at H t (proj2 (in_range t d) Ht).
    forall_map_at H (p, q) Hg. apply row_sat_mk in H. cbn [fst snd] in H.
    rewrite Hrow in H by assumption. exact H.
  - intros H. forall_in t Ht. forall_map_in g Hg. apply in_range in Ht.
    destruct g as [p q]. apply row_sat_mk. cbn [fst snd].
    rewrite Hrow by assumption. apply H; assumption.
Qed.

Lemma sem_swap :
  Forall (MIP.row_sat f) (pure_swap ic)
  <-> forall t p q i j,
        t < d - 1 -> In (p, q) (mip_gates ic t) -> In (i, j) (MIP.arcs h) ->
        a (X t p i j) = a (X t q j i).
Proof.
  unfold pure_swap. fold d h. split.
  - intros H t p q i j Ht Hg Ha.
    destruct (arc_ends i j Ha) as (_ & _ & _ & _ & Har).
    forall_at H t (proj2 (in_range t _) Ht). forall_at H (p, q) Hg.
    forall_map_at H (i, j) Ha. apply row_sat_mk in H. cbn [fst snd] in H.
    rewrite !dot_cons, dot_nil in H.
    rewrite (a_x_arc t p i j Ha), (a_x_arc t q j i Har). lia.
  - intros H. forall_in t Ht. forall_in g Hg. forall_map_in e Ha.
    apply in_range in Ht. destruct g as [p q], e as [i j].
    destruct (arc_ends i j Ha) as (_ & _ & _ & _ & Har).
    specialize (H t p q i j Ht Hg Ha).
    rewrite (a_x_arc t p i j Ha), (a_x_arc t q j i Har) in H.
    apply row_sat_mk. cbn [fst snd]. rewrite !dot_cons, dot_nil. lia.
Qed.

Lemma sem_swap_no_gate :
  Forall (MIP.row_sat f) (pure_swap_no_gate ic)
  <-> forall t i j, t < d - 1 -> In (i, j) (MIP.arcs h) ->
        sum_Z (map (fun q => a (X t q i j)) (mip_free ic t))
        = sum_Z (map (fun q => a (X t q j i)) (mip_free ic t)).
Proof.
  unfold pure_swap_no_gate. fold d h.
  assert (Hrow : forall t i j,
            In (i, j) (MIP.arcs h) ->
            dot f (map (fun q => xi ic q i j t) (mip_free ic t)
                   ++ map (fun p => xi ic p j i t) (mip_free ic t))
                (MIP.ones (mip_free ic t) ++ MIP.minus_ones (mip_free ic t))
            = (sum_Z (map (fun q => a (X t q i j)) (mip_free ic t))
               - sum_Z (map (fun q => a (X t q j i)) (mip_free ic t)))%Z).
  { intros t i j Ha. destruct (arc_ends i j Ha) as (_ & _ & _ & _ & Har).
    rewrite dot_app
      by (unfold MIP.ones; rewrite !length_map; reflexivity).
    rewrite dot_ones, dot_minus_ones by apply length_map.
    rewrite !map_map.
    rewrite (map_ext (fun q => f (xi ic q i j t)) (fun q => a (X t q i j)))
      by (intros q; symmetry; apply a_x_arc; exact Ha).
    rewrite (map_ext (fun q => f (xi ic q j i t)) (fun q => a (X t q j i)))
      by (intros q; symmetry; apply a_x_arc; exact Har).
    lia. }
  split.
  - intros H t i j Ht Ha. forall_at H t (proj2 (in_range t _) Ht).
    forall_map_at H (i, j) Ha. apply row_sat_mk in H. cbn [fst snd] in H.
    rewrite Hrow in H by exact Ha. lia.
  - intros H. forall_in t Ht. forall_map_in e Ha. apply in_range in Ht.
    destruct e as [i j]. apply row_sat_mk. cbn [fst snd].
    rewrite Hrow by exact Ha. specialize (H t i j Ht Ha). lia.
Qed.

Lemma sem_dummy_ts_needed :
  Forall (MIP.row_sat f) (pure_dummy_ts_needed ic)
  <-> forall t q, t < d -> mip_gates ic t = [] -> q < n ->
        (sum_Z (map (fun e : nat * nat => a (X t q (fst e) (snd e)))
                    (MIP.arcs h))
         <= a (Zv t))%Z.
Proof.
  unfold pure_dummy_ts_needed. rewrite (io_nl _ _ Hic). fold d h n.
  assert (Hrow : forall t q,
            dot f (map (fun e : nat * nat => xi ic q (fst e) (snd e) t)
                       (MIP.arcs h)
                   ++ [MIP.wd_index ic t])
                (MIP.ones (MIP.arcs h) ++ [(-1)%Z])
            = (sum_Z (map (fun e : nat * nat => a (X t q (fst e) (snd e)))
                          (MIP.arcs h))
               - a (Zv t))%Z).
  { intros t q.
    rewrite dot_app by (unfold MIP.ones; rewrite !length_map; reflexivity).
    rewrite dot_ones by apply length_map. rewrite dot_cons, dot_nil, map_map.
    rewrite (map_ext_in (fun e : nat * nat => f (xi ic q (fst e) (snd e) t))
               (fun e : nat * nat => a (X t q (fst e) (snd e))))
      by (intros [i j] Ha; symmetry; apply a_x_arc; exact Ha).
    unfold a. rewrite pull_z. lia. }
  split.
  - intros H t q Ht Hg Hq. forall_at H t (proj2 (in_range t _) Ht).
    rewrite Hg in H. cbn [is_empty] in H.
    forall_map_at H q (proj2 (in_range q _) Hq). apply row_sat_mk in H.
    rewrite Hrow in H. lia.
  - intros H. forall_in t Ht. apply in_range in Ht.
    destruct (mip_gates ic t) eqn:Hg; cbn [is_empty]; [|constructor].
    forall_map_in q Hq. apply in_range in Hq. apply row_sat_mk.
    rewrite Hrow. specialize (H t q Ht Hg Hq). lia.
Qed.

Lemma sem_dummy_precedence :
  Forall (MIP.row_sat f) (pure_dummy_precedence ic)
  <-> forall t, t < d - 1 -> mip_gates ic t = [] ->
        mip_gates ic (t + 1) = [] ->
        (a (Zv t) >= a (Zv (t + 1)))%Z.
Proof.
  unfold pure_dummy_precedence. fold d. split.
  - intros H t Ht Hg Hg'. forall_at H t (proj2 (in_range t _) Ht).
    rewrite Hg, Hg' in H. cbn [is_empty andb] in H. apply Forall_inv in H.
    apply row_sat_mk in H. rewrite !dot_cons, dot_nil in H.
    unfold a. rewrite !pull_z. lia.
  - intros H. forall_in t Ht. apply in_range in Ht.
    destruct (mip_gates ic t) eqn:Hg; cbn [is_empty andb]; [|constructor].
    destruct (mip_gates ic (t + 1)) eqn:Hg'; cbn [is_empty]; [|constructor].
    constructor; [|constructor]. apply row_sat_mk.
    rewrite !dot_cons, dot_nil. specialize (H t Ht Hg Hg').
    unfold a in H. rewrite !pull_z in H. lia.
Qed.

Lemma sem_flow :
  Forall (MIP.row_sat f) (pure_flow ic)
  <-> (forall t q i, t < d - 1 -> q < n -> i < n ->
         a (W t q i)
         = (a (X t q i i) + sum_Z (map (fun j => a (X t q i j)) (out_of h i)))%Z)
      /\ (forall t q i, 0 < t -> t < d -> q < n -> i < n ->
            a (W t q i)
            = (a (X (t - 1) q i i)
               + sum_Z (map (fun j => a (X (t - 1) q j i)) (inn_of h i)))%Z).
Proof.
  unfold pure_flow. rewrite (io_nl _ _ Hic). fold d h n.
  assert (Hout : forall t q i,
            i < n ->
            dot f (MIP.w_index ic q i t :: xi ic q i i t
                   :: map (fun j => xi ic q i j t) (out_of h i))
                (1%Z :: (-1)%Z :: MIP.minus_ones (out_of h i))
            = (a (W t q i) - a (X t q i i)
               - sum_Z (map (fun j => a (X t q i j)) (out_of h i)))%Z).
  { intros t q i Hi. rewrite !dot_cons.
    rewrite dot_minus_ones by apply length_map. rewrite map_map.
    rewrite (map_ext_in (fun j => f (xi ic q i j t)) (fun j => a (X t q i j)))
      by (intros j Hj; symmetry; apply a_x_arc; apply out_arc; assumption).
    rewrite (a_x_self t q i Hi). unfold a. rewrite pull_w. lia. }
  assert (Hinn : forall t q i,
            i < n ->
            dot f (MIP.w_index ic q i t :: xi ic q i i (t - 1)
                   :: map (fun j => xi ic q j i (t - 1)) (inn_of h i))
                (1%Z :: (-1)%Z :: MIP.minus_ones (out_of h i))
            = (a (W t q i) - a (X (t - 1) q i i)
               - sum_Z (map (fun j => a (X (t - 1) q j i)) (inn_of h i)))%Z).
  { intros t q i Hi. rewrite !dot_cons.
    rewrite dot_minus_ones
      by (rewrite length_map; apply Permutation_length, inn_out_perm; exact Hi).
    rewrite map_map.
    rewrite (map_ext_in (fun j => f (xi ic q j i (t - 1)))
               (fun j => a (X (t - 1) q j i)))
      by (intros j Hj; symmetry; apply a_x_arc; apply inn_arc; assumption).
    rewrite (a_x_self (t - 1) q i Hi). unfold a. rewrite pull_w. lia. }
  split.
  - intros H. split.
    + intros t q i Ht Hq Hi.
      forall_at H t (proj2 (in_range t d) ltac:(lia)).
      forall_at H q (proj2 (in_range q n) Hq).
      apply Forall_app in H. destruct H as [H _].
      destruct (Nat.ltb_spec t (d - 1)); [|lia]. unfold flow_out_rows in H.
      rewrite (io_np _ _ Hic) in H. fold n h in H.
      forall_map_at H i (proj2 (in_range i n) Hi). apply row_sat_mk in H.
      rewrite Hout in H by exact Hi. lia.
    + intros t q i Ht0 Ht Hq Hi.
      forall_at H t (proj2 (in_range t d) Ht).
      forall_at H q (proj2 (in_range q n) Hq).
      apply Forall_app in H. destruct H as [_ H].
      destruct (Nat.ltb_spec 0 t); [|lia]. unfold flow_in_rows in H.
      rewrite (io_np _ _ Hic) in H. fold n h in H.
      forall_map_at H i (proj2 (in_range i n) Hi). apply row_sat_mk in H.
      rewrite Hinn in H by exact Hi. lia.
  - intros [Ho Hi]. forall_in t Ht. forall_in q Hq. apply in_range in Ht, Hq.
    apply Forall_app. split.
    + destruct (Nat.ltb_spec t (d - 1)); [|constructor].
      unfold flow_out_rows. rewrite (io_np _ _ Hic). fold n h.
      forall_map_in i Hi'. apply in_range in Hi'. apply row_sat_mk.
      rewrite Hout by exact Hi'. specialize (Ho t q i ltac:(lia) Hq Hi'). lia.
    + destruct (Nat.ltb_spec 0 t); [|constructor].
      unfold flow_in_rows. rewrite (io_np _ _ Hic). fold n h.
      forall_map_in i Hi'. apply in_range in Hi'. apply row_sat_mk.
      rewrite Hinn by exact Hi'. specialize (Hi t q i ltac:(lia) Ht Hq Hi').
      lia.
Qed.

Lemma sem_assignment :
  Forall (MIP.row_sat f)
    (flat_map
       (fun q => map (assignment_lqubits_row ic q) (range (MIP.ic_depth ic)))
       (range (MIP.num_lqubits ic))
     ++ flat_map
          (fun j => map (assignment_pqubits_row ic j) (range (MIP.ic_depth ic)))
          (range (MIP.num_pqubits ic)))
  <-> (forall t q, t < d -> q < n ->
         sum_Z (map (fun j => a (W t q j)) (range n)) = 1%Z)
      /\ (forall t j, t < d -> j < n ->
            sum_Z (map (fun q => a (W t q j)) (range n)) = 1%Z).
Proof.
  rewrite Forall_app, (io_nl _ _ Hic), (io_np _ _ Hic). fold d n.
  assert (Hl : forall t q,
            dot f (map (fun j => MIP.w_index ic q j t)
                       (range (MIP.num_pqubits ic)))
                (MIP.ones (range (MIP.num_pqubits ic)))
            = sum_Z (map (fun j => a (W t q j)) (range n))).
  { intros t q. rewrite dot_ones by apply length_map.
    rewrite map_map, (io_np _ _ Hic). reflexivity. }
  assert (Hp : forall t j,
            dot f (map (fun q => MIP.w_index ic q j t)
                       (range (MIP.num_lqubits ic)))
                (MIP.ones (range (MIP.num_lqubits ic)))
            = sum_Z (map (fun q => a (W t q j)) (range n))).
  { intros t j. rewrite dot_ones by apply length_map.
    rewrite map_map, (io_nl _ _ Hic). reflexivity. }
  split.
  - intros [H1 H2]. split.
    + intros t q Ht Hq. forall_at H1 q (proj2 (in_range q n) Hq).
      forall_map_at H1 t (proj2 (in_range t d) Ht).
      unfold assignment_lqubits_row in H1. apply row_sat_mk in H1.
      rewrite Hl in H1. exact H1.
    + intros t j Ht Hj. forall_at H2 j (proj2 (in_range j n) Hj).
      forall_map_at H2 t (proj2 (in_range t d) Ht).
      unfold assignment_pqubits_row in H2. apply row_sat_mk in H2.
      rewrite Hp in H2. exact H2.
  - intros [H1 H2]. split.
    + forall_in q Hq. forall_map_in t Ht. apply in_range in Hq, Ht.
      unfold assignment_lqubits_row. apply row_sat_mk. rewrite Hl.
      apply H1; assumption.
    + forall_in j Hj. forall_map_in t Ht. apply in_range in Hj, Ht.
      unfold assignment_pqubits_row. apply row_sat_mk. rewrite Hp.
      apply H2; assumption.
Qed.

Lemma sem_lower_bounds :
  Forall (fun b : nat * Z => (snd b <= f (fst b))%Z) (pure_lower_bounds ic)
  <-> forall t, t < d -> mip_gates ic t <> [] -> (1 <= a (Zv t))%Z.
Proof.
  unfold pure_lower_bounds. fold d. split.
  - intros H t Ht Hg. forall_at H t (proj2 (in_range t d) Ht).
    destruct (mip_gates ic t); [congruence|]. cbn [is_empty] in H.
    apply Forall_inv in H. exact H.
  - intros H. forall_in t Ht. apply in_range in Ht.
    destruct (mip_gates ic t) eqn:Hg; cbn [is_empty]; constructor;
      [|constructor].
    cbn [fst snd]. apply (H t Ht). rewrite Hg. discriminate.
Qed.

End MipSem.

(** ** Feasibility in the flat model *)

Lemma mip_routing_iff c ic f :
  coupling_ok c -> ic_ok c ic ->
  Forall (MIP.row_sat f)
    (flat_map
       (fun q => map (assignment_lqubits_row ic q) (range (MIP.ic_depth ic)))
       (range (MIP.num_lqubits ic))
     ++ flat_map
          (fun j => map (assignment_pqubits_row ic j) (range (MIP.ic_depth ic)))
          (range (MIP.num_pqubits ic)))
  /\ Forall (MIP.row_sat f) (pure_w_y ic)
  /\ Forall (MIP.row_sat f) (pure_assignment_y ic)
  /\ Forall (MIP.row_sat f) (pure_swap ic)
  /\ Forall (MIP.row_sat f) (pure_swap_no_gate ic)
  /\ Forall (MIP.row_sat f) (pure_dummy_ts_needed ic)
  /\ Forall (MIP.row_sat f) (pure_dummy_precedence ic)
  /\ Forall (MIP.row_sat f) (pure_flow ic)
  <-> routing (size c) (MIP.ic_depth ic) (mip_gates ic)
        (MIP.arcs (MIP.ht ic)) (out_of (MIP.ht ic)) (inn_of (MIP.ht ic))
        (mip_free ic) (pull ic f).
Proof.
  intros Hc Hic.
  rewrite (sem_assignment c ic Hic f), (sem_w_y c ic Hc Hic f),
          (sem_assignment_y c ic Hic f), (sem_swap c ic Hc Hic f),
          (sem_swap_no_gate c ic Hc Hic f),
          (sem_dummy_ts_needed c ic Hc Hic f),
          (sem_dummy_precedence c ic f), (sem_flow c ic Hc Hic f).
  split.
  - intros ((A1 & A2) & (U1 & U2) & G & S & SF & Dn & P & (Fo & Fi)).
    constructor; assumption.
  - intros [A1 A2 G U1 U2 Fo Fi S SF Dn P].
    split; [split; assumption|]. split; [split; assumption|].
    split; [assumption|]. split; [assumption|]. split; [assumption|].
    split; [assumption|]. split; [assumption|]. split; assumption.
Qed.

(** The rows and bounds of the problem, when it is built. *)
Lemma mip_problem_rows np_log math_log mm obj line_symm cycle_symm p ic :
  MIP.create_cpx_problem np_log math_log mm obj line_symm cycle_symm
  = Ok (p, ic) ->
  exists r9 r11,
    (if line_symm then MIP.rows_line_symm ic else Ok []) = Ok r9
    /\ MIP.rows_eu_def ic = Ok r11
    /\ MIP.linear_constraints p
       = (flat_map
            (fun q => map (assignment_lqubits_row ic q)
                          (range (MIP.ic_depth ic)))
            (range (MIP.num_lqubits ic))
          ++ flat_map
               (fun j => map (assignment_pqubits_row ic j)
                             (range (MIP.ic_depth ic)))
               (range (MIP.num_pqubits ic)))
         ++ pure_w_y ic ++ pure_assignment_y ic ++ pure_swap ic
         ++ pure_swap_no_gate ic ++ pure_dummy_ts_needed ic
         ++ pure_dummy_precedence ic ++ r9 ++ pure_flow ic ++ r11
    /\ MIP.lower_bounds p
       = pure_lower_bounds ic
         ++ (if cycle_symm then [(MIP.w_index ic 0 0 0, 1%Z)] else [])
    /\ length (MIP.var_names p)
       = MIP.num_w_vars ic + MIP.num_y_vars ic + MIP.num_x_vars ic
         + MIP.ic_depth ic + MIP.num_eu_vars ic.
Proof.
  intros H. apply mip_create_ok in H. destruct H as [Hic H].
  destruct H as (wn & yn & xn & en & r1 & r2 & r3 & r4 & r5 & r6 & r7 & r8
                 & r9 & r10 & r11 & Hwn & Hyn & Hxn & Hen & Hr1 & Hr2 & Hr3
                 & Hr4 & Hr5 & Hr6 & Hr7 & Hr8 & Hr9 & Hr10 & Hr11 & Hvars
                 & Hlbs & Hrows & _).
  apply rows_assignment_lqubits_ok in Hr1.
  apply rows_assignment_pqubits_ok in Hr2.
  apply rows_w_y_ok in Hr3. apply rows_assignment_y_ok in Hr4.
  apply rows_swap_ok in Hr5. apply rows_swap_no_gate_ok in Hr6.
  apply rows_dummy_ts_needed_ok in Hr7. destruct Hr7 as [Hr7 Hlb].
  apply rows_dummy_precedence_ok in Hr8. apply rows_flow_ok in Hr10.
  exists r9, r11. split; [exact Hr9|]. split; [exact Hr11|].
  split; [|split].
  - rewrite Hrows, Hr1, Hr2, Hr3, Hr4, Hr5, Hr6, Hr7, Hr8, Hr10.
    rewrite <- !app_assoc. reflexivity.
  - rewrite Hlbs, Hlb. reflexivity.
  - rewrite Hvars, !length_app.
    unfold MIP.w_names in Hwn. apply store_names_length in Hwn.
    unfold MIP.y_names in Hyn. bind_as Hyn sy Hsy.
    apply store_names_length in Hyn.
    unfold MIP.x_names in Hxn. bind_as Hxn sx Hsx.
    apply store_names_length in Hxn.
    unfold MIP.eu_names in Hen. bind_as Hen se Hse.
    apply store_names_length in Hen.
    unfold MIP.wd_names. rewrite length_map. unfold range.
    rewrite length_seq. lia.
Qed.

(** The variables of a model of depth [d] on [n] qubits. *)
Definition in_model (n d : nat) (v : Var) : Prop :=
  match v with
  | W t q j => t < d /\ q < n /\ j < n
  | Y t _ _ _ _ => t < d
  | X t q _ _ => t < d - 1 /\ q < n
  | Zv t => t < d
  end.

Definition num_vars (ic : MIP._IndexCalculator) : nat :=
  MIP.num_w_vars ic + MIP.num_y_vars ic + MIP.num_x_vars ic
  + MIP.ic_depth ic + MIP.num_eu_vars ic.

Lemma mul_lt_pack a b n m : a < n -> b < m -> a * m + b < n * m.
Proof. intros Ha Hb. nia. Qed.

Lemma var_index_bound c ic v k :
  ic_ok c ic ->
  in_model (size c) (MIP.ic_depth ic) v ->
  var_index ic v = Ok k ->
  k < num_vars ic
  /\ match v with
     | W _ _ _ => k < MIP.num_w_vars ic
     | Y _ _ _ _ _ => MIP.y_start ic <= k < MIP.y_start ic + MIP.num_y_vars ic
     | X _ _ _ _ => MIP.x_start ic <= k < MIP.x_start ic + MIP.num_x_vars ic
     | Zv _ => MIP.wd_start ic <= k < MIP.wd_start ic + MIP.ic_depth ic
     end.
Proof.
  intros Hic Hin Hk. unfold num_vars.
  pose proof (io_y_start _ _ Hic) as Hys.
  pose proof (io_x_start _ _ Hic) as Hxs.
  pose proof (io_wd_start _ _ Hic) as Hwds.
  destruct v as [t q j|t p q i j|t q i j|t]; cbn [var_index in_model] in *.
  - injection Hk as <-. destruct Hin as (Ht & Hq & Hj).
    assert (B : MIP.w_index ic q j t < MIP.num_w_vars ic).
    { rewrite (io_num_w _ _ Hic). unfold MIP.w_index.
      rewrite (io_w_start _ _ Hic), (io_nl _ _ Hic), (io_np _ _ Hic).
      pose proof (mul_lt_pack j q (size c) (size c) Hj Hq) as B1.
      pose proof (mul_lt_pack t (j * size c + q) (MIP.ic_depth ic)
                    (size c * size c) Ht B1) as B2.
      lia. }
    lia.
  - apply (y_index_inv c ic Hic) in Hk.
    destruct Hk as (gi & ai & -> & Hgi & Hai & _).
    rewrite (io_num_y _ _ Hic).
    pose proof (mul_lt_pack ai gi _ _ Hai Hgi) as B.
    split; [|split]; nia.
  - apply (x_index_inv c ic Hic) in Hk.
    destruct Hk as (Hi & pos & -> & Hpos). destruct Hin as [Ht Hq].
    apply (x_pos_lt c ic Hic _ _ _ Hi) in Hpos.
    rewrite (io_num_x _ _ Hic).
    set (Wd := length (MIP.arcs (MIP.ht ic)) + size c) in *.
    pose proof (mul_lt_pack q pos (size c) Wd Hq Hpos) as B1.
    pose proof (mul_lt_pack t (q * Wd + pos) (MIP.ic_depth ic - 1)
                  (size c * Wd) Ht B1) as B2.
    split; [|split]; nia.
  - injection Hk as <-. unfold MIP.wd_index. lia.
Qed.

(** ** From one presentation of the instance to the other *)

(** The routing conditions do not depend on the order in which the arcs
    and the neighbours are listed. *)
Lemma routing_perm n d gs gs' arcs arcs' out out' inn inn' free free' a :
  (forall t, t < d -> gs t = gs' t) ->
  Permutation arcs arcs' ->
  (forall i, i < n -> Permutation (out i) (out' i)) ->
  (forall i, i < n -> Permutation (inn i) (inn' i)) ->
  (forall t, t < d - 1 -> free t = free' t) ->
  routing n d gs arcs out inn free a ->
  routing n d gs' arcs' out' inn' free' a.
Proof.
  intros Hgs Harcs Hout Hinn Hfree R.
  assert (Hin : forall e, In e arcs' -> In e arcs)
    by (intros e He; apply (Permutation_in e (Permutation_sym Harcs) He)).
  constructor.
  - exact (r_assign_v _ _ _ _ _ _ _ _ R).
  - exact (r_assign_p _ _ _ _ _ _ _ _ R).
  - intros t p q Ht Hg. rewrite <- (Hgs t Ht) in Hg.
    rewrite <- (sum_Z_perm _ _ _ Harcs).
    apply (r_gate _ _ _ _ _ _ _ _ R); assumption.
  - intros t p q i j Ht Hg Ha. rewrite <- (Hgs t ltac:(lia)) in Hg.
    apply (r_ub_strong _ _ _ _ _ _ _ _ R); auto.
  - intros p q i j Hd Hg Ha. rewrite <- (Hgs (d - 1) ltac:(lia)) in Hg.
    apply (r_ub_last _ _ _ _ _ _ _ _ R); auto.
  - intros t q i Ht Hq Hi. rewrite <- (sum_Z_perm _ _ _ (Hout i Hi)).
    apply (r_flow_out _ _ _ _ _ _ _ _ R); assumption.
  - intros t q i Ht0 Ht Hq Hi. rewrite <- (sum_Z_perm _ _ _ (Hinn i Hi)).
    apply (r_flow_in _ _ _ _ _ _ _ _ R); assumption.
  - intros t p q i j Ht Hg Ha. rewrite <- (Hgs t ltac:(lia)) in Hg.
    apply (r_swap _ _ _ _ _ _ _ _ R t p q i j); auto.
  - intros t i j Ht Ha. rewrite <- (Hfree t Ht).
    apply (r_swap_free _ _ _ _ _ _ _ _ R); auto.
  - intros t q Ht Hg Hq. rewrite <- (Hgs t Ht) in Hg.
    rewrite <- (sum_Z_perm _ _ _ Harcs).
    apply (r_dummy _ _ _ _ _ _ _ _ R); assumption.
  - intros t Ht Hg Hg'. rewrite <- (Hgs t ltac:(lia)) in Hg.
    rewrite <- (Hgs (t + 1) ltac:(lia)) in Hg'.
    apply (r_prec _ _ _ _ _ _ _ _ R); assumption.
Qed.

Lemma q_no_gate_map lay acc :
  BIP.q_no_gate lay acc = MIP.q_no_gate (map fst lay) acc.
Proof.
  revert acc. induction lay as [|[[p q] n] lay IH]; intros acc;
    [reflexivity|].
  cbn [BIP.q_no_gate MIP.q_no_gate map fst].
  destruct (list_remove p acc) as [acc1|e]; [|reflexivity]. cbn [bind].
  destruct (list_remove q acc1) as [acc2|e]; [|reflexivity]. cbn [bind].
  apply IH.
Qed.

Section SameInstance.

Variables (dag : DAGCircuit) (c : CouplingMap) (subset : list nat)
          (D : nat) (ns : Z).
Variables (m : BIP.BIPMappingModel) (mm : MIP.MIPMappingModel)
          (ic : MIP._IndexCalculator).
Hypothesis Hc : coupling_ok c.
Hypothesis Hm : BIP.init dag c subset D ns = Ok m.
Hypothesis Hmm : MIP.init dag c D = Ok mm.
Hypothesis Hic0 :
  MIP.init_IndexCalculator (MIP.circuit_model mm) (MIP.toplogy_model mm)
  = Ok ic.

Lemma same_ic_ok : ic_ok c ic.
Proof. exact (proj1 (mip_ic_ok dag c D mm ic Hc Hmm Hic0)). Qed.

Lemma same_sizes :
  BIP.num_vqubits m = size c /\ BIP.num_pqubits m = size c
  /\ BIP._arcs m = get_edges c /\ BIP._coupling m = c
  /\ BIP.depth m = MIP.ic_depth ic /\ MIP.num_lqubits ic = size c.
Proof.
  destruct (init_fields _ _ _ _ _ _ Hm)
    as (_ & _ & _ & Hnv & Hnp & Hvp & Harcs & Hcoup & _).
  pose proof same_ic_ok as Hic.
  split; [congruence|]. split; [exact Hnp|]. split; [exact Harcs|].
  split; [exact Hcoup|]. split; [|exact (io_nl _ _ Hic)].
  destruct (bip_gates_mip dag c subset D ns m mm 0 Hm Hmm) as [_ Hd].
  rewrite Hd, (io_depth _ _ Hic).
  apply init_IndexCalculator_ok in Hic0. destruct Hic0 as (-> & _).
  reflexivity.
Qed.

Lemma same_gates t : bip_gates m t = mip_gates ic t.
Proof.
  destruct (bip_gates_mip dag c subset D ns m mm t Hm Hmm) as [Hg _].
  rewrite Hg. unfold mip_gates.
  apply init_IndexCalculator_ok in Hic0. destruct Hic0 as (-> & _).
  reflexivity.
Qed.

Lemma same_free t : bip_free m t = mip_free ic t.
Proof.
  unfold bip_free, mip_free, free_qubits. rewrite q_no_gate_map.
  fold (bip_gates m t). rewrite same_gates.
  destruct same_sizes as (-> & _ & _ & _ & _ & ->). reflexivity.
Qed.

Lemma same_arcs : Permutation (MIP.arcs (MIP.ht ic)) (BIP._arcs m).
Proof.
  pose proof (io_ht _ _ same_ic_ok) as Hto.
  destruct same_sizes as (_ & _ & -> & _).
  apply NoDup_Permutation.
  - exact (to_arcs_nodup _ _ Hto).
  - exact (co_nodup _ Hc).
  - exact (to_arcs _ _ Hto).
Qed.

Lemma same_out i :
  i < size c ->
  Permutation (out_of (MIP.ht ic) i) (neighbors (BIP._coupling m) i).
Proof.
  intros Hi. pose proof (io_ht _ _ same_ic_ok) as Hto.
  destruct same_sizes as (_ & _ & _ & -> & _).
  apply NoDup_Permutation.
  - exact (to_out_nodup _ _ Hto i Hi).
  - exact (co_nodup_nb _ Hc i).
  - intros j. rewrite (to_out _ _ Hto i j Hi), (to_arcs _ _ Hto),
      (co_edges _ Hc). tauto.
Qed.

Lemma same_inn i :
  i < size c ->
  Permutation (inn_of (MIP.ht ic) i) (neighbors (BIP._coupling m) i).
Proof.
  intros Hi. etransitivity; [|exact (same_out i Hi)].
  apply (inn_out_perm c ic Hc same_ic_ok). exact Hi.
Qed.

End SameInstance.

(** ** The variables of the exact DOcplex model *)

Definition is_key (m : BIP.BIPMappingModel) (v : Var) : Prop :=
  match v with
  | W t q j =>
      t < BIP.depth m /\ q < BIP.num_vqubits m /\ j < BIP.num_pqubits m
  | Y t p q i j =>
      t < BIP.depth m /\ In (p, q) (bip_gates m t) /\ In (i, j) (BIP._arcs m)
  | X t q i j =>
      t < BIP.depth m - 1 /\ q < BIP.num_vqubits m /\ i < BIP.num_pqubits m
      /\ (j = i \/ In j (neighbors (BIP._coupling m) i))
  | Zv t => t < BIP.depth m /\ bip_gates m t = []
  end.

Lemma in_exact_keys m v : In v (exact_keys m) <-> is_key m v.
Proof.
  unfold exact_keys. rewrite !in_app_iff. split.
  - intros [H|[H|[H|H]]].
    + unfold BIP.w_keys in H. apply in_flat_map in H.
      destruct H as [t [Ht H]]. apply in_flat_map in H.
      destruct H as [q [Hq H]]. apply in_map_iff in H.
      destruct H as [j [<- Hj]]. apply in_range in Ht, Hq, Hj.
      cbn. auto.
    + unfold y_keys_flat in H. apply in_flat_map in H.
      destruct H as [t [Ht H]]. apply in_flat_map in H.
      destruct H as [[[p q] n] [Hg H]]. apply in_map_iff in H.
      destruct H as [[i j] [<- Ha]]. apply in_range in Ht. cbn.
      split; [exact Ht|]. split; [|exact Ha].
      apply in_bip_gates. exists n. exact Hg.
    + unfold BIP.x_keys in H. apply in_flat_map in H.
      destruct H as [t [Ht H]]. apply in_flat_map in H.
      destruct H as [q [Hq H]]. apply in_flat_map in H.
      destruct H as [i [Hi H]]. apply in_range in Ht, Hq, Hi.
      destruct H as [<-|H].
      * cbn. auto.
      * apply in_map_iff in H. destruct H as [j [<- Hj]]. cbn. auto.
    + unfold z_keys_flat in H. apply in_flat_map in H.
      destruct H as [t [Ht H]]. apply in_range in Ht.
      destruct (is_dummy m t) eqn:E; [|destruct H].
      destruct H as [<-|[]]. cbn. split; [exact Ht|].
      apply bip_gates_nil. exact E.
  - destruct v as [t q j|t p q i j|t q i j|t]; cbn [is_key].
    + intros (Ht & Hq & Hj). left. apply in_w_keys; assumption.
    + intros (Ht & Hg & Ha). right. left. apply in_bip_gates in Hg.
      destruct Hg as [n Hg]. unfold y_keys_flat. apply in_flat_map.
      exists t. split; [apply in_range; exact Ht|]. apply in_flat_map.
      exists (p, q, n). split; [exact Hg|]. apply in_map_iff.
      exists (i, j). split; [reflexivity | exact Ha].
    + intros (Ht & Hq & Hi & Hj). right. right. left. unfold BIP.x_keys.
      apply in_flat_map. exists t. split; [apply in_range; exact Ht|].
      apply in_flat_map. exists q. split; [apply in_range; exact Hq|].
      apply in_flat_map. exists i. split; [apply in_range; exact Hi|].
      destruct Hj as [->|Hj]; [left; reflexivity|]. right.
      apply in_map_iff. exists j. split; [reflexivity | exact Hj].
    + intros [Ht Hg]. right. right. right. unfold z_keys_flat.
      apply in_flat_map. exists t. split; [apply in_range; exact Ht|].
      apply bip_gates_nil in Hg. rewrite Hg. left. reflexivity.
Qed.

(** What [create_cpx_problem] stores as the exact model. *)
Lemma exact_problem np_log gf mgf npeml m obj bp weight rate b :
  BIP.create_cpx_problem np_log gf mgf npeml m obj bp weight rate None
  = Ok b ->
  variables (BIP.problem b) = map binary_var (exact_keys m)
  /\ constraints (BIP.problem b) = exact_constraints m.
Proof.
  intros H.
  destruct (create_cpx_problem_ok np_log gf mgf npeml m obj bp weight rate b H)
    as (b0 & Hb0 & _ & Hprob & _).
  destruct (exact_model_ok np_log gf mgf m bp rate obj weight b0 Hb0)
    as (_ & _ & _ & _ & _ & _ & Hv & Hcs & _).
  rewrite Hprob. split; assumption.
Qed.

Lemma bip_feasible_iff np_log gf mgf npeml m obj bp weight rate b a :
  BIP.create_cpx_problem np_log gf mgf npeml m obj bp weight rate None
  = Ok b ->
  BIP.num_vqubits m = BIP.num_pqubits m ->
  feasible (BIP.problem b) a
  <-> (forall v, is_key m v -> a v = 0%Z \/ a v = 1%Z)
      /\ routing (BIP.num_pqubits m) (BIP.depth m) (bip_gates m) (BIP._arcs m)
           (neighbors (BIP._coupling m)) (neighbors (BIP._coupling m))
           (bip_free m) a
      /\ lower_bound (BIP.depth m) (bip_gates m) (BIP._arcs m) a.
Proof.
  intros Hb Hn. destruct (exact_problem _ _ _ _ _ _ _ _ _ _ Hb) as [Hv Hcs].
  unfold feasible. rewrite Hv, Hcs, bip_bounds_iff, (bip_sat_iff m a Hn).
  split.
  - intros [Hbin HR]. split; [|exact HR].
    intros v Hk. apply Hbin. apply in_exact_keys. exact Hk.
  - intros [Hbin HR]. split; [|exact HR].
    intros v Hk. apply Hbin. apply in_exact_keys. exact Hk.
Qed.

(** ** The lower McCormick bound follows from the other conditions *)

Lemma sum_nonneg {A} (g : A -> Z) l :
  (forall x, In x l -> (0 <= g x)%Z) -> (0 <= sum_Z (map g l))%Z.
Proof.
  induction l as [|x l IH]; intros H; [simpl; lia|].
  cbn [map sum_Z fold_right]. fold (sum_Z (map g l)).
  pose proof (H x ltac:(left; reflexivity)).
  pose proof (IH ltac:(intros y Hy; apply H; right; exact Hy)). lia.
Qed.

Lemma sum_ge_term {A} (g : A -> Z) l y :
  (forall x, In x l -> (0 <= g x)%Z) -> In y l ->
  (g y <= sum_Z (map g l))%Z.
Proof.
  induction l as [|x l IH]; intros H Hy; [destruct Hy|].
  cbn [map sum_Z fold_right]. fold (sum_Z (map g l)).
  pose proof (H x ltac:(left; reflexivity)).
  pose proof (sum_nonneg g l ltac:(intros z Hz; apply H; right; exact Hz)).
  destruct Hy as [->|Hy]; [lia|].
  pose proof (IH ltac:(intros z Hz; apply H; right; exact Hz) Hy). lia.
Qed.

Lemma binary_list_sum_one {A} (g : A -> Z) l :
  (forall x, In x l -> g x = 0%Z \/ g x = 1%Z) ->
  sum_Z (map g l) = 1%Z ->
  exists x, In x l /\ g x = 1%Z.
Proof.
  induction l as [|x l IH]; intros H Hs; [discriminate Hs|].
  cbn [map sum_Z fold_right] in Hs. fold (sum_Z (map g l)) in Hs.
  destruct (H x ltac:(left; reflexivity)) as [E|E].
  - destruct IH as [y [Hy Hg]].
    + intros z Hz. apply H. right. exact Hz.
    + lia.
    + exists y. split; [right; exact Hy | exact Hg].
  - exists x. split; [left; reflexivity | exact E].
Qed.

Lemma routing_lower_bound n d gs arcs out inn free a :
  routing n d gs arcs out inn free a ->
  (forall t q j, t < d -> q < n -> j < n ->
                 a (W t q j) = 0%Z \/ a (W t q j) = 1%Z) ->
  (forall t p q i j, t < d -> In (p, q) (gs t) -> In (i, j) arcs ->
                     a (Y t p q i j) = 0%Z \/ a (Y t p q i j) = 1%Z) ->
  (forall t q i j, t < d - 1 -> q < n -> i < n -> j = i \/ In j (out i) ->
                   (0 <= a (X t q i j))%Z) ->
  (forall i j, In (i, j) arcs ->
               i < n /\ j < n /\ In j (out i) /\ In i (out j)) ->
  (forall t p q, t < d -> In (p, q) (gs t) -> p < n /\ q < n) ->
  lower_bound d gs arcs a.
Proof.
  intros R Hw Hy Hx Harc Hgate t p q i j Ht Hg Ha.
  destruct (Harc i j Ha) as (Hi & Hj & _ & _).
  destruct (Hgate t p q Ht Hg) as [Hp Hq].
  destruct (Hy t p q i j Ht Hg Ha) as [Ey|Ey];
    destruct (Hw t p i Ht Hp Hi) as [Ep|Ep];
    destruct (Hw t q j Ht Hq Hj) as [Eq|Eq]; try lia.
  exfalso.
  destruct (binary_list_sum_one
              (fun e : nat * nat => a (Y t p q (fst e) (snd e))) arcs)
    as [[i' j'] [Ha' Ey']].
  { intros [i0 j0] H0. apply (Hy t p q i0 j0 Ht Hg H0). }
  { apply (r_gate _ _ _ _ _ _ _ _ R t p q Ht Hg). }
  cbn [fst snd] in Ey'.
  destruct (Harc i' j' Ha') as (Hi' & Hj' & Ho' & Ho'').
  assert (Hends : a (W t p i') = 1%Z /\ a (W t q j') = 1%Z).
  { destruct (Nat.lt_ge_cases t (d - 1)) as [Hlt|Hge].
    - destruct (r_ub_strong _ _ _ _ _ _ _ _ R t p q i' j' Hlt Hg Ha')
        as [U1 U2].
      pose proof (r_flow_out _ _ _ _ _ _ _ _ R t p i' Hlt Hp Hi') as F1.
      pose proof (r_flow_out _ _ _ _ _ _ _ _ R t q j' Hlt Hq Hj') as F2.
      pose proof (sum_ge_term (fun j0 => a (X t p i' j0)) (out i') j'
                    ltac:(intros x Hx0; apply Hx; auto) Ho') as S1.
      pose proof (sum_ge_term (fun j0 => a (X t q j' j0)) (out j') i'
                    ltac:(intros x Hx0; apply Hx; auto) Ho'') as S2.
      cbv beta in S1, S2.
      destruct (Hw t p i' Ht Hp Hi'), (Hw t q j' Ht Hq Hj'); split; lia.
    - assert (Et : t = d - 1) by lia. subst t.
      destruct (r_ub_last _ _ _ _ _ _ _ _ R p q i' j' ltac:(lia) Hg Ha')
        as [U1 U2].
      destruct (Hw (d - 1) p i' Ht Hp Hi'), (Hw (d - 1) q j' Ht Hq Hj');
        split; lia. }
  destruct Hends as [Ep' Eq'].
  destruct (binary_sum_one (fun j0 => a (W t p j0)) n
              ltac:(intros j0 Hj0; apply Hw; assumption)
              (r_assign_v _ _ _ _ _ _ _ _ R t p Ht Hp))
    as [ip [_ Up]].
  destruct (binary_sum_one (fun j0 => a (W t q j0)) n
              ltac:(intros j0 Hj0; apply Hw; assumption)
              (r_assign_v _ _ _ _ _ _ _ _ R t q Ht Hq))
    as [jq [_ Uq]].
  assert (Ei : i' = i)
    by (rewrite <- (Up i' (conj Hi' Ep')); apply Up; split; assumption).
  assert (Ej : j' = j)
    by (rewrite <- (Uq j' (conj Hj' Eq')); apply Uq; split; assumption).
  subst i' j'. lia.
Qed.

(** ** Every feasible point of the flat model is one of the DOcplex model *)

(** What the builders expect of the circuit: the gates of a layer act on
    distinct qubits of the circuit. *)
Definition dag_ok (dag : DAGCircuit) : Prop :=
  forall lay, In lay (layers dag) ->
    NoDup (flat_map (fun nd => [qarg0 nd; qarg1 nd]) lay)
    /\ forall nd, In nd lay ->
         qarg0 nd < num_dag_qubits dag /\ qarg1 nd < num_dag_qubits dag.

Lemma in_with_dummy_steps {A} D (l : list (list A)) x :
  In x (with_dummy_steps D l) -> x = [] \/ In x l.
Proof.
  induction l as [|y r IH]; intros H; [destruct H|].
  destruct r as [|z r].
  - destruct H as [<-|[]]. right. left. reflexivity.
  - rewrite with_dummy_steps_cons in H. destruct H as [<-|H].
    + right. left. reflexivity.
    + apply in_app_or in H. destruct H as [H|H].
      * left. apply repeat_spec in H. exact H.
      * destruct (IH H) as [E|E]; [left; exact E | right; right; exact E].
Qed.

Lemma bip_gates_layer dag c subset D ns m t :
  BIP.init dag c subset D ns = Ok m ->
  bip_gates m t = []
  \/ exists lay, In lay (layers dag) /\ bip_gates m t = map pair_of lay.
Proof.
  intros Hm. destruct (init_fields _ _ _ _ _ _ Hm) as (Hsu & Hg & _).
  unfold bip_gates.
  destruct (nth_in_or_default t (BIP.gates m) []) as [Hin|E];
    [|left; rewrite E; reflexivity].
  generalize dependent (nth t (BIP.gates m) []). intros x Hin.
  rewrite Hg in Hin. apply in_with_dummy_steps in Hin.
  destruct Hin as [->|Hin]; [left; reflexivity|].
  rewrite Hsu in Hin. apply in_map_iff in Hin.
  destruct Hin as [lay [E Hlay]]. right. exists lay. split.
  - unfold real_layers in Hlay. apply filter_In in Hlay. tauto.
  - rewrite <- E. unfold BIP.laygates_of. rewrite map_map. reflexivity.
Qed.

Lemma bip_gates_range dag c subset D ns m t p q :
  dag_ok dag ->
  BIP.init dag c subset D ns = Ok m ->
  In (p, q) (bip_gates m t) ->
  p < BIP.num_vqubits m /\ q < BIP.num_vqubits m.
Proof.
  intros Hd Hm Hg. destruct (init_fields _ _ _ _ _ _ Hm) as (_ & _ & _ & Hnv & _).
  destruct (bip_gates_layer dag c subset D ns m t Hm) as [E|[lay [Hl E]]];
    rewrite E in Hg; [destruct Hg|].
  apply in_map_iff in Hg. destruct Hg as [nd [Epq Hnd]].
  unfold pair_of in Epq. injection Epq as <- <-. rewrite Hnv.
  apply (proj2 (Hd lay Hl) nd Hnd).
Qed.

Section MipToBip.

Variables (np_log : Q -> Q) (gf mgf : nat -> list Q)
          (npeml : list Q -> result Q) (mip_log math_log : Q -> Q).
Variables (dag : DAGCircuit) (c : CouplingMap) (subset : list nat)
          (D : nat) (ns : Z).
Variables (m : BIP.BIPMappingModel) (b : BIP.Built) (obj : string)
          (bp : option (nat -> nat -> Q)) (weight : Q) (rate : option Q).
Variables (mm : MIP.MIPMappingModel) (p : MIP.Cplex)
          (ic : MIP._IndexCalculator) (mobj : string) (ls cs : bool).
Hypothesis Hc : coupling_ok c.
Hypothesis Hdag : dag_ok dag.
Hypothesis Hm : BIP.init dag c subset D ns = Ok m.
Hypothesis Hb :
  BIP.create_cpx_problem np_log gf mgf npeml m obj bp weight rate None = Ok b.
Hypothesis Hmm : MIP.init dag c D = Ok mm.
Hypothesis Hp :
  MIP.create_cpx_problem mip_log math_log mm mobj ls cs = Ok (p, ic).

Lemma built_ic :
  MIP.init_IndexCalculator (MIP.circuit_model mm) (MIP.toplogy_model mm)
  = Ok ic.
Proof. exact (proj1 (mip_create_ok _ _ _ _ _ _ _ _ Hp)). Qed.

Lemma key_in_model v :
  is_key m v -> in_model (size c) (MIP.ic_depth ic) v.
Proof.
  destruct (same_sizes dag c subset D ns m mm ic Hc Hm Hmm built_ic)
    as (Hnv & Hnp & _ & _ & Hd & _).
  destruct v; cbn [is_key in_model]; rewrite ?Hnv, ?Hnp, ?Hd; tauto.
Qed.

Lemma pull_binary f v :
  MIP.feasible p f -> is_key m v ->
  pull ic f v = 0%Z \/ pull ic f v = 1%Z.
Proof.
  intros (Hbin & _ & _) Hk. unfold pull.
  destruct (var_index ic v) as [k|e] eqn:E; [|left; reflexivity].
  apply Hbin.
  destruct (mip_problem_rows _ _ _ _ _ _ _ _ Hp)
    as (r9 & r11 & _ & _ & _ & _ & Hlen).
  rewrite Hlen.
  apply (var_index_bound c ic v k
           (same_ic_ok dag c D mm ic Hc Hmm built_ic)
           (key_in_model v Hk) E).
Qed.

Lemma mip_routing f :
  MIP.feasible p f ->
  routing (size c) (MIP.ic_depth ic) (mip_gates ic)
    (MIP.arcs (MIP.ht ic)) (out_of (MIP.ht ic)) (inn_of (MIP.ht ic))
    (mip_free ic) (pull ic f).
Proof.
  intros (_ & _ & Hrows).
  destruct (mip_problem_rows _ _ _ _ _ _ _ _ Hp)
    as (r9 & r11 & _ & _ & Erows & _).
  rewrite Erows in Hrows. rewrite !Forall_app in Hrows.
  destruct Hrows as ([A1 A2] & Wy & Ay & Sw & Sf & Dn & Pr & _ & Fl & _).
  apply (mip_routing_iff c ic f Hc
           (same_ic_ok dag c D mm ic Hc Hmm built_ic)).
  rewrite Forall_app. tauto.
Qed.

Lemma bip_routing_of_mip a :
  routing (size c) (MIP.ic_depth ic) (mip_gates ic)
    (MIP.arcs (MIP.ht ic)) (out_of (MIP.ht ic)) (inn_of (MIP.ht ic))
    (mip_free ic) a
  <-> routing (BIP.num_pqubits m) (BIP.depth m) (bip_gates m) (BIP._arcs m)
        (neighbors (BIP._coupling m)) (neighbors (BIP._coupling m))
        (bip_free m) a.
Proof.
  destruct (same_sizes dag c subset D ns m mm ic Hc Hm Hmm built_ic)
    as (Hnv & Hnp & _ & _ & Hd & _).
  rewrite Hnp, Hd. split.
  - apply routing_perm.
    + intros t _. symmetry.
      apply (same_gates dag c subset D ns m mm ic Hm Hmm built_ic).
    + apply (same_arcs dag c subset D ns m mm ic Hc Hm Hmm built_ic).
    + intros i Hi.
      apply (same_out dag c subset D ns m mm ic Hc Hm Hmm built_ic i Hi).
    + intros i Hi.
      apply (same_inn dag c subset D ns m mm ic Hc Hm Hmm built_ic i Hi).
    + intros t _. symmetry.
      apply (same_free dag c subset D ns m mm ic Hc Hm Hmm built_ic).
  - apply routing_perm.
    + intros t _.
      apply (same_gates dag c subset D ns m mm ic Hm Hmm built_ic).
    + apply Permutation_sym.
      apply (same_arcs dag c subset D ns m mm ic Hc Hm Hmm built_ic).
    + intros i Hi. apply Permutation_sym.
      apply (same_out dag c subset D ns m mm ic Hc Hm Hmm built_ic i Hi).
    + intros i Hi. apply Permutation_sym.
      apply (same_inn dag c subset D ns m mm ic Hc Hm Hmm built_ic i Hi).
    + intros t _.
      apply (same_free dag c subset D ns m mm ic Hc Hm Hmm built_ic).
Qed.

Lemma bip_lower_bound a :
  (forall v, is_key m v -> a v = 0%Z \/ a v = 1%Z) ->
  routing (BIP.num_pqubits m) (BIP.depth m) (bip_gates m) (BIP._arcs m)
    (neighbors (BIP._coupling m)) (neighbors (BIP._coupling m))
    (bip_free m) a ->
  lower_bound (BIP.depth m) (bip_gates m) (BIP._arcs m) a.
Proof.
  intros Hbin R.
  destruct (same_sizes dag c subset D ns m mm ic Hc Hm Hmm built_ic)
    as (Hnv & Hnp & Harcs & Hcoup & Hd & _).
  apply (routing_lower_bound _ _ _ _ _ _ _ _ R).
  - intros t q j Ht Hq Hj. apply Hbin. cbn. rewrite Hnv, <- Hnp. auto.
  - intros t p0 q i j Ht Hg Ha. apply Hbin. cbn. auto.
  - intros t q i j Ht Hq Hi Hj.
    assert (H : a (X t q i j) = 0%Z \/ a (X t q i j) = 1%Z).
    { apply Hbin. cbn. rewrite Hnv, <- Hnp. auto. }
    destruct H as [-> | ->]; lia.
  - intros i j Ha. rewrite Harcs in Ha. rewrite Hcoup, Hnp.
    pose proof (co_range _ Hc i j Ha) as Hj.
    pose proof (co_sym _ Hc i j Ha) as Hs.
    apply (co_edges _ Hc) in Ha. apply (co_edges _ Hc) in Hs. tauto.
  - intros t p0 q Ht Hg.
    pose proof (bip_gates_range dag c subset D ns m t p0 q Hdag Hm Hg)
      as [H1 H2].
    rewrite Hnv in H1, H2. rewrite Hnp. split; assumption.
Qed.

Lemma mip_feasible_bip f :
  MIP.feasible p f -> feasible (BIP.problem b) (pull ic f).
Proof.
  intros Hf.
  destruct (same_sizes dag c subset D ns m mm ic Hc Hm Hmm built_ic)
    as (Hnv & Hnp & _).
  apply (bip_feasible_iff _ _ _ _ _ _ _ _ _ _ _ Hb); [congruence|].
  assert (Hbin : forall v, is_key m v ->
                   pull ic f v = 0%Z \/ pull ic f v = 1%Z)
    by (intros v Hk; apply pull_binary; assumption).
  assert (R : routing (BIP.num_pqubits m) (BIP.depth m) (bip_gates m)
                (BIP._arcs m) (neighbors (BIP._coupling m))
                (neighbors (BIP._coupling m)) (bip_free m) (pull ic f))
    by (apply bip_routing_of_mip, mip_routing; exact Hf).
  split; [exact Hbin|]. split; [exact R|].
  apply bip_lower_bound; assumption.
Qed.

End MipToBip.

(** ** An assignment of the DOcplex model carried to the flat model *)

Lemma pack_div a b m : b < m -> (a * m + b) / m = a /\ (a * m + b) mod m = b.
Proof.
  intros Hb. split.
  - symmetry. apply (Nat.div_unique (a * m + b) m a b Hb). lia.
  - symmetry. apply (Nat.mod_unique (a * m + b) m a b Hb). lia.
Qed.

(** The flow variable at each position of [x_var_mapping]. *)
Definition x_table (h : MIP._HardwareTopology) (n : nat)
  : list (nat * (nat * nat)) :=
  flat_map
    (fun i => map (fun jp : nat * nat => (snd jp, (i, fst jp))) (x_row h i))
    (range n).

Definition x_decode (h : MIP._HardwareTopology) (n pos : nat)
  : option (nat * nat) :=
  option_map snd (find (fun e : nat * (nat * nat) => fst e =? pos) (x_table h n)).

Lemma in_x_row h i j pos : In (j, pos) (x_row h i) -> x_pos h i j pos.
Proof.
  unfold x_row. intros [H|H].
  - injection H as <- <-. right. split; reflexivity.
  - left. apply in_combine_seq in H. exact H.
Qed.

Lemma x_pos_in_row h i j pos : x_pos h i j pos -> In (j, pos) (x_row h i).
Proof.
  unfold x_row. intros [(H1 & H2 & H3)|[-> ->]]; [|left; reflexivity].
  right. replace pos with (S (x_off h i) + (pos - S (x_off h i))) by lia.
  apply combine_seq_In. exact H3.
Qed.

Lemma x_decode_pos h n i j pos :
  i < n -> x_pos h i j pos -> x_decode h n pos = Some (i, j).
Proof.
  intros Hi Hpos. unfold x_decode.
  destruct (find (fun e : nat * (nat * nat) => fst e =? pos) (x_table h n))
    as [[pos' [i' j']]|] eqn:E.
  - apply find_some in E. destruct E as [Hin Heq]. cbn in Heq.
    apply Nat.eqb_eq in Heq. subst pos'. unfold x_table in Hin.
    apply in_flat_map in Hin. destruct Hin as [i0 [_ Hin]].
    apply in_map_iff in Hin. destruct Hin as [[j0 p0] [E0 Hin]].
    cbn in E0. injection E0 as -> -> ->. apply in_x_row in Hin.
    destruct (x_pos_inj _ _ _ _ _ _ Hin Hpos) as [-> ->]. reflexivity.
  - exfalso.
    assert (Hin : In (pos, (i, j)) (x_table h n)); [|
      pose proof (find_none _ _ E (pos, (i, j)) Hin) as Hf; cbn in Hf;
      rewrite Nat.eqb_refl in Hf; discriminate Hf].
    unfold x_table. apply in_flat_map. exists i.
    split; [apply in_range; exact Hi|]. apply in_map_iff.
    exists (j, pos). split; [reflexivity|]. apply x_pos_in_row. exact Hpos.
Qed.

Lemma x_decode_inv h n pos i j :
  x_decode h n pos = Some (i, j) -> i < n /\ x_pos h i j pos.
Proof.
  unfold x_decode.
  destruct (find (fun e : nat * (nat * nat) => fst e =? pos) (x_table h n))
    as [[pos' [i' j']]|] eqn:E; [|discriminate].
  cbn. intros H. injection H as -> ->.
  apply find_some in E. destruct E as [Hin Heq]. cbn in Heq.
  apply Nat.eqb_eq in Heq. subst pos'. unfold x_table in Hin.
  apply in_flat_map in Hin. destruct Hin as [i0 [Hi0 Hin]].
  apply in_map_iff in Hin. destruct Hin as [[j0 p0] [E0 Hin]].
  cbn in E0. injection E0 as -> -> ->. apply in_range in Hi0.
  split; [exact Hi0|]. apply in_x_row. exact Hin.
Qed.

(** The value of every variable of the flat model but the [eu]: that of
    the corresponding variable of the DOcplex model, and [1] for the [w^d]
    of a step with gates. *)
Definition push0 (ic : MIP._IndexCalculator) (a : Var -> Z) (k : nat) : Z :=
  let n := MIP.num_pqubits ic in
  let G := MIP.num_gates ic in
  let Wd := length (MIP.arcs (MIP.ht ic)) + n in
  if k <? MIP.y_start ic then
    a (W (k / (n * n)) (k mod n) ((k mod (n * n)) / n))
  else if k <? MIP.x_start ic then
    match nth_error (MIP.arcs (MIP.ht ic)) ((k - MIP.y_start ic) / G),
          nth_error (gate_keys (MIP.gates (MIP.qc ic)))
                    ((k - MIP.y_start ic) mod G) with
    | Some (i, j), Some (t, p, q) => a (Y t p q i j)
    | _, _ => 0%Z
    end
  else if k <? MIP.wd_start ic then
    let k' := k - MIP.x_start ic in
    match x_decode (MIP.ht ic) n (k' mod Wd) with
    | Some (i, j) => a (X (k' / (n * Wd)) ((k' mod (n * Wd)) / Wd) i j)
    | None => 0%Z
    end
  else if k <? MIP.eu_start ic then
    let t := k - MIP.wd_start ic in
    if is_empty (mip_gates ic t) then a (Zv t) else 1%Z
  else 0%Z.

Section Push.

Variable c : CouplingMap.
Variable ic : MIP._IndexCalculator.
Hypothesis Hic : ic_ok c ic.
Variable a : Var -> Z.

Lemma push0_w t q j :
  t < MIP.ic_depth ic -> q < size c -> j < size c ->
  push0 ic a (MIP.w_index ic q j t) = a (W t q j).
Proof.
  intros Ht Hq Hj.
  destruct (var_index_bound c ic (W t q j) _ Hic (conj Ht (conj Hq Hj))
              eq_refl) as [_ B].
  unfold push0. rewrite (io_y_start _ _ Hic).
  destruct (Nat.ltb_spec (MIP.w_index ic q j t) (MIP.num_w_vars ic)); [|lia].
  unfold MIP.w_index.
  rewrite (io_w_start _ _ Hic), (io_nl _ _ Hic), (io_np _ _ Hic).
  set (n := size c) in *.
  pose proof (mul_lt_pack j q n n Hj Hq) as B1.
  replace (0 + t * n * n + j * n + q) with (t * (n * n) + (j * n + q)) by lia.
  destruct (pack_div t (j * n + q) (n * n) B1) as [-> E2].
  rewrite E2. destruct (pack_div j q n Hq) as [-> _].
  replace (t * (n * n) + (j * n + q)) with ((t * n + j) * n + q) by lia.
  destruct (pack_div (t * n + j) q n Hq) as [_ ->]. reflexivity.
Qed.

Lemma push0_y t p q i j k :
  MIP.y_index ic t (p, q) (i, j) = Ok k -> push0 ic a k = a (Y t p q i j).
Proof.
  intros Hk.
  assert (Hin : t < MIP.ic_depth ic)
    by (apply (y_index_gate c ic Hic) in Hk; tauto).
  destruct (var_index_bound c ic (Y t p q i j) k Hic Hin Hk) as [_ B].
  apply (y_index_inv c ic Hic) in Hk.
  destruct Hk as (gi & ai & -> & Hgi & Hai & Hg & Ha).
  unfold push0. rewrite (io_x_start _ _ Hic).
  rewrite (io_y_start _ _ Hic) in *.
  destruct (Nat.ltb_spec (MIP.num_w_vars ic + ai * MIP.num_gates ic + gi)
              (MIP.num_w_vars ic)); [lia|].
  destruct (Nat.ltb_spec (MIP.num_w_vars ic + ai * MIP.num_gates ic + gi)
              (MIP.num_w_vars ic + MIP.num_y_vars ic)); [|lia].
  replace (MIP.num_w_vars ic + ai * MIP.num_gates ic + gi - MIP.num_w_vars ic)
    with (ai * MIP.num_gates ic + gi) by lia.
  destruct (pack_div ai gi (MIP.num_gates ic) Hgi) as [-> ->].
  rewrite Ha, Hg. reflexivity.
Qed.

Lemma push0_x t l i j k :
  MIP.x_index ic l i j t = Ok k ->
  t < MIP.ic_depth ic - 1 -> l < size c ->
  push0 ic a k = a (X t l i j).
Proof.
  intros Hk Ht Hl.
  destruct (var_index_bound c ic (X t l i j) k Hic (conj Ht Hl) Hk)
    as [_ B].
  apply (x_index_inv c ic Hic) in Hk. destruct Hk as (Hi & pos & -> & Hpos).
  pose proof (x_pos_lt c ic Hic i j pos Hi Hpos) as Hlt.
  unfold push0. rewrite (io_wd_start _ _ Hic), (io_np _ _ Hic).
  rewrite (io_x_start _ _ Hic) in *. rewrite (io_y_start _ _ Hic).
  set (n := size c) in *.
  set (Wd := length (MIP.arcs (MIP.ht ic)) + n) in *.
  set (xs := MIP.num_w_vars ic + MIP.num_y_vars ic) in *.
  destruct (Nat.ltb_spec (xs + t * n * Wd + l * Wd + pos) (MIP.num_w_vars ic));
    [lia|].
  destruct (Nat.ltb_spec (xs + t * n * Wd + l * Wd + pos) xs); [lia|].
  destruct (Nat.ltb_spec (xs + t * n * Wd + l * Wd + pos)
              (xs + MIP.num_x_vars ic)); [|lia].
  replace (xs + t * n * Wd + l * Wd + pos - xs)
    with (t * (n * Wd) + (l * Wd + pos)) by lia.
  pose proof (mul_lt_pack l pos n Wd Hl Hlt) as B1.
  destruct (pack_div t (l * Wd + pos) (n * Wd) B1) as [E1 E2].
  replace (t * (n * Wd) + (l * Wd + pos))
    with ((t * n + l) * Wd + pos) at 1 by lia.
  destruct (pack_div (t * n + l) pos Wd Hlt) as [_ ->].
  rewrite (x_decode_pos _ _ i j pos Hi Hpos).
  rewrite E1, E2. destruct (pack_div l pos Wd Hlt) as [-> _]. reflexivity.
Qed.

Lemma push0_wd t :
  t < MIP.ic_depth ic ->
  push0 ic a (MIP.wd_index ic t)
  = if is_empty (mip_gates ic t) then a (Zv t) else 1%Z.
Proof.
  intros Ht. unfold push0, MIP.wd_index.
  rewrite (io_eu_start _ _ Hic), (io_wd_start _ _ Hic),
          (io_x_start _ _ Hic), (io_y_start _ _ Hic).
  set (wds := MIP.num_w_vars ic + MIP.num_y_vars ic + MIP.num_x_vars ic).
  destruct (Nat.ltb_spec (wds + t) (MIP.num_w_vars ic)); [lia|].
  destruct (Nat.ltb_spec (wds + t) (MIP.num_w_vars ic + MIP.num_y_vars ic));
    [lia|].
  destruct (Nat.ltb_spec (wds + t) wds); [lia|].
  destruct (Nat.ltb_spec (wds + t) (wds + MIP.ic_depth ic)); [|lia].
  replace (wds + t - wds) with t by lia. reflexivity.
Qed.

(** The variables the flat model shares with the DOcplex model. *)
Definition mip_key (v : Var) : Prop :=
  match v with
  | W t q j => t < MIP.ic_depth ic /\ q < size c /\ j < size c
  | Y t p q i j =>
      t < MIP.ic_depth ic /\ In (p, q) (mip_gates ic t)
      /\ In (i, j) (MIP.arcs (MIP.ht ic))
  | X t q i j =>
      t < MIP.ic_depth ic - 1 /\ q < size c /\ i < size c
      /\ (j = i \/ In j (out_of (MIP.ht ic) i))
  | Zv t => t < MIP.ic_depth ic /\ mip_gates ic t = []
  end.

Lemma div_lt_pack k n m : k < n * m -> k / m < n /\ k mod m < m.
Proof.
  intros Hk. assert (Hm : m <> 0) by (intros ->; lia). split.
  - apply Nat.Div0.div_lt_upper_bound. lia.
  - apply Nat.mod_upper_bound. exact Hm.
Qed.

Lemma push0_binary :
  (forall v, mip_key v -> a v = 0%Z \/ a v = 1%Z) ->
  forall k, push0 ic a k = 0%Z \/ push0 ic a k = 1%Z.
Proof.
  intros Hbin k. unfold push0.
  rewrite (io_eu_start _ _ Hic), (io_wd_start _ _ Hic),
          (io_x_start _ _ Hic), (io_y_start _ _ Hic), (io_np _ _ Hic).
  set (n := size c) in *.
  set (Wd := length (MIP.arcs (MIP.ht ic)) + n) in *.
  destruct (Nat.ltb_spec k (MIP.num_w_vars ic)) as [Hw|Hw].
  { rewrite (io_num_w _ _ Hic) in Hw. fold n in Hw.
    replace (MIP.ic_depth ic * n * n) with (MIP.ic_depth ic * (n * n)) in Hw
      by lia.
    destruct (div_lt_pack k _ _ Hw) as [Ht Hm].
    assert (Hn : n <> 0) by (intros E; rewrite E in Hw; lia).
    apply Hbin. cbn. split; [exact Ht|]. split.
    - apply Nat.mod_upper_bound. exact Hn.
    - apply (div_lt_pack _ n n Hm). }
  destruct (Nat.ltb_spec k (MIP.num_w_vars ic + MIP.num_y_vars ic)) as [Hy|Hy].
  { destruct (nth_error (MIP.arcs (MIP.ht ic)) _) as [[i j]|] eqn:Ea;
      [|left; reflexivity].
    destruct (nth_error (gate_keys (MIP.gates (MIP.qc ic))) _)
      as [[[t p] q]|] eqn:Eg; [|left; reflexivity].
    apply nth_error_In in Ea, Eg. apply in_gate_keys in Eg.
    apply Hbin. cbn. rewrite (io_depth _ _ Hic). tauto. }
  destruct (Nat.ltb_spec k (MIP.num_w_vars ic + MIP.num_y_vars ic
                            + MIP.num_x_vars ic)) as [Hx|Hx].
  { destruct (x_decode (MIP.ht ic) n _) as [[i j]|] eqn:Ed;
      [|left; reflexivity].
    apply x_decode_inv in Ed. destruct Ed as [Hi Hpos].
    assert (Hk' : k - (MIP.num_w_vars ic + MIP.num_y_vars ic)
                  < (MIP.ic_depth ic - 1) * (n * Wd)).
    { rewrite (io_num_x _ _ Hic) in Hx. fold n Wd in Hx. lia. }
    destruct (div_lt_pack _ _ _ Hk') as [Ht Hm].
    destruct (div_lt_pack _ n Wd Hm) as [Hl _].
    apply Hbin. cbn. split; [exact Ht|]. split; [exact Hl|].
    split; [exact Hi|].
    destruct Hpos as [(_ & _ & Hn)|[_ ->]]; [right | left; reflexivity].
    apply nth_error_In in Hn. exact Hn. }
  destruct (Nat.ltb_spec k (MIP.num_w_vars ic + MIP.num_y_vars ic
                            + MIP.num_x_vars ic + MIP.ic_depth ic))
    as [Hd|Hd]; [|left; reflexivity].
  destruct (mip_gates ic _) eqn:Eg; cbn [is_empty]; [|right; reflexivity].
  apply Hbin. cbn. split; [lia | exact Eg].
Qed.

End Push.

(** ** The rows that define the [eu] variables *)

Lemma list_set_nth {A} (l : list A) i v l' d :
  MIP.list_set l i v = Ok l' ->
  i < length l /\ length l' = length l /\ nth i l' d = v
  /\ forall k, k <> i -> nth k l' d = nth k l d.
Proof.
  revert i l'. induction l as [|x l IH]; intros i l' H; [discriminate H|].
  destruct i as [|i]; cbn [MIP.list_set] in H.
  - injection H as <-. cbn. repeat split; try lia.
    intros k Hk. destruct k; [congruence | reflexivity].
  - bind_as H r Hr. injection H as <-.
    destruct (IH _ _ Hr) as (H1 & H2 & H3 & H4). cbn [length nth].
    repeat split; try lia; [exact H3|].
    intros k Hk. destruct k as [|k]; [reflexivity|]. apply H4. lia.
Qed.

Lemma fold_left_result_inv {S X} (step : result S -> X -> result S)
  (I : S -> Prop) (l : list X) :
  (forall e x, step (Raise e) x = Raise e) ->
  (forall s x s', In x l -> I s -> step (Ok s) x = Ok s' -> I s') ->
  forall r s, fold_left step l r = Ok s ->
              exists s0, r = Ok s0 /\ (I s0 -> I s).
Proof.
  intros Hraise. induction l as [|x l IH]; intros Hstep r s H.
  - simpl in H. exists s. split; [exact H | auto].
  - cbn [fold_left] in H.
    destruct (IH ltac:(intros s1 y s2 Hy; apply Hstep; right; exact Hy) _ _ H)
      as [s1 [Hs1 HI]].
    destruct r as [s0|e]; [|rewrite Hraise in Hs1; discriminate Hs1].
    exists s0. split; [reflexivity|]. intros H0. apply HI.
    apply (Hstep s0 x s1); [left; reflexivity | exact H0 | exact Hs1].
Qed.

Lemma fold_left_raise {S X} (step : result S -> X -> result S) l e :
  (forall e x, step (Raise e) x = Raise e) ->
  fold_left step l (Raise e) = Raise e.
Proof.
  intros H. induction l as [|x l IH]; [reflexivity|].
  cbn [fold_left]. rewrite H. exact IH.
Qed.

Lemma mapM_nth {A B} (f : A -> result B) l r k (da : A) (db : B) :
  mapM f l = Ok r -> k < length l ->
  length r = length l /\ f (nth k l da) = Ok (nth k r db).
Proof.
  intros H. apply mapM_Forall2 in H.
  split; [symmetry; exact (Forall2_length H)|].
  revert k H0.
  induction H as [|x y l r Hxy _ IH]; intros k Hk; [simpl in Hk; lia|].
  destruct k as [|k]; [exact Hxy|].
  apply IH. simpl in Hk. lia.
Qed.

Definition qubits_of (lay : list (nat * nat)) : list nat :=
  flat_map (fun g => [fst g; snd g]) lay.

Lemma qubits_of_app l1 l2 : qubits_of (l1 ++ l2) = qubits_of l1 ++ qubits_of l2.
Proof. unfold qubits_of. apply flat_map_app. Qed.

(** Where an entry of the representation of edge [e] at step [t] comes from:
    it stands for the logical qubit [l] sitting at the first end of [e] and
    crossing it. *)
Definition eu_src (ic : MIP._IndexCalculator) (L : list (nat * nat)) (t : nat)
  (e : nat * nat) (idx l : nat) : Prop :=
  (exists q, In (l, q) L /\ MIP.y_index ic t (l, q) (fst e, snd e) = Ok idx)
  \/ (exists p, In (p, l) L /\ MIP.y_index ic t (p, l) (snd e, fst e) = Ok idx)
  \/ (l < MIP.num_lqubits ic /\ ~ In l (qubits_of L)
      /\ MIP.x_index ic l (fst e) (snd e) t = Ok idx).

Lemma nth_map_nil {A B} (l : list A) k :
  nth k (map (fun _ : A => @nil B) l) [] = [].
Proof.
  revert k. induction l as [|x l IH]; intros [|k]; try reflexivity. apply IH.
Qed.

Lemma Forall2_in_r {A B} (R : A -> B -> Prop) l1 l2 y :
  Forall2 R l1 l2 -> In y l2 -> exists x, In x l1 /\ R x y.
Proof.
  induction 1 as [|a b l1 l2 Hab _ IH]; intros Hy; [destruct Hy|].
  destruct Hy as [<-|Hy]; [exists a; split; [left; reflexivity | exact Hab]|].
  destruct (IH Hy) as [x [Hx HR]]. exists x. split; [right; exact Hx | exact HR].
Qed.

Section EuRows.

Variable ic : MIP._IndexCalculator.

Let edges := MIP.edges (MIP.ht ic).

Lemma eu_gates_ok L t lay u r :
  incl lay L ->
  MIP.edge_representation_gates ic t lay = Ok (u, r) ->
  length u = MIP.num_lqubits ic
  /\ (forall q, In q (qubits_of lay) -> nth q u false = true)
  /\ length r = length edges
  /\ forall k, k < length edges ->
       Forall2 (eu_src ic L t (nth k edges (0, 0))) (nth k r []) (qubits_of lay).
Proof.
  revert u r. induction lay as [|g lay IH] using rev_ind; intros u r Hincl H.
  - cbn in H. injection H as <- <-. rewrite repeat_length, length_map.
    repeat split; try reflexivity.
    + intros q [].
    + intros k Hk. rewrite nth_map_nil. constructor.
  - unfold MIP.edge_representation_gates in H. rewrite fold_left_app in H.
    cbn [fold_left] in H.
    match type of H with
    | context [fold_left ?f lay ?i] =>
        change (fold_left f lay i) with (MIP.edge_representation_gates ic t lay) in H
    end.
    destruct (MIP.edge_representation_gates ic t lay) as [[u0 r0]|] eqn:E;
      [|discriminate H].
    destruct (IH u0 r0 ltac:(intros x Hx; apply Hincl, in_or_app; left; exact Hx)
                eq_refl) as (Hu & Hq & Hr & HF).
    cbn [bind fst snd] in H. destruct g as [p q].
    bind_as H u1 Hu1. bind_as H u2 Hu2. bind_as H reps Hreps.
    injection H as <- <-.
    destruct (list_set_nth _ _ _ _ false Hu1) as (_ & L1 & N1 & O1).
    destruct (list_set_nth _ _ _ _ false Hu2) as (_ & L2 & N2 & O2).
    assert (Hlen : length (combine r0 edges) = length edges)
      by (rewrite length_combine; fold edges in Hr; lia).
    fold edges in Hreps.
    repeat split.
    + lia.
    + intros x Hx. rewrite qubits_of_app in Hx. apply in_app_or in Hx.
      destruct (Nat.eq_dec x q) as [->|Nq]; [exact N2|].
      rewrite (O2 _ Nq).
      destruct (Nat.eq_dec x p) as [->|Np]; [exact N1|].
      rewrite (O1 _ Np). destruct Hx as [Hx|Hx]; [apply Hq; exact Hx|].
      cbn in Hx. intuition congruence.
    + apply mapM_Forall2 in Hreps. apply Forall2_length in Hreps.
      rewrite <- Hreps. exact Hlen.
    + intros k Hk.
      destruct (mapM_nth _ _ _ k ([], (0, 0)) [] Hreps ltac:(lia)) as [_ Hf].
      rewrite combine_nth in Hf by exact Hr. cbn [fst snd] in Hf.
      destruct (nth k edges (0, 0)) as [i j] eqn:Ee.
      bind_as Hf y1 Hy1. bind_as Hf y2 Hy2. injection Hf as Hf.
      rewrite <- Hf, qubits_of_app. apply Forall2_app.
      * specialize (HF k Hk). rewrite Ee in HF. exact HF.
      * cbn. constructor; [|constructor; [|constructor]].
        -- left. exists q. split; [apply Hincl, in_or_app; right; left; reflexivity|].
           exact Hy1.
        -- right. left. exists p.
           split; [apply Hincl, in_or_app; right; left; reflexivity|]. exact Hy2.
Qed.

Definition reps_ok (L : list (nat * nat)) (t : nat) (rs : list (list nat))
  : Prop :=
  length rs = length edges
  /\ forall k, k < length edges ->
       exists ls, Forall2 (eu_src ic L t (nth k edges (0, 0))) (nth k rs []) ls
                  /\ NoDup ls.

Lemma in_qubits_of L p q : In (p, q) L -> In p (qubits_of L) /\ In q (qubits_of L).
Proof.
  intros H. unfold qubits_of. split; apply in_flat_map; exists (p, q);
    (split; [exact H|]); cbn; auto.
Qed.

Lemma edge_index_nth c e index :
  topology_ok c (MIP.ht ic) ->
  MIP.edge_to_index (MIP.ht ic) e = Ok index ->
  index < length edges /\ nth index edges (0, 0) = e.
Proof.
  intros Hht H. unfold MIP.edge_to_index in H.
  rewrite (to_edge_index _ _ Hht) in H.
  apply (dict_get_numbered _ _ _ _ _ pair_eqb_eq) in H.
  destruct H as (_ & Hlt & Hn). rewrite Nat.sub_0_r in Hn.
  split; [exact Hlt | apply nth_error_nth; exact Hn].
Qed.

Lemma eu_moves_ok c L t used reps0 reps :
  topology_ok c (MIP.ht ic) ->
  (forall q, In q (qubits_of L) -> nth q used false = true) ->
  reps_ok L t reps0 ->
  MIP.edge_representation_moves ic t used reps0 = Ok reps ->
  reps_ok L t reps.
Proof.
  intros Hht Hused H0 H. unfold MIP.edge_representation_moves in H.
  match type of H with
  | fold_left ?step _ _ = _ =>
      destruct (fold_left_result_inv step (reps_ok L t) (MIP.edges (MIP.ht ic)))
        with (r := Ok reps0) (s := reps) as [s0 [E HI]]
  end; [| |exact H| injection E as <-; apply HI; exact H0].
  - intros e x. apply fold_left_raise. reflexivity.
  - intros s e s' He Hs Hfold.
    match type of Hfold with
    | fold_left ?step _ _ = _ =>
        destruct (fold_left_result_inv step (reps_ok L t)
                    (range (MIP.num_lqubits ic)))
          with (r := Ok s) (s := s') as [s1 [E HI]]
    end; [| |exact Hfold| injection E as <-; apply HI; exact Hs].
    + reflexivity.
    + clear Hfold Hs s s'. intros rs q rs' Hq Hrs Hstep.
      apply in_seq in Hq. cbn [bind] in Hstep.
      bind_as Hstep index Hindex. bind_as Hstep u Hu.
      apply (py_index_inv _ _ _ false) in Hu. destruct Hu as [_ ->].
      destruct (nth q used false) eqn:Eu.
      { injection Hstep as <-. exact Hrs. }
      bind_as Hstep xi Hxi. bind_as Hstep rep Hrep.
      apply (py_index_inv _ _ _ []) in Hrep. destruct Hrep as [Hil ->].
      destruct (existsb (Nat.eqb xi) (nth index rs [])) eqn:Eex.
      { injection Hstep as <-. exact Hrs. }
      destruct (edge_index_nth _ _ _ Hht Hindex) as [Hlt Hnth].
      destruct Hrs as [Hlen Hall].
      destruct (list_set_nth _ _ _ _ [] Hstep) as (_ & L1 & N1 & O1).
      split; [lia|]. intros k Hk.
      destruct (Nat.eq_dec k index) as [->|Nk]; [|rewrite (O1 _ Nk); apply Hall, Hk].
      rewrite N1. destruct (Hall index Hk) as [ls [HF Hnd]].
      assert (Hnq : ~ In q (qubits_of L))
        by (intros Hin; apply Hused in Hin; congruence).
      exists (ls ++ [q]). split.
      * apply Forall2_app; [exact HF|]. constructor; [|constructor].
        right. right. fold edges in Hnth. rewrite Hnth.
        split; [lia|]. split; [exact Hnq | exact Hxi].
      * apply NoDup_app; [exact Hnd | repeat constructor; intros [] |].
        intros x Hx [<-|[]].
        apply (Forall2_in_r _ _ _ _ HF) in Hx. fold edges in Hnth.
        rewrite Hnth in Hx. destruct Hx as [idx [Hidx Hsrc]].
        destruct Hsrc as [[q' [Hin _]]|[[p' [Hin _]]|(_ & _ & Hx)]].
        -- apply Hnq. apply (in_qubits_of _ _ _ Hin).
        -- apply Hnq. apply (in_qubits_of _ _ _ Hin).
        -- assert (idx = xi) by congruence. subst idx.
           assert (existsb (Nat.eqb xi) (nth index rs []) = true)
             by (apply existsb_exists; exists xi; split;
                 [exact Hidx | apply Nat.eqb_refl]).
           congruence.
Qed.

End EuRows.

Lemma mapM_In_ok {A B} (f : A -> result B) l r a :
  mapM f l = Ok r -> In a l -> exists b, f a = Ok b.
Proof.
  intros H. apply mapM_Forall2 in H.
  induction H as [|x y l r Hxy _ IH]; intros Ha; [destruct Ha|].
  destruct Ha as [<-|Ha]; [exists y; exact Hxy | apply IH; exact Ha].
Qed.

Lemma flat_mapM_In_ok {A B} (f : A -> result (list B)) l r a :
  flat_mapM f l = Ok r -> In a l -> exists b, f a = Ok b.
Proof.
  intros H. unfold flat_mapM in H. bind_inv H. revert Hstep. apply mapM_In_ok.
Qed.

(** The representation lists of step [t], as the three phases of lines
    374-386 leave them. *)
Definition eu_reps_at (ic : MIP._IndexCalculator) (t : nat)
  : result (list (list nat)) :=
  lay <- MIP.gates_at ic t ;;
  st <- MIP.edge_representation_gates ic t lay ;;
  MIP.edge_representation_moves ic t (fst st) (snd st).

Definition eu_reps (ic : MIP._IndexCalculator) (t : nat) : list (list nat) :=
  match eu_reps_at ic t with
  | Ok reps => reps
  | Raise _ => []
  end.

Definition eui (ic : MIP._IndexCalculator) (t k : nat) : nat :=
  MIP.eu_start ic + t * MIP.num_edges (MIP.ht ic) + k.

Definition pure_eu (ic : MIP._IndexCalculator) : list MIP.LinearConstraint :=
  flat_map
    (fun t =>
       map
         (fun ke : nat * (nat * nat) =>
            mk_row (nth (fst ke) (eu_reps ic t) [] ++ [eui ic t (fst ke)])
                   (MIP.ones (nth (fst ke) (eu_reps ic t) []) ++ [(-1)%Z]) EQ 0
                   (MIP.eu_def t (fst (snd ke)) (snd (snd ke))))
         (enumerate (MIP.edges (MIP.ht ic))))
    (range (MIP.ic_depth ic - 1)).

Lemma eu_reps_at_ok c ic t reps :
  topology_ok c (MIP.ht ic) ->
  NoDup (qubits_of (mip_gates ic t)) ->
  eu_reps_at ic t = Ok reps ->
  reps_ok ic (mip_gates ic t) t reps.
Proof.
  intros Hht Hnd H. unfold eu_reps_at in H.
  bind_as H lay Hlay. apply mip_gates_at in Hlay. destruct Hlay as [_ ->].
  bind_as H st Hst. destruct st as [u r0].
  destruct (eu_gates_ok ic _ t _ _ _ (incl_refl _) Hst) as (Hu & Hq & Hr & HF).
  cbn [fst snd] in H. revert H. apply (eu_moves_ok ic c); [exact Hht | exact Hq |].
  split; [exact Hr|]. intros k Hk. exists (qubits_of (mip_gates ic t)).
  split; [apply HF; exact Hk | exact Hnd].
Qed.

Lemma rows_eu_def_ok c ic r :
  topology_ok c (MIP.ht ic) ->
  MIP.rows_eu_def ic = Ok r ->
  r = pure_eu ic
  /\ forall t, t < MIP.ic_depth ic - 1 ->
               exists reps, eu_reps_at ic t = Ok reps.
Proof.
  intros Hht H. split.
  - revert H. unfold MIP.rows_eu_def, pure_eu. apply flat_mapM_pure.
    intros t b _ H.
    assert (E : exists reps, eu_reps_at ic t = Ok reps
                  /\ mapM
                       (fun ke : nat * (nat * nat) =>
                          rep <- py_index reps (Z.of_nat (fst ke)) ;;
                          eu <- MIP.eu_index ic t (snd ke) ;;
                          rep' <- py_index reps (Z.of_nat (fst ke)) ;;
                          MIP.row (rep ++ [eu]) (MIP.ones rep' ++ [(-1)%Z]) EQ 0
                            (MIP.eu_def t (fst (snd ke)) (snd (snd ke))))
                       (enumerate (MIP.edges (MIP.ht ic))) = Ok b).
    { unfold eu_reps_at. bind_as H lay Hlay. bind_as H st Hst.
      bind_as H reps Hreps. exists reps.
      rewrite Hlay; cbn [bind]; rewrite Hst; cbn [bind].
      split; [exact Hreps | exact H]. }
    destruct E as [reps [Er Hm]]. unfold eu_reps. rewrite Er.
    revert Hm. apply mapM_pure. intros [k e] row Hin Hrow.
    cbn [fst snd] in *. apply in_enumerate in Hin.
    bind_as Hrow rep Hrep. apply (py_index_inv _ _ _ []) in Hrep.
    destruct Hrep as [_ ->]. bind_as Hrow eu Heu. bind_as Hrow rep' Hrep'.
    apply (py_index_inv _ _ _ []) in Hrep'. destruct Hrep' as [_ ->].
    apply row_ok in Hrow. destruct Hrow as [-> _].
    unfold MIP.eu_index in Heu. bind_as Heu k' Hk'. injection Heu as <-.
    destruct (edge_index_nth ic _ _ _ Hht Hk') as [Hlt Hnth].
    assert (k' = k).
    { pose proof (to_edges_nodup _ _ Hht) as Hnd.
      rewrite NoDup_nth_error in Hnd. apply Hnd; [exact Hlt|].
      rewrite Hin. apply nth_error_nth' with (d := (0, 0)) in Hlt.
      rewrite Hlt, Hnth. reflexivity. }
    subst k'. reflexivity.
  - intros t Ht.
    destruct (flat_mapM_In_ok _ _ _ t H) as [b Hb]; [apply in_seq; lia|].
    unfold eu_reps_at. bind_as Hb lay Hlay. bind_as Hb st Hst.
    bind_as Hb reps Hreps. exists reps.
    rewrite Hlay; cbn [bind]; rewrite Hst; cbn [bind]. exact Hreps.
Qed.

(** ** An assignment of the DOcplex model written into the flat model *)

(** The variables of the DOcplex model keep their values, taken at the
    positions the index calculator gives them; a step with gates has its
    [wd] variable at [1]; an [eu] variable is the sum its defining row asks
    for. *)
Definition push (ic : MIP._IndexCalculator) (a : Var -> Z) (k : nat) : Z :=
  let ne := MIP.num_edges (MIP.ht ic) in
  if k <? MIP.eu_start ic then push0 ic a k
  else if k <? MIP.eu_start ic + ne * (MIP.ic_depth ic - 1) then
    sum_Z (map (push0 ic a)
               (nth ((k - MIP.eu_start ic) mod ne)
                    (eu_reps ic ((k - MIP.eu_start ic) / ne)) []))
  else 0%Z.

Lemma push_below ic a k : k < MIP.eu_start ic -> push ic a k = push0 ic a k.
Proof.
  intros H. unfold push. apply Nat.ltb_lt in H. rewrite H. reflexivity.
Qed.

Lemma key_index_lt c ic v k :
  ic_ok c ic -> in_model (size c) (MIP.ic_depth ic) v ->
  var_index ic v = Ok k -> k < MIP.eu_start ic.
Proof.
  intros Hic Hin Hk.
  destruct (var_index_bound c ic v k Hic Hin Hk) as [_ H].
  pose proof (io_y_start _ _ Hic). pose proof (io_x_start _ _ Hic).
  pose proof (io_wd_start _ _ Hic). pose proof (io_eu_start _ _ Hic).
  destruct v; lia.
Qed.

Lemma mip_key_in_model c ic v :
  mip_key c ic v -> in_model (size c) (MIP.ic_depth ic) v.
Proof. destruct v; cbn [mip_key in_model]; tauto. Qed.

Lemma pull_push c ic a v :
  ic_ok c ic -> mip_key c ic v -> pull ic (push ic a) v = a v.
Proof.
  intros Hic Hk. pose proof (mip_key_in_model c ic v Hk) as Hin.
  assert (E : exists k, var_index ic v = Ok k).
  { destruct v as [t q j|t p q i j|t q i j|t]; cbn [var_index mip_key] in *.
    - eexists; reflexivity.
    - destruct Hk as (Ht & Hg & Ha).
      apply (y_index_total c ic Hic); assumption.
    - destruct Hk as (Ht & Hq & Hi & Hj).
      apply (x_index_total c ic Hic); assumption.
    - eexists; reflexivity. }
  destruct E as [k Ek]. unfold pull. rewrite Ek.
  rewrite push_below by exact (key_index_lt c ic v k Hic Hin Ek).
  destruct v as [t q j|t p q i j|t q i j|t]; cbn [var_index mip_key] in *.
  - injection Ek as <-. apply (push0_w c ic Hic); tauto.
  - apply (push0_y c ic Hic). exact Ek.
  - apply (push0_x c ic Hic); [exact Ek | tauto | tauto].
  - injection Ek as <-. rewrite (push0_wd c ic Hic) by tauto.
    destruct Hk as [_ ->]. reflexivity.
Qed.

Lemma list_remove_incl x l r : list_remove x l = Ok r -> incl r l.
Proof.
  revert r. induction l as [|y l IH]; intros r H; [discriminate H|].
  cbn [list_remove] in H. destruct (x =? y).
  - injection H as <-. intros z Hz. right. exact Hz.
  - bind_as H r' Hr'. injection H as <-. intros z [<-|Hz];
      [left; reflexivity | right; apply (IH _ Hr'); exact Hz].
Qed.

Lemma q_no_gate_incl lay acc r : MIP.q_no_gate lay acc = Ok r -> incl r acc.
Proof.
  revert acc. induction lay as [|[p q] lay IH]; intros acc H.
  - injection H as <-. apply incl_refl.
  - cbn [MIP.q_no_gate] in H. bind_as H acc1 H1. bind_as H acc2 H2.
    intros z Hz. apply (list_remove_incl _ _ _ H1), (list_remove_incl _ _ _ H2).
    apply (IH _ H). exact Hz.
Qed.

Lemma mip_free_range ic t q :
  In q (mip_free ic t) -> q < MIP.num_lqubits ic.
Proof.
  unfold mip_free.
  destruct (MIP.q_no_gate (mip_gates ic t) (range (MIP.num_lqubits ic)))
    as [l|e] eqn:E; [|intros []].
  intros H. apply (q_no_gate_incl _ _ _ E) in H. apply in_range in H. exact H.
Qed.

Lemma sum_Z_ext {A} (f g : A -> Z) l :
  (forall x, In x l -> f x = g x) -> sum_Z (map f l) = sum_Z (map g l).
Proof. intros H. f_equal. apply map_ext_in. exact H. Qed.

Ltac key_tac :=
  cbn [mip_key];
  repeat match goal with |- _ /\ _ => split end;
  first [assumption | lia | left; reflexivity | right; assumption].

(** The routing conditions only read the variables of the model. *)
Lemma routing_ext c ic a a' :
  coupling_ok c -> ic_ok c ic ->
  (forall t p q, In (p, q) (mip_gates ic t) -> p < size c /\ q < size c) ->
  (0 < MIP.ic_depth ic -> mip_gates ic (MIP.ic_depth ic - 1) <> []) ->
  (forall v, mip_key c ic v -> a' v = a v) ->
  routing (size c) (MIP.ic_depth ic) (mip_gates ic)
    (MIP.arcs (MIP.ht ic)) (out_of (MIP.ht ic)) (inn_of (MIP.ht ic))
    (mip_free ic) a ->
  routing (size c) (MIP.ic_depth ic) (mip_gates ic)
    (MIP.arcs (MIP.ht ic)) (out_of (MIP.ht ic)) (inn_of (MIP.ht ic))
    (mip_free ic) a'.
Proof.
  intros Hc Hic Hrange Hlast Hext [A1 A2 G U1 U2 Fo Fi S SF Dn P].
  constructor.
  - intros t q Ht Hq. rewrite <- (A1 t q Ht Hq). apply sum_Z_ext.
    intros j Hj. apply in_range in Hj. apply Hext. key_tac.
  - intros t j Ht Hj. rewrite <- (A2 t j Ht Hj). apply sum_Z_ext.
    intros q Hq. apply in_range in Hq. apply Hext. key_tac.
  - intros t p q Ht Hg. rewrite <- (G t p q Ht Hg). apply sum_Z_ext.
    intros [i j] Ha. apply Hext. cbn [fst snd]. key_tac.
  - intros t p q i j Ht Hg Ha.
    destruct (Hrange _ _ _ Hg) as [Hp Hq].
    destruct (arc_ends c ic Hc Hic i j Ha) as (Hi & Hj & Ho & _ & Ha').
    destruct (arc_ends c ic Hc Hic j i Ha') as (_ & _ & Ho' & _).
    rewrite (Hext (Y t p q i j)), (Hext (X t p i i)), (Hext (X t p i j)),
            (Hext (X t q j i)), (Hext (X t q j j)) by key_tac.
    apply U1; assumption.
  - intros p q i j Hd Hg Ha.
    destruct (Hrange _ _ _ Hg) as [Hp Hq].
    destruct (arc_ends c ic Hc Hic i j Ha) as (Hi & Hj & _).
    rewrite (Hext (Y _ p q i j)), (Hext (W _ p i)), (Hext (W _ q j))
      by key_tac.
    apply U2; assumption.
  - intros t q i Ht Hq Hi.
    rewrite (Hext (W t q i)), (Hext (X t q i i)) by key_tac.
    rewrite (Fo t q i Ht Hq Hi). f_equal. apply sum_Z_ext.
    intros j Hj. symmetry. apply Hext. key_tac.
  - intros t q i H0 Ht Hq Hi.
    rewrite (Hext (W t q i)), (Hext (X (t - 1) q i i)) by key_tac.
    rewrite (Fi t q i H0 Ht Hq Hi). f_equal. apply sum_Z_ext.
    intros j Hj. apply (inn_arc c ic Hic) in Hj; [|exact Hi].
    destruct (arc_ends c ic Hc Hic j i Hj) as (Hj' & _ & Ho & _).
    symmetry. apply Hext. key_tac.
  - intros t p q i j Ht Hg Ha.
    destruct (Hrange _ _ _ Hg) as [Hp Hq].
    destruct (arc_ends c ic Hc Hic i j Ha) as (Hi & Hj & Ho & _ & Ha').
    destruct (arc_ends c ic Hc Hic j i Ha') as (_ & _ & Ho' & _).
    rewrite (Hext (X t p i j)), (Hext (X t q j i)) by key_tac.
    apply S; assumption.
  - intros t i j Ht Ha.
    destruct (arc_ends c ic Hc Hic i j Ha) as (Hi & Hj & Ho & _ & Ha').
    destruct (arc_ends c ic Hc Hic j i Ha') as (_ & _ & Ho' & _).
    rewrite (sum_Z_ext (fun q => a' (X t q i j)) (fun q => a (X t q i j))),
            (sum_Z_ext (fun q => a' (X t q j i)) (fun q => a (X t q j i))).
    + apply SF; assumption.
    + intros q Hq. apply mip_free_range in Hq.
      rewrite (io_nl _ _ Hic) in Hq. apply Hext. key_tac.
    + intros q Hq. apply mip_free_range in Hq.
      rewrite (io_nl _ _ Hic) in Hq. apply Hext. key_tac.
  - intros t q Ht Hg Hq.
    assert (Ht' : t < MIP.ic_depth ic - 1).
    { destruct (Nat.eq_dec t (MIP.ic_depth ic - 1)) as [->|]; [|lia].
      exfalso. apply Hlast; [lia | exact Hg]. }
    rewrite (Hext (Zv t)) by key_tac.
    rewrite <- (Dn t q Ht Hg Hq).
    apply Z.eq_le_incl. apply sum_Z_ext. intros [i j] Ha.
    destruct (arc_ends c ic Hc Hic i j Ha) as (Hi & Hj & Ho & _).
    cbn [fst snd]. apply Hext. key_tac.
  - intros t Ht Hg Hg'.
    rewrite (Hext (Zv t)), (Hext (Zv (t + 1))) by key_tac.
    apply P; assumption.
Qed.

(** ** The [eu] variables of a pushed assignment *)

Lemma sum_Z_cons x l : sum_Z (x :: l) = (x + sum_Z l)%Z.
Proof. reflexivity. Qed.

Lemma sum_sub_le {A} (w : A -> Z) l l' :
  NoDup l -> incl l l' -> (forall x, In x l' -> (0 <= w x)%Z) ->
  (sum_Z (map w l) <= sum_Z (map w l'))%Z.
Proof.
  revert l'. induction l as [|x l IH]; intros l' Hnd Hincl Hpos.
  - simpl. apply sum_nonneg. exact Hpos.
  - inversion Hnd as [|? ? Hx Hnd']; subst.
    destruct (in_split x l' (Hincl x ltac:(left; reflexivity)))
      as (l1 & l2 & ->).
    rewrite map_app, sum_Z_app. cbn [map]. rewrite !sum_Z_cons.
    assert (H : (sum_Z (map w l) <= sum_Z (map w (l1 ++ l2)))%Z).
    { apply IH; [exact Hnd' | |].
      - intros y Hy. pose proof (Hincl y ltac:(right; exact Hy)) as H.
        apply in_app_or in H. apply in_or_app.
        destruct H as [H|[<-|H]]; [left; exact H | contradiction | right; exact H].
      - intros y Hy. apply Hpos. apply in_app_or in Hy. apply in_or_app.
        destruct Hy as [Hy|Hy]; [left; exact Hy | right; right; exact Hy]. }
    rewrite map_app, sum_Z_app in H. lia.
Qed.

Lemma sum_Forall2_le {A B} (g : A -> Z) (w : B -> Z) l1 l2 :
  Forall2 (fun x y => (0 <= g x <= w y)%Z) l1 l2 ->
  (0 <= sum_Z (map g l1) <= sum_Z (map w l2))%Z.
Proof.
  induction 1 as [|x y l1 l2 Hxy _ IH]; [simpl; lia|].
  cbn [map]. rewrite !sum_Z_cons. lia.
Qed.

Section EuSum.

Variable c : CouplingMap.
Variable ic : MIP._IndexCalculator.
Hypothesis Hc : coupling_ok c.
Hypothesis Hic : ic_ok c ic.
Variable a : Var -> Z.
Hypothesis Hbin : forall v, mip_key c ic v -> a v = 0%Z \/ a v = 1%Z.
Hypothesis Hrange :
  forall t p q, In (p, q) (mip_gates ic t) -> p < size c /\ q < size c.
Hypothesis R :
  routing (size c) (MIP.ic_depth ic) (mip_gates ic)
    (MIP.arcs (MIP.ht ic)) (out_of (MIP.ht ic)) (inn_of (MIP.ht ic))
    (mip_free ic) a.

Lemma move_le_place t l i j :
  t < MIP.ic_depth ic - 1 -> l < size c -> In (i, j) (MIP.arcs (MIP.ht ic)) ->
  (0 <= a (X t l i j))%Z
  /\ (a (X t l i i) + a (X t l i j) <= a (W t l i))%Z.
Proof.
  intros Ht Hl Ha.
  destruct (arc_ends c ic Hc Hic i j Ha) as (Hi & Hj & Ho & _).
  assert (Hx : forall j', j' = i \/ In j' (out_of (MIP.ht ic) i) ->
                          (0 <= a (X t l i j'))%Z).
  { intros j' Hj'. destruct (Hbin (X t l i j')) as [E|E]; [|lia|lia].
    cbn [mip_key]. auto. }
  split; [apply Hx; right; exact Ho|].
  rewrite (r_flow_out _ _ _ _ _ _ _ _ R t l i Ht Hl Hi).
  pose proof (sum_ge_term (fun j0 => a (X t l i j0)) (out_of (MIP.ht ic) i) j
                ltac:(intros x Hx0; apply Hx; right; exact Hx0) Ho) as S1.
  cbv beta in S1. lia.
Qed.

Lemma src_bound t i j idx l :
  t < MIP.ic_depth ic - 1 -> In (i, j) (MIP.arcs (MIP.ht ic)) ->
  eu_src ic (mip_gates ic t) t (i, j) idx l ->
  l < size c
  /\ idx < MIP.eu_start ic
  /\ (0 <= push0 ic a idx <= a (W t l i))%Z.
Proof.
  intros Ht Ha Hsrc.
  destruct (arc_ends c ic Hc Hic i j Ha) as (Hi & Hj & Ho & _ & Ha').
  unfold eu_src in Hsrc. cbn [fst snd] in Hsrc.
  destruct Hsrc as [[q [Hg Hy]]|[[p [Hg Hy]]|(Hl & _ & Hx)]].
  - destruct (Hrange _ _ _ Hg) as [Hl Hq]. split; [exact Hl|].
    split; [apply (key_index_lt c ic (Y t l q i j)); [exact Hic | cbn; lia | exact Hy]|].
    rewrite (push0_y c ic Hic a _ _ _ _ _ _ Hy).
    destruct (r_ub_strong _ _ _ _ _ _ _ _ R t l q i j Ht Hg Ha) as [U _].
    destruct (move_le_place t l i j Ht Hl Ha) as [_ M].
    destruct (Hbin (W t l i)) as [Ew|Ew]; [key_tac | |];
      (destruct (Hbin (Y t l q i j)) as [E|E]; [key_tac | lia | lia]).
  - destruct (Hrange _ _ _ Hg) as [Hp Hl]. split; [exact Hl|].
    split; [apply (key_index_lt c ic (Y t p l j i)); [exact Hic | cbn; lia | exact Hy]|].
    rewrite (push0_y c ic Hic a _ _ _ _ _ _ Hy).
    destruct (r_ub_strong _ _ _ _ _ _ _ _ R t p l j i Ht Hg Ha') as [_ U].
    destruct (move_le_place t l i j Ht Hl Ha) as [_ M].
    destruct (Hbin (W t l i)) as [Ew|Ew]; [key_tac | |];
      (destruct (Hbin (Y t p l j i)) as [E|E]; [key_tac | lia | lia]).
  - rewrite (io_nl _ _ Hic) in Hl. split; [exact Hl|].
    split; [apply (key_index_lt c ic (X t l i j)); [exact Hic | cbn; lia | exact Hx]|].
    rewrite (push0_x c ic Hic a _ _ _ _ _ Hx Ht Hl).
    destruct (move_le_place t l i j Ht Hl Ha) as [P M].
    destruct (Hbin (X t l i i)) as [E|E]; [key_tac | lia | lia].
Qed.

Hypothesis Hreps :
  forall t, t < MIP.ic_depth ic - 1 ->
            reps_ok ic (mip_gates ic t) t (eu_reps ic t).

Lemma rep_sum t k :
  t < MIP.ic_depth ic - 1 -> k < MIP.num_edges (MIP.ht ic) ->
  Forall (fun idx => idx < MIP.eu_start ic) (nth k (eu_reps ic t) [])
  /\ (sum_Z (map (push0 ic a) (nth k (eu_reps ic t) [])) = 0%Z
      \/ sum_Z (map (push0 ic a) (nth k (eu_reps ic t) [])) = 1%Z).
Proof.
  intros Ht Hk. pose proof (io_ht _ _ Hic) as Hto.
  rewrite (to_num_edges _ _ Hto) in Hk.
  destruct (Hreps t Ht) as [_ Hall]. destruct (Hall k Hk) as [ls [HF Hnd]].
  destruct (nth k (MIP.edges (MIP.ht ic)) (0, 0)) as [i j] eqn:Ee.
  assert (Ha : In (i, j) (MIP.arcs (MIP.ht ic))).
  { apply (to_edges _ _ Hto). rewrite <- Ee. apply nth_In. exact Hk. }
  destruct (arc_ends c ic Hc Hic i j Ha) as (Hi & _).
  assert (HF' : Forall2 (fun idx l => l < size c /\ idx < MIP.eu_start ic
                           /\ (0 <= push0 ic a idx <= a (W t l i))%Z)
                        (nth k (eu_reps ic t) []) ls).
  { revert HF. apply Forall2_impl. intros idx l. apply src_bound; assumption. }
  clear HF. split.
  - induction HF' as [|x y l1 l2 Hxy _ IH]; constructor; [tauto|].
    apply IH. inversion Hnd; assumption.
  - assert (Hle : (0 <= sum_Z (map (push0 ic a) (nth k (eu_reps ic t) []))
                   <= sum_Z (map (fun l => a (W t l i)) ls))%Z).
    { apply sum_Forall2_le. revert HF'. apply Forall2_impl. tauto. }
    assert (Hincl : incl ls (range (size c))).
    { clear Hle Hnd. intros l Hl. apply (Forall2_in_r _ _ _ _ HF') in Hl.
      destruct Hl as [x [_ [Hl _]]]. apply in_range. exact Hl. }
    pose proof (sum_sub_le (fun l => a (W t l i)) ls (range (size c)) Hnd Hincl)
      as Hsub.
    pose proof (r_assign_p _ _ _ _ _ _ _ _ R t i ltac:(lia) Hi) as Hone.
    assert (Hpos : forall x, In x (range (size c)) -> (0 <= a (W t x i))%Z).
    { intros x Hx. apply in_range in Hx.
      destruct (Hbin (W t x i)) as [E|E]; [key_tac | lia | lia]. }
    specialize (Hsub Hpos). lia.
Qed.

Lemma push_eu t k :
  t < MIP.ic_depth ic - 1 -> k < MIP.num_edges (MIP.ht ic) ->
  push ic a (eui ic t k)
  = sum_Z (map (push0 ic a) (nth k (eu_reps ic t) [])).
Proof.
  intros Ht Hk. unfold push, eui.
  destruct (Nat.ltb_spec (MIP.eu_start ic + t * MIP.num_edges (MIP.ht ic) + k)
              (MIP.eu_start ic)) as [H|_]; [lia|].
  destruct (Nat.ltb_spec (MIP.eu_start ic + t * MIP.num_edges (MIP.ht ic) + k)
              (MIP.eu_start ic
               + MIP.num_edges (MIP.ht ic) * (MIP.ic_depth ic - 1)))
    as [_|H]; [|nia].
  replace (MIP.eu_start ic + t * MIP.num_edges (MIP.ht ic) + k
           - MIP.eu_start ic)
    with (t * MIP.num_edges (MIP.ht ic) + k) by lia.
  destruct (pack_div t k _ Hk) as [-> ->]. reflexivity.
Qed.

Lemma push_eu_rows : Forall (MIP.row_sat (push ic a)) (pure_eu ic).
Proof.
  unfold pure_eu. forall_in t Ht. apply in_range in Ht.
  forall_map_in ke Hke. destruct ke as [k e]. apply in_enumerate in Hke.
  cbn [fst snd].
  assert (Hk : k < MIP.num_edges (MIP.ht ic)).
  { rewrite (to_num_edges _ _ (io_ht _ _ Hic)). apply nth_error_Some.
    rewrite Hke. discriminate. }
  destruct (rep_sum t k Ht Hk) as [Hlt _].
  apply row_sat_mk. rewrite dot_app by (unfold MIP.ones; rewrite length_map;
                                         reflexivity).
  rewrite dot_ones by reflexivity. rewrite dot_cons, dot_nil.
  rewrite (push_eu t k Ht Hk).
  rewrite (sum_Z_ext (push ic a) (push0 ic a)); [lia|].
  intros idx Hidx. apply push_below.
  rewrite Forall_forall in Hlt. apply Hlt. exact Hidx.
Qed.

Lemma push_binary k : push ic a k = 0%Z \/ push ic a k = 1%Z.
Proof.
  unfold push.
  destruct (Nat.ltb_spec k (MIP.eu_start ic)) as [H|H];
    [apply (push0_binary c ic Hic a Hbin)|].
  destruct (Nat.ltb_spec k (MIP.eu_start ic
                            + MIP.num_edges (MIP.ht ic) * (MIP.ic_depth ic - 1)))
    as [H'|H']; [|left; reflexivity].
  destruct (div_lt_pack (k - MIP.eu_start ic) (MIP.ic_depth ic - 1)
              (MIP.num_edges (MIP.ht ic)) ltac:(lia)) as [Ht Hk].
  exact (proj2 (rep_sum _ _ Ht Hk)).
Qed.

End EuSum.

(** ** From the DOcplex model to the flat model *)

Lemma bip_last_step dag c subset D ns m :
  BIP.init dag c subset D ns = Ok m ->
  0 < BIP.depth m -> bip_gates m (BIP.depth m - 1) <> [].
Proof.
  intros Hm Hd. destruct (init_fields _ _ _ _ _ _ Hm) as (Hsu & Hg & _).
  assert (Hl : layered_schedule (map BIP.laygates_of (real_layers dag)) D
                 (BIP.gates m)).
  { rewrite Hg, Hsu. apply with_dummy_steps_layered.
    apply map_nonempty; [apply laygates_of_empty | apply real_layers_nonempty]. }
  destruct Hl as (Hlen & _ & _ & Hlast). unfold BIP.depth in *.
  assert (H1 : 1 <= length (map BIP.laygates_of (real_layers dag))).
  { destruct (map BIP.laygates_of (real_layers dag)); [|simpl; lia].
    simpl in Hlen. lia. }
  destruct (Hlast H1) as [_ Hne]. unfold bip_gates.
  destruct (nth (length (BIP.gates m) - 1) (BIP.gates m) []);
    [discriminate Hne | discriminate].
Qed.

Lemma qubits_of_pairs lay :
  qubits_of (map pair_of lay)
  = flat_map (fun nd => [qarg0 nd; qarg1 nd]) lay.
Proof.
  induction lay as [|nd lay IH]; [reflexivity|].
  cbn [map qubits_of flat_map]. f_equal. f_equal. exact IH.
Qed.

Lemma bip_gates_nodup dag c subset D ns m t :
  dag_ok dag ->
  BIP.init dag c subset D ns = Ok m ->
  NoDup (qubits_of (bip_gates m t)).
Proof.
  intros Hd Hm.
  destruct (bip_gates_layer dag c subset D ns m t Hm) as [E|[lay [Hl E]]];
    rewrite E; [constructor|].
  rewrite qubits_of_pairs. exact (proj1 (Hd lay Hl)).
Qed.

Section BipToMip.

Variables (np_log : Q -> Q) (gf mgf : nat -> list Q)
          (npeml : list Q -> result Q) (mip_log math_log : Q -> Q).
Variables (dag : DAGCircuit) (c : CouplingMap) (subset : list nat)
          (D : nat) (ns : Z).
Variables (m : BIP.BIPMappingModel) (b : BIP.Built) (obj : string)
          (bp : option (nat -> nat -> Q)) (weight : Q) (rate : option Q).
Variables (mm : MIP.MIPMappingModel) (p : MIP.Cplex)
          (ic : MIP._IndexCalculator) (mobj : string) (ls cs : bool).
Hypothesis Hc : coupling_ok c.
Hypothesis Hdag : dag_ok dag.
Hypothesis Hm : BIP.init dag c subset D ns = Ok m.
Hypothesis Hb :
  BIP.create_cpx_problem np_log gf mgf npeml m obj bp weight rate None = Ok b.
Hypothesis Hmm : MIP.init dag c D = Ok mm.
Hypothesis Hp :
  MIP.create_cpx_problem mip_log math_log mm mobj ls cs = Ok (p, ic).

Lemma push_ic_ok : ic_ok c ic.
Proof.
  exact (same_ic_ok dag c D mm ic Hc Hmm (built_ic _ _ _ _ _ _ _ _ Hp)).
Qed.

Lemma push_same_gates t : bip_gates m t = mip_gates ic t.
Proof.
  exact (same_gates dag c subset D ns m mm ic Hm Hmm
           (built_ic _ _ _ _ _ _ _ _ Hp) t).
Qed.

Lemma push_same_sizes :
  BIP.num_vqubits m = size c /\ BIP.num_pqubits m = size c
  /\ BIP._arcs m = get_edges c /\ BIP._coupling m = c
  /\ BIP.depth m = MIP.ic_depth ic /\ MIP.num_lqubits ic = size c.
Proof.
  exact (same_sizes dag c subset D ns m mm ic Hc Hm Hmm
           (built_ic _ _ _ _ _ _ _ _ Hp)).
Qed.

Lemma mip_gates_range t p0 q :
  In (p0, q) (mip_gates ic t) -> p0 < size c /\ q < size c.
Proof.
  intros Hg. rewrite <- push_same_gates in Hg.
  destruct push_same_sizes as (Hnv & _).
  pose proof (bip_gates_range dag c subset D ns m t p0 q Hdag Hm Hg) as H.
  rewrite Hnv in H. exact H.
Qed.

Lemma mip_last_step :
  0 < MIP.ic_depth ic -> mip_gates ic (MIP.ic_depth ic - 1) <> [].
Proof.
  destruct push_same_sizes as (_ & _ & _ & _ & Hd & _).
  rewrite <- Hd, <- push_same_gates.
  apply (bip_last_step dag c subset D ns m Hm).
Qed.

Lemma mip_key_iff v : mip_key c ic v <-> is_key m v.
Proof.
  destruct push_same_sizes as (Hnv & Hnp & Harcs & Hcoup & Hd & _).
  pose proof (io_ht _ _ push_ic_ok) as Hto.
  destruct v as [t q j|t p0 q i j|t q i j|t]; cbn [mip_key is_key];
    rewrite ?Hnv, ?Hnp, ?Hd, ?Harcs, ?Hcoup, ?push_same_gates.
  - reflexivity.
  - rewrite (to_arcs _ _ Hto). reflexivity.
  - split; intros (Ht & Hq & Hi & Hj); (split; [exact Ht|]);
      (split; [exact Hq|]); (split; [exact Hi|]);
      (destruct Hj as [Hj|Hj]; [left; exact Hj|right]).
    + apply (to_out _ _ Hto i j Hi), (to_arcs _ _ Hto) in Hj.
      apply (co_edges _ Hc) in Hj. tauto.
    + apply (to_out _ _ Hto i j Hi), (to_arcs _ _ Hto), (co_edges _ Hc). tauto.
  - reflexivity.
Qed.

Lemma eu_reps_good t :
  t < MIP.ic_depth ic - 1 -> reps_ok ic (mip_gates ic t) t (eu_reps ic t).
Proof.
  intros Ht. pose proof (io_ht _ _ push_ic_ok) as Hto.
  destruct (mip_problem_rows _ _ _ _ _ _ _ _ Hp)
    as (r9 & r11 & _ & Heu & _).
  destruct (rows_eu_def_ok c ic r11 Hto Heu) as [_ Hall].
  destruct (Hall t Ht) as [reps Hreps]. unfold eu_reps. rewrite Hreps.
  apply (eu_reps_at_ok c ic t reps Hto); [|exact Hreps].
  rewrite <- push_same_gates.
  exact (bip_gates_nodup dag c subset D ns m t Hdag Hm).
Qed.

(** Every variable of the DOcplex model has a column in the flat model. *)
Lemma key_index_total v :
  is_key m v ->
  exists k, var_index ic v = Ok k /\ k < length (MIP.var_names p).
Proof.
  intros Hv. apply mip_key_iff in Hv. pose proof push_ic_ok as Hic.
  assert (E : exists k, var_index ic v = Ok k).
  { destruct v as [t q j|t p0 q i j|t q i j|t]; cbn [var_index mip_key] in *.
    - eexists; reflexivity.
    - destruct Hv as (Ht & Hg & Ha).
      apply (y_index_total c ic Hic); assumption.
    - destruct Hv as (Ht & Hq & Hi & Hj).
      apply (x_index_total c ic Hic); assumption.
    - eexists; reflexivity. }
  destruct E as [k Ek]. exists k. split; [exact Ek|].
  destruct (mip_problem_rows _ _ _ _ _ _ _ _ Hp) as (_ & _ & _ & _ & _ & _ & ->).
  exact (proj1 (var_index_bound c ic v k Hic (mip_key_in_model c ic v Hv) Ek)).
Qed.

(** Without the symmetry-breaking rows, every feasible point of the DOcplex
    model is the reading of a feasible point of the flat model. *)
Lemma bip_feasible_mip a :
  ls = false -> cs = false ->
  feasible (BIP.problem b) a ->
  MIP.feasible p (push ic a)
  /\ forall v, is_key m v -> pull ic (push ic a) v = a v.
Proof.
  intros Hls Hcs Hf. pose proof push_ic_ok as Hic.
  destruct push_same_sizes as (Hnv & Hnp & _).
  apply (bip_feasible_iff _ _ _ _ _ _ _ _ _ _ _ Hb) in Hf; [|congruence].
  destruct Hf as (Hbin & R & _).
  apply (bip_routing_of_mip _ _ _ _ _ _ _ _ _ _ _ _ _ _ Hc Hm Hmm Hp) in R.
  assert (Hbin' : forall v, mip_key c ic v -> a v = 0%Z \/ a v = 1%Z)
    by (intros v Hv; apply Hbin, mip_key_iff; exact Hv).
  assert (Hpull : forall v, mip_key c ic v -> pull ic (push ic a) v = a v)
    by (intros v Hv; apply (pull_push c ic a v Hic Hv)).
  split; [|intros v Hv; apply Hpull, mip_key_iff; exact Hv].
  destruct (mip_problem_rows _ _ _ _ _ _ _ _ Hp)
    as (r9 & r11 & Hr9 & Heu & Erows & Elb & _).
  rewrite Hls in Hr9. rewrite Hcs in Elb. injection Hr9 as <-.
  destruct (rows_eu_def_ok c ic r11 (io_ht _ _ Hic) Heu) as [-> _].
  split; [|split].
  - intros i _.
    exact (push_binary c ic Hc Hic a Hbin' mip_gates_range R eu_reps_good i).
  - rewrite Elb, app_nil_r. apply sem_lower_bounds. intros t Ht Hg.
    rewrite pull_z, push_below
      by (unfold MIP.wd_index; rewrite (io_eu_start _ _ Hic); lia).
    rewrite (push0_wd c ic Hic a t Ht).
    destruct (mip_gates ic t); [congruence | cbn [is_empty]; lia].
  - rewrite Erows.
    assert (R' : routing (size c) (MIP.ic_depth ic) (mip_gates ic)
                   (MIP.arcs (MIP.ht ic)) (out_of (MIP.ht ic))
                   (inn_of (MIP.ht ic)) (mip_free ic)
                   (pull ic (push ic a))).
    { apply (routing_ext c ic a); try assumption.
      - exact mip_gates_range.
      - exact mip_last_step. }
    apply (mip_routing_iff c ic (push ic a) Hc Hic) in R'.
    destruct R' as (A & Wy & Ay & Sw & Sf & Dn & Pr & Fl).
    cbn [app]. rewrite !Forall_app.
    repeat split; try assumption; try (apply Forall_app in A; tauto).
    exact (push_eu_rows c ic Hc Hic a Hbin' mip_gates_range R eu_reps_good).
Qed.

End BipToMip.

(** ** The two builders have the same feasible assignments *)

Lemma line3_ok : coupling_ok line3.
Proof.
  constructor.
  - intros i j. simpl. split.
    + intros [H|[H|[H|[H|[]]]]]; injection H as <- <-; simpl;
        (split; [lia | auto]).
    + intros [Hi Hj]. destruct i as [|[|[|i]]]; simpl in Hj; [| | |lia].
      * destruct Hj as [<-|[]]. auto.
      * destruct Hj as [<-|[<-|[]]]; auto.
      * destruct Hj as [<-|[]]. auto 6.
  - intros i j [H|[H|[H|[H|[]]]]]; injection H as <- <-; simpl; lia.
  - intros i j [H|[H|[H|[H|[]]]]]; injection H as <- <-; simpl; auto 6.
  - intros i [H|[H|[H|[H|[]]]]]; injection H as H1 H2; lia.
  - simpl. repeat constructor; simpl; intuition discriminate.
  - intros i. destruct i as [|[|[|i]]]; simpl; repeat constructor; simpl;
      intuition discriminate.
Qed.

Lemma circuit2_ok : dag_ok circuit2.
Proof.
  intros lay [<-|[<-|[<-|[]]]]; simpl;
    (split; [repeat constructor; simpl; intuition discriminate|]).
  - intros nd [<-|[]]. simpl. lia.
  - intros nd [].
  - intros nd [<-|[]]. simpl. lia.
Qed.

(** C9, for the constraint systems: for the same circuit (each layer
    on distinct qubits of the circuit), the same coupling graph (symmetric,
    without loops or repeated edges) and the same number of dummy steps,
    every variable of the exact DOcplex model has a column in the flat
    model; every feasible assignment of the flat model, read at these
    columns, is feasible for the DOcplex model; and when the flat model is
    built without its symmetry-breaking rows, every feasible assignment of
    the DOcplex model is, on the variables of that model, the reading of a
    feasible assignment of the flat model.  The objectives are another
    matter: the two builders do not rank the common points alike. *)
Theorem same_feasible_assignments :
  forall np_log gf mgf npeml mip_log math_log dag c subset D ns m b obj bp
         weight rate mm p ic mobj ls cs,
    coupling_ok c -> dag_ok dag ->
    BIP.init dag c subset D ns = Ok m ->
    BIP.create_cpx_problem np_log gf mgf npeml m obj bp weight rate None
    = Ok b ->
    MIP.init dag c D = Ok mm ->
    MIP.create_cpx_problem mip_log math_log mm mobj ls cs = Ok (p, ic) ->
    (forall bv, In bv (variables (BIP.problem b)) ->
       exists k, var_index ic (var_name bv) = Ok k
                 /\ k < length (MIP.var_names p))
    /\ (forall f, MIP.feasible p f -> feasible (BIP.problem b) (pull ic f))
    /\ (ls = false -> cs = false ->
        forall a, feasible (BIP.problem b) a ->
          exists f, MIP.feasible p f
                    /\ forall bv, In bv (variables (BIP.problem b)) ->
                         pull ic f (var_name bv) = a (var_name bv)).
Proof.
  intros np_log gf mgf npeml mip_log math_log dag c subset D ns m b obj bp
         weight rate mm p ic mobj ls cs Hc Hdag Hm Hb Hmm Hp.
  assert (Hkey : forall bv, In bv (variables (BIP.problem b)) ->
                            is_key m (var_name bv)).
  { intros bv Hbv.
    destruct (exact_problem _ _ _ _ _ _ _ _ _ _ Hb) as [Hv _].
    rewrite Hv in Hbv. apply in_map_iff in Hbv.
    destruct Hbv as [v [<- Hin]]. apply in_exact_keys. exact Hin. }
  split; [|split].
  - intros bv Hbv.
    exact (key_index_total mip_log math_log dag c subset D ns m mm p ic mobj
             ls cs Hc Hm Hmm Hp _ (Hkey bv Hbv)).
  - intros f Hf.
    exact (mip_feasible_bip np_log gf mgf npeml mip_log math_log dag c subset
             D ns m b obj bp weight rate mm p ic mobj ls cs Hc Hdag Hm Hb Hmm
             Hp f Hf).
  - intros Hls Hcs a Ha.
    destruct (bip_feasible_mip np_log gf mgf npeml mip_log math_log dag c
                subset D ns m b obj bp weight rate mm p ic mobj ls cs Hc Hdag
                Hm Hb Hmm Hp a Hls Hcs Ha) as [Hf Hagree].
    exists (push ic a). split; [exact Hf|].
    intros bv Hbv. apply Hagree, Hkey. exact Hbv.
Qed.

(** [circuit2] on the line with one dummy step: the layout that holds every
    qubit in place is feasible for the flat model, so its reading is
    feasible for the DOcplex model, and that reading is in turn the reading
    of a feasible assignment of the flat model. *)
Lemma same_feasible_assignments_example :
  exists b p ic,
    build_on_line3 circuit2 1 0 "depth" = Ok b
    /\ mip_on_line3 circuit2 1 "depth" = Ok (p, ic)
    /\ (exists k, var_index ic (W 1 2 2) = Ok k /\ k < length (MIP.var_names p))
    /\ feasible (BIP.problem b) (pull ic held_layout)
    /\ exists f, MIP.feasible p f
                 /\ forall bv, In bv (variables (BIP.problem b)) ->
                      pull ic f (var_name bv)
                      = pull ic held_layout (var_name bv).
Proof.
  pose (m := ltac:(ok_value (BIP.init circuit2 line3 [0; 1; 2] 1 0))).
  pose (b := ltac:(ok_value (build_on_line3 circuit2 1 0 "depth"))).
  pose (mm := ltac:(ok_value (MIP.init circuit2 line3 1))).
  pose (r := ltac:(ok_value (mip_on_line3 circuit2 1 "depth"))).
  assert (Hm : BIP.init circuit2 line3 [0; 1; 2] 1 0 = Ok m)
    by (vm_compute; reflexivity).
  assert (Hb : BIP.create_cpx_problem approx_log cnot_fid cnot_mfid no_mean m
                 "depth" None (1 # 10)%Q (Some (5 # 1000)%Q) None = Ok b)
    by (vm_compute; reflexivity).
  assert (Hmm : MIP.init circuit2 line3 1 = Ok mm)
    by (vm_compute; reflexivity).
  assert (Hp : MIP.create_cpx_problem approx_log approx_log mm "depth"
                 false false = Ok (fst r, snd r))
    by (vm_compute; reflexivity).
  destruct (same_feasible_assignments
              approx_log cnot_fid cnot_mfid no_mean approx_log approx_log
              circuit2 line3 [0; 1; 2] 1 0%Z m b "depth" None (1 # 10)%Q
              (Some (5 # 1000)%Q) mm (fst r) (snd r) "depth" false false
              line3_ok circuit2_ok Hm Hb Hmm Hp) as (Hcol & Hdown & Hup).
  assert (Hheld : MIP.feasible (fst r) held_layout)
    by (apply mip_feasibleb_feasible; vm_compute; reflexivity).
  exists b, (fst r), (snd r).
  split; [vm_compute; reflexivity|]. split; [vm_compute; reflexivity|].
  split.
  - apply (Hcol {| var_name := W 1 2 2; lb := 0%Q; ub := 1%Q |}).
    vm_compute. tauto.
  - split; [exact (Hdown held_layout Hheld)|].
    exact (Hup eq_refl eq_refl _ (Hdown held_layout Hheld)).
Defined.

(** * Further properties of the two builders *)

(** ** The layers of the circuit and the layers of the model *)

(** The entries of [_to_su4layer] for the layers [lays], when [k] layers
    with two-qubit gates came before them. *)
Fixpoint su4_positions (lays : list (list TwoQubitOp)) (k : nat) : list Z :=
  match lays with
  | [] => []
  | lay :: r =>
      if is_empty lay then (-1)%Z :: su4_positions r k
      else Z.of_nat k :: su4_positions r (S k)
  end.

Lemma extract_su4layers_positions lays to_su4 su4 :
  fst (fold_left
         (fun (acc : list Z * list (list Gate)) lay =>
            let '(to_su4, su4) := acc in
            let laygates := BIP.laygates_of lay in
            if is_empty laygates then (to_su4 ++ [(-1)%Z], su4)
            else (to_su4 ++ [Z.of_nat (length su4)], su4 ++ [laygates]))
         lays (to_su4, su4))
  = to_su4 ++ su4_positions lays (length su4).
Proof.
  revert to_su4 su4. induction lays as [|lay lays IH]; intros to_su4 su4.
  - simpl. rewrite app_nil_r. reflexivity.
  - cbn [fold_left su4_positions]. rewrite laygates_of_empty.
    destruct (is_empty lay).
    + rewrite IH, <- app_assoc. reflexivity.
    + rewrite IH, <- app_assoc, length_app. cbn [length app].
      replace (length su4 + 1) with (S (length su4)) by lia. reflexivity.
Qed.

Lemma extract_su4layers_fst lays :
  fst (BIP.extract_su4layers lays) = su4_positions lays 0.
Proof.
  unfold BIP.extract_su4layers.
  rewrite extract_su4layers_positions. reflexivity.
Qed.

Lemma su4_positions_length lays k : length (su4_positions lays k) = length lays.
Proof.
  revert k. induction lays as [|lay lays IH]; intros k; [reflexivity|].
  cbn [su4_positions]. destruct (is_empty lay); cbn [length]; rewrite IH;
    reflexivity.
Qed.

Lemma su4_positions_nth lays k d :
  d < length lays ->
  nth d (su4_positions lays k) 0%Z
  = if is_empty (nth d lays [])
    then (-1)%Z
    else Z.of_nat
           (k + length (filter (fun lay => negb (is_empty lay))
                               (firstn d lays))).
Proof.
  revert k d. induction lays as [|lay lays IH]; intros k d Hd;
    [simpl in Hd; lia|].
  destruct d as [|d].
  - cbn [su4_positions nth firstn filter length].
    destruct (is_empty lay); cbn [nth]; [reflexivity|].
    rewrite Nat.add_0_r. reflexivity.
  - cbn [su4_positions firstn filter nth].
    destruct (is_empty lay) eqn:E; cbn [nth negb]; rewrite IH
      by (simpl in Hd; lia); destruct (is_empty (nth d lays []));
      try reflexivity.
    cbn [length]. f_equal. lia.
Qed.

Lemma filter_firstn_nth {A} (f : A -> bool) (l : list A) d (x : A) :
  d < length l -> f (nth d l x) = true ->
  nth_error (filter f l) (length (filter f (firstn d l))) = Some (nth d l x).
Proof.
  revert d. induction l as [|y l IH]; intros d Hd Hf; [simpl in Hd; lia|].
  destruct d as [|d].
  - cbn [firstn filter length nth] in *. rewrite Hf. reflexivity.
  - cbn [firstn filter nth] in *. destruct (f y); cbn [length nth_error];
      apply IH; try assumption; simpl in Hd; lia.
Qed.

(** X1.  For a position [d] in [dag.layers()], [is_su4layer(d)] tells
    whether that layer holds a two-qubit gate; when it does,
    [to_su4layer_depth(d)] is the number of such layers before it, and
    [su4layers] holds the gates of the layer at that position; when it does
    not, [to_su4layer_depth(d)] is [-1].  A position past the last layer
    raises [IndexError] in both. *)
Theorem su4layer_depth_round_trip :
  forall dag coupling subset D ns m d,
    BIP.init dag coupling subset D ns = Ok m ->
    (d < length (layers dag) ->
     let lay := nth d (layers dag) [] in
     let k := length (real_layers (Build_DAGCircuit (num_dag_qubits dag)
                                     (firstn d (layers dag)))) in
     BIP.is_su4layer m (Z.of_nat d) = Ok (negb (is_empty lay))
     /\ (is_empty lay = true ->
         BIP.to_su4layer_depth m (Z.of_nat d) = Ok (-1)%Z)
     /\ (is_empty lay = false ->
         BIP.to_su4layer_depth m (Z.of_nat d) = Ok (Z.of_nat k)
         /\ nth_error (BIP.su4layers m) k = Some (BIP.laygates_of lay)))
    /\ (length (layers dag) <= d ->
        BIP.is_su4layer m (Z.of_nat d) = Raise IndexError
        /\ BIP.to_su4layer_depth m (Z.of_nat d) = Raise IndexError).
Proof.
  intros dag coupling subset D ns m d Hm.
  assert (Hto : BIP._to_su4layer m = su4_positions (layers dag) 0).
  { unfold BIP.init in Hm.
    destruct (ns <? -1)%Z; [discriminate Hm|].
    destruct (negb (num_dag_qubits dag =? size coupling)); [discriminate Hm|].
    pose proof (extract_su4layers_fst (layers dag)) as Hp.
    destruct (BIP.extract_su4layers (layers dag)) as [to_su4 su4].
    injection Hm as <-. cbn [BIP._to_su4layer]. exact Hp. }
  destruct (init_fields _ _ _ _ _ _ Hm) as (Hsu & _).
  unfold BIP.is_su4layer, BIP.to_su4layer_depth. rewrite Hto. split.
  - intros Hd. set (lay := nth d (layers dag) []).
    rewrite (py_index_ok _ _ 0%Z) by (rewrite su4_positions_length; exact Hd).
    rewrite (su4_positions_nth _ 0 d Hd). fold lay. cbn [bind].
    destruct (is_empty lay) eqn:E.
    + split; [reflexivity|]. split; [reflexivity | discriminate].
    + split; [f_equal; cbn [negb]; apply Z.leb_le; lia|].
      split; [discriminate|]. intros _. split; [reflexivity|].
      rewrite Hsu. unfold real_layers. cbn [layers].
      rewrite nth_error_map.
      rewrite (filter_firstn_nth _ (layers dag) d [] Hd)
        by (fold lay; rewrite E; reflexivity).
      reflexivity.
  - intros Hd.
    rewrite (py_index_nat _ d 0%Z), su4_positions_length.
    destruct (Nat.ltb_spec d (length (layers dag))); [lia|].
    split; reflexivity.
Qed.

(** The theorem at [circuit2], whose second layer has no two-qubit gate:
    its third layer is the second layer of the model. *)
Lemma su4layer_depth_round_trip_example :
  exists m,
    BIP.init circuit2 line3 [0; 1; 2] 1 1 = Ok m
    /\ BIP.is_su4layer m 1 = Ok false
    /\ BIP.to_su4layer_depth m 2 = Ok 1%Z
    /\ nth_error (BIP.su4layers m) 1 = Some (BIP.laygates_of [cx 0 2 8])
    /\ BIP.to_su4layer_depth m 3 = Raise IndexError.
Proof.
  pose (m := ltac:(ok_value (BIP.init circuit2 line3 [0; 1; 2] 1 1))).
  assert (Hm : BIP.init circuit2 line3 [0; 1; 2] 1 1 = Ok m)
    by (vm_compute; reflexivity).
  exists m. split; [exact Hm|].
  destruct (su4layer_depth_round_trip circuit2 line3 [0; 1; 2] 1 1%Z m 1 Hm)
    as [H1 _].
  destruct (su4layer_depth_round_trip circuit2 line3 [0; 1; 2] 1 1%Z m 2 Hm)
    as [H2 _].
  destruct (su4layer_depth_round_trip circuit2 line3 [0; 1; 2] 1 1%Z m 3 Hm)
    as [_ H3].
  split; [exact (proj1 (H1 ltac:(vm_compute; lia)))|].
  destruct (H2 ltac:(vm_compute; lia)) as (_ & _ & H2').
  destruct (H2' eq_refl) as [Ha Hb].
  split; [exact Ha|]. split; [exact Hb|].
  exact (proj2 (H3 ltac:(vm_compute; lia))).
Defined.

(** ** The layout read from a solution *)

(** The physical qubit that holds [q] at step [t] in the assignment [a]. *)
Definition place_of (a : Var -> Z) (np t q : nat) : nat :=
  match find (fun j => (a (W t q j) =? 1)%Z) (range np) with
  | Some j => j
  | None => 0
  end.

Lemma place_of_unique a np t q j :
  j < np -> a (W t q j) = 1%Z ->
  (forall j', j' < np -> a (W t q j') = 1%Z -> j' = j) ->
  place_of a np t q = j.
Proof.
  intros Hj Hone Huniq. unfold place_of.
  destruct (find (fun j0 => (a (W t q j0) =? 1)%Z) (range np)) as [j'|] eqn:E.
  - apply find_some in E. destruct E as [Hin Hv]. apply in_range in Hin.
    apply Z.eqb_eq in Hv. exact (Huniq j' Hin Hv).
  - pose proof (find_none _ _ E j (proj2 (in_range j np) Hj)) as Hn.
    cbv beta in Hn. rewrite Hone in Hn. discriminate Hn.
Qed.

Lemma flat_mapM_cons {A B} (f : A -> result (list B)) x l :
  flat_mapM f (x :: l)
  = bind (f x) (fun r => bind (flat_mapM f l) (fun rs => Ok (r ++ rs))).
Proof.
  unfold flat_mapM. cbn [mapM]. destruct (f x) as [r|e]; [|reflexivity].
  cbn [bind]. destruct (mapM f l) as [rs|e]; reflexivity.
Qed.

Lemma flat_mapM_nil {A B} (f : A -> result (list B)) l :
  (forall z, In z l -> f z = Ok []) -> flat_mapM f l = Ok [].
Proof.
  induction l as [|z l IH]; intros H; [reflexivity|].
  rewrite flat_mapM_cons, (H z (or_introl eq_refl)). cbn [bind].
  rewrite IH by (intros w Hw; apply H; right; exact Hw). reflexivity.
Qed.

Lemma flat_mapM_single {A B} (f : A -> result (list B)) (l : list A) x y :
  NoDup l -> In x l -> f x = Ok [y] ->
  (forall z, In z l -> z <> x -> f z = Ok []) ->
  flat_mapM f l = Ok [y].
Proof.
  induction l as [|z l IH]; intros Hnd Hin Hx Hz; [destruct Hin|].
  inversion Hnd as [|? ? Hnz Hnd']; subst. rewrite flat_mapM_cons.
  destruct Hin as [->|Hin].
  - rewrite Hx. cbn [bind]. rewrite flat_mapM_nil; [reflexivity|].
    intros w Hw. apply Hz; [right; exact Hw|].
    intros ->. apply Hnz. exact Hw.
  - rewrite (Hz z (or_introl eq_refl))
      by (intros ->; apply Hnz; exact Hin).
    cbn [bind]. rewrite IH; [reflexivity | exact Hnd' | exact Hin | exact Hx |].
    intros w Hw. apply Hz. right. exact Hw.
Qed.

Lemma flat_map_singleton {A B} (g : A -> B) (l : list A) :
  flat_map (fun x => [g x]) l = map g l.
Proof.
  induction l as [|x l IH]; [reflexivity|].
  cbn [flat_map map app]. rewrite IH. reflexivity.
Qed.

Lemma binary_of_feasible mdl a v :
  feasible mdl a -> In v (map var_name (variables mdl)) ->
  a v = 0%Z \/ a v = 1%Z.
Proof.
  intros [Hb _] Hin. apply in_map_iff in Hin. destruct Hin as [bv [<- Hbv]].
  rewrite Forall_forall in Hb. exact (proj1 (Hb bv Hbv)).
Qed.

(** X2.  Let [a] be a feasible assignment of the exact model, let
    [solution.get_value] give its values on the [w] variables of step [t],
    and let [qubit_subset] have one entry for every physical qubit of the
    reduced coupling map.  Then [get_layout(t)] raises nothing and stores
    exactly one entry for every virtual qubit, in order: [q] is mapped to
    [qubit_subset[j]] for the one physical qubit [j] with [w[t,q,j] = 1];
    two virtual qubits are never given the same position [j].  Without a
    solution [get_layout] raises [AttributeError] (when there is a qubit
    at all). *)
Theorem layout_of_feasible_solution :
  forall np_log gf mgf npeml dag c subset D ns m obj bp weight rate b a
         value t,
    BIP.init dag c subset D ns = Ok m ->
    BIP.create_cpx_problem np_log gf mgf npeml m obj bp weight rate None
    = Ok b ->
    length subset = size c ->
    feasible (BIP.problem b) a ->
    t < BIP.depth m ->
    (forall q j, q < BIP.num_vqubits m -> j < BIP.num_pqubits m ->
                 value (W t q j) = Ok (inject_Z (a (W t q j)))) ->
    let pl := place_of a (BIP.num_pqubits m) t in
    BIP.get_layout m (Some value) t
    = Ok (map (fun q => (q, nth (pl q) subset 0)) (range (BIP.num_vqubits m)))
    /\ (forall q, q < BIP.num_vqubits m ->
          pl q < BIP.num_pqubits m /\ a (W t q (pl q)) = 1%Z)
    /\ (forall q q', q < BIP.num_vqubits m -> q' < BIP.num_vqubits m ->
          pl q = pl q' -> q = q')
    /\ (0 < BIP.num_vqubits m -> 0 < BIP.num_pqubits m ->
        BIP.get_layout m None t = Raise AttributeError).
Proof.
  intros np_log gf mgf npeml dag c subset D ns m obj bp weight rate b a
         value t Hm Hb Hlen Hf Ht Hval pl.
  destruct (create_cpx_problem_ok np_log gf mgf npeml m obj bp weight rate b Hb)
    as (b0 & Hb0 & _ & Hprob & _).
  destruct (exact_has_assignment _ _ _ _ _ _ _ _ _ t Hb0 Ht) as [Hc Hv].
  rewrite <- Hprob in Hc, Hv.
  destruct (assignment_bijection _ _ _ _ _ Hc Hv Hf) as [Hq Hj].
  destruct (init_fields _ _ _ _ _ _ Hm)
    as (_ & _ & _ & _ & Hnp & _ & _ & _ & _).
  assert (Hglob : BIP.global_qubit m = subset).
  { unfold BIP.init in Hm.
    destruct (ns <? -1)%Z; [discriminate Hm|].
    destruct (negb (num_dag_qubits dag =? size c)); [discriminate Hm|].
    destruct (BIP.extract_su4layers (layers dag)).
    injection Hm as <-. reflexivity. }
  assert (Hpl : forall q, q < BIP.num_vqubits m ->
                  pl q < BIP.num_pqubits m /\ a (W t q (pl q)) = 1%Z
                  /\ forall j, j < BIP.num_pqubits m ->
                       a (W t q j) = 1%Z -> j = pl q).
  { intros q Hq0. destruct (Hq q Hq0) as [j [[Hj0 Hone] Huniq]].
    assert (E : pl q = j).
    { apply place_of_unique; [exact Hj0 | exact Hone |].
      intros j' Hj' H1. symmetry. apply Huniq. split; assumption. }
    rewrite E. split; [exact Hj0|]. split; [exact Hone|].
    intros j' Hj' H1. symmetry. apply Huniq. split; assumption. }
  split; [|split; [|split]].
  - unfold BIP.get_layout.
    rewrite (flat_mapM_total _
               (fun q => [(q, nth (pl q) subset 0)])).
    + rewrite flat_map_singleton. reflexivity.
    + intros q Hq0. apply in_range in Hq0.
      destruct (Hpl q Hq0) as (Hlt & Hone & Huniq).
      apply (flat_mapM_single _ _ (pl q)).
      * apply seq_NoDup.
      * apply in_range. exact Hlt.
      * cbn [BIP.get_value]. rewrite (Hval q (pl q) Hq0 Hlt), Hone.
        cbn [bind]. change (BIP.above_half (inject_Z 1)) with true.
        cbv iota. rewrite Hglob.
        rewrite (py_index_ok subset (pl q) 0) by (rewrite Hlen, <- Hnp; exact Hlt).
        reflexivity.
      * intros j Hj0 Hne. apply in_range in Hj0.
        cbn [BIP.get_value]. rewrite (Hval q j Hq0 Hj0). cbn [bind].
        destruct (binary_of_feasible _ _ (W t q j) Hf (Hv q j Hq0 Hj0))
          as [E|E]; [rewrite E; reflexivity|].
        exfalso. apply Hne. exact (Huniq j Hj0 E).
  - intros q Hq0. destruct (Hpl q Hq0) as (H1 & H2 & _). split; assumption.
  - intros q q' Hq0 Hq0' E.
    destruct (Hpl q Hq0) as (Hlt & Hone & _).
    destruct (Hpl q' Hq0') as (_ & Hone' & _).
    destruct (Hj (pl q) Hlt) as [q0 [_ Huniq]].
    rewrite <- (Huniq q (conj Hq0 Hone)).
    apply Huniq. rewrite E. split; assumption.
  - intros Hnv Hnpos. unfold BIP.get_layout, range.
    destruct (BIP.num_vqubits m) as [|nv]; [lia|].
    destruct (BIP.num_pqubits m) as [|np]; [lia|].
    cbn [seq]. rewrite flat_mapM_cons, flat_mapM_cons. reflexivity.
Qed.

(** The theorem at [circuit2] on the line, with the qubits [5, 6, 7] of a
    larger device: the assignment that keeps the virtual qubits 0 and 1
    exchanged gives the layout [0 -> 6, 1 -> 5, 2 -> 7]. *)
Lemma layout_of_feasible_solution_example :
  exists m b,
    BIP.init circuit2 line3 [5; 6; 7] 1 1 = Ok m
    /\ BIP.create_cpx_problem approx_log cnot_fid cnot_mfid no_mean m
         "depth" None (1 # 10)%Q (Some (5 # 1000)%Q) None = Ok b
    /\ feasible (BIP.problem b) static_assignment
    /\ BIP.get_layout m
         (Some (fun v => Ok (inject_Z (static_assignment v)))) 0
       = Ok [(0, 6); (1, 5); (2, 7)].
Proof.
  pose (m := ltac:(ok_value (BIP.init circuit2 line3 [5; 6; 7] 1 1))).
  assert (Hm : BIP.init circuit2 line3 [5; 6; 7] 1 1 = Ok m)
    by (vm_compute; reflexivity).
  pose (b := ltac:(ok_value
                     (BIP.create_cpx_problem approx_log cnot_fid cnot_mfid
                        no_mean m "depth" None (1 # 10)%Q
                        (Some (5 # 1000)%Q) None))).
  assert (Hb : BIP.create_cpx_problem approx_log cnot_fid cnot_mfid no_mean m
                 "depth" None (1 # 10)%Q (Some (5 # 1000)%Q) None = Ok b)
    by (vm_compute; reflexivity).
  assert (Hf : feasible (BIP.problem b) static_assignment)
    by (apply feasibleb_feasible; vm_compute; reflexivity).
  exists m, b. split; [exact Hm|]. split; [exact Hb|]. split; [exact Hf|].
  destruct (layout_of_feasible_solution
              approx_log cnot_fid cnot_mfid no_mean circuit2 line3 [5; 6; 7]
              1 1%Z m "depth" None (1 # 10)%Q (Some (5 # 1000)%Q) b
              static_assignment
              (fun v => Ok (inject_Z (static_assignment v))) 0
              Hm Hb eq_refl Hf ltac:(vm_compute; lia)
              ltac:(intros; reflexivity)) as [H _].
  rewrite H. vm_compute. reflexivity.
Defined.

(** ** Reading a solution of the flat model *)

Lemma dict_get_raise {K V} (eqb : K -> K -> bool) (d : list (K * V)) k e :
  MIP.dict_get eqb d k = Raise e -> e = KeyError.
Proof.
  induction d as [|[k' v] d IH]; cbn [MIP.dict_get]; intros H.
  - congruence.
  - destruct (MIP.dict_get eqb d k); [discriminate H|].
    destruct (eqb k k'); congruence.
Qed.

Lemma out_neighbors c ic i j :
  coupling_ok c -> ic_ok c ic -> i < size c ->
  In j (out_of (MIP.ht ic) i) <-> In j (neighbors c i).
Proof.
  intros Hc Hic Hi. pose proof (io_ht _ _ Hic) as Hto.
  rewrite (to_out _ _ Hto i j Hi), (to_arcs _ _ Hto), (co_edges _ Hc). tauto.
Qed.

Section ReadMip.

Variables (mip_log math_log : Q -> Q) (dag : DAGCircuit) (c : CouplingMap)
          (D : nat) (mm : MIP.MIPMappingModel) (p : MIP.Cplex)
          (ic : MIP._IndexCalculator) (mobj : string) (ls cs : bool).
Hypothesis Hc : coupling_ok c.
Hypothesis Hmm : MIP.init dag c D = Ok mm.
Hypothesis Hp :
  MIP.create_cpx_problem mip_log math_log mm mobj ls cs = Ok (p, ic).

Lemma read_ic_ok : ic_ok c ic.
Proof.
  exact (same_ic_ok dag c D mm ic Hc Hmm (built_ic _ _ _ _ _ _ _ _ Hp)).
Qed.

Lemma read_length : length (MIP.var_names p) = num_vars ic.
Proof.
  destruct (mip_problem_rows _ _ _ _ _ _ _ _ Hp)
    as (_ & _ & _ & _ & _ & _ & H).
  exact H.
Qed.

Variables (f : nat -> Z) (gv : nat -> result Q).
Hypothesis Hf : MIP.feasible p f.
Hypothesis Hgv :
  forall k, k < length (MIP.var_names p) -> gv k = Ok (inject_Z (f k)).

Lemma read_binary v :
  in_model (size c) (MIP.ic_depth ic) v ->
  pull ic f v = 0%Z \/ pull ic f v = 1%Z.
Proof.
  intros Hin. unfold pull.
  destruct (var_index ic v) as [k|e] eqn:E; [|left; reflexivity].
  apply (proj1 Hf). rewrite read_length.
  exact (proj1 (var_index_bound c ic v k read_ic_ok Hin E)).
Qed.

Lemma read_value v k :
  in_model (size c) (MIP.ic_depth ic) v -> var_index ic v = Ok k ->
  gv k = Ok (inject_Z (pull ic f v)).
Proof.
  intros Hin E. unfold pull. rewrite E. apply Hgv. rewrite read_length.
  exact (proj1 (var_index_bound c ic v k read_ic_ok Hin E)).
Qed.

Lemma read_assigned q i t :
  q < size c -> i < size c -> t < MIP.ic_depth ic ->
  MIP.is_assigned ic gv q i t
  = Ok (negb (Qle_bool (inject_Z (pull ic f (W t q i))) (1 # 2))).
Proof.
  intros Hq Hi Ht. unfold MIP.is_assigned.
  rewrite (read_value (W t q i) (MIP.w_index ic q i t));
    [reflexivity | cbn; auto | reflexivity].
Qed.

Lemma read_swapped q i j t :
  q < size c -> i < size c -> t < MIP.ic_depth ic - 1 ->
  j = i \/ In j (out_of (MIP.ht ic) i) ->
  MIP.is_swapped ic gv q i j t
  = Ok (negb (Qle_bool (inject_Z (pull ic f (X t q i j))) (1 # 2))).
Proof.
  intros Hq Hi Ht Hj. unfold MIP.is_swapped.
  destruct (x_index_total c ic read_ic_ok q i j t Hi Hj) as [k Hk].
  rewrite Hk. cbn [bind].
  rewrite (read_value (X t q i j) k); [reflexivity | cbn; auto | exact Hk].
Qed.

Lemma above_half_binary z :
  z = 0%Z \/ z = 1%Z ->
  negb (Qle_bool (inject_Z z) (1 # 2)) = true <-> z = 1%Z.
Proof. intros [-> | ->]; vm_compute; split; congruence. Qed.

End ReadMip.

(** X3.  Let [f] be a feasible assignment of the flat model over a
    symmetric coupling map, and let [problem.solution.get_values] give its
    values.  For a logical qubit [q], a physical qubit [i] and a step [t]
    that is not the last: [is_swapped(q, i, j, t)] raises [KeyError] when
    [j] is neither [i] nor a neighbour of [i], and returns a truth value
    otherwise; when it returns [True], [is_assigned(q, i, t)] and
    [is_assigned(q, j, t + 1)] are [True]; and when [is_assigned(q, i, t)]
    is [True], [is_swapped(q, i, j, t)] is [True] for [j = i] or for some
    neighbour [j] of [i]. *)
Theorem swapped_qubit_is_assigned :
  forall mip_log math_log dag c D mm p ic mobj ls cs f gv q i t,
    coupling_ok c ->
    MIP.init dag c D = Ok mm ->
    MIP.create_cpx_problem mip_log math_log mm mobj ls cs = Ok (p, ic) ->
    MIP.feasible p f ->
    (forall k, k < length (MIP.var_names p) -> gv k = Ok (inject_Z (f k))) ->
    q < size c -> i < size c -> t < MIP.ic_depth ic - 1 ->
    (forall j, j <> i -> ~ In j (neighbors c i) ->
               MIP.is_swapped ic gv q i j t = Raise KeyError)
    /\ (forall j, j = i \/ In j (neighbors c i) ->
          exists b,
            MIP.is_swapped ic gv q i j t = Ok b
            /\ (b = true ->
                MIP.is_assigned ic gv q i t = Ok true
                /\ MIP.is_assigned ic gv q j (t + 1) = Ok true))
    /\ (MIP.is_assigned ic gv q i t = Ok true ->
        exists j, (j = i \/ In j (neighbors c i))
                  /\ MIP.is_swapped ic gv q i j t = Ok true).
Proof.
  intros mip_log math_log dag c D mm p ic mobj ls cs f gv q i t
         Hc Hmm Hp Hf Hgv Hq Hi Ht.
  pose proof (read_ic_ok mip_log math_log dag c D mm p ic mobj ls cs Hc Hmm Hp)
    as Hic.
  pose proof (mip_routing mip_log math_log dag c D mm p ic mobj ls cs Hc Hmm
                Hp f Hf) as R.
  pose proof (read_binary mip_log math_log dag c D mm p ic mobj ls cs Hc Hmm
                Hp f Hf) as Hbin.
  pose proof (read_assigned mip_log math_log dag c D mm p ic mobj ls cs Hc Hmm
                Hp f gv Hgv) as RA.
  pose proof (read_swapped mip_log math_log dag c D mm p ic mobj ls cs Hc Hmm
                Hp f gv Hgv) as RS.
  assert (Hxb : forall i' j', pull ic f (X t q i' j') = 0%Z
                              \/ pull ic f (X t q i' j') = 1%Z)
    by (intros i' j'; apply Hbin; cbn; auto).
  assert (Hxpos : forall i' j', (0 <= pull ic f (X t q i' j'))%Z)
    by (intros i' j'; destruct (Hxb i' j') as [-> | ->]; lia).
  pose proof (r_flow_out _ _ _ _ _ _ _ _ R t q i Ht Hq Hi) as Fo.
  split; [|split].
  - intros j Hne Hnb. unfold MIP.is_swapped, MIP.x_index.
    rewrite (io_xmap _ _ Hic).
    rewrite (py_index_ok _ _ [])
      by (rewrite length_map; unfold range; rewrite length_seq; exact Hi).
    rewrite nth_map_range by exact Hi. cbn [bind].
    destruct (MIP.dict_get Nat.eqb (x_row (MIP.ht ic) i) j) as [pos|e] eqn:E.
    + exfalso. apply x_row_get in E.
      destruct E as [(_ & _ & E)|[_ E]]; [|exact (Hne E)].
      apply nth_error_In in E. apply Hnb.
      apply (out_neighbors c ic i j Hc Hic Hi). exact E.
    + apply dict_get_raise in E. subst e. reflexivity.
  - intros j Hj.
    assert (Hj' : j = i \/ In j (out_of (MIP.ht ic) i)).
    { destruct Hj as [Hj|Hj]; [left; exact Hj|right].
      apply (out_neighbors c ic i j Hc Hic Hi). exact Hj. }
    eexists. split; [apply (RS q i j t Hq Hi Ht Hj')|].
    intros Hb. apply (above_half_binary _ (Hxb i j)) in Hb.
    assert (Hjn : j < size c).
    { destruct Hj' as [->|Hj']; [exact Hi|].
      apply (to_out _ _ (io_ht _ _ Hic) i j Hi) in Hj'.
      apply (arc_ends c ic Hc Hic i j Hj'). }
    split.
    + rewrite (RA q i t Hq Hi ltac:(lia)). f_equal.
      apply above_half_binary; [apply Hbin; cbn; lia|].
      assert (Hw : pull ic f (W t q i) = 0%Z \/ pull ic f (W t q i) = 1%Z)
        by (apply Hbin; cbn; lia).
      pose proof (sum_nonneg (fun j0 => pull ic f (X t q i j0))
                    (out_of (MIP.ht ic) i)
                    ltac:(intros x _; apply Hxpos)) as Hs.
      destruct Hj' as [->|Hj'].
      * pose proof (Hxpos i i). destruct Hw; lia.
      * pose proof (sum_ge_term (fun j0 => pull ic f (X t q i j0))
                      (out_of (MIP.ht ic) i) j
                      ltac:(intros x _; apply Hxpos) Hj') as Hge.
        cbv beta in Hge. pose proof (Hxpos i i). destruct Hw; lia.
    + rewrite (RA q j (t + 1) Hq Hjn ltac:(lia)). f_equal.
      apply above_half_binary; [apply Hbin; cbn; lia|].
      assert (Hw : pull ic f (W (t + 1) q j) = 0%Z
                   \/ pull ic f (W (t + 1) q j) = 1%Z)
        by (apply Hbin; cbn; lia).
      pose proof (r_flow_in _ _ _ _ _ _ _ _ R (t + 1) q j ltac:(lia)
                    ltac:(lia) Hq Hjn) as Fi.
      replace (t + 1 - 1) with t in Fi by lia.
      pose proof (sum_nonneg (fun i0 => pull ic f (X t q i0 j))
                    (inn_of (MIP.ht ic) j)
                    ltac:(intros x _; apply Hxpos)) as Hs.
      destruct Hj' as [->|Hj'].
      * destruct Hw; lia.
      * apply (to_out _ _ (io_ht _ _ Hic) i j Hi) in Hj'.
        destruct (arc_ends c ic Hc Hic i j Hj') as (_ & _ & _ & Hinn & _).
        pose proof (sum_ge_term (fun i0 => pull ic f (X t q i0 j))
                      (inn_of (MIP.ht ic) j) i
                      ltac:(intros x _; apply Hxpos) Hinn) as Hge.
        cbv beta in Hge. pose proof (Hxpos j j). destruct Hw; lia.
  - intros Ha. rewrite (RA q i t Hq Hi ltac:(lia)) in Ha.
    injection Ha as Ha.
    apply above_half_binary in Ha; [|apply Hbin; cbn; lia].
    rewrite Ha in Fo.
    destruct (Hxb i i) as [E|E].
    + rewrite E in Fo.
      destruct (binary_list_sum_one (fun j0 => pull ic f (X t q i j0))
                  (out_of (MIP.ht ic) i)
                  ltac:(intros x _; apply Hxb) ltac:(lia)) as [j [Hj Hone]].
      exists j. split; [right; apply (out_neighbors c ic i j Hc Hic Hi); exact Hj|].
      rewrite (RS q i j t Hq Hi Ht (or_intror Hj)). f_equal.
      apply above_half_binary; [apply Hxb | exact Hone].
    + exists i. split; [left; reflexivity|].
      rewrite (RS q i i t Hq Hi Ht (or_introl eq_refl)). f_equal.
      apply above_half_binary; [apply Hxb | exact E].
Qed.

(** The theorem at [circuit2] on the line with one dummy step and the
    layout that holds every qubit in place: logical qubit 0 sits on
    physical qubit 1 and stays there. *)
Lemma swapped_qubit_is_assigned_example :
  exists p ic,
    mip_on_line3 circuit2 1 "depth" = Ok (p, ic)
    /\ MIP.feasible p held_layout
    /\ let gv := fun k => Ok (inject_Z (held_layout k)) in
       MIP.is_swapped ic gv 0 0 2 0 = Raise KeyError
       /\ MIP.is_swapped ic gv 0 1 1 0 = Ok true
       /\ MIP.is_assigned ic gv 0 1 0 = Ok true
       /\ MIP.is_assigned ic gv 0 1 1 = Ok true.
Proof.
  pose (mm := ltac:(ok_value (MIP.init circuit2 line3 1))).
  pose (r := ltac:(ok_value (mip_on_line3 circuit2 1 "depth"))).
  assert (Hmm : MIP.init circuit2 line3 1 = Ok mm)
    by (vm_compute; reflexivity).
  assert (Hp : MIP.create_cpx_problem approx_log approx_log mm "depth"
                 false false = Ok (fst r, snd r))
    by (vm_compute; reflexivity).
  assert (Hheld : MIP.feasible (fst r) held_layout)
    by (apply mip_feasibleb_feasible; vm_compute; reflexivity).
  exists (fst r), (snd r).
  split; [vm_compute; reflexivity|]. split; [exact Hheld|].
  intros gv.
  destruct (swapped_qubit_is_assigned
              approx_log approx_log circuit2 line3 1 mm (fst r) (snd r)
              "depth" false false held_layout gv 0 1 0
              line3_ok Hmm Hp Hheld ltac:(intros; reflexivity)
              ltac:(vm_compute; lia) ltac:(vm_compute; lia)
              ltac:(vm_compute; lia)) as (_ & Hsw & _).
  destruct (swapped_qubit_is_assigned
              approx_log approx_log circuit2 line3 1 mm (fst r) (snd r)
              "depth" false false held_layout gv 0 0 0
              line3_ok Hmm Hp Hheld ltac:(intros; reflexivity)
              ltac:(vm_compute; lia) ltac:(vm_compute; lia)
              ltac:(vm_compute; lia)) as (Hkey & _ & _).
  split.
  - apply Hkey; [discriminate|]. vm_compute. intros [H|[]]. discriminate H.
  - destruct (Hsw 1 (or_introl eq_refl)) as [b [Hb Himp]].
    assert (Eb : b = true)
      by (assert (H : MIP.is_swapped (snd r) gv 0 1 1 0 = Ok true)
            by (vm_compute; reflexivity); congruence).
    subst b. split; [exact Hb|]. exact (Himp eq_refl).
Defined.

(** ** The objectives of the flat builder *)

(** The rows and the variables do not depend on the objective. *)
Lemma create_with_objective np_log math_log mm ls cs p ic obj :
  MIP.create_cpx_problem np_log math_log mm "depth" ls cs = Ok (p, ic) ->
  MIP.create_cpx_problem np_log math_log mm obj ls cs
  = bind (if String.eqb obj "error"
          then MIP.set_error_rate_obj np_log math_log ic
          else if String.eqb obj "depth" then Ok (MIP.set_depth_obj ic)
               else Raise TranspilerError)
         (fun o =>
            Ok ({| MIP.var_names := MIP.var_names p;
                   MIP.lower_bounds := MIP.lower_bounds p;
                   MIP.linear_constraints := MIP.linear_constraints p;
                   MIP.objective_linear := o |}, ic)).
Proof.
  intros H. unfold MIP.create_cpx_problem in *.
  bind_as H ic0 E0. rewrite E0. cbn [bind].
  bind_as H wn E1. rewrite E1. cbn [bind].
  bind_as H yn E2. rewrite E2. cbn [bind].
  bind_as H xn E3. rewrite E3. cbn [bind].
  bind_as H en E4. rewrite E4. cbn [bind].
  bind_as H r1 F1. rewrite F1. cbn [bind].
  bind_as H r2 F2. rewrite F2. cbn [bind].
  bind_as H r3 F3. rewrite F3. cbn [bind].
  bind_as H r4 F4. rewrite F4. cbn [bind].
  bind_as H r5 F5. rewrite F5. cbn [bind].
  bind_as H r6 F6. rewrite F6. cbn [bind].
  bind_as H r7 F7. rewrite F7. cbn [bind].
  bind_as H r8 F8. rewrite F8. cbn [bind].
  bind_as H r9 F9. rewrite F9. cbn [bind].
  bind_as H r10 F10. rewrite F10. cbn [bind].
  bind_as H r11 F11. rewrite F11. cbn [bind].
  bind_as H o Ho. injection H as <- <-. reflexivity.
Qed.

Lemma list_set_total {A} (l : list A) i v :
  i < length l -> exists l', MIP.list_set l i v = Ok l'.
Proof.
  revert i. induction l as [|x l IH]; intros i Hi; [simpl in Hi; lia|].
  destruct i as [|i]; cbn [MIP.list_set]; [eexists; reflexivity|].
  destruct (IH i ltac:(simpl in Hi; lia)) as [l' ->]. eexists. reflexivity.
Qed.

(** A step with a gate stops [set_error_rate_obj]: no fidelity was ever
    stored for the gate. *)
Lemma error_rate_gates_raises np_log ic t p0 q0 rest :
  MIP._gate_fidelity (MIP.qc ic) = [] ->
  p0 < MIP.num_lqubits ic -> q0 < MIP.num_lqubits ic ->
  MIP.error_rate_gates np_log ic t ((p0, q0) :: rest) = Raise KeyError.
Proof.
  intros Hfid Hp Hq. unfold MIP.error_rate_gates. cbn [fold_left bind fst].
  cbn [MIP.used_qubit].
  destruct (list_set_total (repeat false (MIP.num_lqubits ic)) p0 true
              ltac:(rewrite repeat_length; exact Hp)) as [u1 E1].
  rewrite E1. cbn [bind].
  destruct (list_set_total u1 q0 true
              ltac:(rewrite (list_set_length _ _ _ _ E1), repeat_length;
                    exact Hq)) as [u2 E2].
  rewrite E2. cbn [bind].
  unfold MIP.gate_fidelity. rewrite Hfid. cbn [MIP.dict_get bind].
  apply fold_left_raise. intros e [x y]. reflexivity.
Qed.

(** X4.  Suppose the flat builder builds a model with the objective
    ['depth'], for a circuit whose two-qubit gates act on qubits of the
    device.  Then with any objective other than ['error'] and ['depth']
    (so with ['error_rate'] and ['balanced'], which the docstring names)
    it raises [TranspilerError], after the rows were built; with ['error']
    it raises [KeyError] as soon as the circuit has a two-qubit gate,
    because [_gate_fidelity] is never filled; and for a circuit without
    two-qubit gates ['error'] gives the same, empty, objective as
    ['depth']. *)
Theorem flat_builder_objectives :
  forall np_log math_log dag c D mm ls cs p ic,
    MIP.init dag c D = Ok mm ->
    MIP.create_cpx_problem np_log math_log mm "depth" ls cs = Ok (p, ic) ->
    (forall lay nd, In lay (layers dag) -> In nd lay ->
                    qarg0 nd < size c /\ qarg1 nd < size c) ->
    (forall obj, obj <> "error"%string -> obj <> "depth"%string ->
       MIP.create_cpx_problem np_log math_log mm obj ls cs
       = Raise TranspilerError)
    /\ (real_layers dag <> [] ->
        MIP.create_cpx_problem np_log math_log mm "error" ls cs
        = Raise KeyError)
    /\ (real_layers dag = [] ->
        MIP.objective_linear p = []
        /\ MIP.create_cpx_problem np_log math_log mm "error" ls cs
           = Ok (p, ic)).
Proof.
  intros np_log math_log dag c D mm ls cs p ic Hmm Hp Hrange.
  pose proof (create_with_objective np_log math_log mm ls cs p ic) as Hobj.
  destruct (mip_create_ok _ _ _ _ _ _ _ _ Hp) as [Hic Hrest].
  destruct (init_IndexCalculator_ok _ _ _ Hic)
    as (Hqc & Hht & Hnl & _ & Hd & _).
  destruct (mip_init_ok _ _ _ _ Hmm) as (Hgates & _ & fid & Hfid).
  destruct (init_HardwareTopology_ok _ _ _ _ Hfid) as [Hn _].
  assert (Hgf : MIP._gate_fidelity (MIP.qc ic) = []).
  { rewrite Hqc. unfold MIP.init in Hmm. bind_as Hmm qc0 Hqc0.
    bind_as Hmm ht0 Hht0. injection Hmm as <-. cbn [MIP.circuit_model].
    unfold MIP.init_CircuitModel in Hqc0. bind_as Hqc0 ng Hng.
    injection Hqc0 as <-. reflexivity. }
  split; [|split].
  - intros obj H1 H2. rewrite (Hobj obj Hp).
    apply String.eqb_neq in H1, H2. rewrite H1, H2. reflexivity.
  - intros Hne. rewrite (Hobj "error"%string Hp).
    change (String.eqb "error" "error") with true. cbv iota.
    unfold MIP.set_error_rate_obj.
    destruct (real_layers dag) as [|lay0 rl] eqn:Erl; [congruence|].
    assert (Hin0 : In lay0 (layers dag)).
    { assert (H : In lay0 (real_layers dag)) by (rewrite Erl; left; reflexivity).
      apply filter_In in H. tauto. }
    assert (Hne0 : lay0 <> []).
    { pose proof (real_layers_nonempty dag) as Hall. rewrite Erl in Hall.
      apply Forall_inv in Hall. destruct lay0; [discriminate | discriminate]. }
    destruct lay0 as [|nd lay0]; [congruence|].
    assert (Hg0 : exists gs,
               MIP.gates (MIP.qc ic) = (pair_of nd :: map pair_of lay0) :: gs).
    { rewrite Hqc, Hgates. cbn [map]. destruct (map (map pair_of) rl);
        [eexists; reflexivity|].
      rewrite with_dummy_steps_cons. eexists. reflexivity. }
    destruct Hg0 as [gs Hg0].
    assert (Hdpos : MIP.ic_depth ic = S (length gs)).
    { rewrite Hd. unfold MIP.depth. rewrite <- Hqc, Hg0. reflexivity. }
    rewrite Hdpos. unfold range. cbn [seq]. rewrite flat_mapM_cons.
    unfold MIP.gates_at. rewrite Hg0.
    rewrite (py_index_ok _ 0 []) by (simpl; lia). cbn [nth bind].
    destruct (Hrange _ nd Hin0 (or_introl eq_refl)) as [H0 H1].
    unfold pair_of.
    rewrite (error_rate_gates_raises np_log ic 0 (qarg0 nd) (qarg1 nd));
      [reflexivity | exact Hgf | |]; rewrite Hnl, Hn; assumption.
  - intros Hnil.
    assert (Hd0 : MIP.ic_depth ic = 0).
    { rewrite Hd. unfold MIP.depth. rewrite Hgates, Hnil. reflexivity. }
    assert (Hdepth_obj : MIP.objective_linear p = []).
    { destruct Hrest as (wn & yn & xn & en & r1 & r2 & r3 & r4 & r5 & r6 & r7
                         & r8 & r9 & r10 & r11 & _ & _ & _ & _ & _ & _ & _ & _
                         & _ & _ & _ & _ & _ & _ & _ & _ & _ & _ & Ho).
      change (String.eqb "depth" "error") with false in Ho.
      change (String.eqb "depth" "depth") with true in Ho.
      injection Ho as <-. unfold MIP.set_depth_obj.
      destruct (init_IndexCalculator_ok _ _ _ Hic)
        as (_ & _ & _ & _ & _ & _ & _ & _ & _ & _ & _ & _ & _ & Hwd & _).
      rewrite Hwd, <- Hd, Hd0. reflexivity. }
    split; [exact Hdepth_obj|].
    rewrite (Hobj "error"%string Hp).
    change (String.eqb "error" "error") with true. cbv iota.
    unfold MIP.set_error_rate_obj. rewrite Hd0. cbn [range seq flat_mapM mapM bind concat].
    rewrite <- Hdepth_obj. destruct p. reflexivity.
Qed.

(** The theorem at [circuit2] on the line. *)
Lemma flat_builder_objectives_example :
  exists mm p ic,
    MIP.init circuit2 line3 1 = Ok mm
    /\ MIP.create_cpx_problem approx_log approx_log mm "depth" false false
       = Ok (p, ic)
    /\ MIP.create_cpx_problem approx_log approx_log mm "error" false false
       = Raise KeyError
    /\ MIP.create_cpx_problem approx_log approx_log mm "error_rate" false false
       = Raise TranspilerError
    /\ MIP.create_cpx_problem approx_log approx_log mm "balanced" false false
       = Raise TranspilerError.
Proof.
  pose (mm := ltac:(ok_value (MIP.init circuit2 line3 1))).
  pose (r := ltac:(ok_value (mip_on_line3 circuit2 1 "depth"))).
  assert (Hmm : MIP.init circuit2 line3 1 = Ok mm)
    by (vm_compute; reflexivity).
  assert (Hp : MIP.create_cpx_problem approx_log approx_log mm "depth"
                 false false = Ok (fst r, snd r))
    by (vm_compute; reflexivity).
  destruct (flat_builder_objectives approx_log approx_log circuit2 line3 1 mm
              false false (fst r) (snd r) Hmm Hp) as (Hother & Herr & _).
  { intros lay nd Hlay Hnd. apply (proj2 (circuit2_ok lay Hlay) nd Hnd). }
  exists mm, (fst r), (snd r).
  split; [exact Hmm|]. split; [exact Hp|].
  split; [apply Herr; vm_compute; discriminate|].
  split; apply Hother; discriminate.
Defined.

(** ** The columns of the flat model *)

(** Two variables of the model never share a column. *)
Lemma var_index_inj c ic v v' k :
  ic_ok c ic -> mip_key c ic v -> mip_key c ic v' ->
  var_index ic v = Ok k -> var_index ic v' = Ok k -> v = v'.
Proof.
  intros Hic Hv Hv' E E'.
  pose (a := fun u => if Var_eqb u v then 1%Z else 0%Z).
  pose proof (pull_push c ic a v Hic Hv) as H.
  pose proof (pull_push c ic a v' Hic Hv') as H'.
  unfold pull in H, H'. rewrite E in H. rewrite E' in H'.
  rewrite H in H'. unfold a in H'. rewrite Var_eqb_refl in H'.
  destruct (Var_eqb v' v) eqn:Eq; [|discriminate H'].
  apply Var_eqb_eq in Eq. congruence.
Qed.

Lemma x_index_key c ic q i j t k :
  ic_ok c ic -> q < size c -> t < MIP.ic_depth ic - 1 ->
  MIP.x_index ic q i j t = Ok k -> mip_key c ic (X t q i j).
Proof.
  intros Hic Hq Ht Hk. destruct (x_index_inv c ic Hic _ _ _ _ _ Hk)
    as [Hi [pos [_ Hpos]]].
  cbn [mip_key]. split; [exact Ht|]. split; [exact Hq|]. split; [exact Hi|].
  destruct Hpos as [(_ & _ & H)|[_ H]]; [right | left; exact H].
  apply nth_error_In in H. exact H.
Qed.

Lemma y_index_key c ic t p q i j k :
  ic_ok c ic ->
  MIP.y_index ic t (p, q) (i, j) = Ok k -> mip_key c ic (Y t p q i j).
Proof.
  intros Hic Hk. destruct (y_index_gate c ic Hic _ _ _ _ _ _ Hk)
    as (Ht & Hg & Ha).
  cbn [mip_key]. split; [exact Ht|]. split; [exact Hg | exact Ha].
Qed.

(** X5.  For the index calculator of a model over a symmetric coupling
    map: the five families of variables lie in five consecutive blocks of
    columns (w, y, x, w^d, e^u, in this order, the last ending at
    [eu_start + num_eu_vars]), and inside each block the index function is
    injective on the variables of the model, so that no two variables share
    a column. *)
Theorem index_calculator_columns :
  forall dag c D mm ic,
    coupling_ok c ->
    MIP.init dag c D = Ok mm ->
    MIP.init_IndexCalculator (MIP.circuit_model mm) (MIP.toplogy_model mm)
    = Ok ic ->
    let n := size c in
    let d := MIP.ic_depth ic in
    (forall q j t, q < n -> j < n -> t < d ->
       MIP.w_index ic q j t < MIP.y_start ic)
    /\ (forall t g a k, MIP.y_index ic t g a = Ok k ->
          MIP.y_start ic <= k < MIP.x_start ic)
    /\ (forall q i j t k, q < n -> t < d - 1 ->
          MIP.x_index ic q i j t = Ok k ->
          MIP.x_start ic <= k < MIP.wd_start ic)
    /\ (forall t, t < d ->
          MIP.wd_start ic <= MIP.wd_index ic t < MIP.eu_start ic)
    /\ (forall t e k, t < d - 1 -> MIP.eu_index ic t e = Ok k ->
          MIP.eu_start ic <= k < MIP.eu_start ic + MIP.num_eu_vars ic)
    /\ (forall q j t q' j' t',
          q < n -> j < n -> t < d -> q' < n -> j' < n -> t' < d ->
          MIP.w_index ic q j t = MIP.w_index ic q' j' t' ->
          q = q' /\ j = j' /\ t = t')
    /\ (forall t g a t' g' a' k,
          MIP.y_index ic t g a = Ok k -> MIP.y_index ic t' g' a' = Ok k ->
          t = t' /\ g = g' /\ a = a')
    /\ (forall q i j t q' i' j' t' k,
          q < n -> t < d - 1 -> q' < n -> t' < d - 1 ->
          MIP.x_index ic q i j t = Ok k -> MIP.x_index ic q' i' j' t' = Ok k ->
          q = q' /\ i = i' /\ j = j' /\ t = t')
    /\ (forall t e t' e' k,
          t < d - 1 -> t' < d - 1 ->
          MIP.eu_index ic t e = Ok k -> MIP.eu_index ic t' e' = Ok k ->
          t = t' /\ e = e').
Proof.
  intros dag c D mm ic Hc Hmm Hic0 n d.
  pose proof (same_ic_ok dag c D mm ic Hc Hmm Hic0) as Hic.
  pose proof (io_y_start _ _ Hic) as Hys.
  pose proof (io_x_start _ _ Hic) as Hxs.
  pose proof (io_wd_start _ _ Hic) as Hws.
  pose proof (io_eu_start _ _ Hic) as Hes.
  pose proof (io_num_eu _ _ Hic) as Hne.
  pose proof (to_num_edges _ _ (io_ht _ _ Hic)) as Hedges.
  assert (Heu : forall t e k, MIP.eu_index ic t e = Ok k ->
                  exists idx, k = MIP.eu_start ic
                                  + t * MIP.num_edges (MIP.ht ic) + idx
                              /\ idx < MIP.num_edges (MIP.ht ic)
                              /\ nth idx (MIP.edges (MIP.ht ic)) (0, 0) = e).
  { intros t e k Hk. unfold MIP.eu_index in Hk. bind_as Hk idx Hidx.
    injection Hk as <-.
    destruct (edge_index_nth ic c e idx (io_ht _ _ Hic) Hidx) as [Hlt Hnth].
    exists idx. rewrite Hedges. auto. }
  repeat split.
  - intros q j t Hq Hj Ht.
    destruct (var_index_bound c ic (W t q j) _ Hic ltac:(cbn; auto) eq_refl)
      as [_ H]. lia.
  - destruct g as [p0 q0], a as [i j].
    pose proof (y_index_key c ic _ _ _ _ _ _ Hic H) as Hk.
    destruct (var_index_bound c ic (Y t p0 q0 i j) k Hic
                (mip_key_in_model c ic _ Hk) H) as [_ Hb]. lia.
  - destruct g as [p0 q0], a as [i j].
    pose proof (y_index_key c ic _ _ _ _ _ _ Hic H) as Hk.
    destruct (var_index_bound c ic (Y t p0 q0 i j) k Hic
                (mip_key_in_model c ic _ Hk) H) as [_ Hb]. lia.
  - destruct (var_index_bound c ic (X t q i j) k Hic ltac:(cbn; auto) H1)
      as [_ Hb]. lia.
  - destruct (var_index_bound c ic (X t q i j) k Hic ltac:(cbn; auto) H1)
      as [_ Hb]. lia.
  - unfold MIP.wd_index. lia.
  - unfold MIP.wd_index. fold d in Hes. lia.
  - destruct (Heu _ _ _ H0) as (idx & -> & _). lia.
  - destruct (Heu _ _ _ H0) as (idx & -> & Hidx & _). rewrite Hne.
    fold d. rewrite <- Hedges.
    pose proof (mul_lt_pack t idx (d - 1) (MIP.num_edges (MIP.ht ic)) H Hidx).
    nia.
  - assert (E : W t q j = W t' q' j')
      by (apply (var_index_inj c ic _ _ (MIP.w_index ic q j t) Hic);
          [cbn; auto | cbn; auto | reflexivity | cbn [var_index]; congruence]).
    injection E as _ E _. exact E.
  - assert (E : W t q j = W t' q' j')
      by (apply (var_index_inj c ic _ _ (MIP.w_index ic q j t) Hic);
          [cbn; auto | cbn; auto | reflexivity | cbn [var_index]; congruence]).
    injection E as _ _ E. exact E.
  - assert (E : W t q j = W t' q' j')
      by (apply (var_index_inj c ic _ _ (MIP.w_index ic q j t) Hic);
          [cbn; auto | cbn; auto | reflexivity | cbn [var_index]; congruence]).
    injection E as E _ _. exact E.
  - destruct g as [p0 q0], a as [i j], g' as [p1 q1], a' as [i' j'].
    assert (E : Y t p0 q0 i j = Y t' p1 q1 i' j')
      by (apply (var_index_inj c ic _ _ k Hic);
          [eapply y_index_key; eassumption | eapply y_index_key; eassumption
           | assumption | assumption]).
    injection E as E _ _ _ _. exact E.
  - destruct g as [p0 q0], a as [i j], g' as [p1 q1], a' as [i' j'].
    assert (E : Y t p0 q0 i j = Y t' p1 q1 i' j')
      by (apply (var_index_inj c ic _ _ k Hic);
          [eapply y_index_key; eassumption | eapply y_index_key; eassumption
           | assumption | assumption]).
    injection E as _ E1 E2 _ _. congruence.
  - destruct g as [p0 q0], a as [i j], g' as [p1 q1], a' as [i' j'].
    assert (E : Y t p0 q0 i j = Y t' p1 q1 i' j')
      by (apply (var_index_inj c ic _ _ k Hic);
          [eapply y_index_key; eassumption | eapply y_index_key; eassumption
           | assumption | assumption]).
    injection E as _ _ _ E1 E2. congruence.
  - assert (E : X t q i j = X t' q' i' j')
      by (apply (var_index_inj c ic _ _ k Hic);
          [eapply x_index_key; eassumption | eapply x_index_key; eassumption
           | assumption | assumption]).
    injection E as _ E _ _. exact E.
  - assert (E : X t q i j = X t' q' i' j')
      by (apply (var_index_inj c ic _ _ k Hic);
          [eapply x_index_key; eassumption | eapply x_index_key; eassumption
           | assumption | assumption]).
    injection E as _ _ E _. exact E.
  - assert (E : X t q i j = X t' q' i' j')
      by (apply (var_index_inj c ic _ _ k Hic);
          [eapply x_index_key; eassumption | eapply x_index_key; eassumption
           | assumption | assumption]).
    injection E as _ _ _ E. exact E.
  - assert (E : X t q i j = X t' q' i' j')
      by (apply (var_index_inj c ic _ _ k Hic);
          [eapply x_index_key; eassumption | eapply x_index_key; eassumption
           | assumption | assumption]).
    injection E as E _ _ _. exact E.
  - destruct (Heu _ _ _ H1) as (idx & Hk & Hidx & _).
    destruct (Heu _ _ _ H2) as (idx' & Hk' & Hidx' & _).
    assert (E : t * MIP.num_edges (MIP.ht ic) + idx
                = t' * MIP.num_edges (MIP.ht ic) + idx') by lia.
    destruct (pack_div t idx _ Hidx) as [Ed _].
    destruct (pack_div t' idx' _ Hidx') as [Ed' _]. congruence.
  - destruct (Heu _ _ _ H1) as (idx & Hk & Hidx & He).
    destruct (Heu _ _ _ H2) as (idx' & Hk' & Hidx' & He').
    assert (E : t * MIP.num_edges (MIP.ht ic) + idx
                = t' * MIP.num_edges (MIP.ht ic) + idx') by lia.
    destruct (pack_div t idx _ Hidx) as [_ Em].
    destruct (pack_div t' idx' _ Hidx') as [_ Em']. congruence.
Qed.

(** The theorem at [circuit2] on the line with one dummy step: the column
    of [x] for logical qubit 2 moving from 1 to 2 at step 0 lies in the
    block of the [x] variables, and no other move has it. *)
Lemma index_calculator_columns_example :
  exists mm ic k,
    MIP.init circuit2 line3 1 = Ok mm
    /\ MIP.init_IndexCalculator (MIP.circuit_model mm) (MIP.toplogy_model mm)
       = Ok ic
    /\ MIP.x_index ic 2 1 2 0 = Ok k
    /\ MIP.x_start ic <= k < MIP.wd_start ic
    /\ forall q' i' j' t',
         q' < 3 -> t' < 2 -> MIP.x_index ic q' i' j' t' = Ok k ->
         2 = q' /\ 1 = i' /\ 2 = j' /\ 0 = t'.
Proof.
  pose (mm := ltac:(ok_value (MIP.init circuit2 line3 1))).
  pose (ic := ltac:(ok_value
                      (MIP.init_IndexCalculator (MIP.circuit_model mm)
                         (MIP.toplogy_model mm)))).
  pose (k := ltac:(ok_value (MIP.x_index ic 2 1 2 0))).
  assert (Hmm : MIP.init circuit2 line3 1 = Ok mm)
    by (vm_compute; reflexivity).
  assert (Hic : MIP.init_IndexCalculator (MIP.circuit_model mm)
                  (MIP.toplogy_model mm) = Ok ic)
    by (vm_compute; reflexivity).
  assert (Hk : MIP.x_index ic 2 1 2 0 = Ok k) by (vm_compute; reflexivity).
  destruct (index_calculator_columns circuit2 line3 1 mm ic line3_ok Hmm Hic)
    as (_ & _ & Hx & _ & _ & _ & _ & Hxi & _).
  exists mm, ic, k. split; [exact Hmm|]. split; [exact Hic|].
  split; [exact Hk|].
  split; [apply (Hx 2 1 2 0 k); [vm_compute; lia | vm_compute; lia | exact Hk]|].
  intros q' i' j' t' Hq' Ht' Hk'.
  apply (Hxi 2 1 2 0 q' i' j' t' k); try assumption; vm_compute; lia.
Defined.

(** ** The names of the columns *)

(** What position [k] holds after the stores, oldest first. *)
Definition last_store {V} (stores : list (nat * V)) (k : nat)
  (init : option V) : option V :=
  fold_left
    (fun acc (s : nat * V) => if fst s =? k then Some (snd s) else acc)
    stores init.

Lemma store_names_nth n stores l k :
  MIP.store_names n stores = Ok l -> k < n ->
  nth k l None = last_store stores k None.
Proof.
  unfold MIP.store_names, last_store.
  assert (Hgen : forall l0,
            fold_left
              (fun (acc : result (list (option MIP.VarName)))
                   (s : nat * MIP.VarName) =>
                 bind acc (fun l1 => MIP.list_set l1 (fst s) (Some (snd s))))
              stores (Ok l0) = Ok l ->
            k < length l0 ->
            nth k l None
            = fold_left
                (fun acc (s : nat * MIP.VarName) =>
                   if fst s =? k then Some (snd s) else acc)
                stores (nth k l0 None)).
  { induction stores as [|s stores IH]; intros l0 H Hk.
    - simpl in H. injection H as <-. reflexivity.
    - cbn [fold_left bind] in H |- *.
      destruct (MIP.list_set l0 (fst s) (Some (snd s))) as [l1|e] eqn:E.
      + destruct (list_set_nth _ _ _ _ None E) as (_ & Hlen & Hat & Hoth).
        rewrite (IH l1 H ltac:(lia)). f_equal.
        destruct (Nat.eqb_spec (fst s) k) as [<-|Hne]; [exact Hat|].
        apply Hoth. congruence.
      + rewrite fold_left_raise in H by reflexivity. discriminate H. }
  intros H Hk. rewrite (Hgen _ H) by (rewrite repeat_length; exact Hk).
  f_equal. apply nth_repeat_lt. exact Hk.
Qed.

Lemma last_store_cases {V} (stores : list (nat * V)) k nm init :
  (forall nm', In (k, nm') stores -> nm' = nm) ->
  last_store stores k init = Some nm
  \/ (last_store stores k init = init /\ forall nm', ~ In (k, nm') stores).
Proof.
  unfold last_store. revert init.
  induction stores as [|[k0 v] stores IH]; intros init H.
  - right. split; [reflexivity | intros nm' []].
  - cbn [fold_left fst snd].
    destruct (IH (if k0 =? k then Some v else init)
                ltac:(intros nm' Hin; apply H; right; exact Hin))
      as [E|[E Hno]]; [left; exact E|].
    destruct (Nat.eqb_spec k0 k) as [->|Hne].
    + left. rewrite E. f_equal. apply H. left. reflexivity.
    + right. split; [exact E|]. intros nm' [Hin|Hin];
        [congruence | exact (Hno nm' Hin)].
Qed.

Lemma last_store_one {V} (stores : list (nat * V)) k nm :
  In (k, nm) stores -> (forall nm', In (k, nm') stores -> nm' = nm) ->
  last_store stores k None = Some nm.
Proof.
  intros Hin H. destruct (last_store_cases stores k nm None H) as [E|[_ Hno]];
    [exact E | destruct (Hno nm Hin)].
Qed.

Lemma last_store_none {V} (stores : list (nat * V)) k :
  (forall nm, ~ In (k, nm) stores) -> last_store stores k None = None.
Proof.
  unfold last_store. generalize (@None V).
  induction stores as [|[k0 v] stores IH]; intros init H; [reflexivity|].
  cbn [fold_left fst snd].
  destruct (Nat.eqb_spec k0 k) as [->|Hne];
    [destruct (H v); left; reflexivity|].
  apply IH. intros nm Hin. apply (H nm). right. exact Hin.
Qed.

Lemma nth_error_app_at {A} (l1 l2 : list A) n k :
  length l1 = n -> nth_error (l1 ++ l2) (n + k) = nth_error l2 k.
Proof.
  intros <-. rewrite nth_error_app2 by lia. f_equal. lia.
Qed.

Definition eu_i (ic : MIP._IndexCalculator) (t : nat) (e : nat * nat) : nat :=
  match MIP.eu_index ic t e with Ok k => k | Raise _ => 0 end.

Section Names.

Variable c : CouplingMap.
Variable ic : MIP._IndexCalculator.
Hypothesis Hc : coupling_ok c.
Hypothesis Hic : ic_ok c ic.

Let n := size c.
Let d := MIP.ic_depth ic.
Let h := MIP.ht ic.

Definition w_stores : list (nat * MIP.VarName) :=
  flat_map
    (fun l =>
       flat_map
         (fun p =>
            map (fun t => (MIP.w_index ic l p t, MIP.w_name l p t))
                (range (MIP.ic_depth ic)))
         (range (MIP.num_pqubits ic)))
    (range (MIP.num_lqubits ic)).

Definition y_stores : list (nat * MIP.VarName) :=
  flat_map
    (fun t =>
       flat_map
         (fun g : nat * nat =>
            map (fun a : nat * nat =>
                   (yi ic t (fst g) (snd g) (fst a) (snd a) - MIP.y_start ic,
                    MIP.y_name t (fst g) (snd g) (fst a) (snd a)))
                (MIP.arcs (MIP.ht ic)))
         (mip_gates ic t))
    (range (MIP.ic_depth ic)).

Definition x_stores : list (nat * MIP.VarName) :=
  flat_map
    (fun q =>
       flat_map
         (fun i =>
            flat_map
              (fun j =>
                 map (fun t => (xi ic q i j t - MIP.x_start ic,
                                MIP.x_name q i j t))
                     (range (MIP.ic_depth ic - 1)))
              (out_of (MIP.ht ic) i))
         (range (MIP.num_pqubits ic)))
    (range (MIP.num_lqubits ic)).

Definition eu_stores : list (nat * MIP.VarName) :=
  flat_map
    (fun t =>
       map (fun e : nat * nat =>
              (eu_i ic t e - MIP.eu_start ic, MIP.eu_name t (fst e) (snd e)))
           (MIP.edges (MIP.ht ic)))
    (range (MIP.ic_depth ic - 1)).

Lemma y_names_ok yn :
  MIP.y_names ic = Ok yn ->
  MIP.store_names (MIP.num_y_vars ic) y_stores = Ok yn.
Proof.
  unfold MIP.y_names. intros H. bind_as H stores Hs.
  assert (E : stores = y_stores); [|subst stores; exact H].
  revert Hs. unfold y_stores. apply flat_mapM_pure.
  intros t b _ H1. bind_as H1 lay Hlay. apply mip_gates_at in Hlay.
  destruct Hlay as [_ ->]. revert H1. apply flat_mapM_pure.
  intros [p0 q0] b1 _ H2. revert H2. apply mapM_pure.
  intros [i j] b2 _ H3. bind_as H3 k Hk. injection H3 as <-. cbn [fst snd].
  rewrite (yi_ok _ _ _ _ _ _ _ Hk). reflexivity.
Qed.

Lemma x_names_ok xn :
  MIP.x_names ic = Ok xn ->
  MIP.store_names (MIP.num_x_vars ic) x_stores = Ok xn.
Proof.
  unfold MIP.x_names. intros H. bind_as H stores Hs.
  assert (E : stores = x_stores); [|subst stores; exact H].
  revert Hs. unfold x_stores. apply flat_mapM_pure.
  intros q b _ H1. revert H1. apply flat_mapM_pure.
  intros i b1 _ H2. bind_as H2 out Hout. unfold MIP.nth_outstar in Hout.
  apply (py_index_inv _ _ _ []) in Hout. destruct Hout as [_ ->].
  fold (out_of (MIP.ht ic) i) in H2. revert H2. apply flat_mapM_pure.
  intros j b2 _ H3. revert H3. apply mapM_pure.
  intros t b3 _ H4. bind_as H4 k Hk. injection H4 as <-.
  rewrite (xi_ok _ _ _ _ _ _ Hk). reflexivity.
Qed.

Lemma eu_names_ok en :
  MIP.eu_names ic = Ok en ->
  MIP.store_names (MIP.num_eu_vars ic) eu_stores = Ok en.
Proof.
  unfold MIP.eu_names. intros H. bind_as H stores Hs.
  assert (E : stores = eu_stores); [|subst stores; exact H].
  revert Hs. unfold eu_stores. apply flat_mapM_pure.
  intros t b _ H1. revert H1. apply mapM_pure.
  intros e b1 _ H2. bind_as H2 k Hk. injection H2 as <-.
  unfold eu_i. rewrite Hk. reflexivity.
Qed.

Lemma in_w_stores k nm :
  In (k, nm) w_stores <->
  exists l p t, l < n /\ p < n /\ t < d
                /\ k = MIP.w_index ic l p t /\ nm = MIP.w_name l p t.
Proof.
  unfold w_stores. rewrite (io_nl _ _ Hic), (io_np _ _ Hic). fold n d.
  rewrite in_flat_map. split.
  - intros [l [Hl H]]. apply in_flat_map in H. destruct H as [p0 [Hp0 H]].
    apply in_map_iff in H. destruct H as [t [E Ht]].
    apply in_range in Hl, Hp0, Ht. injection E as <- <-.
    exists l, p0, t. auto.
  - intros (l & p0 & t & Hl & Hp0 & Ht & -> & ->).
    exists l. split; [apply in_range; exact Hl|]. apply in_flat_map.
    exists p0. split; [apply in_range; exact Hp0|]. apply in_map_iff.
    exists t. split; [reflexivity | apply in_range; exact Ht].
Qed.

Lemma in_y_stores k nm :
  In (k, nm) y_stores <->
  exists t p q i j kk,
    MIP.y_index ic t (p, q) (i, j) = Ok kk
    /\ k = kk - MIP.y_start ic /\ nm = MIP.y_name t p q i j.
Proof.
  unfold y_stores. rewrite in_flat_map. split.
  - intros [t [Ht H]]. apply in_flat_map in H. destruct H as [[p0 q0] [Hg H]].
    apply in_map_iff in H. destruct H as [[i j] [E Ha]]. cbn [fst snd] in E.
    apply in_range in Ht. injection E as <- <-.
    destruct (y_index_total c ic Hic t p0 q0 i j Ht Hg Ha) as [kk Hkk].
    exists t, p0, q0, i, j, kk. rewrite (yi_ok _ _ _ _ _ _ _ Hkk). auto.
  - intros (t & p0 & q0 & i & j & kk & Hkk & -> & ->).
    destruct (y_index_gate c ic Hic _ _ _ _ _ _ Hkk) as (Ht & Hg & Ha).
    exists t. split; [apply in_range; exact Ht|]. apply in_flat_map.
    exists (p0, q0). split; [exact Hg|]. apply in_map_iff.
    exists (i, j). cbn [fst snd]. rewrite (yi_ok _ _ _ _ _ _ _ Hkk).
    split; [reflexivity | exact Ha].
Qed.

Lemma in_x_stores k nm :
  In (k, nm) x_stores <->
  exists q i j t kk,
    q < n /\ i < n /\ In j (out_of h i) /\ t < d - 1
    /\ MIP.x_index ic q i j t = Ok kk
    /\ k = kk - MIP.x_start ic /\ nm = MIP.x_name q i j t.
Proof.
  unfold x_stores. rewrite (io_nl _ _ Hic), (io_np _ _ Hic). fold n d h.
  rewrite in_flat_map. split.
  - intros [q [Hq H]]. apply in_flat_map in H. destruct H as [i [Hi H]].
    apply in_flat_map in H. destruct H as [j [Hj H]].
    apply in_map_iff in H. destruct H as [t [E Ht]].
    apply in_range in Hq, Hi, Ht. injection E as <- <-.
    destruct (x_index_total c ic Hic q i j t Hi (or_intror Hj)) as [kk Hkk].
    exists q, i, j, t, kk. rewrite (xi_ok _ _ _ _ _ _ Hkk). auto 10.
  - intros (q & i & j & t & kk & Hq & Hi & Hj & Ht & Hkk & -> & ->).
    exists q. split; [apply in_range; exact Hq|]. apply in_flat_map.
    exists i. split; [apply in_range; exact Hi|]. apply in_flat_map.
    exists j. split; [exact Hj|]. apply in_map_iff.
    exists t. rewrite (xi_ok _ _ _ _ _ _ Hkk).
    split; [reflexivity | apply in_range; exact Ht].
Qed.

Lemma eu_index_total t e :
  In e (MIP.edges h) -> exists k, MIP.eu_index ic t e = Ok k.
Proof.
  intros He. unfold MIP.eu_index, MIP.edge_to_index.
  rewrite (to_edge_index _ _ (io_ht _ _ Hic)).
  destruct (dict_get_numbered_total MIP.pair_eqb (MIP.edges (MIP.ht ic)) 0 e
              pair_eqb_eq He) as [v Hv].
  rewrite Hv. eexists. reflexivity.
Qed.

Lemma in_eu_stores k nm :
  In (k, nm) eu_stores <->
  exists t e kk,
    t < d - 1 /\ In e (MIP.edges h) /\ MIP.eu_index ic t e = Ok kk
    /\ k = kk - MIP.eu_start ic /\ nm = MIP.eu_name t (fst e) (snd e).
Proof.
  unfold eu_stores. fold d h. rewrite in_flat_map. split.
  - intros [t [Ht H]]. apply in_map_iff in H. destruct H as [e [E He]].
    apply in_range in Ht. injection E as <- <-.
    destruct (eu_index_total t e He) as [kk Hkk].
    exists t, e, kk. unfold eu_i. rewrite Hkk. auto.
  - intros (t & e & kk & Ht & He & Hkk & -> & ->).
    exists t. split; [apply in_range; exact Ht|]. apply in_map_iff.
    exists e. unfold eu_i. rewrite Hkk. split; [reflexivity | exact He].
Qed.

End Names.

Lemma store_names_at n stores l k :
  MIP.store_names n stores = Ok l -> k < n ->
  nth_error l k = Some (last_store stores k None).
Proof.
  intros H Hk. rewrite <- (store_names_nth n stores l k H Hk).
  apply nth_error_nth'. rewrite (store_names_length _ _ _ H). exact Hk.
Qed.

Lemma eu_index_inj c ic t e t' e' k :
  ic_ok c ic ->
  MIP.eu_index ic t e = Ok k -> MIP.eu_index ic t' e' = Ok k ->
  t = t' /\ e = e'.
Proof.
  intros Hic H H'. unfold MIP.eu_index in H, H'.
  bind_as H idx Hidx. bind_as H' idx' Hidx'.
  injection H as <-. injection H' as H'.
  destruct (edge_index_nth ic c e idx (io_ht _ _ Hic) Hidx) as [Hlt He].
  destruct (edge_index_nth ic c e' idx' (io_ht _ _ Hic) Hidx') as [Hlt' He'].
  rewrite <- (to_num_edges _ _ (io_ht _ _ Hic)) in Hlt, Hlt'.
  assert (E : t * MIP.num_edges (MIP.ht ic) + idx
              = t' * MIP.num_edges (MIP.ht ic) + idx') by lia.
  destruct (pack_div t idx _ Hlt) as [Ed Em].
  destruct (pack_div t' idx' _ Hlt') as [Ed' Em'].
  split; congruence.
Qed.

(** X6.  In the problem the flat builder returns, the name list given to
    Cplex holds, at the column of every [w], [y], [w^d] and [e^u] variable
    and of every [x] variable of a move along an arc, the name of that
    variable ([w_l_p_t], [y_t_p_q_i_j], [w_t], [eu_t_i_j], [x_q_i_j_t]).
    The columns of the [x] variables of a qubit that stays where it is
    ([j = i]) get no name: the loop of lines 167-177 runs over the
    out-star of [i] only, and the list keeps its [None] there. *)
Theorem column_names :
  forall mip_log math_log dag c D mm mobj ls cs p ic,
    coupling_ok c ->
    MIP.init dag c D = Ok mm ->
    MIP.create_cpx_problem mip_log math_log mm mobj ls cs = Ok (p, ic) ->
    let n := size c in
    let d := MIP.ic_depth ic in
    (forall l q t, l < n -> q < n -> t < d ->
       nth_error (MIP.var_names p) (MIP.w_index ic l q t)
       = Some (Some (MIP.w_name l q t)))
    /\ (forall t g a k, MIP.y_index ic t g a = Ok k ->
          nth_error (MIP.var_names p) k
          = Some (Some (MIP.y_name t (fst g) (snd g) (fst a) (snd a))))
    /\ (forall q i j t k, q < n -> t < d - 1 ->
          MIP.x_index ic q i j t = Ok k ->
          nth_error (MIP.var_names p) k
          = Some (if j =? i then None else Some (MIP.x_name q i j t)))
    /\ (forall t, t < d ->
          nth_error (MIP.var_names p) (MIP.wd_index ic t)
          = Some (Some (MIP.wd_name t)))
    /\ (forall t e k, t < d - 1 -> MIP.eu_index ic t e = Ok k ->
          nth_error (MIP.var_names p) k
          = Some (Some (MIP.eu_name t (fst e) (snd e)))).
Proof.
  intros mip_log math_log dag c D mm mobj ls cs p ic Hc Hmm Hp n d.
  pose proof (same_ic_ok dag c D mm ic Hc Hmm (built_ic _ _ _ _ _ _ _ _ Hp))
    as Hic.
  destruct (mip_create_ok _ _ _ _ _ _ _ _ Hp) as [_ Hrest].
  destruct Hrest as (wn & yn & xn & en & r1 & r2 & r3 & r4 & r5 & r6 & r7
                     & r8 & r9 & r10 & r11 & Hwn & Hyn & Hxn & Hen & _ & _
                     & _ & _ & _ & _ & _ & _ & _ & _ & _ & Hvars & _).
  apply (y_names_ok ic) in Hyn. apply (x_names_ok ic) in Hxn.
  apply (eu_names_ok ic) in Hen. unfold MIP.w_names in Hwn.
  fold (w_stores ic) in Hwn.
  pose proof (store_names_length _ _ _ Hwn) as Lw.
  pose proof (store_names_length _ _ _ Hyn) as Ly.
  pose proof (store_names_length _ _ _ Hxn) as Lx.
  assert (Ld : length (MIP.wd_names ic) = d)
    by (unfold MIP.wd_names; rewrite length_map; unfold range;
        apply length_seq).
  pose proof (io_y_start _ _ Hic) as Hys.
  pose proof (io_x_start _ _ Hic) as Hxs.
  pose proof (io_wd_start _ _ Hic) as Hws.
  pose proof (io_eu_start _ _ Hic) as Hes.
  rewrite Hvars. repeat split.
  - intros l q t Hl Hq Ht.
    destruct (var_index_bound c ic (W t l q) _ Hic ltac:(cbn; auto) eq_refl)
      as [_ Hb].
    rewrite nth_error_app1 by lia.
    rewrite (store_names_at _ _ _ _ Hwn Hb). f_equal.
    apply last_store_one.
    + apply (in_w_stores c ic Hic). exists l, q, t. auto.
    + intros nm' Hin. apply (in_w_stores c ic Hic) in Hin.
      destruct Hin as (l' & q' & t' & Hl' & Hq' & Ht' & E & ->).
      assert (E' : W t l q = W t' l' q')
        by (apply (var_index_inj c ic _ _ (MIP.w_index ic l q t) Hic);
            [cbn; auto | cbn; auto | reflexivity
             | cbn [var_index]; congruence]).
      injection E' as -> -> ->. reflexivity.
  - intros t [p0 q0] [i j] k Hk. cbn [fst snd].
    pose proof (y_index_key c ic _ _ _ _ _ _ Hic Hk) as Hkey.
    destruct (var_index_bound c ic (Y t p0 q0 i j) k Hic
                (mip_key_in_model c ic _ Hkey) Hk) as [_ Hb].
    replace k with (MIP.num_w_vars ic + (k - MIP.y_start ic)) at 1 by lia.
    rewrite (nth_error_app_at _ _ _ _ Lw), nth_error_app1 by lia.
    rewrite (store_names_at _ _ _ _ Hyn) by lia. f_equal.
    apply last_store_one.
    + apply (in_y_stores c ic Hic). exists t, p0, q0, i, j, k. auto.
    + intros nm' Hin. apply (in_y_stores c ic Hic) in Hin.
      destruct Hin as (t' & p1 & q1 & i' & j' & kk & Hkk & E & ->).
      pose proof (y_index_key c ic _ _ _ _ _ _ Hic Hkk) as Hkey'.
      destruct (var_index_bound c ic (Y t' p1 q1 i' j') kk Hic
                  (mip_key_in_model c ic _ Hkey') Hkk) as [_ Hb'].
      assert (kk = k) by lia. subst kk.
      assert (E' : Y t p0 q0 i j = Y t' p1 q1 i' j')
        by (apply (var_index_inj c ic _ _ k Hic); assumption).
      injection E' as -> -> -> -> ->. reflexivity.
  - intros q i j t k Hq Ht Hk.
    pose proof (x_index_key c ic _ _ _ _ _ Hic Hq Ht Hk) as Hkey.
    destruct (var_index_bound c ic (X t q i j) k Hic
                (mip_key_in_model c ic _ Hkey) Hk) as [_ Hb].
    replace k
      with (MIP.num_w_vars ic + (MIP.num_y_vars ic + (k - MIP.x_start ic)))
      at 1 by lia.
    rewrite (nth_error_app_at _ _ _ _ Lw), (nth_error_app_at _ _ _ _ Ly),
            nth_error_app1 by lia.
    rewrite (store_names_at _ _ _ _ Hxn) by lia. f_equal.
    assert (Hcase : forall q' i' j' t' kk,
              q' < size c -> t' < MIP.ic_depth ic - 1 ->
              MIP.x_index ic q' i' j' t' = Ok kk ->
              kk - MIP.x_start ic = k - MIP.x_start ic ->
              X t q i j = X t' q' i' j').
    { intros q' i' j' t' kk Hq' Ht' Hkk E.
      pose proof (x_index_key c ic _ _ _ _ _ Hic Hq' Ht' Hkk) as Hkey'.
      destruct (var_index_bound c ic (X t' q' i' j') kk Hic
                  (mip_key_in_model c ic _ Hkey') Hkk) as [_ Hb'].
      assert (kk = k) by lia. subst kk.
      apply (var_index_inj c ic _ _ k Hic); assumption. }
    assert (Hself : forall i', i' < size c ->
                               ~ In i' (out_of (MIP.ht ic) i')).
    { intros i' Hi' Hin.
      apply (to_out _ _ (io_ht _ _ Hic) i' i' Hi') in Hin.
      apply (to_arcs _ _ (io_ht _ _ Hic)) in Hin.
      exact (co_loop _ Hc i' Hin). }
    destruct (Nat.eqb_spec j i) as [->|Hne].
    + apply last_store_none. intros nm Hin.
      apply (in_x_stores c ic Hic) in Hin.
      destruct Hin as (q' & i' & j' & t' & kk & Hq' & Hi' & Hj' & Ht' & Hkk
                       & E & _).
      pose proof (Hcase q' i' j' t' kk Hq' Ht' Hkk (eq_sym E)) as E'.
      injection E' as _ _ E1 E2. rewrite <- E2, <- E1 in Hj'.
      rewrite <- E1 in Hi'. exact (Hself i Hi' Hj').
    + apply last_store_one.
      * apply (in_x_stores c ic Hic). exists q, i, j, t, k.
        destruct Hkey as (_ & _ & Hi & [Hj|Hj]); [congruence|]. auto 10.
      * intros nm' Hin. apply (in_x_stores c ic Hic) in Hin.
        destruct Hin as (q' & i' & j' & t' & kk & Hq' & Hi' & Hj' & Ht' & Hkk
                         & E & ->).
        pose proof (Hcase q' i' j' t' kk Hq' Ht' Hkk (eq_sym E)) as E'.
        injection E' as -> -> -> ->. reflexivity.
  - intros t Ht. unfold MIP.wd_index.
    replace (MIP.wd_start ic + t)
      with (MIP.num_w_vars ic + (MIP.num_y_vars ic + (MIP.num_x_vars ic + t)))
      by lia.
    rewrite (nth_error_app_at _ _ _ _ Lw), (nth_error_app_at _ _ _ _ Ly),
            (nth_error_app_at _ _ _ _ Lx), nth_error_app1 by lia.
    unfold MIP.wd_names. rewrite nth_error_map. unfold range.
    rewrite (nth_error_nth' _ 0) by (rewrite length_seq; exact Ht).
    rewrite seq_nth by exact Ht. reflexivity.
  - intros t e k Ht Hk.
    assert (Hb : MIP.eu_start ic <= k < MIP.eu_start ic + MIP.num_eu_vars ic).
    { unfold MIP.eu_index in Hk. bind_as Hk idx Hidx. injection Hk as <-.
      destruct (edge_index_nth ic c e idx (io_ht _ _ Hic) Hidx) as [Hlt _].
      rewrite (io_num_eu _ _ Hic).
      pose proof (to_num_edges _ _ (io_ht _ _ Hic)) as Hedges.
      rewrite <- Hedges in Hlt.
      pose proof (mul_lt_pack t idx (MIP.ic_depth ic - 1)
                    (MIP.num_edges (MIP.ht ic)) Ht Hlt).
      rewrite <- Hedges. nia. }
    replace k
      with (MIP.num_w_vars ic
            + (MIP.num_y_vars ic
               + (MIP.num_x_vars ic + (d + (k - MIP.eu_start ic)))))
      at 1 by (unfold d; lia).
    rewrite (nth_error_app_at _ _ _ _ Lw), (nth_error_app_at _ _ _ _ Ly),
            (nth_error_app_at _ _ _ _ Lx), (nth_error_app_at _ _ _ _ Ld).
    rewrite (store_names_at _ _ _ _ Hen) by lia. f_equal.
    assert (He : In e (MIP.edges (MIP.ht ic))).
    { unfold MIP.eu_index in Hk. bind_as Hk idx Hidx.
      destruct (edge_index_nth ic c e idx (io_ht _ _ Hic) Hidx) as [Hlt <-].
      apply nth_In. exact Hlt. }
    apply last_store_one.
    + apply (in_eu_stores c ic Hic). exists t, e, k. auto.
    + intros nm' Hin. apply (in_eu_stores c ic Hic) in Hin.
      destruct Hin as (t' & e' & kk & Ht' & He' & Hkk & E & ->).
      assert (Hb' : MIP.eu_start ic <= kk).
      { unfold MIP.eu_index in Hkk. bind_as Hkk idx Hidx.
        injection Hkk as <-. lia. }
      assert (kk = k) by lia. subst kk.
      destruct (eu_index_inj c ic t e t' e' k Hic Hk Hkk) as [-> ->].
      reflexivity.
Qed.

(** The theorem at [circuit2] on the line with one dummy step: the move of
    logical qubit 0 from 1 to 2 at step 0 has its name, its stay on 1 has
    none. *)
Lemma column_names_example :
  exists p ic k k',
    mip_on_line3 circuit2 1 "depth" = Ok (p, ic)
    /\ MIP.x_index ic 0 1 2 0 = Ok k
    /\ nth_error (MIP.var_names p) k = Some (Some (MIP.x_name 0 1 2 0))
    /\ MIP.x_index ic 0 1 1 0 = Ok k'
    /\ nth_error (MIP.var_names p) k' = Some None
    /\ nth_error (MIP.var_names p) (MIP.wd_index ic 1)
       = Some (Some (MIP.wd_name 1)).
Proof.
  pose (mm := ltac:(ok_value (MIP.init circuit2 line3 1))).
  pose (r := ltac:(ok_value (mip_on_line3 circuit2 1 "depth"))).
  pose (k := ltac:(ok_value (MIP.x_index (snd r) 0 1 2 0))).
  pose (k' := ltac:(ok_value (MIP.x_index (snd r) 0 1 1 0))).
  assert (Hmm : MIP.init circuit2 line3 1 = Ok mm)
    by (vm_compute; reflexivity).
  assert (Hp : MIP.create_cpx_problem approx_log approx_log mm "depth"
                 false false = Ok (fst r, snd r))
    by (vm_compute; reflexivity).
  assert (Hk : MIP.x_index (snd r) 0 1 2 0 = Ok k)
    by (vm_compute; reflexivity).
  assert (Hk' : MIP.x_index (snd r) 0 1 1 0 = Ok k')
    by (vm_compute; reflexivity).
  destruct (column_names approx_log approx_log circuit2 line3 1 mm "depth"
              false false (fst r) (snd r) line3_ok Hmm Hp)
    as (_ & _ & Hx & Hwd & _).
  exists (fst r), (snd r), k, k'.
  split; [vm_compute; reflexivity|]. split; [exact Hk|].
  split; [exact (Hx 0 1 2 0 k ltac:(vm_compute; lia) ltac:(vm_compute; lia) Hk)|].
  split; [exact Hk'|].
  split; [exact (Hx 0 1 1 0 k' ltac:(vm_compute; lia) ltac:(vm_compute; lia) Hk')|].
  exact (Hwd 1 ltac:(vm_compute; lia)).
Defined.

(** ** The layers of a model that was built *)

Lemma list_remove_spec x l r :
  list_remove x l = Ok r ->
  In x l /\ (NoDup l -> NoDup r /\ forall y, In y r <-> In y l /\ y <> x).
Proof.
  revert r. induction l as [|y l IH]; intros r H; [discriminate H|].
  cbn [list_remove] in H. destruct (Nat.eqb_spec x y) as [->|Hne].
  - injection H as <-. split; [left; reflexivity|].
    intros Hnd. inversion Hnd as [|? ? Hy Hl]; subst. split; [exact Hl|].
    intros z. split.
    + intros Hz. split; [right; exact Hz|]. intros ->. exact (Hy Hz).
    + intros [[E|Hz] Hzy]; [congruence | exact Hz].
  - bind_as H r' Hr'. injection H as <-.
    destruct (IH _ Hr') as [Hin Hrest]. split; [right; exact Hin|].
    intros Hnd. inversion Hnd as [|? ? Hy Hl]; subst.
    destruct (Hrest Hl) as [Hnd' Hmem]. split.
    + constructor; [|exact Hnd']. intros Hy'. apply Hmem in Hy'. tauto.
    + intros z. split.
      * intros [<-|Hz]; [split; [left; reflexivity | congruence]|].
        apply Hmem in Hz. split; [right; tauto | tauto].
      * intros [[<-|Hz] Hzx]; [left; reflexivity|]. right. apply Hmem. tauto.
Qed.

(** [q_no_gate] succeeds only on gates whose qubits are distinct members
    of the list, and then leaves the members that are in no gate. *)
Lemma q_no_gate_spec lay acc r :
  BIP.q_no_gate lay acc = Ok r -> NoDup acc ->
  NoDup (BIP.used_qubits lay)
  /\ incl (BIP.used_qubits lay) acc
  /\ NoDup r
  /\ forall y, In y r <-> In y acc /\ ~ In y (BIP.used_qubits lay).
Proof.
  revert acc. induction lay as [|[[p q] nd] lay IH]; intros acc H Hnd.
  - injection H as <-. cbn [BIP.used_qubits flat_map].
    split; [constructor|]. split; [intros y []|]. split; [exact Hnd|].
    intros y. cbn [In]. tauto.
  - cbn [BIP.q_no_gate] in H. bind_as H acc1 H1. bind_as H acc2 H2.
    destruct (list_remove_spec _ _ _ H1) as [Hp R1].
    destruct (R1 Hnd) as [Hnd1 M1].
    destruct (list_remove_spec _ _ _ H2) as [Hq R2].
    destruct (R2 Hnd1) as [Hnd2 M2].
    destruct (IH _ H Hnd2) as (Hu & Hincl & Hr & Hm).
    cbn [BIP.used_qubits flat_map fst snd app].
    fold (BIP.used_qubits lay).
    assert (Hqp : In q acc /\ q <> p) by (apply M1; exact Hq).
    assert (Hin2 : forall y, In y (BIP.used_qubits lay) ->
                             In y acc /\ y <> p /\ y <> q).
    { intros y Hy. apply Hincl, M2 in Hy. destruct Hy as [Hy ?].
      apply M1 in Hy. tauto. }
    split; [|split; [|split; [exact Hr|]]].
    + constructor.
      * intros [E|Hy]; [tauto | apply Hin2 in Hy; tauto].
      * constructor; [intros Hy; apply Hin2 in Hy; tauto | exact Hu].
    + intros y [E|[E|Hy]];
        [rewrite <- E; exact Hp | rewrite <- E; tauto
        | apply Hin2 in Hy; tauto].
    + intros y. rewrite Hm, M2, M1. cbn [In]. split.
      * intros [[[Hy Hyp] Hyq] Hn]. split; [exact Hy|].
        intros [E|[E|E]]; [congruence | congruence | tauto].
      * intros [Hy Hn]. repeat split; try exact Hy.
        -- intros ->. apply Hn. left. reflexivity.
        -- intros ->. apply Hn. right. left. reflexivity.
        -- intros Hu'. apply Hn. right. right. exact Hu'.
Qed.

Lemma create_exact np_log gf mgf npeml m obj bp weight rate modifier b :
  BIP.create_cpx_problem np_log gf mgf npeml m obj bp weight rate modifier
  = Ok b ->
  exists b0, BIP.exact_model np_log gf mgf m bp rate obj weight = Ok b0.
Proof.
  unfold BIP.create_cpx_problem. intros H.
  destruct bp, rate; try discriminate H; bind_as H b0 Hb0; exists b0;
    exact Hb0.
Qed.

(** The loop of lines 367-376 ran for every step but the last. *)
Lemma exact_free_ok np_log gf mgf m bp rate obj weight b0 t :
  BIP.exact_model np_log gf mgf m bp rate obj weight = Ok b0 ->
  t + 1 < BIP.depth m ->
  exists free,
    BIP.q_no_gate (nth t (BIP.gates m) []) (range (BIP.num_vqubits m))
    = Ok free.
Proof.
  unfold BIP.exact_model. intros H Ht.
  bind_as H wyx Hwyx. destruct wyx as [[w y] x].
  bind_as H main Hmain. clear H.
  unfold BIP.exact_main_constraints in Hmain.
  bind_as Hmain c1 Hc1. bind_as Hmain c2 Hc2. bind_as Hmain c3 Hc3.
  bind_as Hmain c4 Hc4. bind_as Hmain last Hlast. bind_as Hmain c5 Hc5.
  bind_as Hmain c6 Hc6. bind_as Hmain c7 Hc7. bind_as Hmain c8 Hc8.
  bind_as Hmain c9 Hc9.
  unfold BIP.for_swap_no_gate in Hc9.
  destruct (flat_mapM_In_ok _ _ _ t Hc9) as [r Hr];
    [apply in_range; lia|].
  bind_as Hr lay Hlay. apply gates_at_inv in Hlay. destruct Hlay as [_ ->].
  bind_as Hr free Hfree. exists free. exact Hfree.
Qed.

(** X7.  [create_cpx_problem] returns a model only when, in every step but
    the last, the gates act on distinct qubits of the circuit: the list
    [q_no_gate] of lines 368-371 starts as [range(num_vqubits)] and
    [remove] raises for a qubit that is not in it any more.  The list that
    is left holds each qubit that is in no gate of the step once. *)
Theorem built_layers_are_valid :
  forall np_log gf mgf npeml m obj bp weight rate modifier b t,
    BIP.create_cpx_problem np_log gf mgf npeml m obj bp weight rate modifier
    = Ok b ->
    t + 1 < BIP.depth m ->
    NoDup (BIP.used_qubits (nth t (BIP.gates m) []))
    /\ (forall q, In q (BIP.used_qubits (nth t (BIP.gates m) [])) ->
                  q < BIP.num_vqubits m)
    /\ exists free,
         BIP.q_no_gate (nth t (BIP.gates m) []) (range (BIP.num_vqubits m))
         = Ok free
         /\ NoDup free
         /\ forall q, In q free
                      <-> q < BIP.num_vqubits m
                          /\ ~ In q (BIP.used_qubits (nth t (BIP.gates m) [])).
Proof.
  intros np_log gf mgf npeml m obj bp weight rate modifier b t Hb Ht.
  destruct (create_exact _ _ _ _ _ _ _ _ _ _ _ Hb) as [b0 Hb0].
  destruct (exact_free_ok _ _ _ _ _ _ _ _ _ t Hb0 Ht) as [free Hfree].
  destruct (q_no_gate_spec _ _ _ Hfree (seq_NoDup _ _))
    as (Hnd & Hincl & Hndf & Hmem).
  split; [exact Hnd|]. split.
  - intros q Hq. apply in_range. apply Hincl. exact Hq.
  - exists free. split; [exact Hfree|]. split; [exact Hndf|].
    intros q. rewrite Hmem, in_range. reflexivity.
Qed.

(** The theorem at the first step of [circuit2] on the line: the gate is on
    the qubits 1 and 0, and qubit 2 is left. *)
Lemma built_layers_are_valid_example :
  exists m b,
    BIP.init circuit2 line3 [0; 1; 2] 1 1 = Ok m
    /\ BIP.create_cpx_problem approx_log cnot_fid cnot_mfid no_mean m
         "depth" None (1 # 10)%Q (Some (5 # 1000)%Q) None = Ok b
    /\ BIP.used_qubits (nth 0 (BIP.gates m) []) = [1; 0]
    /\ NoDup (BIP.used_qubits (nth 0 (BIP.gates m) []))
    /\ BIP.q_no_gate (nth 0 (BIP.gates m) []) (range (BIP.num_vqubits m))
       = Ok [2].
Proof.
  pose (m := ltac:(ok_value (BIP.init circuit2 line3 [0; 1; 2] 1 1))).
  assert (Hm : BIP.init circuit2 line3 [0; 1; 2] 1 1 = Ok m)
    by (vm_compute; reflexivity).
  pose (b := ltac:(ok_value
                     (BIP.create_cpx_problem approx_log cnot_fid cnot_mfid
                        no_mean m "depth" None (1 # 10)%Q
                        (Some (5 # 1000)%Q) None))).
  assert (Hb : BIP.create_cpx_problem approx_log cnot_fid cnot_mfid no_mean m
                 "depth" None (1 # 10)%Q (Some (5 # 1000)%Q) None = Ok b)
    by (vm_compute; reflexivity).
  exists m, b. split; [exact Hm|]. split; [exact Hb|].
  split; [vm_compute; reflexivity|].
  destruct (built_layers_are_valid
              approx_log cnot_fid cnot_mfid no_mean m "depth" None
              (1 # 10)%Q (Some (5 # 1000)%Q) None b 0 Hb
              ltac:(vm_compute; lia)) as (Hnd & _ & free & Hfree & _).
  split; [exact Hnd|]. vm_compute. reflexivity.
Defined.

(** ** The swaps read from a solution *)

(** Whether some qubit moves from [i] to [j] after step [t]. *)
Definition moved (a : Var -> Z) (n t i j : nat) : bool :=
  existsb (fun q => (a (X t q i j) =? 1)%Z) (range n).

(** The arcs [(i, j)] with [i < j] along which a qubit moves. *)
Definition swaps_of (a : Var -> Z) (arcs : list (nat * nat)) (n t : nat)
  : list (nat * nat) :=
  filter (fun e => (fst e <? snd e) && moved a n t (fst e) (snd e)) arcs.

Lemma flat_map_filter_map {A B} (P : A -> bool) (h : A -> B) (l : list A) :
  flat_map (fun x => if P x then [h x] else []) l = map h (filter P l).
Proof.
  induction l as [|x l IH]; [reflexivity|].
  cbn [flat_map filter]. destruct (P x); cbn [map app]; rewrite IH;
    reflexivity.
Qed.

Lemma two_terms {A} (g : A -> Z) l x y :
  NoDup l -> In x l -> In y l -> x <> y ->
  (forall z, In z l -> (0 <= g z)%Z) ->
  (g x + g y <= sum_Z (map g l))%Z.
Proof.
  induction l as [|z l IH]; intros Hnd Hx Hy Hne Hpos; [destruct Hx|].
  inversion Hnd as [|? ? Hz Hnd']; subst.
  cbn [map sum_Z fold_right]. fold (sum_Z (map g l)).
  assert (Hl : forall w, In w l -> (0 <= g w)%Z)
    by (intros w Hw; apply Hpos; right; exact Hw).
  pose proof (Hpos z (or_introl eq_refl)) as Hgz.
  destruct Hx as [->|Hx], Hy as [->|Hy].
  - congruence.
  - pose proof (sum_ge_term g l y Hl Hy). lia.
  - pose proof (sum_ge_term g l x Hl Hx). lia.
  - pose proof (IH Hnd' Hx Hy Hne Hl). lia.
Qed.

Lemma sum_pos_exists {A} (g : A -> Z) l :
  (forall x, In x l -> g x = 0%Z \/ g x = 1%Z) ->
  (0 < sum_Z (map g l))%Z ->
  exists x, In x l /\ g x = 1%Z.
Proof.
  induction l as [|x l IH]; intros H Hs; [simpl in Hs; lia|].
  cbn [map sum_Z fold_right] in Hs. fold (sum_Z (map g l)) in Hs.
  destruct (H x (or_introl eq_refl)) as [E|E].
  - destruct IH as [y [Hy Hg]].
    + intros z Hz. apply H. right. exact Hz.
    + lia.
    + exists y. split; [right; exact Hy | exact Hg].
  - exists x. split; [left; reflexivity | exact E].
Qed.

Lemma in_used_qubits lay x :
  In x (BIP.used_qubits lay) ->
  exists p q, In (p, q) (map fst lay) /\ (x = p \/ x = q).
Proof.
  unfold BIP.used_qubits. intros H. apply in_flat_map in H.
  destruct H as [[[p q] nd] [Hg Hx]]. exists p, q. split.
  - apply in_map_iff. exists ((p, q), nd). split; [reflexivity | exact Hg].
  - cbn [fst snd In] in Hx. destruct Hx as [E|[E|[]]]; [left | right];
      symmetry; exact E.
Qed.

Lemma in_gate_used lay p q :
  In (p, q) (map fst lay) ->
  In p (BIP.used_qubits lay) /\ In q (BIP.used_qubits lay).
Proof.
  intros H. apply in_map_iff in H. destruct H as [[[p' q'] nd] [E Hg]].
  cbn [fst] in E. injection E as -> ->.
  unfold BIP.used_qubits. split; apply in_flat_map; exists ((p, q), nd);
    (split; [exact Hg|]); cbn [fst snd In]; auto.
Qed.

Section Swaps.

Variables (np_log : Q -> Q) (gf mgf : nat -> list Q)
          (npeml : list Q -> result Q).
Variables (dag : DAGCircuit) (c : CouplingMap) (subset : list nat)
          (D : nat) (ns : Z).
Variables (m : BIP.BIPMappingModel) (b : BIP.Built) (obj : string)
          (bp : option (nat -> nat -> Q)) (weight : Q) (rate : option Q).
Variables (a : Var -> Z) (t : nat).
Hypothesis Hc : coupling_ok c.
Hypothesis Hm : BIP.init dag c subset D ns = Ok m.
Hypothesis Hb :
  BIP.create_cpx_problem np_log gf mgf npeml m obj bp weight rate None = Ok b.
Hypothesis Hf : feasible (BIP.problem b) a.
Hypothesis Ht : t + 1 < BIP.depth m.

Lemma sw_nv : BIP.num_vqubits m = BIP.num_pqubits m.
Proof. destruct (init_fields _ _ _ _ _ _ Hm) as (_ & _ & _ & _ & _ & H & _). exact H. Qed.

Lemma sw_arcs i j :
  In (i, j) (BIP._arcs m)
  <-> i < BIP.num_pqubits m /\ In j (neighbors (BIP._coupling m) i).
Proof.
  destruct (init_fields _ _ _ _ _ _ Hm)
    as (_ & _ & _ & _ & Hnp & _ & Ha & Hcp & _).
  rewrite Ha, Hcp, Hnp. apply (co_edges _ Hc).
Qed.

Lemma sw_arc_range i j :
  In (i, j) (BIP._arcs m)
  -> i < BIP.num_pqubits m /\ j < BIP.num_pqubits m /\ i <> j
     /\ In (j, i) (BIP._arcs m).
Proof.
  destruct (init_fields _ _ _ _ _ _ Hm)
    as (_ & _ & _ & _ & Hnp & _ & Ha & Hcp & _).
  rewrite Ha, Hnp. intros H. split; [apply (co_edges _ Hc) in H; tauto|].
  split; [exact (co_range _ Hc _ _ H)|]. split.
  - intros ->. exact (co_loop _ Hc _ H).
  - exact (co_sym _ Hc _ _ H).
Qed.

Lemma sw_sem :
  (forall v, is_key m v -> a v = 0%Z \/ a v = 1%Z)
  /\ routing (BIP.num_pqubits m) (BIP.depth m) (bip_gates m) (BIP._arcs m)
       (neighbors (BIP._coupling m)) (neighbors (BIP._coupling m))
       (bip_free m) a.
Proof.
  destruct (proj1 (bip_feasible_iff np_log gf mgf npeml m obj bp weight rate
                     b a Hb sw_nv) Hf) as (H1 & H2 & _).
  split; assumption.
Qed.

Lemma sw_w_bin tt q i :
  tt < BIP.depth m -> q < BIP.num_pqubits m -> i < BIP.num_pqubits m ->
  a (W tt q i) = 0%Z \/ a (W tt q i) = 1%Z.
Proof.
  intros H1 H2 H3. apply (proj1 sw_sem). cbn [is_key]. rewrite sw_nv. auto.
Qed.

Lemma sw_x_bin q i j :
  q < BIP.num_pqubits m -> i < BIP.num_pqubits m ->
  j = i \/ In j (neighbors (BIP._coupling m) i) ->
  a (X t q i j) = 0%Z \/ a (X t q i j) = 1%Z.
Proof.
  intros H1 H2 H3. apply (proj1 sw_sem). cbn [is_key]. rewrite sw_nv.
  repeat split; try assumption. lia.
Qed.

(** A physical qubit holds one qubit, and a qubit is at one place. *)
Lemma sw_one_qubit tt i q q' :
  tt < BIP.depth m -> i < BIP.num_pqubits m ->
  q < BIP.num_pqubits m -> q' < BIP.num_pqubits m ->
  a (W tt q i) = 1%Z -> a (W tt q' i) = 1%Z -> q = q'.
Proof.
  intros Htt Hi Hq Hq' H1 H2.
  destruct (binary_sum_one (fun q0 => a (W tt q0 i)) (BIP.num_pqubits m))
    as [q0 [_ Hu]].
  - intros q0 Hq0. apply sw_w_bin; assumption.
  - exact (r_assign_p _ _ _ _ _ _ _ _ (proj2 sw_sem) tt i Htt Hi).
  - rewrite <- (Hu q (conj Hq H1)). apply Hu. split; assumption.
Qed.

Lemma sw_one_place tt q i i' :
  tt < BIP.depth m -> q < BIP.num_pqubits m ->
  i < BIP.num_pqubits m -> i' < BIP.num_pqubits m ->
  a (W tt q i) = 1%Z -> a (W tt q i') = 1%Z -> i = i'.
Proof.
  intros Htt Hq Hi Hi' H1 H2.
  destruct (binary_sum_one (fun j => a (W tt q j)) (BIP.num_pqubits m))
    as [j0 [_ Hu]].
  - intros j Hj. apply sw_w_bin; assumption.
  - exact (r_assign_v _ _ _ _ _ _ _ _ (proj2 sw_sem) tt q Htt Hq).
  - rewrite <- (Hu i (conj Hi H1)). apply Hu. split; assumption.
Qed.

Lemma sw_out q i :
  q < BIP.num_pqubits m -> i < BIP.num_pqubits m ->
  a (W t q i)
  = (a (X t q i i)
     + sum_Z (map (fun j => a (X t q i j))
                (neighbors (BIP._coupling m) i)))%Z.
Proof.
  intros Hq Hi.
  apply (r_flow_out _ _ _ _ _ _ _ _ (proj2 sw_sem)); [lia | exact Hq | exact Hi].
Qed.

Lemma sw_in q i :
  q < BIP.num_pqubits m -> i < BIP.num_pqubits m ->
  a (W (t + 1) q i)
  = (a (X t q i i)
     + sum_Z (map (fun j => a (X t q j i))
                (neighbors (BIP._coupling m) i)))%Z.
Proof.
  intros Hq Hi.
  pose proof (r_flow_in _ _ _ _ _ _ _ _ (proj2 sw_sem) (t + 1) q i
                ltac:(lia) Ht Hq Hi) as H.
  rewrite Nat.add_sub in H. exact H.
Qed.

Lemma sw_out_pos q i j :
  q < BIP.num_pqubits m -> i < BIP.num_pqubits m ->
  In j (neighbors (BIP._coupling m) i) -> (0 <= a (X t q i j))%Z.
Proof.
  intros Hq Hi Hj.
  destruct (sw_x_bin q i j Hq Hi (or_intror Hj)) as [E|E]; lia.
Qed.

Lemma sw_in_pos q i j :
  q < BIP.num_pqubits m -> i < BIP.num_pqubits m ->
  In j (neighbors (BIP._coupling m) i) -> (0 <= a (X t q j i))%Z.
Proof.
  intros Hq Hi Hj.
  assert (Ha : In (j, i) (BIP._arcs m)).
  { apply sw_arc_range. apply sw_arcs. split; assumption. }
  pose proof (sw_arc_range _ _ Ha) as (Hj' & _).
  apply sw_arcs in Ha.
  destruct (sw_x_bin q j i Hq Hj' (or_intror (proj2 Ha))) as [E|E]; lia.
Qed.

Lemma sw_stay_pos q i :
  q < BIP.num_pqubits m -> i < BIP.num_pqubits m -> (0 <= a (X t q i i))%Z.
Proof.
  intros Hq Hi.
  destruct (sw_x_bin q i i Hq Hi (or_introl eq_refl)) as [E|E]; lia.
Qed.

(** A qubit that moves along [(i, j)] is at [i] before and at [j] after. *)
Lemma sw_move q i j :
  q < BIP.num_pqubits m -> In (i, j) (BIP._arcs m) ->
  a (X t q i j) = 1%Z ->
  a (W t q i) = 1%Z /\ a (W (t + 1) q j) = 1%Z.
Proof.
  intros Hq Ha Hx.
  pose proof (sw_arc_range _ _ Ha) as (Hi & Hj & _ & Hb').
  pose proof (proj1 (sw_arcs _ _) Ha) as [_ Hnb].
  pose proof (proj1 (sw_arcs _ _) Hb') as [_ Hnb'].
  split.
  - pose proof (sw_out q i Hq Hi) as Ho.
    pose proof (sum_ge_term (fun j0 => a (X t q i j0)) _ j
                  (fun z Hz => sw_out_pos q i z Hq Hi Hz) Hnb) as Hge.
    cbv beta in Hge.
    pose proof (sw_stay_pos q i Hq Hi).
    destruct (sw_w_bin t q i ltac:(lia) Hq Hi) as [E|E]; lia.
  - pose proof (sw_in q j Hq Hj) as Ho.
    pose proof (sum_ge_term (fun i0 => a (X t q i0 j)) _ i
                  (fun z Hz => sw_in_pos q j z Hq Hj Hz) Hnb') as Hge.
    cbv beta in Hge.
    pose proof (sw_stay_pos q j Hq Hj).
    destruct (sw_w_bin (t + 1) q j Ht Hq Hj) as [E|E]; lia.
Qed.

Lemma sw_out_unique q i j j' :
  q < BIP.num_pqubits m ->
  In (i, j) (BIP._arcs m) -> In (i, j') (BIP._arcs m) ->
  a (X t q i j) = 1%Z -> a (X t q i j') = 1%Z -> j = j'.
Proof.
  intros Hq Ha Ha' Hx Hx'.
  destruct (Nat.eq_dec j j') as [E|Hne]; [exact E | exfalso].
  pose proof (sw_arc_range _ _ Ha) as (Hi & _).
  pose proof (proj1 (sw_arcs _ _) Ha) as [_ Hnb].
  pose proof (proj1 (sw_arcs _ _) Ha') as [_ Hnb'].
  destruct (init_fields _ _ _ _ _ _ Hm)
    as (_ & _ & _ & _ & _ & _ & _ & Hcp & _).
  assert (Hnd : NoDup (neighbors (BIP._coupling m) i))
    by (rewrite Hcp; apply (co_nodup_nb _ Hc)).
  pose proof (two_terms (fun j0 => a (X t q i j0)) _ j j' Hnd Hnb Hnb' Hne
                (fun z Hz => sw_out_pos q i z Hq Hi Hz)) as Hge.
  cbv beta in Hge.
  pose proof (sw_out q i Hq Hi) as Ho.
  pose proof (sw_stay_pos q i Hq Hi).
  destruct (sw_w_bin t q i ltac:(lia) Hq Hi) as [E|E]; lia.
Qed.

Lemma sw_in_unique q i i' j :
  q < BIP.num_pqubits m ->
  In (i, j) (BIP._arcs m) -> In (i', j) (BIP._arcs m) ->
  a (X t q i j) = 1%Z -> a (X t q i' j) = 1%Z -> i = i'.
Proof.
  intros Hq Ha Ha' Hx Hx'.
  destruct (Nat.eq_dec i i') as [E|Hne]; [exact E | exfalso].
  pose proof (sw_arc_range _ _ Ha) as (_ & Hj & _ & Hr).
  pose proof (sw_arc_range _ _ Ha') as (_ & _ & _ & Hr').
  pose proof (proj1 (sw_arcs _ _) Hr) as [_ Hnb].
  pose proof (proj1 (sw_arcs _ _) Hr') as [_ Hnb'].
  destruct (init_fields _ _ _ _ _ _ Hm)
    as (_ & _ & _ & _ & _ & _ & _ & Hcp & _).
  assert (Hnd : NoDup (neighbors (BIP._coupling m) j))
    by (rewrite Hcp; apply (co_nodup_nb _ Hc)).
  pose proof (two_terms (fun i0 => a (X t q i0 j)) _ i i' Hnd Hnb Hnb' Hne
                (fun z Hz => sw_in_pos q j z Hq Hj Hz)) as Hge.
  cbv beta in Hge.
  pose proof (sw_in q j Hq Hj) as Ho.
  pose proof (sw_stay_pos q j Hq Hj).
  destruct (sw_w_bin (t + 1) q j Ht Hq Hj) as [E|E]; lia.
Qed.

Lemma sw_same_qubit q q' i j :
  q < BIP.num_pqubits m -> q' < BIP.num_pqubits m ->
  In (i, j) (BIP._arcs m) ->
  a (X t q i j) = 1%Z -> a (X t q' i j) = 1%Z -> q = q'.
Proof.
  intros Hq Hq' Ha Hx Hx'.
  pose proof (sw_arc_range _ _ Ha) as (Hi & _).
  apply (sw_one_qubit t i q q'); try assumption; try lia.
  - exact (proj1 (sw_move q i j Hq Ha Hx)).
  - exact (proj1 (sw_move q' i j Hq' Ha Hx')).
Qed.

(** The qubits in no gate of step [t]. *)
Lemma sw_free q :
  In q (bip_free m t)
  <-> q < BIP.num_pqubits m
      /\ ~ In q (BIP.used_qubits (nth t (BIP.gates m) [])).
Proof.
  destruct (create_exact _ _ _ _ _ _ _ _ _ _ _ Hb) as [b0 Hb0].
  destruct (exact_free_ok _ _ _ _ _ _ _ _ _ t Hb0 Ht) as [free Hfree].
  destruct (q_no_gate_spec _ _ _ Hfree (seq_NoDup _ _)) as (_ & _ & _ & Hmem).
  unfold bip_free, free_qubits. rewrite Hfree, Hmem, in_range, sw_nv.
  reflexivity.
Qed.

Lemma sw_gate_range p q :
  In (p, q) (bip_gates m t) ->
  p < BIP.num_pqubits m /\ q < BIP.num_pqubits m.
Proof.
  intros Hg.
  destruct (create_exact _ _ _ _ _ _ _ _ _ _ _ Hb) as [b0 Hb0].
  destruct (exact_free_ok _ _ _ _ _ _ _ _ _ t Hb0 Ht) as [free Hfree].
  destruct (q_no_gate_spec _ _ _ Hfree (seq_NoDup _ _)) as (_ & Hincl & _).
  destruct (in_gate_used _ _ _ Hg) as [Hp Hq].
  apply Hincl, in_range in Hp. apply Hincl, in_range in Hq.
  rewrite sw_nv in Hp, Hq. split; assumption.
Qed.

(** When a qubit moves along [(i, j)], another one moves along [(j, i)]. *)
Lemma sw_back q i j :
  q < BIP.num_pqubits m -> In (i, j) (BIP._arcs m) ->
  a (X t q i j) = 1%Z ->
  exists q', q' < BIP.num_pqubits m /\ a (X t q' j i) = 1%Z.
Proof.
  intros Hq Ha Hx.
  pose proof (sw_arc_range _ _ Ha) as (Hi & Hj & _ & Hr).
  pose proof (proj1 (sw_arcs _ _) Ha) as [_ Hnb].
  pose proof (proj1 (sw_arcs _ _) Hr) as [_ Hnb'].
  pose proof (proj2 sw_sem) as R.
  destruct (in_dec Nat.eq_dec q (BIP.used_qubits (nth t (BIP.gates m) [])))
    as [Hu|Hu].
  - destruct (in_used_qubits _ _ Hu) as (p0 & q0 & Hg & E).
    fold (bip_gates m t) in Hg.
    destruct (sw_gate_range _ _ Hg) as [Hp0 Hq0].
    destruct E as [->| ->].
    + exists q0. split; [exact Hq0|].
      rewrite <- (r_swap _ _ _ _ _ _ _ _ R t p0 q0 i j ltac:(lia) Hg Ha).
      exact Hx.
    + exists p0. split; [exact Hp0|].
      rewrite (r_swap _ _ _ _ _ _ _ _ R t p0 q0 j i ltac:(lia) Hg Hr).
      exact Hx.
  - assert (Hfq : In q (bip_free m t)) by (apply sw_free; split; assumption).
    pose proof (r_swap_free _ _ _ _ _ _ _ _ R t i j ltac:(lia) Ha) as Hs.
    assert (Hpos : forall z, In z (bip_free m t) -> (0 <= a (X t z i j))%Z).
    { intros z Hz. apply sw_free in Hz.
      apply sw_out_pos; [tauto | exact Hi | exact Hnb]. }
    pose proof (sum_ge_term (fun z => a (X t z i j)) _ q Hpos Hfq) as Hge.
    cbv beta in Hge.
    destruct (sum_pos_exists (fun z => a (X t z j i)) (bip_free m t))
      as [q' [Hq' Hone]].
    + intros z Hz. apply sw_free in Hz.
      apply sw_x_bin; [tauto | exact Hj | right; exact Hnb'].
    + lia.
    + exists q'. split; [apply sw_free in Hq'; tauto | exact Hone].
Qed.

Lemma sw_moved i j :
  moved a (BIP.num_vqubits m) t i j = true
  <-> exists q, q < BIP.num_pqubits m /\ a (X t q i j) = 1%Z.
Proof.
  unfold moved. rewrite existsb_exists, sw_nv. split.
  - intros [q [Hq Hx]]. exists q. apply in_range in Hq. apply Z.eqb_eq in Hx.
    split; assumption.
  - intros [q [Hq Hx]]. exists q. split; [apply in_range; exact Hq|].
    apply Z.eqb_eq. exact Hx.
Qed.

Lemma sw_in_swaps i j :
  In (i, j) (swaps_of a (BIP._arcs m) (BIP.num_vqubits m) t)
  <-> In (i, j) (BIP._arcs m) /\ i < j
      /\ exists q, q < BIP.num_pqubits m /\ a (X t q i j) = 1%Z.
Proof.
  unfold swaps_of. rewrite filter_In. cbn [fst snd].
  rewrite andb_true_iff, Nat.ltb_lt, sw_moved. reflexivity.
Qed.

(** Two reported swaps share no physical qubit. *)
Lemma sw_disjoint i j i' j' :
  In (i, j) (swaps_of a (BIP._arcs m) (BIP.num_vqubits m) t) ->
  In (i', j') (swaps_of a (BIP._arcs m) (BIP.num_vqubits m) t) ->
  (i, j) <> (i', j') ->
  i <> i' /\ i <> j' /\ j <> i' /\ j <> j'.
Proof.
  intros H H' Hne. apply sw_in_swaps in H, H'.
  destruct H as (Ha & Hij & q & Hq & Hx).
  destruct H' as (Ha' & Hij' & q' & Hq' & Hx').
  pose proof (sw_arc_range _ _ Ha) as (Hi & Hj & _ & Hr).
  pose proof (sw_arc_range _ _ Ha') as (Hi' & Hj' & _ & Hr').
  destruct (sw_move q i j Hq Ha Hx) as [Hw0 Hw1].
  destruct (sw_move q' i' j' Hq' Ha' Hx') as [Hw0' Hw1'].
  split; [|split; [|split]].
  - intros E. subst i'. apply Hne.
    assert (E : q = q')
      by (apply (sw_one_qubit t i); try assumption; lia).
    subst q'. rewrite (sw_out_unique q i j j' Hq Ha Ha' Hx Hx'). reflexivity.
  - intros E. subst j'.
    destruct (sw_back q' i' i Hq' Ha' Hx') as [q2 [Hq2 Hx2]].
    destruct (sw_move q2 i i' Hq2 Hr' Hx2) as [Hw2 _].
    assert (E : q2 = q)
      by (apply (sw_one_qubit t i); try assumption; lia).
    subst q2. pose proof (sw_out_unique q i j i' Hq Ha Hr' Hx Hx2). lia.
  - intros E. subst i'.
    destruct (sw_back q i j Hq Ha Hx) as [q2 [Hq2 Hx2]].
    destruct (sw_move q2 j i Hq2 Hr Hx2) as [Hw2 _].
    assert (E : q2 = q')
      by (apply (sw_one_qubit t j); try assumption; lia).
    subst q2. pose proof (sw_out_unique q' j i j' Hq' Hr Ha' Hx2 Hx'). lia.
  - intros E. subst j'. apply Hne.
    assert (E : q = q')
      by (apply (sw_one_qubit (t + 1) j); try assumption; lia).
    subst q'. rewrite (sw_in_unique q i i' j Hq Ha Ha' Hx Hx'). reflexivity.
Qed.

(** A reported swap exchanges the qubits at its two ends. *)
Lemma sw_exchange i j :
  In (i, j) (swaps_of a (BIP._arcs m) (BIP.num_vqubits m) t) ->
  exists q q',
    q < BIP.num_vqubits m /\ q' < BIP.num_vqubits m
    /\ a (W t q i) = 1%Z /\ a (W (t + 1) q j) = 1%Z
    /\ a (W t q' j) = 1%Z /\ a (W (t + 1) q' i) = 1%Z.
Proof.
  intros H. apply sw_in_swaps in H. destruct H as (Ha & _ & q & Hq & Hx).
  pose proof (sw_arc_range _ _ Ha) as (_ & _ & _ & Hr).
  destruct (sw_back q i j Hq Ha Hx) as [q' [Hq' Hx']].
  destruct (sw_move q i j Hq Ha Hx) as [H1 H2].
  destruct (sw_move q' j i Hq' Hr Hx') as [H3 H4].
  exists q, q'. rewrite sw_nv. repeat split; assumption.
Qed.

(** A qubit that changes place does so along a reported swap. *)
Lemma sw_reported q i j :
  q < BIP.num_vqubits m -> i < BIP.num_pqubits m -> j < BIP.num_pqubits m ->
  i <> j -> a (W t q i) = 1%Z -> a (W (t + 1) q j) = 1%Z ->
  In (Nat.min i j, Nat.max i j)
     (swaps_of a (BIP._arcs m) (BIP.num_vqubits m) t).
Proof.
  intros Hq Hi Hj Hne Hw0 Hw1. rewrite sw_nv in Hq.
  assert (Hmv : In (i, j) (BIP._arcs m) /\ a (X t q i j) = 1%Z).
  { pose proof (sw_out q i Hq Hi) as Ho. rewrite Hw0 in Ho.
    destruct (sw_x_bin q i i Hq Hi (or_introl eq_refl)) as [E|E].
    - destruct (binary_list_sum_one (fun j0 => a (X t q i j0))
                  (neighbors (BIP._coupling m) i)) as [j0 [Hj0 Hone]].
      + intros z Hz. apply sw_x_bin; [exact Hq | exact Hi | right; exact Hz].
      + lia.
      + assert (Ha : In (i, j0) (BIP._arcs m))
          by (apply sw_arcs; split; assumption).
        pose proof (sw_arc_range _ _ Ha) as (_ & Hj0' & _).
        destruct (sw_move q i j0 Hq Ha Hone) as [_ Hw1'].
        rewrite (sw_one_place (t + 1) q j j0 Ht Hq Hj Hj0' Hw1 Hw1').
        split; assumption.
    - exfalso. apply Hne.
      pose proof (sw_in q i Hq Hi) as Hin.
      pose proof (sum_nonneg (fun j0 => a (X t q j0 i))
                    (neighbors (BIP._coupling m) i)
                    (fun z Hz => sw_in_pos q i z Hq Hi Hz)) as Hge.
      destruct (sw_w_bin (t + 1) q i Ht Hq Hi) as [E'|E']; [lia|].
      exact (sw_one_place (t + 1) q i j Ht Hq Hi Hj E' Hw1). }
  destruct Hmv as [Ha Hx].
  destruct (Nat.lt_ge_cases i j) as [Hlt|Hge].
  - rewrite Nat.min_l, Nat.max_r by lia. apply (proj2 (sw_in_swaps i j)).
    split; [exact Ha|]. split; [exact Hlt|]. exists q. split; assumption.
  - rewrite Nat.min_r, Nat.max_l by lia. apply (proj2 (sw_in_swaps j i)).
    pose proof (sw_arc_range _ _ Ha) as (_ & _ & _ & Hr).
    split; [exact Hr|]. split; [lia|]. exact (sw_back q i j Hq Ha Hx).
Qed.

(** What [get_swaps] returns for the values of a feasible assignment. *)
Lemma sw_get_swaps (value : Var -> result Q) :
  length subset = size c ->
  (forall q i j, q < BIP.num_vqubits m -> In (i, j) (BIP._arcs m) ->
                 value (X t q i j) = Ok (inject_Z (a (X t q i j)))) ->
  BIP.get_swaps m (Some value) t
  = Ok (map (fun e => (nth (fst e) subset 0, nth (snd e) subset 0))
          (swaps_of a (BIP._arcs m) (BIP.num_vqubits m) t)).
Proof.
  intros Hlen Hval.
  assert (Hglob : BIP.global_qubit m = subset).
  { pose proof Hm as Hm'. unfold BIP.init in Hm'.
    destruct (ns <? -1)%Z; [discriminate Hm'|].
    destruct (negb (num_dag_qubits dag =? size c)); [discriminate Hm'|].
    destruct (BIP.extract_su4layers (layers dag)).
    injection Hm' as <-. reflexivity. }
  destruct (init_fields _ _ _ _ _ _ Hm)
    as (_ & _ & _ & _ & Hnp & _ & _ & _ & _).
  unfold BIP.get_swaps, swaps_of.
  rewrite <- (flat_map_filter_map
                (fun e => (fst e <? snd e)
                          && moved a (BIP.num_vqubits m) t (fst e) (snd e))
                (fun e => (nth (fst e) subset 0, nth (snd e) subset 0))).
  apply flat_mapM_total. intros [i j] Ha. cbn [fst snd].
  pose proof (sw_arc_range _ _ Ha) as (Hi & Hj & _).
  destruct (Nat.leb_spec j i) as [Hle|Hlt].
  - replace (i <? j) with false by (symmetry; apply Nat.ltb_ge; lia).
    reflexivity.
  - replace (i <? j) with true by (symmetry; apply Nat.ltb_lt; lia).
    cbn [andb].
    destruct (moved a (BIP.num_vqubits m) t i j) eqn:Emv.
    + apply sw_moved in Emv. destruct Emv as [q [Hq Hx]].
      apply (flat_mapM_single _ _ q).
      * apply seq_NoDup.
      * apply in_range. rewrite sw_nv. exact Hq.
      * cbn [BIP.get_value].
        rewrite (Hval q i j) by (rewrite ?sw_nv; assumption).
        rewrite Hx. cbn [bind].
        change (BIP.above_half (inject_Z 1)) with true. cbv iota.
        rewrite Hglob.
        rewrite (py_index_ok subset i 0) by (rewrite Hlen, <- Hnp; exact Hi).
        rewrite (py_index_ok subset j 0) by (rewrite Hlen, <- Hnp; exact Hj).
        reflexivity.
      * intros z Hz Hne. apply in_range in Hz. cbn [BIP.get_value].
        rewrite (Hval z i j Hz Ha). cbn [bind]. rewrite sw_nv in Hz.
        destruct (sw_x_bin z i j Hz Hi
                    (or_intror (proj2 (proj1 (sw_arcs _ _) Ha)))) as [E|E];
          [rewrite E; reflexivity|].
        exfalso. apply Hne. exact (sw_same_qubit z q i j Hz Hq Ha E Hx).
    + apply flat_mapM_nil. intros z Hz. apply in_range in Hz.
      cbn [BIP.get_value]. rewrite (Hval z i j Hz Ha). cbn [bind].
      rewrite sw_nv in Hz.
      destruct (sw_x_bin z i j Hz Hi
                  (or_intror (proj2 (proj1 (sw_arcs _ _) Ha)))) as [E|E];
        [rewrite E; reflexivity|].
      assert (Hmv : moved a (BIP.num_vqubits m) t i j = true)
        by (apply sw_moved; exists z; split; assumption).
      rewrite Hmv in Emv. discriminate Emv.
Qed.

End Swaps.

(** X8.  Let [a] be a feasible assignment of the exact model over a
    symmetric coupling map, and let [solution.get_value] give its values on
    the [x] variables of a step [t] that is not the last.  Then
    [get_swaps(t)] raises nothing and returns, in the order of the arcs,
    the pair [(qubit_subset[i], qubit_subset[j])] of every arc [(i, j)]
    with [i < j] along which a qubit moves, each once.  Two of these arcs
    share no end; the qubits at the two ends of such an arc are exchanged
    from [t] to [t + 1]; and every qubit that is at another place at
    [t + 1] moved along one of them. *)
Theorem swaps_of_feasible_solution :
  forall np_log gf mgf npeml dag c subset D ns m obj bp weight rate b a
         value t,
    coupling_ok c ->
    BIP.init dag c subset D ns = Ok m ->
    BIP.create_cpx_problem np_log gf mgf npeml m obj bp weight rate None
    = Ok b ->
    length subset = size c ->
    feasible (BIP.problem b) a ->
    t + 1 < BIP.depth m ->
    (forall q i j, q < BIP.num_vqubits m -> In (i, j) (BIP._arcs m) ->
                   value (X t q i j) = Ok (inject_Z (a (X t q i j)))) ->
    let sw := swaps_of a (BIP._arcs m) (BIP.num_vqubits m) t in
    BIP.get_swaps m (Some value) t
    = Ok (map (fun e => (nth (fst e) subset 0, nth (snd e) subset 0)) sw)
    /\ NoDup sw
    /\ (forall i j i' j', In (i, j) sw -> In (i', j') sw ->
          (i, j) <> (i', j') ->
          i <> i' /\ i <> j' /\ j <> i' /\ j <> j')
    /\ (forall i j, In (i, j) sw ->
          In (i, j) (BIP._arcs m) /\ i < j
          /\ exists q q',
               q < BIP.num_vqubits m /\ q' < BIP.num_vqubits m
               /\ a (W t q i) = 1%Z /\ a (W (t + 1) q j) = 1%Z
               /\ a (W t q' j) = 1%Z /\ a (W (t + 1) q' i) = 1%Z)
    /\ (forall q i j, q < BIP.num_vqubits m ->
          i < BIP.num_pqubits m -> j < BIP.num_pqubits m -> i <> j ->
          a (W t q i) = 1%Z -> a (W (t + 1) q j) = 1%Z ->
          In (Nat.min i j, Nat.max i j) sw).
Proof.
  intros np_log gf mgf npeml dag c subset D ns m obj bp weight rate b a
         value t Hc Hm Hb Hlen Hf Ht Hval sw.
  split; [|split; [|split; [|split]]].
  - exact (sw_get_swaps np_log gf mgf npeml dag c subset D ns m b obj bp
             weight rate a t Hc Hm Hb Hf Ht value Hlen Hval).
  - apply NoDup_filter.
    destruct (init_fields _ _ _ _ _ _ Hm)
      as (_ & _ & _ & _ & _ & _ & Ha & _).
    rewrite Ha. exact (co_nodup _ Hc).
  - intros i j i' j'.
    exact (sw_disjoint np_log gf mgf npeml dag c subset D ns m b obj bp
             weight rate a t Hc Hm Hb Hf Ht i j i' j').
  - intros i j Hin. split; [|split].
    + apply filter_In in Hin. exact (proj1 Hin).
    + apply filter_In in Hin. destruct Hin as [_ Hin].
      apply andb_true_iff in Hin. apply Nat.ltb_lt. exact (proj1 Hin).
    + exact (sw_exchange np_log gf mgf npeml dag c subset D ns m b obj bp
               weight rate a t Hc Hm Hb Hf Ht i j Hin).
  - intros q i j.
    exact (sw_reported np_log gf mgf npeml dag c subset D ns m b obj bp
             weight rate a t Hc Hm Hb Hf Ht q i j).
Qed.

(** On [circuit2] with one empty step between its two layers: the qubits
    stay where they are for the first gate and the virtual qubits 0 and 1
    are exchanged in the empty step. *)
Definition swap_assignment (v : Var) : Z :=
  match v with
  | W 2 q j => if layout_swap01 q =? j then 1%Z else 0%Z
  | W _ q j => if q =? j then 1%Z else 0%Z
  | X 0 q i j => if (i =? j) && (q =? i) then 1%Z else 0%Z
  | X 1 q i j => if (q =? i) && (layout_swap01 q =? j) then 1%Z else 0%Z
  | Y 0 1 0 1 0 => 1%Z
  | Y 2 0 2 1 2 => 1%Z
  | Zv 1 => 1%Z
  | _ => 0%Z
  end.

(** The theorem at that assignment, with the qubits [5, 6, 7] of a larger
    device: the empty step reports the swap of 5 and 6, the first step
    none. *)
Lemma swaps_of_feasible_solution_example :
  exists m b,
    BIP.init circuit2 line3 [5; 6; 7] 1 1 = Ok m
    /\ BIP.create_cpx_problem approx_log cnot_fid cnot_mfid no_mean m
         "depth" None (1 # 10)%Q (Some (5 # 1000)%Q) None = Ok b
    /\ feasible (BIP.problem b) swap_assignment
    /\ BIP.get_swaps m
         (Some (fun v => Ok (inject_Z (swap_assignment v)))) 1
       = Ok [(5, 6)]
    /\ BIP.get_swaps m
         (Some (fun v => Ok (inject_Z (swap_assignment v)))) 0
       = Ok [].
Proof.
  pose (m := ltac:(ok_value (BIP.init circuit2 line3 [5; 6; 7] 1 1))).
  assert (Hm : BIP.init circuit2 line3 [5; 6; 7] 1 1 = Ok m)
    by (vm_compute; reflexivity).
  pose (b := ltac:(ok_value
                     (BIP.create_cpx_problem approx_log cnot_fid cnot_mfid
                        no_mean m "depth" None (1 # 10)%Q
                        (Some (5 # 1000)%Q) None))).
  assert (Hb : BIP.create_cpx_problem approx_log cnot_fid cnot_mfid no_mean m
                 "depth" None (1 # 10)%Q (Some (5 # 1000)%Q) None = Ok b)
    by (vm_compute; reflexivity).
  assert (Hf : feasible (BIP.problem b) swap_assignment)
    by (apply feasibleb_feasible; vm_compute; reflexivity).
  exists m, b. split; [exact Hm|]. split; [exact Hb|]. split; [exact Hf|].
  split.
  - destruct (swaps_of_feasible_solution
                approx_log cnot_fid cnot_mfid no_mean circuit2 line3
                [5; 6; 7] 1 1%Z m "depth" None (1 # 10)%Q
                (Some (5 # 1000)%Q) b swap_assignment
                (fun v => Ok (inject_Z (swap_assignment v))) 1
                line3_ok Hm Hb eq_refl Hf ltac:(vm_compute; lia)
                ltac:(intros; reflexivity)) as [H _].
    rewrite H. vm_compute. reflexivity.
  - vm_compute. reflexivity.
Defined.

(** ** The lower McCormick bound follows from the rest of the exact model *)

(** The constraints named [McCormickLB_...]. *)
Definition is_lower_bound (n : CtName) : bool :=
  match n with
  | McCormickLB_at _ _ _ _ _ | McCormickLB_at_last _ _ _ _ => true
  | _ => false
  end.

(** [c0] holds unless it is one of them. *)
Definition relaxed (a : Var -> Z) (c0 : Constraint) : Prop :=
  is_lower_bound (ctname c0) = false -> sat a c0.

Definition relaxedb (a : Var -> Z) (c0 : Constraint) : bool :=
  is_lower_bound (ctname c0) || satb a c0.

Lemma relaxedb_relaxed a l :
  forallb (relaxedb a) l = true -> Forall (relaxed a) l.
Proof.
  intros H. apply Forall_forall. intros c0 Hc0 Hn.
  rewrite forallb_forall in H. specialize (H c0 Hc0).
  unfold relaxedb in H. rewrite Hn in H. apply satb_sat. exact H.
Qed.

Lemma relaxed_sat a l :
  Forall (fun c0 => is_lower_bound (ctname c0) = false) l ->
  Forall (relaxed a) l -> Forall (sat a) l.
Proof.
  rewrite !Forall_forall. intros Hn Hr c0 Hc0. exact (Hr c0 Hc0 (Hn c0 Hc0)).
Qed.

Ltac no_lower_bound :=
  repeat
    match goal with
    | |- Forall _ (flat_map _ _) =>
        apply Forall_flat_map, Forall_forall; intros ? _
    | |- Forall _ (map _ _) => apply Forall_map, Forall_forall; intros ? _
    | |- Forall _ (if ?x then _ else _) => destruct x
    | |- Forall _ (let '(_, _) := ?x in _) => destruct x
    | |- Forall _ [] => constructor
    | |- Forall _ (_ :: _) => constructor
    | |- context [let '(_, _) := ?x in _] => destruct x
    | |- _ = false => reflexivity
    end.

Lemma relaxed_strong a arcs t p q n :
  Forall (relaxed a) (BIP.mccormick_strong arcs t (p, q, n)) ->
  forall i j, In (i, j) arcs ->
    (a (Y t p q i j) <= a (X t p i i) + a (X t p i j))%Z
    /\ (a (Y t p q i j) <= a (X t q j i) + a (X t q j j))%Z.
Proof.
  unfold BIP.mccormick_strong. rewrite Forall_flat_map, Forall_forall.
  intros H i j Ha. specialize (H (i, j) Ha). cbn beta iota in H.
  inversion H as [|c1 l1 _ H']. inversion H' as [|c2 l2 Hc2 H''].
  apply Forall_inv in H''. split; [exact (Hc2 eq_refl) | exact (H'' eq_refl)].
Qed.

Lemma relaxed_last a arcs t p q n :
  Forall (relaxed a) (BIP.mccormick_last arcs t (p, q, n)) ->
  forall i j, In (i, j) arcs ->
    (a (Y t p q i j) <= a (W t p i))%Z /\ (a (Y t p q i j) <= a (W t q j))%Z.
Proof.
  unfold BIP.mccormick_last. rewrite Forall_flat_map, Forall_forall.
  intros H i j Ha. specialize (H (i, j) Ha). cbn beta iota in H.
  inversion H as [|c1 l1 _ H']. inversion H' as [|c2 l2 Hc2 H''].
  apply Forall_inv in H''. split; [exact (Hc2 eq_refl) | exact (H'' eq_refl)].
Qed.

(** The other constraints are the routing conditions. *)
Lemma relaxed_routing m a :
  BIP.num_vqubits m = BIP.num_pqubits m ->
  Forall (relaxed a) (exact_constraints m) ->
  routing (BIP.num_pqubits m) (BIP.depth m) (bip_gates m) (BIP._arcs m)
    (neighbors (BIP._coupling m)) (neighbors (BIP._coupling m))
    (bip_free m) a.
Proof.
  intros Hn. unfold exact_constraints, bip_free. rewrite !Forall_app.
  intros (H1 & H2 & H3 & H4 & H5 & H6 & H7 & H8 & H9 & H10 & H11).
  apply relaxed_sat in H1;
    [|unfold BIP.assignment_vqubits; no_lower_bound].
  apply relaxed_sat in H2;
    [|unfold BIP.assignment_pqubits; no_lower_bound].
  apply relaxed_sat in H3;
    [|unfold gates_flat, BIP.implement_gate; no_lower_bound].
  apply relaxed_sat in H6;
    [|unfold flow_out_flat, BIP.flow_out; no_lower_bound].
  apply relaxed_sat in H7;
    [|unfold flow_in_flat, BIP.flow_in; no_lower_bound].
  apply relaxed_sat in H8;
    [|unfold gates_flat, BIP.swap; no_lower_bound].
  apply relaxed_sat in H9;
    [|unfold swap_no_gate_flat, BIP.swap_no_gate; no_lower_bound].
  apply relaxed_sat in H10;
    [|unfold dummy_ts_needed_flat, BIP.dummy_ts_needed; no_lower_bound].
  apply relaxed_sat in H11;
    [|unfold dummy_precedence_flat; no_lower_bound].
  rewrite sat_assignment_vqubits in H1.
  rewrite sat_assignment_pqubits in H2.
  rewrite sat_implement_gate in H3.
  rewrite sat_flow_out in H6. rewrite sat_flow_in in H7.
  rewrite sat_swap_no_gate in H9.
  rewrite sat_dummy_ts_needed in H10. rewrite sat_dummy_precedence in H11.
  rewrite Forall_gates_flat in H4, H8.
  rewrite Forall_flat_map, Forall_forall in H5.
  rewrite Hn in *.
  constructor.
  - exact H1.
  - exact H2.
  - intros t p q Ht Hg. apply in_bip_gates in Hg. destruct Hg as [n Hg].
    apply (H3 t p q n Ht Hg).
  - intros t p q i j Ht Hg Ha. apply in_bip_gates in Hg.
    destruct Hg as [n Hg].
    specialize (H4 t (p, q, n) (proj2 (in_range t _) Ht) Hg).
    exact (relaxed_strong _ _ _ _ _ _ H4 i j Ha).
  - intros p q i j Hd Hg Ha. apply in_bip_gates in Hg.
    destruct Hg as [n Hg]. specialize (H5 (p, q, n) Hg).
    exact (relaxed_last _ _ _ _ _ _ H5 i j Ha).
  - exact H6.
  - exact H7.
  - intros t p q i j Ht Hg Ha. apply in_bip_gates in Hg.
    destruct Hg as [n Hg].
    specialize (H8 t (p, q, n) (proj2 (in_range t _) Ht) Hg).
    rewrite sat_swap in H8. apply H8. exact Ha.
  - exact H9.
  - intros t q Ht Hg Hq. apply bip_gates_nil in Hg. apply H10; assumption.
  - intros t Ht Hg Hg'. apply bip_gates_nil in Hg, Hg'. apply H11; assumption.
Qed.

(** X9.  In the exact model of a circuit whose gates act on qubits of the
    circuit, over a symmetric coupling map, the constraints named
    [McCormickLB_...] (lines 308-311 and 327-331) cut nothing off: values
    within the bounds of the variables that satisfy every other constraint
    satisfy these too, and so are feasible. *)
Theorem lower_mccormick_bound_is_implied :
  forall np_log gf mgf npeml dag c subset D ns m obj bp weight rate b a,
    coupling_ok c -> dag_ok dag ->
    BIP.init dag c subset D ns = Ok m ->
    BIP.create_cpx_problem np_log gf mgf npeml m obj bp weight rate None
    = Ok b ->
    Forall (in_bounds a) (variables (BIP.problem b)) ->
    (forall c0, In c0 (constraints (BIP.problem b)) ->
                is_lower_bound (ctname c0) = false -> sat a c0) ->
    feasible (BIP.problem b) a
    /\ forall c0, In c0 (constraints (BIP.problem b)) -> sat a c0.
Proof.
  intros np_log gf mgf npeml dag c subset D ns m obj bp weight rate b a
         Hc Hdag Hm Hb Hbd Hrel.
  destruct (init_fields _ _ _ _ _ _ Hm)
    as (_ & _ & _ & Hnv & Hnp & Hn & Harcs & Hcoup & _).
  destruct (exact_problem _ _ _ _ _ _ _ _ _ _ Hb) as [Hv Hcs].
  assert (Hbin : forall v, is_key m v -> a v = 0%Z \/ a v = 1%Z).
  { rewrite Hv, bip_bounds_iff in Hbd. intros v Hk. apply Hbd.
    apply in_exact_keys. exact Hk. }
  assert (R : routing (BIP.num_pqubits m) (BIP.depth m) (bip_gates m)
                (BIP._arcs m) (neighbors (BIP._coupling m))
                (neighbors (BIP._coupling m)) (bip_free m) a).
  { apply (relaxed_routing m a Hn). rewrite <- Hcs.
    apply Forall_forall. exact Hrel. }
  assert (LB : lower_bound (BIP.depth m) (bip_gates m) (BIP._arcs m) a).
  { apply (routing_lower_bound _ _ _ _ _ _ _ _ R).
    - intros t q j Ht Hq Hj. apply Hbin. cbn. rewrite Hn. auto.
    - intros t p0 q i j Ht Hg Ha. apply Hbin. cbn. auto.
    - intros t q i j Ht Hq Hi Hj.
      assert (H : a (X t q i j) = 0%Z \/ a (X t q i j) = 1%Z)
        by (apply Hbin; cbn; rewrite Hn; auto).
      destruct H as [-> | ->]; lia.
    - intros i j Ha. rewrite Harcs in Ha. rewrite Hcoup, Hnp.
      pose proof (co_range _ Hc i j Ha) as Hj.
      pose proof (co_sym _ Hc i j Ha) as Hs.
      apply (co_edges _ Hc) in Ha. apply (co_edges _ Hc) in Hs. tauto.
    - intros t p0 q Ht Hg.
      pose proof (bip_gates_range dag c subset D ns m t p0 q Hdag Hm Hg)
        as [G1 G2].
      rewrite Hn in G1, G2. split; assumption. }
  assert (Hf : feasible (BIP.problem b) a).
  { apply (bip_feasible_iff _ _ _ _ _ _ _ _ _ _ _ Hb Hn).
    split; [exact Hbin|]. split; assumption. }
  split; [exact Hf|]. apply Forall_forall. exact (proj2 Hf).
Qed.

(** The theorem at [circuit2] on the line and the assignment that keeps
    the virtual qubits 0 and 1 exchanged. *)
Lemma lower_mccormick_bound_is_implied_example :
  exists m b,
    BIP.init circuit2 line3 [0; 1; 2] 1 1 = Ok m
    /\ BIP.create_cpx_problem approx_log cnot_fid cnot_mfid no_mean m
         "depth" None (1 # 10)%Q (Some (5 # 1000)%Q) None = Ok b
    /\ existsb (fun c0 => is_lower_bound (ctname c0))
         (constraints (BIP.problem b)) = true
    /\ feasible (BIP.problem b) static_assignment.
Proof.
  pose (m := ltac:(ok_value (BIP.init circuit2 line3 [0; 1; 2] 1 1))).
  assert (Hm : BIP.init circuit2 line3 [0; 1; 2] 1 1 = Ok m)
    by (vm_compute; reflexivity).
  pose (b := ltac:(ok_value
                     (BIP.create_cpx_problem approx_log cnot_fid cnot_mfid
                        no_mean m "depth" None (1 # 10)%Q
                        (Some (5 # 1000)%Q) None))).
  assert (Hb : BIP.create_cpx_problem approx_log cnot_fid cnot_mfid no_mean m
                 "depth" None (1 # 10)%Q (Some (5 # 1000)%Q) None = Ok b)
    by (vm_compute; reflexivity).
  assert (Hbd : Forall (in_bounds static_assignment)
                  (variables (BIP.problem b))).
  { apply Forall_forall. intros bv Hbv. apply in_boundsb_in_bounds.
    revert bv Hbv. apply forallb_forall. vm_compute. reflexivity. }
  assert (Hrel : Forall (relaxed static_assignment)
                   (constraints (BIP.problem b)))
    by (apply relaxedb_relaxed; vm_compute; reflexivity).
  exists m, b. split; [exact Hm|]. split; [exact Hb|].
  split; [vm_compute; reflexivity|].
  exact (proj1 (lower_mccormick_bound_is_implied
                  approx_log cnot_fid cnot_mfid no_mean circuit2 line3
                  [0; 1; 2] 1 1%Z m "depth" None (1 # 10)%Q
                  (Some (5 # 1000)%Q) b static_assignment
                  line3_ok circuit2_ok Hm Hb Hbd
                  (proj1 (Forall_forall _ _) Hrel))).
Defined.

(** ** A window that has no solution *)

Lemma fold_raise {A B} (f : A -> B -> result A) (l : list B) e :
  fold_left (fun (acc : result A) x => bind acc (fun st => f st x)) l
    (Raise e)
  = Raise e.
Proof. induction l as [|x l IH]; [reflexivity | exact IH]. Qed.

Lemma range_at n k :
  k < n -> range n = range k ++ k :: seq (S k) (n - S k).
Proof.
  intros Hk. unfold range.
  replace n with (k + S (n - S k)) at 1 by lia.
  rewrite seq_app. reflexivity.
Qed.

(** Reading a value in a model that was not solved. *)
Lemma fix_variables_none cur names next :
  names <> [] ->
  (forall v, In v names -> In v (names_of cur)) ->
  BIP.fix_variables cur None names next = Raise DOcplexException.
Proof.
  intros Hne Hin. destruct names as [|v names]; [congruence|].
  unfold BIP.fix_variables. cbn [fold_left bind].
  unfold BIP.solution_value.
  rewrite (proj2 (has_var_In cur v) (Hin v (or_introl eq_refl))).
  cbn [bind].
  exact (fold_raise
           (fun nx name =>
              bind (BIP.solution_value cur None name)
                   (fun val => BIP.fix_bounds nx name val))
           names DOcplexException).
Qed.

Section NoSolution.

Variable cplex_solve : Model -> option (Var -> Q) * string.

Lemma solve_split_none m D st T thr split h :
  windows_ok m D ->
  BIP.gates m = with_dummy_steps D (BIP.su4layers m) ->
  (1 < BIP._num_splits m)%Z ->
  0 < BIP.num_vqubits m -> 0 < BIP.num_pqubits m ->
  names_ok m st ->
  split < BIP.num_windows m ->
  nth_error (BIP.heur_problem st) split = Some h ->
  fst (cplex_solve
         (BIP.set_parameters
            (BIP.set_time_limit h (share (BIP._num_splits m) T split)) thr))
  = None ->
  BIP.solve_split cplex_solve st T thr split = Raise DOcplexException.
Proof.
  intros Hw Hg Hsplits Hnv Hnp Hok Hs Hh Hsol.
  pose proof (names_length m st Hok) as Hlen.
  pose proof Hok as (Hself & Hmap & Hex).
  destruct (window_schedule m D split Hw Hg Hs) as (Hl1 & Hl2 & _ & _).
  destruct (names_at m _ _ _ _ Hmap Hh) as [_ Hhn].
  unfold BIP.solve_split. rewrite Hself.
  rewrite (heur_time_limit_total (BIP._num_splits m) T split) by lia.
  cbn [bind].
  assert (Hsl : split < length (BIP.heur_problem st)) by lia.
  rewrite (py_index_ok _ _ h Hsl).
  rewrite (nth_error_nth _ _ h Hh). cbn [bind].
  fold (share (BIP._num_splits m) T split).
  set (h' := BIP.set_parameters (BIP.set_time_limit h _) thr) in *.
  set (hs := BIP.replace_nth (BIP.heur_problem st) split h').
  assert (Hfix : forall next,
            BIP.fix_window st split h' (fst (cplex_solve h')) next
            = Raise DOcplexException).
  { intros next.
    rewrite fix_window_eq by (rewrite Hself; assumption).
    rewrite Hsol, Hself. apply fix_variables_none.
    - intros Hnil.
      assert (Hin : In (W 0 0 0) (window_names m split)).
      { apply in_window_names. cbn [is_fixed].
        rewrite (wo_last _ _ Hw split Hs).
        rewrite !andb_true_iff, !Nat.ltb_lt. lia. }
      rewrite Hnil in Hin. destruct Hin.
    - intros v Hv. apply in_window_names in Hv.
      change (names_of h') with (names_of h). rewrite Hhn.
      apply (fixed_names_known m D split v Hw Hg Hs Hv). }
  destruct (Z.ltb_spec (Z.of_nat split) (BIP._num_splits m - 2)) as [Hlt|Hge].
  - assert (Hhsl : split + 1 < length hs).
    { unfold hs. rewrite length_replace_nth by exact Hsl.
      rewrite Hlen. unfold BIP.num_windows. lia. }
    replace (Z.of_nat split + 1)%Z with (Z.of_nat (split + 1)) by lia.
    rewrite (py_index_ok _ _ h Hhsl). cbn [bind].
    rewrite Hfix. reflexivity.
  - rewrite Hfix. reflexivity.
Qed.

End NoSolution.

(** X10.  Let the loop of [solve_cpx_problem] have reached window [split],
    with [h] the model of that window, and let the solver find no solution
    for it.  Then reading the first value, [w_0_0_0] (lines 788-792), raises
    [DOcplexException]: the iteration and with it [solve_cpx_problem]
    raise, and neither a later window nor the exact model is solved. *)
Theorem window_without_solution_aborts :
  forall cplex_solve np_log gf mgf npeml dag coupling subset D ns m
         obj bp weight rate b T thr split st h,
    BIP.init dag coupling subset D ns = Ok m ->
    BIP.create_cpx_problem np_log gf mgf npeml m obj bp weight rate None
    = Ok b ->
    0 < BIP.num_vqubits m ->
    split < BIP.num_windows m ->
    windows_solved cplex_solve b T thr split = Ok st ->
    nth_error (BIP.heur_problem st) split = Some h ->
    fst (cplex_solve
           (BIP.set_parameters
              (BIP.set_time_limit h (share (BIP._num_splits m) T split)) thr))
    = None ->
    BIP.solve_split cplex_solve st T thr split = Raise DOcplexException
    /\ BIP.solve_cpx_problem cplex_solve b T thr = Raise DOcplexException.
Proof.
  intros cplex_solve np_log gf mgf npeml dag coupling subset D ns m
         obj bp weight rate b T thr split st h
         Hinit Hcreate Hnv Hsplit Hloop Hh Hsol.
  assert (Hsplits : (1 < BIP._num_splits m)%Z)
    by (unfold BIP.num_windows in Hsplit; lia).
  pose proof (init_windows _ _ _ _ _ _ Hinit Hsplits) as Hw.
  destruct (init_fields _ _ _ _ _ _ Hinit) as (_ & Hg & _ & _ & _ & Hn & _).
  pose proof (create_names_ok _ _ _ _ _ _ _ _ _ _ Hcreate) as Hb.
  assert (Hst : names_ok m st).
  { apply (windows_solved_names cplex_solve m D b T thr split st Hw Hg Hb);
      [lia | exact Hloop]. }
  assert (Hraise : BIP.solve_split cplex_solve st T thr split
                   = Raise DOcplexException).
  { apply (solve_split_none cplex_solve m D st T thr split h); try assumption.
    rewrite <- Hn. exact Hnv. }
  split; [exact Hraise|].
  unfold BIP.solve_cpx_problem.
  destruct Hb as (Hself & _). rewrite Hself.
  destruct (Z.ltb_spec 1 (BIP._num_splits m)) as [_|Hle]; [|lia].
  fold (BIP.num_windows m).
  rewrite (range_at (BIP.num_windows m) split Hsplit), fold_left_app.
  fold (windows_solved cplex_solve b T thr split). rewrite Hloop.
  cbn [fold_left bind]. rewrite Hraise.
  rewrite (fold_raise (fun st0 split0 =>
                         BIP.solve_split cplex_solve st0 T thr split0)).
  reflexivity.
Qed.

(** A solver that finds nothing. *)
Definition no_solver (_ : Model) : option (Var -> Q) * string :=
  (None, "infeasible"%string).

(** The theorem at [circuit4] on the line with two splits: the first
    window has no solution. *)
Lemma window_without_solution_aborts_example :
  exists m b,
    BIP.init circuit4 line3 [0; 1; 2] 1 2 = Ok m
    /\ build_on_line3 circuit4 1 2 "depth" = Ok b
    /\ BIP.num_windows m = 1
    /\ BIP.solve_cpx_problem no_solver b (float_of_int 60) None = Raise DOcplexException.
Proof.
  pose (m := ltac:(ok_value (BIP.init circuit4 line3 [0; 1; 2] 1 2))).
  pose (b := ltac:(ok_value (build_on_line3 circuit4 1 2 "depth"))).
  assert (Hm : BIP.init circuit4 line3 [0; 1; 2] 1 2 = Ok m)
    by (vm_compute; reflexivity).
  assert (Hb : build_on_line3 circuit4 1 2 "depth" = Ok b)
    by (vm_compute; reflexivity).
  assert (Hc : BIP.create_cpx_problem approx_log cnot_fid cnot_mfid no_mean m
                 "depth" None (1 # 10)%Q (Some (5 # 1000)%Q) None = Ok b)
    by (vm_compute; reflexivity).
  pose (h := nth 0 (BIP.heur_problem b) (BIP.problem b)).
  assert (Hh : nth_error (BIP.heur_problem b) 0 = Some h)
    by (vm_compute; reflexivity).
  exists m, b. split; [exact Hm|]. split; [exact Hb|].
  split; [vm_compute; reflexivity|].
  exact (proj2 (window_without_solution_aborts
                  no_solver approx_log cnot_fid cnot_mfid no_mean
                  circuit4 line3 [0; 1; 2] 1 2%Z m "depth" None (1 # 10)%Q
                  (Some (5 # 1000)%Q) b (float_of_int 60) None 0 b h
                  Hm Hc ltac:(vm_compute; lia) ltac:(vm_compute; lia)
                  eq_refl Hh eq_refl)).
Defined.

(** ** The exact model of a valid circuit is built *)

(** Every subscript of the constraint is a key of the dictionaries. *)
Definition keyed (keys : list Var) (c0 : Constraint) : Prop :=
  forall v, In v (subscripts (ct_lhs c0) ++ subscripts (ct_rhs c0)) ->
            In v keys.

Lemma add_constraints_keyed keys cs :
  Forall (keyed keys) cs -> add_constraints keys cs = Ok cs.
Proof.
  intros H. apply add_constraints_total. intros c0 v Hc0 Hv.
  rewrite Forall_forall in H. exact (H c0 Hc0 v Hv).
Qed.

Lemma subscripts_fold {K} (l : list (LinExpr K)) (acc : LinExpr K) :
  subscripts (fold_left Plus l acc) = subscripts acc ++ flat_map subscripts l.
Proof.
  revert acc. induction l as [|e l IH]; intros acc.
  - cbn [fold_left flat_map]. rewrite app_nil_r. reflexivity.
  - cbn [fold_left flat_map]. rewrite IH. cbn [subscripts].
    rewrite app_assoc. reflexivity.
Qed.

Lemma subscripts_psum_refs {A} (f : A -> Var) (l : list A) :
  subscripts (psum (K := Z) (map (fun x => Ref (f x)) l)) = map f l.
Proof.
  unfold psum. rewrite subscripts_fold. cbn [subscripts app].
  induction l as [|x l IH]; [reflexivity|].
  cbn [map flat_map subscripts app]. rewrite IH. reflexivity.
Qed.

Lemma for_gates_total gs ts keys body :
  (forall t, In t ts -> t < length gs) ->
  (forall t g, In t ts -> In g (nth t gs []) ->
               Forall (keyed keys) (body t g)) ->
  BIP.for_gates gs ts keys body = Ok (gates_flat gs ts body).
Proof.
  intros Hlt Hk. unfold BIP.for_gates, gates_flat.
  apply flat_mapM_total. intros t Ht. unfold BIP.gates_at.
  rewrite (py_index_ok gs t []) by (apply Hlt; exact Ht). cbn [bind].
  apply add_constraints_keyed. apply Forall_flat_map, Forall_forall.
  intros g Hg. apply Hk; assumption.
Qed.

Lemma q_no_gate_total lay acc :
  NoDup acc -> NoDup (BIP.used_qubits lay) ->
  incl (BIP.used_qubits lay) acc ->
  exists r, BIP.q_no_gate lay acc = Ok r.
Proof.
  revert acc. induction lay as [|[[p q] n] lay IH]; intros acc Hacc Hnd Hin.
  - exists acc. reflexivity.
  - cbn [BIP.used_qubits flat_map fst snd app] in Hnd, Hin.
    fold (BIP.used_qubits lay) in Hnd, Hin.
    inversion Hnd as [|? ? Hp Hnd1]; subst.
    inversion Hnd1 as [|? ? Hq Hnd2]; subst.
    cbn [BIP.q_no_gate].
    assert (Hrm : forall x l, In x l -> exists r, list_remove x l = Ok r).
    { intros x l. induction l as [|y l IHl]; intros Hx; [destruct Hx|].
      cbn [list_remove]. destruct (Nat.eqb_spec x y) as [->|Hxy].
      - exists l. reflexivity.
      - destruct Hx as [E|Hx]; [congruence|].
        destruct (IHl Hx) as [r ->]. exists (y :: r). reflexivity. }
    destruct (Hrm p acc (Hin p (or_introl eq_refl))) as [acc1 H1].
    destruct (list_remove_spec _ _ _ H1) as [_ R1].
    destruct (R1 Hacc) as [Hacc1 M1].
    assert (Hq1 : In q acc1).
    { apply M1. split; [apply Hin; right; left; reflexivity|].
      intros ->. apply Hp. left. reflexivity. }
    destruct (Hrm q acc1 Hq1) as [acc2 H2].
    destruct (list_remove_spec _ _ _ H2) as [_ R2].
    destruct (R2 Hacc1) as [Hacc2 M2].
    rewrite H1. cbn [bind]. rewrite H2. cbn [bind].
    apply IH; [exact Hacc2 | exact Hnd2 |].
    intros y Hy. apply M2. split.
    + apply M1. split; [apply Hin; right; right; exact Hy|].
      intros ->. apply Hp. right. exact Hy.
    + intros ->. exact (Hq Hy).
Qed.

Lemma used_qubits_of lay : BIP.used_qubits lay = qubits_of (map fst lay).
Proof.
  induction lay as [|g lay IH]; [reflexivity|].
  unfold BIP.used_qubits, qubits_of in *. cbn [map flat_map].
  rewrite IH. reflexivity.
Qed.

Ltac key_cases Hv :=
  cbn [ct ct_lhs ct_rhs subscripts app In BIP.McCormickLB
       BIP.McCormickUB1_strong BIP.McCormickUB2_strong
       BIP.McCormickUB1_regular BIP.McCormickUB2_regular] in Hv;
  repeat (destruct Hv as [<-|Hv]); try (destruct Hv).

Section ExactTotal.

Variables (np_log : Q -> Q) (gf mgf : nat -> list Q).
Variables (dag : DAGCircuit) (c : CouplingMap) (subset : list nat)
          (D : nat) (ns : Z) (m : BIP.BIPMappingModel).
Hypothesis Hc : coupling_ok c.
Hypothesis Hdag : dag_ok dag.
Hypothesis Hm : BIP.init dag c subset D ns = Ok m.
Hypothesis Hne : real_layers dag <> [].

(** The keys of [w], [y] and [x]. *)
Definition main_keys (m0 : BIP.BIPMappingModel) : list Var :=
  BIP.w_keys (BIP.depth m0) (BIP.num_vqubits m0) (BIP.num_pqubits m0)
  ++ y_keys_flat (BIP.gates m0) (BIP._arcs m0) (BIP.depth m0)
  ++ BIP.x_keys (fun _ => neighbors (BIP._coupling m0)) (BIP.depth m0)
       (BIP.num_vqubits m0) (BIP.num_pqubits m0).

Lemma main_keys_z :
  exact_keys m = main_keys m ++ z_keys_flat m (range (BIP.depth m)).
Proof. unfold exact_keys, main_keys. rewrite <- !app_assoc. reflexivity. Qed.

Lemma in_main_keys v :
  is_key m v -> match v with Zv _ => False | _ => True end ->
  In v (main_keys m).
Proof.
  intros Hk Hv. apply in_exact_keys in Hk. rewrite main_keys_z in Hk.
  apply in_app_iff in Hk. destruct Hk as [Hk|Hk]; [exact Hk|].
  exfalso. unfold z_keys_flat in Hk. apply in_flat_map in Hk.
  destruct Hk as [t [_ Hk]]. destruct (is_dummy m t); [|destruct Hk].
  destruct Hk as [<-|[]]. exact Hv.
Qed.

Lemma et_depth : 0 < BIP.depth m.
Proof.
  destruct (init_fields _ _ _ _ _ _ Hm) as (Hsu & Hg & _).
  unfold BIP.depth. rewrite Hg, Hsu.
  destruct (with_dummy_steps D (map BIP.laygates_of (real_layers dag)))
    eqn:E; [|simpl; lia].
  apply with_dummy_steps_nil_iff in E. apply map_eq_nil in E.
  exfalso. exact (Hne E).
Qed.

Lemma et_nv : BIP.num_vqubits m = BIP.num_pqubits m.
Proof.
  destruct (init_fields _ _ _ _ _ _ Hm) as (_ & _ & _ & _ & _ & H & _).
  exact H.
Qed.

Lemma et_gate t p q n :
  In (p, q, n) (nth t (BIP.gates m) []) ->
  p < BIP.num_vqubits m /\ q < BIP.num_vqubits m.
Proof.
  intros Hg.
  apply (bip_gates_range dag c subset D ns m t p q Hdag Hm).
  apply in_bip_gates. exists n. exact Hg.
Qed.

Lemma et_arc i j :
  In (i, j) (BIP._arcs m) ->
  i < BIP.num_pqubits m /\ j < BIP.num_pqubits m
  /\ In j (neighbors (BIP._coupling m) i)
  /\ In i (neighbors (BIP._coupling m) j).
Proof.
  destruct (init_fields _ _ _ _ _ _ Hm)
    as (_ & _ & _ & _ & Hnp & _ & Ha & Hcp & _).
  rewrite Ha, Hcp, Hnp. intros H.
  pose proof (co_range _ Hc i j H) as Hj.
  pose proof (co_sym _ Hc i j H) as Hs.
  apply (co_edges _ Hc) in H. apply (co_edges _ Hc) in Hs. tauto.
Qed.

Lemma et_nb i j :
  i < BIP.num_pqubits m -> In j (neighbors (BIP._coupling m) i) ->
  In (i, j) (BIP._arcs m).
Proof.
  destruct (init_fields _ _ _ _ _ _ Hm)
    as (_ & _ & _ & _ & Hnp & _ & Ha & Hcp & _).
  rewrite Ha, Hcp, Hnp. intros Hi Hj. apply (co_edges _ Hc). tauto.
Qed.

Lemma et_w t q j :
  t < BIP.depth m -> q < BIP.num_vqubits m -> j < BIP.num_pqubits m ->
  In (W t q j) (main_keys m).
Proof. intros. apply in_main_keys; cbn [is_key]; auto. Qed.

Lemma et_y t p q n i j :
  t < BIP.depth m -> In (p, q, n) (nth t (BIP.gates m) []) ->
  In (i, j) (BIP._arcs m) -> In (Y t p q i j) (main_keys m).
Proof.
  intros Ht Hg Ha. apply in_main_keys; [|exact I]. cbn [is_key].
  split; [exact Ht|]. split; [|exact Ha].
  apply in_bip_gates. exists n. exact Hg.
Qed.

Lemma et_x t q i j :
  t + 1 < BIP.depth m -> q < BIP.num_vqubits m -> i < BIP.num_pqubits m ->
  j = i \/ In j (neighbors (BIP._coupling m) i) ->
  In (X t q i j) (main_keys m).
Proof.
  intros Ht Hq Hi Hj. apply in_main_keys; [|exact I]. cbn [is_key].
  repeat split; try assumption. lia.
Qed.

Lemma et_x_arc t q i j :
  t + 1 < BIP.depth m -> q < BIP.num_vqubits m -> In (i, j) (BIP._arcs m) ->
  In (X t q i j) (main_keys m).
Proof.
  intros Ht Hq Ha. destruct (et_arc i j Ha) as (Hi & _ & Hnb & _).
  apply et_x; auto.
Qed.

Lemma et_c1 :
  Forall (keyed (main_keys m))
    (BIP.assignment_vqubits (BIP.depth m) (BIP.num_vqubits m)
       (BIP.num_pqubits m)).
Proof.
  unfold BIP.assignment_vqubits. apply Forall_flat_map, Forall_forall.
  intros t Ht. apply Forall_map, Forall_forall. intros q Hq.
  apply in_range in Ht, Hq. intros v Hv. cbn [ct ct_lhs ct_rhs] in Hv.
  rewrite (subscripts_psum_refs (fun j => W t q j)) in Hv.
  cbn [subscripts] in Hv. rewrite app_nil_r in Hv.
  apply in_map_iff in Hv. destruct Hv as [j [<- Hj]]. apply in_range in Hj.
  apply et_w; assumption.
Qed.

Lemma et_c2 :
  Forall (keyed (main_keys m))
    (BIP.assignment_pqubits (BIP.depth m) (BIP.num_vqubits m)
       (BIP.num_pqubits m)).
Proof.
  unfold BIP.assignment_pqubits. apply Forall_flat_map, Forall_forall.
  intros t Ht. apply Forall_map, Forall_forall. intros j Hj.
  apply in_range in Ht, Hj. intros v Hv. cbn [ct ct_lhs ct_rhs] in Hv.
  rewrite (subscripts_psum_refs (fun q => W t q j)) in Hv.
  cbn [subscripts] in Hv. rewrite app_nil_r in Hv.
  apply in_map_iff in Hv. destruct Hv as [q [<- Hq]]. apply in_range in Hq.
  apply et_w; assumption.
Qed.

Lemma et_c3 t g :
  t < BIP.depth m -> In g (nth t (BIP.gates m) []) ->
  Forall (keyed (main_keys m)) (BIP.implement_gate (BIP._arcs m) t g).
Proof.
  intros Ht Hg. destruct g as [[p q] n]. unfold BIP.implement_gate.
  constructor; [|constructor]. intros v Hv. cbn [ct ct_lhs ct_rhs] in Hv.
  rewrite (subscripts_psum_refs
             (fun a : nat * nat => Y t p q (fst a) (snd a))) in Hv.
  cbn [subscripts] in Hv. rewrite app_nil_r in Hv.
  apply in_map_iff in Hv. destruct Hv as [[i j] [<- Ha]].
  exact (et_y t p q n i j Ht Hg Ha).
Qed.

Lemma et_c4 t g :
  t + 1 < BIP.depth m -> In g (nth t (BIP.gates m) []) ->
  Forall (keyed (main_keys m)) (BIP.mccormick_strong (BIP._arcs m) t g).
Proof.
  intros Ht Hg. destruct g as [[p q] n]. unfold BIP.mccormick_strong.
  apply Forall_flat_map, Forall_forall. intros [i j] Ha.
  destruct (et_gate t p q n Hg) as [Hp Hq].
  destruct (et_arc i j Ha) as (Hi & Hj & Hnb & Hnb').
  pose proof (et_y t p q n i j ltac:(lia) Hg Ha) as Hy.
  repeat constructor; intros v Hv; key_cases Hv;
    first [exact Hy | apply et_w; (assumption || lia)
          | apply et_x; auto].
Qed.

Lemma et_c5 g :
  In g (nth (BIP.depth m - 1) (BIP.gates m) []) ->
  Forall (keyed (main_keys m))
    (BIP.mccormick_last (BIP._arcs m) (BIP.depth m - 1) g).
Proof.
  intros Hg. destruct g as [[p q] n]. unfold BIP.mccormick_last.
  apply Forall_flat_map, Forall_forall. intros [i j] Ha.
  pose proof et_depth as Hd.
  destruct (et_gate _ p q n Hg) as [Hp Hq].
  destruct (et_arc i j Ha) as (Hi & Hj & Hnb & Hnb').
  assert (Hlt : BIP.depth m - 1 < BIP.depth m) by lia.
  pose proof (et_y _ p q n i j Hlt Hg Ha) as Hy.
  repeat constructor; intros v Hv; key_cases Hv;
    first [exact Hy | apply et_w; (assumption || lia)].
Qed.

Lemma et_c6 :
  Forall (keyed (main_keys m))
    (flow_out_flat (fun _ => neighbors (BIP._coupling m)) (BIP.depth m)
       (BIP.num_vqubits m) (BIP.num_pqubits m)).
Proof.
  unfold flow_out_flat. apply Forall_flat_map, Forall_forall. intros t Ht.
  apply Forall_flat_map, Forall_forall. intros q Hq.
  apply Forall_map, Forall_forall. intros i Hi.
  apply in_range in Ht, Hq, Hi. intros v Hv.
  unfold BIP.flow_out in Hv. cbn [ct ct_lhs ct_rhs subscripts] in Hv.
  rewrite (subscripts_psum_refs (fun j => X t q i j)) in Hv.
  cbn [app In] in Hv. destruct Hv as [<-|[<-|Hv]].
  - apply et_w; (assumption || lia).
  - apply et_x; auto. lia.
  - apply in_map_iff in Hv. destruct Hv as [j [<- Hj]].
    apply et_x; auto. lia.
Qed.

Lemma et_c7 :
  Forall (keyed (main_keys m))
    (flow_in_flat (fun _ => neighbors (BIP._coupling m)) (BIP.depth m)
       (BIP.num_vqubits m) (BIP.num_pqubits m)).
Proof.
  unfold flow_in_flat. apply Forall_flat_map, Forall_forall. intros t Ht.
  apply Forall_flat_map, Forall_forall. intros q Hq.
  apply Forall_map, Forall_forall. intros i Hi.
  apply in_seq in Ht. apply in_range in Hq, Hi. intros v Hv.
  unfold BIP.flow_in in Hv. cbn [ct ct_lhs ct_rhs subscripts] in Hv.
  rewrite (subscripts_psum_refs (fun j => X (t - 1) q j i)) in Hv.
  cbn [app In] in Hv. destruct Hv as [<-|[<-|Hv]].
  - apply et_w; (assumption || lia).
  - apply et_x; auto. lia.
  - apply in_map_iff in Hv. destruct Hv as [j [<- Hj]].
    destruct (et_arc i j (et_nb i j Hi Hj)) as (_ & Hj' & _ & Hnb').
    apply et_x; auto. lia.
Qed.

Lemma et_c8 t g :
  t + 1 < BIP.depth m -> In g (nth t (BIP.gates m) []) ->
  Forall (keyed (main_keys m)) (BIP.swap (BIP._arcs m) t g).
Proof.
  intros Ht Hg. destruct g as [[p q] n]. unfold BIP.swap.
  apply Forall_map, Forall_forall. intros [i j] Ha.
  destruct (et_gate t p q n Hg) as [Hp Hq].
  destruct (et_arc i j Ha) as (Hi & Hj & Hnb & Hnb').
  intros v Hv. key_cases Hv; apply et_x; auto.
Qed.

Lemma et_free t :
  exists free,
    BIP.q_no_gate (nth t (BIP.gates m) []) (range (BIP.num_vqubits m))
    = Ok free
    /\ forall q, In q free -> q < BIP.num_vqubits m.
Proof.
  destruct (q_no_gate_total (nth t (BIP.gates m) [])
              (range (BIP.num_vqubits m))) as [free Hfree].
  - apply seq_NoDup.
  - rewrite used_qubits_of. fold (bip_gates m t).
    exact (bip_gates_nodup dag c subset D ns m t Hdag Hm).
  - intros x Hx. apply in_used_qubits in Hx.
    destruct Hx as (p & q & Hg & E). apply in_range.
    fold (bip_gates m t) in Hg.
    destruct (bip_gates_range dag c subset D ns m t p q Hdag Hm Hg).
    destruct E as [-> | ->]; assumption.
  - exists free. split; [exact Hfree|].
    destruct (q_no_gate_spec _ _ _ Hfree (seq_NoDup _ _)) as (_ & _ & _ & Hmem).
    intros q Hq. apply Hmem in Hq. apply in_range. tauto.
Qed.

Lemma et_c9 :
  BIP.for_swap_no_gate (BIP.gates m) (range (BIP.depth m - 1))
    (main_keys m) (BIP._arcs m) (BIP.num_vqubits m)
  = Ok (swap_no_gate_flat (BIP.gates m) (range (BIP.depth m - 1))
          (BIP._arcs m) (BIP.num_vqubits m)).
Proof.
  unfold BIP.for_swap_no_gate, swap_no_gate_flat.
  apply flat_mapM_total. intros t Ht. apply in_range in Ht.
  unfold BIP.gates_at.
  rewrite (py_index_ok (BIP.gates m) t [])
    by (unfold BIP.depth in Ht; lia).
  cbn [bind]. destruct (et_free t) as [free [Hfree Hlt]].
  unfold free_qubits. rewrite Hfree. cbn [bind].
  apply add_constraints_keyed. unfold BIP.swap_no_gate.
  apply Forall_map, Forall_forall. intros [i j] Ha.
  destruct (et_arc i j Ha) as (Hi & Hj & Hnb & Hnb').
  intros v Hv. cbn [ct ct_lhs ct_rhs] in Hv.
  rewrite (subscripts_psum_refs (fun q => X t q i j)),
          (subscripts_psum_refs (fun q => X t q j i)) in Hv.
  apply in_app_iff in Hv.
  destruct Hv as [Hv|Hv]; apply in_map_iff in Hv;
    destruct Hv as [q [<- Hq]]; apply et_x; auto; lia.
Qed.

(** The steps of the main constraints together. *)
Lemma et_main :
  BIP.exact_main_constraints m (main_keys m)
  = Ok (BIP.assignment_vqubits (BIP.depth m) (BIP.num_vqubits m)
          (BIP.num_pqubits m)
        ++ BIP.assignment_pqubits (BIP.depth m) (BIP.num_vqubits m)
             (BIP.num_pqubits m)
        ++ gates_flat (BIP.gates m) (range (BIP.depth m))
             (BIP.implement_gate (BIP._arcs m))
        ++ gates_flat (BIP.gates m) (range (BIP.depth m - 1))
             (BIP.mccormick_strong (BIP._arcs m))
        ++ flat_map (BIP.mccormick_last (BIP._arcs m) (BIP.depth m - 1))
             (nth (BIP.depth m - 1) (BIP.gates m) [])
        ++ flow_out_flat (fun _ => neighbors (BIP._coupling m)) (BIP.depth m)
             (BIP.num_vqubits m) (BIP.num_pqubits m)
        ++ flow_in_flat (fun _ => neighbors (BIP._coupling m)) (BIP.depth m)
             (BIP.num_vqubits m) (BIP.num_pqubits m)
        ++ gates_flat (BIP.gates m) (range (BIP.depth m - 1))
             (BIP.swap (BIP._arcs m))
        ++ swap_no_gate_flat (BIP.gates m) (range (BIP.depth m - 1))
             (BIP._arcs m) (BIP.num_vqubits m)).
Proof.
  pose proof et_depth as Hd.
  unfold BIP.exact_main_constraints.
  rewrite (add_constraints_keyed _ _ et_c1). cbn [bind].
  rewrite (add_constraints_keyed _ _ et_c2). cbn [bind].
  rewrite (for_gates_total (BIP.gates m) (range (BIP.depth m)) (main_keys m)
             (BIP.implement_gate (BIP._arcs m))).
  2:{ intros t Ht. apply in_range in Ht. exact Ht. }
  2:{ intros t g Ht Hg. apply in_range in Ht. apply et_c3; assumption. }
  cbn [bind].
  rewrite (for_gates_total (BIP.gates m) (range (BIP.depth m - 1))
             (main_keys m) (BIP.mccormick_strong (BIP._arcs m))).
  2:{ intros t Ht. apply in_range in Ht. unfold BIP.depth in Ht. lia. }
  2:{ intros t g Ht Hg. apply in_range in Ht. apply et_c4; [lia|exact Hg]. }
  cbn [bind].
  assert (Hgne : BIP.gates m <> []).
  { intros E. unfold BIP.depth in Hd. rewrite E in Hd. simpl in Hd. lia. }
  unfold BIP.depth at 1.
  rewrite (py_index_last (BIP.gates m) [] Hgne). cbn [bind].
  fold (BIP.depth m).
  rewrite add_constraints_keyed.
  2:{ apply Forall_flat_map, Forall_forall. intros g Hg. apply et_c5.
      exact Hg. }
  cbn [bind].
  pose proof et_c6 as H6. pose proof et_c7 as H7.
  unfold flow_out_flat in H6. unfold flow_in_flat in H7.
  rewrite (add_constraints_keyed _ _ H6). cbn [bind].
  rewrite (add_constraints_keyed _ _ H7). cbn [bind].
  rewrite (for_gates_total (BIP.gates m) (range (BIP.depth m - 1))
             (main_keys m) (BIP.swap (BIP._arcs m))).
  2:{ intros t Ht. apply in_range in Ht. unfold BIP.depth in Ht. lia. }
  2:{ intros t g Ht Hg. apply in_range in Ht. apply et_c8; [lia|exact Hg]. }
  cbn [bind]. rewrite et_c9. cbn [bind]. reflexivity.
Qed.

Lemma et_dummy_step t :
  t < BIP.depth m -> BIP._is_dummy_step m t = Ok (is_dummy m t).
Proof.
  intros Ht. unfold BIP._is_dummy_step, is_dummy.
  rewrite (py_index_ok (BIP.gates m) t []) by exact Ht. reflexivity.
Qed.

(** The last step holds a layer of the circuit. *)
Lemma et_dummy_not_last t :
  t < BIP.depth m -> is_dummy m t = true -> t + 1 < BIP.depth m.
Proof.
  intros Ht Hd.
  pose proof (bip_last_step dag c subset D ns m Hm et_depth) as Hl.
  destruct (Nat.eq_dec t (BIP.depth m - 1)) as [->|Hn]; [|lia].
  exfalso. apply Hl. apply bip_gates_nil. exact Hd.
Qed.

Lemma et_main_exact v : In v (main_keys m) -> In v (exact_keys m).
Proof. intros H. rewrite main_keys_z. apply in_or_app. left. exact H. Qed.

Lemma et_zv t :
  t < BIP.depth m -> is_dummy m t = true -> In (Zv t) (exact_keys m).
Proof.
  intros Ht Hd. apply in_exact_keys. cbn [is_key]. split; [exact Ht|].
  apply bip_gates_nil. exact Hd.
Qed.

Lemma et_z :
  BIP.z_keys m (range (BIP.depth m))
  = Ok (z_keys_flat m (range (BIP.depth m))).
Proof.
  unfold BIP.z_keys, z_keys_flat. apply flat_mapM_total. intros t Ht.
  apply in_range in Ht. rewrite (et_dummy_step t Ht). reflexivity.
Qed.

Lemma et_c10 :
  BIP.for_dummy_ts_needed m (range (BIP.depth m)) (exact_keys m)
  = Ok (dummy_ts_needed_flat m (range (BIP.depth m))).
Proof.
  unfold BIP.for_dummy_ts_needed, dummy_ts_needed_flat.
  apply flat_mapM_total. intros t Ht. apply in_range in Ht.
  rewrite (et_dummy_step t Ht). cbn [bind].
  destruct (is_dummy m t) eqn:Hd; [|reflexivity].
  apply add_constraints_keyed. unfold BIP.dummy_ts_needed.
  apply Forall_map, Forall_forall. intros q Hq. apply in_range in Hq.
  intros v Hv. cbn [ct ct_lhs ct_rhs] in Hv.
  rewrite (subscripts_psum_refs
             (fun a : nat * nat => X t q (fst a) (snd a))) in Hv.
  cbn [subscripts] in Hv. apply in_app_iff in Hv. destruct Hv as [Hv|Hv].
  - apply in_map_iff in Hv. destruct Hv as [[i j] [<- Ha]].
    apply et_main_exact. apply et_x_arc; [|exact Hq|exact Ha].
    exact (et_dummy_not_last t Ht Hd).
  - destruct Hv as [<-|[]]. exact (et_zv t Ht Hd).
Qed.

Lemma et_c11 :
  BIP.for_dummy_precedence m (range (BIP.depth m - 1)) (exact_keys m)
  = Ok (dummy_precedence_flat m (range (BIP.depth m - 1))).
Proof.
  unfold BIP.for_dummy_precedence, dummy_precedence_flat.
  apply flat_mapM_total. intros t Ht. apply in_range in Ht.
  rewrite (et_dummy_step t) by lia. cbn [bind].
  destruct (is_dummy m t) eqn:Hd; [|reflexivity].
  rewrite (et_dummy_step (t + 1)) by lia. cbn [bind andb].
  destruct (is_dummy m (t + 1)) eqn:Hd'; [|reflexivity].
  apply add_constraints_keyed. constructor; [|constructor].
  intros v Hv. key_cases Hv; apply et_zv; (assumption || lia).
Qed.

Lemma lookup_ok keys v : In v keys -> BIP.lookup keys v = Ok (Ref v).
Proof.
  intros H. unfold BIP.lookup, checked_expr. cbn [subscripts forallb].
  rewrite (proj2 (stored_In keys v) H). reflexivity.
Qed.

Lemma mapM_exists {A B} (f : A -> result B) (l : list A) :
  (forall a, In a l -> exists b0, f a = Ok b0) -> exists r, mapM f l = Ok r.
Proof.
  induction l as [|a l IH]; intros H; [exists []; reflexivity|].
  destruct (H a (or_introl eq_refl)) as [b0 Hb0].
  destruct IH as [r Hr]; [intros x Hx; apply H; right; exact Hx|].
  exists (b0 :: r). cbn [mapM]. rewrite Hb0. cbn [bind]. rewrite Hr.
  reflexivity.
Qed.

Lemma flat_mapM_exists {A B} (f : A -> result (list B)) (l : list A) :
  (forall a, In a l -> exists b0, f a = Ok b0) ->
  exists r, flat_mapM f l = Ok r.
Proof.
  intros H. destruct (mapM_exists f l H) as [r Hr].
  exists (concat r). unfold flat_mapM. rewrite Hr. reflexivity.
Qed.

(** The objective ['depth'] of lines 402-408. *)
Lemma et_depth_objective b0 weight :
  BIP.self b0 = m ->
  exists objexr,
    BIP.exact_objective np_log gf mgf b0 (exact_keys m) "depth" weight
    = Ok objexr.
Proof.
  intros Hself. unfold BIP.exact_objective. rewrite Hself.
  change (String.eqb "depth" "depth") with true. cbv iota.
  assert (Hz : exists zs,
            BIP.dummy_z_sum b0 (exact_keys m) (range (BIP.depth m)) = Ok zs).
  { unfold BIP.dummy_z_sum. rewrite Hself.
    destruct (flat_mapM_exists
                (fun t =>
                   bind (BIP._is_dummy_step m t)
                     (fun d =>
                        if d
                        then bind (BIP.lookup (exact_keys m) (Zv t))
                               (fun zv => Ok [zv])
                        else Ok []))
                (range (BIP.depth m))) as [zs Hzs].
    - intros t Ht. apply in_range in Ht. rewrite (et_dummy_step t Ht).
      cbn [bind]. destruct (is_dummy m t) eqn:Hd; [|eexists; reflexivity].
      rewrite (lookup_ok _ _ (et_zv t Ht Hd)). eexists. reflexivity.
    - rewrite Hzs. eexists. reflexivity. }
  destruct Hz as [zs ->]. cbn [bind].
  assert (Hx : exists xs,
            BIP.small_swap_terms b0 (exact_keys m)
              (range (BIP.depth m - 1)) = Ok xs).
  { unfold BIP.small_swap_terms. rewrite Hself.
    apply flat_mapM_exists. intros t Ht. apply in_range in Ht.
    apply flat_mapM_exists. intros q Hq. apply in_range in Hq.
    apply mapM_exists. intros [i j] Ha. cbn [fst snd].
    rewrite lookup_ok; [eexists; reflexivity|].
    apply et_main_exact. apply et_x_arc; [lia | exact Hq | exact Ha]. }
  destruct Hx as [xs ->]. cbn [bind]. eexists. reflexivity.
Qed.

Lemma et_variables :
  BIP.exact_variables m
  = Ok (BIP.w_keys (BIP.depth m) (BIP.num_vqubits m) (BIP.num_pqubits m),
        y_keys_flat (BIP.gates m) (BIP._arcs m) (BIP.depth m),
        BIP.x_keys (fun _ => neighbors (BIP._coupling m)) (BIP.depth m)
          (BIP.num_vqubits m) (BIP.num_pqubits m)).
Proof.
  unfold BIP.exact_variables.
  assert (Hy : BIP.y_keys (BIP.gates m) (BIP._arcs m) (BIP.depth m)
               = Ok (y_keys_flat (BIP.gates m) (BIP._arcs m) (BIP.depth m))).
  { unfold BIP.y_keys, y_keys_flat. apply flat_mapM_total. intros t Ht.
    apply in_range in Ht. unfold BIP.gates_at.
    rewrite (py_index_ok (BIP.gates m) t []) by exact Ht. reflexivity. }
  rewrite Hy. reflexivity.
Qed.

(** What [exact_model] does once the constraints are in place. *)
Lemma et_exact bp rate obj weight :
  BIP.exact_model np_log gf mgf m bp rate obj weight
  = bind
      (BIP.exact_objective np_log gf mgf
         {| BIP.self := m; BIP.bprop := bp;
            BIP.default_cx_error_rate := rate;
            BIP.w_dict :=
              BIP.w_keys (BIP.depth m) (BIP.num_vqubits m)
                (BIP.num_pqubits m);
            BIP.y_dict :=
              y_keys_flat (BIP.gates m) (BIP._arcs m) (BIP.depth m);
            BIP.x_dict :=
              BIP.x_keys (fun _ => neighbors (BIP._coupling m)) (BIP.depth m)
                (BIP.num_vqubits m) (BIP.num_pqubits m);
            BIP.z_dict := z_keys_flat m (range (BIP.depth m));
            BIP.problem :=
              {| variables := []; constraints := []; objective := None;
                 time_limit := None; threads := None; randomseed := None |};
            BIP.heur_problem := [] |}
         (exact_keys m) obj weight)
      (fun objexr =>
         Ok {| BIP.self := m; BIP.bprop := bp;
               BIP.default_cx_error_rate := rate;
               BIP.w_dict :=
                 BIP.w_keys (BIP.depth m) (BIP.num_vqubits m)
                   (BIP.num_pqubits m);
               BIP.y_dict :=
                 y_keys_flat (BIP.gates m) (BIP._arcs m) (BIP.depth m);
               BIP.x_dict :=
                 BIP.x_keys (fun _ => neighbors (BIP._coupling m))
                   (BIP.depth m) (BIP.num_vqubits m) (BIP.num_pqubits m);
               BIP.z_dict := z_keys_flat m (range (BIP.depth m));
               BIP.problem :=
                 {| variables := map binary_var (exact_keys m);
                    constraints := exact_constraints m;
                    objective := Some objexr;
                    time_limit := None; threads := None;
                    randomseed := None |};
               BIP.heur_problem := [] |}).
Proof.
  unfold BIP.exact_model. rewrite et_variables. cbn [bind].
  fold (main_keys m). rewrite et_main. cbn [bind].
  rewrite et_z. cbn [bind].
  change (BIP.w_keys (BIP.depth m) (BIP.num_vqubits m) (BIP.num_pqubits m)
          ++ y_keys_flat (BIP.gates m) (BIP._arcs m) (BIP.depth m)
          ++ BIP.x_keys (fun _ => neighbors (BIP._coupling m)) (BIP.depth m)
               (BIP.num_vqubits m) (BIP.num_pqubits m)
          ++ z_keys_flat m (range (BIP.depth m)))
    with (exact_keys m).
  rewrite et_c10. cbn [bind]. rewrite et_c11. cbn [bind].
  unfold exact_constraints. rewrite <- !app_assoc. reflexivity.
Qed.

End ExactTotal.

(** ** The window models of a valid circuit are built *)

(** The keys of [w], [y] and [x] of window [split]. *)
Definition heur_main_keys (m : BIP.BIPMappingModel) (split : nat) : list Var :=
  let hg := BIP.heur_gates_of m split in
  BIP.w_keys (length hg) (BIP.num_vqubits m) (BIP.num_pqubits m)
  ++ y_keys_flat hg (BIP._arcs m) (length hg)
  ++ BIP.x_keys (BIP.heur_neighbors m split) (length hg)
       (BIP.num_vqubits m) (BIP.num_pqubits m).

Lemma heur_keys_main m split :
  heur_keys m split
  = heur_main_keys m split
    ++ z_keys_flat m (range (BIP.heur_last_layer_of m split)).
Proof.
  unfold heur_keys, heur_main_keys. rewrite <- !app_assoc. reflexivity.
Qed.

Lemma in_padded {A} D (l : list (list A)) x :
  In x (padded D l) -> x = [] \/ In x l.
Proof.
  unfold padded. intros H. apply in_flat_map in H.
  destruct H as [lay [Hlay [<-|H]]]; [right; exact Hlay|].
  left. apply repeat_spec in H. exact H.
Qed.

(** The arcs usable within [D] steps, when the windows are in use. *)
Lemma init_long dag c subset D ns m :
  BIP.init dag c subset D ns = Ok m ->
  (1 < BIP._num_splits m)%Z ->
  BIP._long_coupling_neighbors m
  = map (BIP.long_neighbors_of
           (map fst (BIP.long_arcs_with_cost c (size c) D)))
        (range (size c)).
Proof.
  unfold BIP.init. intros H.
  destruct (ns <? -1)%Z; [discriminate H|].
  destruct (negb _); [discriminate H|].
  destruct (BIP.extract_su4layers (layers dag)) as [to_su4 su4].
  injection H as <-.
  cbn [BIP._num_splits BIP._long_coupling_neighbors].
  intros HS. unfold BIP.adjust_num_splits in HS.
  destruct (1 <? BIP.requested_splits ns (length su4))%Z eqn:E;
    [reflexivity | lia].
Qed.

Lemma in_long_neighbors dag c subset D ns m i j :
  BIP.init dag c subset D ns = Ok m ->
  (1 < BIP._num_splits m)%Z ->
  i < size c ->
  In j (BIP.long_neighbors m i)
  <-> j < size c /\ i <> j /\ distance c i j <= D.
Proof.
  intros Hm HS Hi. unfold BIP.long_neighbors.
  rewrite (init_long _ _ _ _ _ _ Hm HS), (nth_map_range _ _ _ _ Hi).
  unfold BIP.long_neighbors_of. rewrite in_map_iff. split.
  - intros [[i' j'] [E H]]. cbn [snd] in E. subst j'.
    apply filter_In in H. destruct H as [H Ei]. cbn [fst] in Ei.
    apply Nat.eqb_eq in Ei. subst i'.
    apply in_map_iff in H. destruct H as [[[i0 j0] d] [E H]].
    cbn [fst] in E. injection E as -> ->.
    unfold BIP.long_arcs_with_cost in H. apply in_flat_map in H.
    destruct H as [i0 [_ H]]. apply in_flat_map in H.
    destruct H as [j0 [Hj0 H]]. apply in_range in Hj0.
    destruct (negb (i0 =? j0) && (distance c i0 j0 <=? D)) eqn:Eb;
      [|destruct H].
    destruct H as [E|[]]. injection E as -> -> _.
    apply andb_true_iff in Eb. destruct Eb as [E1 E2].
    apply negb_true_iff, Nat.eqb_neq in E1. apply Nat.leb_le in E2. auto.
  - intros (Hj & Hne & Hd). exists (i, j). split; [reflexivity|].
    apply filter_In. split; [|cbn [fst]; apply Nat.eqb_refl].
    apply in_map_iff. exists ((i, j), distance c i j). split; [reflexivity|].
    unfold BIP.long_arcs_with_cost. apply in_flat_map. exists i.
    split; [apply in_range; exact Hi|]. apply in_flat_map. exists j.
    split; [apply in_range; exact Hj|].
    replace (negb (i =? j) && (distance c i j <=? D)) with true;
      [left; reflexivity|].
    symmetry. apply andb_true_iff. split.
    + apply negb_true_iff, Nat.eqb_neq. exact Hne.
    + apply Nat.leb_le. exact Hd.
Qed.

Section HeurTotal.

Variables (np_log : Q -> Q) (gf mgf : nat -> list Q)
          (npeml : list Q -> result Q).
Variables (dag : DAGCircuit) (c : CouplingMap) (subset : list nat)
          (D : nat) (ns : Z) (m : BIP.BIPMappingModel) (s : nat).
Hypothesis Hc : coupling_ok c.
Hypothesis Hdag : dag_ok dag.
Hypothesis Hdist : forall i j, distance c i j = distance c j i.
Hypothesis Hm : BIP.init dag c subset D ns = Ok m.
Hypothesis Hs : s < BIP.num_windows m.

Lemma ht_splits : (1 < BIP._num_splits m)%Z.
Proof. unfold BIP.num_windows in Hs. lia. Qed.

Lemma ht_windows : windows_ok m D.
Proof. exact (init_windows _ _ _ _ _ _ Hm ht_splits). Qed.

Lemma ht_gates : BIP.gates m = with_dummy_steps D (BIP.su4layers m).
Proof. destruct (init_fields _ _ _ _ _ _ Hm) as (_ & H & _). exact H. Qed.

Lemma ht_last :
  1 <= BIP.heur_last_layer_of m s
  /\ BIP.heur_last_layer_of m s <= length (BIP.heur_gates_of m s)
  /\ BIP.heur_last_layer_of m s <= BIP.depth m.
Proof.
  destruct (window_schedule m D s ht_windows ht_gates Hs) as (H1 & H2 & _).
  rewrite (wo_last _ _ ht_windows s Hs) in *. lia.
Qed.

Lemma ht_prefix t :
  t < BIP.heur_last_layer_of m s ->
  nth t (BIP.heur_gates_of m s) [] = nth t (BIP.gates m) [].
Proof.
  destruct (window_schedule m D s ht_windows ht_gates Hs) as (_ & _ & H & _).
  apply H.
Qed.

(** A step of the window is empty or holds a layer of the circuit. *)
Lemma ht_layer t :
  nth t (BIP.heur_gates_of m s) [] = []
  \/ exists lay,
       In lay (layers dag)
       /\ nth t (BIP.heur_gates_of m s) [] = BIP.laygates_of lay.
Proof.
  destruct (nth_in_or_default t (BIP.heur_gates_of m s) []) as [Hin|E];
    [|left; exact E].
  generalize dependent (nth t (BIP.heur_gates_of m s) []). intros x Hin.
  rewrite (wo_gates _ _ ht_windows s Hs) in Hin.
  assert (Hx : x = [] \/ In x (BIP.su4layers m)).
  { apply in_app_or in Hin. destruct Hin as [Hin|Hin].
    - apply in_padded in Hin. destruct Hin as [E|Hin]; [left; exact E|].
      right. rewrite <- (firstn_skipn (boundary_layer m s) (BIP.su4layers m)).
      apply in_or_app. left. exact Hin.
    - right. rewrite <- (firstn_skipn (boundary_layer m s) (BIP.su4layers m)).
      apply in_or_app. right. exact Hin. }
  destruct Hx as [E|Hx]; [left; exact E|]. right.
  destruct (init_fields _ _ _ _ _ _ Hm) as (Hsu & _).
  rewrite Hsu in Hx. apply in_map_iff in Hx. destruct Hx as [lay [E Hlay]].
  exists lay. split; [|symmetry; exact E].
  unfold real_layers in Hlay. apply filter_In in Hlay. tauto.
Qed.

Lemma ht_gate t p q n :
  In (p, q, n) (nth t (BIP.heur_gates_of m s) []) ->
  p < BIP.num_vqubits m /\ q < BIP.num_vqubits m.
Proof.
  intros Hg. destruct (init_fields _ _ _ _ _ _ Hm) as (_ & _ & _ & Hnv & _).
  destruct (ht_layer t) as [E|[lay [Hl E]]]; rewrite E in Hg; [destruct Hg|].
  unfold BIP.laygates_of in Hg. apply in_map_iff in Hg.
  destruct Hg as [nd [Epq Hnd]]. injection Epq as <- <- _. rewrite Hnv.
  apply (proj2 (Hdag lay Hl) nd Hnd).
Qed.

Lemma ht_used t : NoDup (BIP.used_qubits (nth t (BIP.heur_gates_of m s) [])).
Proof.
  destruct (ht_layer t) as [E|[lay [Hl E]]]; rewrite E; [constructor|].
  replace (BIP.used_qubits (BIP.laygates_of lay))
    with (flat_map (fun nd => [qarg0 nd; qarg1 nd]) lay).
  - exact (proj1 (Hdag lay Hl)).
  - unfold BIP.used_qubits, BIP.laygates_of. clear.
    induction lay as [|nd lay IH]; [reflexivity|].
    cbn [map flat_map fst snd app]. rewrite IH. reflexivity.
Qed.

Lemma ht_arc i j :
  In (i, j) (BIP._arcs m) ->
  i < BIP.num_pqubits m /\ j < BIP.num_pqubits m
  /\ In j (neighbors (BIP._coupling m) i)
  /\ In i (neighbors (BIP._coupling m) j).
Proof.
  destruct (init_fields _ _ _ _ _ _ Hm)
    as (_ & _ & _ & _ & Hnp & _ & Ha & Hcp & _).
  rewrite Ha, Hcp, Hnp. intros H.
  pose proof (co_range _ Hc i j H) as Hj.
  pose proof (co_sym _ Hc i j H) as Hsym.
  apply (co_edges _ Hc) in H. apply (co_edges _ Hc) in Hsym. tauto.
Qed.

Lemma ht_nb i j :
  i < BIP.num_pqubits m -> In j (neighbors (BIP._coupling m) i) ->
  j < BIP.num_pqubits m /\ In i (neighbors (BIP._coupling m) j).
Proof.
  destruct (init_fields _ _ _ _ _ _ Hm)
    as (_ & _ & _ & _ & Hnp & _ & Ha & Hcp & _).
  rewrite Hcp, Hnp. intros Hi Hj.
  assert (H : In (i, j) (get_edges c)) by (apply (co_edges _ Hc); tauto).
  pose proof (co_range _ Hc i j H) as Hj'.
  pose proof (co_sym _ Hc i j H) as Hsym.
  apply (co_edges _ Hc) in Hsym. tauto.
Qed.

Lemma ht_long i j :
  i < BIP.num_pqubits m -> In j (BIP.long_neighbors m i) ->
  j < BIP.num_pqubits m /\ In i (BIP.long_neighbors m j).
Proof.
  destruct (init_fields _ _ _ _ _ _ Hm) as (_ & _ & _ & _ & Hnp & _).
  rewrite Hnp. intros Hi Hj.
  apply (in_long_neighbors _ _ _ _ _ _ _ _ Hm ht_splits Hi) in Hj.
  destruct Hj as (Hj & Hne & Hd). split; [exact Hj|].
  apply (in_long_neighbors _ _ _ _ _ _ _ _ Hm ht_splits Hj).
  split; [exact Hi|]. split; [congruence|]. rewrite <- Hdist. exact Hd.
Qed.

Lemma ht_w t q j :
  t < length (BIP.heur_gates_of m s) -> q < BIP.num_vqubits m ->
  j < BIP.num_pqubits m -> In (W t q j) (heur_main_keys m s).
Proof.
  intros Ht Hq Hj. unfold heur_main_keys. apply in_or_app. left.
  apply in_w_keys; assumption.
Qed.

Lemma ht_y t p q n i j :
  t < length (BIP.heur_gates_of m s) ->
  In (p, q, n) (nth t (BIP.heur_gates_of m s) []) ->
  In (i, j) (BIP._arcs m) ->
  In (Y t p q i j) (heur_main_keys m s).
Proof.
  intros Ht Hg Ha. unfold heur_main_keys. apply in_or_app. right.
  apply in_or_app. left. unfold y_keys_flat. apply in_flat_map.
  exists t. split; [apply in_range; exact Ht|]. apply in_flat_map.
  exists (p, q, n). split; [exact Hg|]. apply in_map_iff.
  exists (i, j). split; [reflexivity | exact Ha].
Qed.

Lemma ht_x t q i j :
  t + 1 < length (BIP.heur_gates_of m s) -> q < BIP.num_vqubits m ->
  i < BIP.num_pqubits m ->
  j = i \/ In j (BIP.heur_neighbors m s t i) ->
  In (X t q i j) (heur_main_keys m s).
Proof.
  intros Ht Hq Hi Hj. unfold heur_main_keys. apply in_or_app. right.
  apply in_or_app. right. unfold BIP.x_keys.
  apply in_flat_map. exists t. split; [apply in_range; lia|].
  apply in_flat_map. exists q. split; [apply in_range; exact Hq|].
  apply in_flat_map. exists i. split; [apply in_range; exact Hi|].
  destruct Hj as [->|Hj]; [left; reflexivity|]. right.
  apply in_map_iff. exists j. split; [reflexivity | exact Hj].
Qed.

(** Before the boundary the moves are those of the coupling map. *)
Lemma ht_x_arc t q i j :
  t + 1 < BIP.heur_last_layer_of m s -> q < BIP.num_vqubits m ->
  In (i, j) (BIP._arcs m) ->
  In (X t q i j) (heur_main_keys m s).
Proof.
  intros Ht Hq Ha. destruct (ht_arc i j Ha) as (Hi & _ & Hnb & _).
  pose proof ht_last as (_ & Hl & _).
  apply ht_x; [lia | exact Hq | exact Hi |]. right.
  unfold BIP.heur_neighbors.
  destruct (Nat.ltb_spec t (BIP.heur_last_layer_of m s - 1)); [exact Hnb | lia].
Qed.

Lemma ht_x_stay t q i :
  t + 1 < length (BIP.heur_gates_of m s) -> q < BIP.num_vqubits m ->
  i < BIP.num_pqubits m ->
  In (X t q i i) (heur_main_keys m s).
Proof. intros Ht Hq Hi. apply ht_x; auto. Qed.

Lemma ht_main_keys v : In v (heur_main_keys m s) -> In v (heur_keys m s).
Proof. intros H. rewrite heur_keys_main. apply in_or_app. left. exact H. Qed.

Lemma ht_zv t :
  t < BIP.heur_last_layer_of m s -> is_dummy m t = true ->
  In (Zv t) (heur_keys m s).
Proof.
  intros Ht Hd. rewrite heur_keys_main. apply in_or_app. right.
  unfold z_keys_flat. apply in_flat_map. exists t.
  split; [apply in_range; exact Ht|]. rewrite Hd. left. reflexivity.
Qed.

(** The boundary step holds a layer of the circuit. *)
Lemma ht_dummy_not_last t :
  t < BIP.heur_last_layer_of m s -> is_dummy m t = true ->
  t + 1 < BIP.heur_last_layer_of m s.
Proof.
  intros Ht Hd.
  destruct (Nat.eq_dec t (BIP.heur_last_layer_of m s - 1)) as [E|Hn];
    [|lia].
  exfalso.
  pose proof (wo_last _ _ ht_windows s Hs) as Hl.
  pose proof (wo_boundary_lt _ _ ht_windows s Hs) as HK.
  assert (Et : t = boundary_layer m s * (D + 1)) by lia.
  unfold is_dummy in Hd. rewrite ht_gates, Et in Hd.
  rewrite with_dummy_steps_real in Hd by lia.
  destruct (init_fields _ _ _ _ _ _ Hm) as (Hsu & _).
  pose proof (map_nonempty BIP.laygates_of (real_layers dag)
                laygates_of_empty (real_layers_nonempty dag)) as Hall.
  rewrite <- Hsu in Hall. rewrite Forall_forall in Hall.
  rewrite (Hall (nth (boundary_layer m s) (BIP.su4layers m) [])) in Hd;
    [discriminate Hd|].
  apply nth_In. lia.
Qed.

Lemma ht_c1 :
  Forall (keyed (heur_main_keys m s))
    (BIP.assignment_vqubits (length (BIP.heur_gates_of m s))
       (BIP.num_vqubits m) (BIP.num_pqubits m)).
Proof.
  unfold BIP.assignment_vqubits. apply Forall_flat_map, Forall_forall.
  intros t Ht. apply Forall_map, Forall_forall. intros q Hq.
  apply in_range in Ht, Hq. intros v Hv. cbn [ct ct_lhs ct_rhs] in Hv.
  rewrite (subscripts_psum_refs (fun j => W t q j)) in Hv.
  cbn [subscripts] in Hv. rewrite app_nil_r in Hv.
  apply in_map_iff in Hv. destruct Hv as [j [<- Hj]]. apply in_range in Hj.
  apply ht_w; assumption.
Qed.

Lemma ht_c2 :
  Forall (keyed (heur_main_keys m s))
    (BIP.assignment_pqubits (length (BIP.heur_gates_of m s))
       (BIP.num_vqubits m) (BIP.num_pqubits m)).
Proof.
  unfold BIP.assignment_pqubits. apply Forall_flat_map, Forall_forall.
  intros t Ht. apply Forall_map, Forall_forall. intros j Hj.
  apply in_range in Ht, Hj. intros v Hv. cbn [ct ct_lhs ct_rhs] in Hv.
  rewrite (subscripts_psum_refs (fun q => W t q j)) in Hv.
  cbn [subscripts] in Hv. rewrite app_nil_r in Hv.
  apply in_map_iff in Hv. destruct Hv as [q [<- Hq]]. apply in_range in Hq.
  apply ht_w; assumption.
Qed.

Lemma ht_c3 t g :
  t < length (BIP.heur_gates_of m s) ->
  In g (nth t (BIP.heur_gates_of m s) []) ->
  Forall (keyed (heur_main_keys m s)) (BIP.implement_gate (BIP._arcs m) t g).
Proof.
  intros Ht Hg. destruct g as [[p q] n]. unfold BIP.implement_gate.
  constructor; [|constructor]. intros v Hv. cbn [ct ct_lhs ct_rhs] in Hv.
  rewrite (subscripts_psum_refs
             (fun a : nat * nat => Y t p q (fst a) (snd a))) in Hv.
  cbn [subscripts] in Hv. rewrite app_nil_r in Hv.
  apply in_map_iff in Hv. destruct Hv as [[i j] [<- Ha]].
  exact (ht_y t p q n i j Ht Hg Ha).
Qed.

Lemma ht_c4 t g :
  t < length (BIP.heur_gates_of m s) ->
  In g (nth t (BIP.heur_gates_of m s) []) ->
  Forall (keyed (heur_main_keys m s)) (BIP.heur_mccormick m s t g).
Proof.
  intros Ht Hg. destruct g as [[p q] n]. unfold BIP.heur_mccormick.
  apply Forall_flat_map, Forall_forall. intros [i j] Ha.
  destruct (ht_gate t p q n Hg) as [Hp Hq].
  pose proof (ht_arc i j Ha) as (Hi & Hj & Hnb & Hnb').
  pose proof (ht_y t p q n i j Ht Hg Ha) as Hy.
  pose proof ht_last as (_ & Hl & _).
  destruct (Nat.ltb_spec t (BIP.heur_last_layer_of m s - 1)) as [Hlt|Hge].
  - assert (Hxa : forall q0 i0 j0,
                    q0 < BIP.num_vqubits m -> i0 < BIP.num_pqubits m ->
                    In j0 (neighbors (BIP._coupling m) i0) ->
                    In (X t q0 i0 j0) (heur_main_keys m s)).
    { intros q0 i0 j0 Hq0 Hi0 Hj0. apply ht_x; [lia | exact Hq0 | exact Hi0 |].
      right. unfold BIP.heur_neighbors.
      destruct (Nat.ltb_spec t (BIP.heur_last_layer_of m s - 1));
        [exact Hj0 | lia]. }
    repeat constructor; intros v Hv; key_cases Hv;
      first [exact Hy | apply ht_w; assumption
            | apply ht_x_stay; (assumption || lia)
            | apply Hxa; assumption].
  - repeat constructor; intros v Hv; key_cases Hv;
      first [exact Hy | apply ht_w; assumption].
Qed.

Lemma ht_c6 :
  Forall (keyed (heur_main_keys m s))
    (flow_out_flat (BIP.heur_neighbors m s)
       (length (BIP.heur_gates_of m s)) (BIP.num_vqubits m)
       (BIP.num_pqubits m)).
Proof.
  unfold flow_out_flat. apply Forall_flat_map, Forall_forall. intros t Ht.
  apply Forall_flat_map, Forall_forall. intros q Hq.
  apply Forall_map, Forall_forall. intros i Hi.
  apply in_range in Ht, Hq, Hi. intros v Hv.
  unfold BIP.flow_out in Hv. cbn [ct ct_lhs ct_rhs subscripts] in Hv.
  rewrite (subscripts_psum_refs (fun j => X t q i j)) in Hv.
  cbn [app In] in Hv. destruct Hv as [<-|[<-|Hv]].
  - apply ht_w; (assumption || lia).
  - apply ht_x_stay; (assumption || lia).
  - apply in_map_iff in Hv. destruct Hv as [j [<- Hj]].
    apply ht_x; auto. lia.
Qed.

Lemma ht_c7 :
  Forall (keyed (heur_main_keys m s))
    (flow_in_flat
       (fun t i =>
          if t <? BIP.heur_last_layer_of m s
          then neighbors (BIP._coupling m) i
          else BIP.long_neighbors m i)
       (length (BIP.heur_gates_of m s)) (BIP.num_vqubits m)
       (BIP.num_pqubits m)).
Proof.
  unfold flow_in_flat. apply Forall_flat_map, Forall_forall. intros t Ht.
  apply Forall_flat_map, Forall_forall. intros q Hq.
  apply Forall_map, Forall_forall. intros i Hi.
  apply in_seq in Ht. apply in_range in Hq, Hi. intros v Hv.
  unfold BIP.flow_in in Hv. cbn [ct ct_lhs ct_rhs subscripts] in Hv.
  rewrite (subscripts_psum_refs (fun j => X (t - 1) q j i)) in Hv.
  cbn [app In] in Hv. destruct Hv as [<-|[<-|Hv]].
  - apply ht_w; (assumption || lia).
  - apply ht_x_stay; (assumption || lia).
  - apply in_map_iff in Hv. destruct Hv as [j [<- Hj]].
    unfold BIP.heur_neighbors.
    destruct (Nat.ltb_spec t (BIP.heur_last_layer_of m s)) as [Hlt|Hge].
    + destruct (ht_nb i j Hi Hj) as [Hj' Hnb'].
      apply ht_x; [lia | exact Hq | exact Hj' |]. right.
      unfold BIP.heur_neighbors.
      destruct (Nat.ltb_spec (t - 1) (BIP.heur_last_layer_of m s - 1));
        [exact Hnb' | lia].
    + destruct (ht_long i j Hi Hj) as [Hj' Hnb'].
      apply ht_x; [lia | exact Hq | exact Hj' |]. right.
      unfold BIP.heur_neighbors.
      destruct (Nat.ltb_spec (t - 1) (BIP.heur_last_layer_of m s - 1));
        [lia | exact Hnb'].
Qed.

Lemma ht_c8 t g :
  t + 1 < BIP.heur_last_layer_of m s ->
  In g (nth t (BIP.heur_gates_of m s) []) ->
  Forall (keyed (heur_main_keys m s)) (BIP.swap (BIP._arcs m) t g).
Proof.
  intros Ht Hg. destruct g as [[p q] n]. unfold BIP.swap.
  apply Forall_map, Forall_forall. intros [i j] Ha.
  destruct (ht_gate t p q n Hg) as [Hp Hq].
  destruct (ht_arc i j Ha) as (Hi & Hj & Hnb & Hnb').
  assert (Ha' : In (j, i) (BIP._arcs m)).
  { destruct (init_fields _ _ _ _ _ _ Hm)
      as (_ & _ & _ & _ & _ & _ & Harcs & _).
    rewrite Harcs in *. exact (co_sym _ Hc _ _ Ha). }
  intros v Hv. key_cases Hv; apply ht_x_arc; assumption.
Qed.

Lemma ht_c9 :
  BIP.for_swap_no_gate (BIP.heur_gates_of m s)
    (range (BIP.heur_last_layer_of m s - 1)) (heur_main_keys m s)
    (BIP._arcs m) (BIP.num_vqubits m)
  = Ok (swap_no_gate_flat (BIP.heur_gates_of m s)
          (range (BIP.heur_last_layer_of m s - 1)) (BIP._arcs m)
          (BIP.num_vqubits m)).
Proof.
  pose proof ht_last as (_ & Hl & _).
  unfold BIP.for_swap_no_gate, swap_no_gate_flat.
  apply flat_mapM_total. intros t Ht. apply in_range in Ht.
  unfold BIP.gates_at.
  rewrite (py_index_ok (BIP.heur_gates_of m s) t []) by lia.
  cbn [bind].
  destruct (q_no_gate_total (nth t (BIP.heur_gates_of m s) [])
              (range (BIP.num_vqubits m))) as [free Hfree].
  { apply seq_NoDup. }
  { apply ht_used. }
  { intros x Hx. apply in_used_qubits in Hx.
    destruct Hx as (p & q & Hg & E). apply in_range.
    apply in_map_iff in Hg. destruct Hg as [[[p' q'] n] [Epq Hg]].
    cbn [fst] in Epq. injection Epq as -> ->.
    destruct (ht_gate t p q n Hg). destruct E as [-> | ->]; assumption. }
  unfold free_qubits. rewrite Hfree. cbn [bind].
  assert (Hlt : forall q, In q free -> q < BIP.num_vqubits m).
  { destruct (q_no_gate_spec _ _ _ Hfree (seq_NoDup _ _))
      as (_ & _ & _ & Hmem).
    intros q Hq. apply Hmem in Hq. apply in_range. tauto. }
  apply add_constraints_keyed. unfold BIP.swap_no_gate.
  apply Forall_map, Forall_forall. intros [i j] Ha.
  assert (Ha' : In (j, i) (BIP._arcs m)).
  { destruct (init_fields _ _ _ _ _ _ Hm)
      as (_ & _ & _ & _ & _ & _ & Harcs & _).
    rewrite Harcs in *. exact (co_sym _ Hc _ _ Ha). }
  intros v Hv. cbn [ct ct_lhs ct_rhs] in Hv.
  rewrite (subscripts_psum_refs (fun q => X t q i j)),
          (subscripts_psum_refs (fun q => X t q j i)) in Hv.
  apply in_app_iff in Hv.
  destruct Hv as [Hv|Hv]; apply in_map_iff in Hv;
    destruct Hv as [q [<- Hq]]; apply ht_x_arc; auto; lia.
Qed.

Lemma ht_main :
  BIP.heur_main_constraints m s (heur_main_keys m s)
  = Ok (BIP.assignment_vqubits (length (BIP.heur_gates_of m s))
          (BIP.num_vqubits m) (BIP.num_pqubits m)
        ++ BIP.assignment_pqubits (length (BIP.heur_gates_of m s))
             (BIP.num_vqubits m) (BIP.num_pqubits m)
        ++ gates_flat (BIP.heur_gates_of m s)
             (range (length (BIP.heur_gates_of m s)))
             (BIP.implement_gate (BIP._arcs m))
        ++ gates_flat (BIP.heur_gates_of m s)
             (range (length (BIP.heur_gates_of m s)))
             (BIP.heur_mccormick m s)
        ++ flow_out_flat (BIP.heur_neighbors m s)
             (length (BIP.heur_gates_of m s)) (BIP.num_vqubits m)
             (BIP.num_pqubits m)
        ++ flow_in_flat
             (fun t i =>
                if t <? BIP.heur_last_layer_of m s
                then neighbors (BIP._coupling m) i
                else BIP.long_neighbors m i)
             (length (BIP.heur_gates_of m s)) (BIP.num_vqubits m)
             (BIP.num_pqubits m)
        ++ gates_flat (BIP.heur_gates_of m s)
             (range (BIP.heur_last_layer_of m s - 1))
             (BIP.swap (BIP._arcs m))
        ++ swap_no_gate_flat (BIP.heur_gates_of m s)
             (range (BIP.heur_last_layer_of m s - 1)) (BIP._arcs m)
             (BIP.num_vqubits m)).
Proof.
  pose proof ht_last as (_ & Hl & _).
  unfold BIP.heur_main_constraints.
  rewrite (add_constraints_keyed _ _ ht_c1). cbn [bind].
  rewrite (add_constraints_keyed _ _ ht_c2). cbn [bind].
  rewrite (for_gates_total (BIP.heur_gates_of m s)
             (range (length (BIP.heur_gates_of m s))) (heur_main_keys m s)
             (BIP.implement_gate (BIP._arcs m))).
  2:{ intros t Ht. apply in_range in Ht. exact Ht. }
  2:{ intros t g Ht Hg. apply in_range in Ht. apply ht_c3; assumption. }
  cbn [bind].
  rewrite (for_gates_total (BIP.heur_gates_of m s)
             (range (length (BIP.heur_gates_of m s))) (heur_main_keys m s)
             (BIP.heur_mccormick m s)).
  2:{ intros t Ht. apply in_range in Ht. exact Ht. }
  2:{ intros t g Ht Hg. apply in_range in Ht. apply ht_c4; assumption. }
  cbn [bind].
  pose proof ht_c6 as H6. pose proof ht_c7 as H7.
  unfold flow_out_flat in H6. unfold flow_in_flat in H7.
  rewrite (add_constraints_keyed _ _ H6). cbn [bind].
  rewrite (add_constraints_keyed _ _ H7). cbn [bind].
  rewrite (for_gates_total (BIP.heur_gates_of m s)
             (range (BIP.heur_last_layer_of m s - 1)) (heur_main_keys m s)
             (BIP.swap (BIP._arcs m))).
  2:{ intros t Ht. apply in_range in Ht. lia. }
  2:{ intros t g Ht Hg. apply in_range in Ht. apply ht_c8; [lia|exact Hg]. }
  cbn [bind]. rewrite ht_c9. cbn [bind]. reflexivity.
Qed.

Lemma ht_dummy_step t :
  t < BIP.heur_last_layer_of m s ->
  BIP._is_dummy_step m t = Ok (is_dummy m t).
Proof.
  intros Ht. pose proof ht_last as (_ & _ & Hl).
  unfold BIP._is_dummy_step, is_dummy.
  rewrite (py_index_ok (BIP.gates m) t [])
    by (unfold BIP.depth in Hl; lia).
  reflexivity.
Qed.

Lemma ht_z :
  BIP.z_keys m (range (BIP.heur_last_layer_of m s))
  = Ok (z_keys_flat m (range (BIP.heur_last_layer_of m s))).
Proof.
  unfold BIP.z_keys, z_keys_flat. apply flat_mapM_total. intros t Ht.
  apply in_range in Ht. rewrite (ht_dummy_step t Ht). reflexivity.
Qed.

Lemma ht_c10 :
  BIP.for_dummy_ts_needed m (range (BIP.heur_last_layer_of m s))
    (heur_keys m s)
  = Ok (dummy_ts_needed_flat m (range (BIP.heur_last_layer_of m s))).
Proof.
  unfold BIP.for_dummy_ts_needed, dummy_ts_needed_flat.
  apply flat_mapM_total. intros t Ht. apply in_range in Ht.
  rewrite (ht_dummy_step t Ht). cbn [bind].
  destruct (is_dummy m t) eqn:Hd; [|reflexivity].
  apply add_constraints_keyed. unfold BIP.dummy_ts_needed.
  apply Forall_map, Forall_forall. intros q Hq. apply in_range in Hq.
  intros v Hv. cbn [ct ct_lhs ct_rhs] in Hv.
  rewrite (subscripts_psum_refs
             (fun a : nat * nat => X t q (fst a) (snd a))) in Hv.
  cbn [subscripts] in Hv. apply in_app_iff in Hv. destruct Hv as [Hv|Hv].
  - apply in_map_iff in Hv. destruct Hv as [[i j] [<- Ha]].
    apply ht_main_keys. apply ht_x_arc; [|exact Hq|exact Ha].
    exact (ht_dummy_not_last t Ht Hd).
  - destruct Hv as [<-|[]]. exact (ht_zv t Ht Hd).
Qed.

Lemma ht_c11 :
  BIP.for_dummy_precedence m (range (BIP.heur_last_layer_of m s - 1))
    (heur_keys m s)
  = Ok (dummy_precedence_flat m (range (BIP.heur_last_layer_of m s - 1))).
Proof.
  unfold BIP.for_dummy_precedence, dummy_precedence_flat.
  apply flat_mapM_total. intros t Ht. apply in_range in Ht.
  rewrite (ht_dummy_step t) by lia. cbn [bind].
  destruct (is_dummy m t) eqn:Hd; [|reflexivity].
  rewrite (ht_dummy_step (t + 1)) by lia. cbn [bind andb].
  destruct (is_dummy m (t + 1)) eqn:Hd'; [|reflexivity].
  apply add_constraints_keyed. constructor; [|constructor].
  intros v Hv. key_cases Hv; apply ht_zv; (assumption || lia).
Qed.

(** The objective ['depth'] of lines 615-623. *)
Lemma ht_depth_objective b0 weight :
  BIP.self b0 = m ->
  exists ob,
    BIP.heur_objective np_log gf mgf npeml b0 s (heur_keys m s) "depth"
      weight
    = Ok ob.
Proof.
  intros Hself. unfold BIP.heur_objective. rewrite Hself.
  change (String.eqb "depth" "depth") with true. cbv iota.
  assert (Hz : exists zs,
            BIP.dummy_z_sum b0 (heur_keys m s)
              (range (BIP.heur_last_layer_of m s)) = Ok zs).
  { unfold BIP.dummy_z_sum. rewrite Hself.
    destruct (flat_mapM_exists
                (fun t =>
                   bind (BIP._is_dummy_step m t)
                     (fun d =>
                        if d
                        then bind (BIP.lookup (heur_keys m s) (Zv t))
                               (fun zv => Ok [zv])
                        else Ok []))
                (range (BIP.heur_last_layer_of m s))) as [zs Hzs].
    - intros t Ht. apply in_range in Ht. rewrite (ht_dummy_step t Ht).
      cbn [bind]. destruct (is_dummy m t) eqn:Hd; [|eexists; reflexivity].
      rewrite (lookup_ok _ _ (ht_zv t Ht Hd)). eexists. reflexivity.
    - rewrite Hzs. eexists. reflexivity. }
  destruct Hz as [zs ->]. cbn [bind].
  assert (Hx : exists xs,
            BIP.small_swap_terms b0 (heur_keys m s)
              (range (BIP.heur_last_layer_of m s - 1)) = Ok xs).
  { unfold BIP.small_swap_terms. rewrite Hself.
    apply flat_mapM_exists. intros t Ht. apply in_range in Ht.
    apply flat_mapM_exists. intros q Hq. apply in_range in Hq.
    apply mapM_exists. intros [i j] Ha. cbn [fst snd].
    rewrite lookup_ok; [eexists; reflexivity|].
    apply ht_main_keys. apply ht_x_arc; [lia | exact Hq | exact Ha]. }
  destruct Hx as [xs ->]. cbn [bind]. eexists. reflexivity.
Qed.

Lemma ht_model b0 weight :
  BIP.self b0 = m ->
  exists h, BIP.heur_model np_log gf mgf npeml b0 s "depth" weight = Ok h.
Proof.
  intros Hself. pose proof ht_last as (_ & Hl & _).
  unfold BIP.heur_model. rewrite Hself.
  assert (Hv : BIP.heur_variables m s
               = Ok (BIP.w_keys (length (BIP.heur_gates_of m s))
                       (BIP.num_vqubits m) (BIP.num_pqubits m),
                     y_keys_flat (BIP.heur_gates_of m s) (BIP._arcs m)
                       (length (BIP.heur_gates_of m s)),
                     BIP.x_keys (BIP.heur_neighbors m s)
                       (length (BIP.heur_gates_of m s))
                       (BIP.num_vqubits m) (BIP.num_pqubits m))).
  { unfold BIP.heur_variables.
    assert (Hy : BIP.y_keys (BIP.heur_gates_of m s) (BIP._arcs m)
                   (length (BIP.heur_gates_of m s))
                 = Ok (y_keys_flat (BIP.heur_gates_of m s) (BIP._arcs m)
                         (length (BIP.heur_gates_of m s)))).
    { unfold BIP.y_keys, y_keys_flat. apply flat_mapM_total. intros t Ht.
      apply in_range in Ht. unfold BIP.gates_at.
      rewrite (py_index_ok (BIP.heur_gates_of m s) t []) by exact Ht.
      reflexivity. }
    rewrite Hy. reflexivity. }
  rewrite Hv. cbn [bind]. fold (heur_main_keys m s).
  rewrite ht_main. cbn [bind]. rewrite ht_z. cbn [bind].
  change (BIP.w_keys (length (BIP.heur_gates_of m s)) (BIP.num_vqubits m)
            (BIP.num_pqubits m)
          ++ y_keys_flat (BIP.heur_gates_of m s) (BIP._arcs m)
               (length (BIP.heur_gates_of m s))
          ++ BIP.x_keys (BIP.heur_neighbors m s)
               (length (BIP.heur_gates_of m s)) (BIP.num_vqubits m)
               (BIP.num_pqubits m)
          ++ z_keys_flat m (range (BIP.heur_last_layer_of m s)))
    with (heur_keys m s).
  rewrite ht_c10. cbn [bind]. rewrite ht_c11. cbn [bind].
  destruct (ht_depth_objective b0 weight Hself) as [ob Hob].
  rewrite Hob. cbn [bind]. eexists. reflexivity.
Qed.

End HeurTotal.

(** ** What the DOcplex builder accepts *)

Lemma circuit4_ok : dag_ok circuit4.
Proof.
  intros lay [<-|[<-|[<-|[<-|[]]]]]; simpl;
    (split; [repeat constructor; simpl; intuition discriminate|]);
    intros nd [<-|[]]; simpl; lia.
Qed.

Lemma line3_distance i j : distance line3 i j = distance line3 j i.
Proof.
  cbn [distance line3].
  destruct (Nat.eqb_spec i j), (Nat.eqb_spec j i); try lia;
    try reflexivity.
  destruct (Nat.eqb_spec (i + j) 2), (Nat.eqb_spec (j + i) 2); try lia;
    try reflexivity.
  destruct (Nat.eqb_spec i 1), (Nat.eqb_spec j 1); simpl; try reflexivity;
    lia.
Qed.

(** X11.  Let the circuit have a two-qubit gate, each layer acting on
    distinct qubits of the circuit, over a symmetric coupling map whose
    [distance] is symmetric.  Then [create_cpx_problem('depth')] raises
    nothing: no subscript of [w], [y], [x] or [z] misses its key and no
    [remove] fails, in the exact model and in every window model, and one
    model is stored for every window.  An objective other than ['depth'],
    ['gate_error'] and ['balanced'] raises [TranspilerError], but only
    after the variables and constraints of the exact model were built
    (line 440).  Without backend properties and without a default error
    rate the call raises [TranspilerError] at once (line 255). *)
Theorem builder_accepts_valid_input :
  forall np_log gf mgf npeml dag c subset D ns m bp weight rate,
    coupling_ok c -> dag_ok dag ->
    (forall i j, distance c i j = distance c j i) ->
    BIP.init dag c subset D ns = Ok m ->
    real_layers dag <> [] ->
    ((bp = None -> rate = None -> False) ->
     (exists b,
        BIP.create_cpx_problem np_log gf mgf npeml m "depth" bp weight rate
          None = Ok b
        /\ length (BIP.heur_problem b) = BIP.num_windows m)
     /\ (forall obj modifier,
           obj <> "depth"%string -> obj <> "gate_error"%string ->
           obj <> "balanced"%string ->
           BIP.create_cpx_problem np_log gf mgf npeml m obj bp weight rate
             modifier = Raise TranspilerError))
    /\ (forall obj modifier,
          BIP.create_cpx_problem np_log gf mgf npeml m obj None weight None
            modifier = Raise TranspilerError).
Proof.
  intros np_log gf mgf npeml dag c subset D ns m bp weight rate
         Hc Hdag Hdist Hm Hne.
  split; [|reflexivity].
  intros Hargs.
  assert (Hcreate : forall obj modifier,
            BIP.create_cpx_problem np_log gf mgf npeml m obj bp weight rate
              modifier
            = bind (BIP.exact_model np_log gf mgf m bp rate obj weight)
                (fun b0 =>
                   bind (BIP.modified modifier (BIP.problem b0))
                     (fun p =>
                        bind (mapM
                                (fun split =>
                                   bind (BIP.heur_model np_log gf mgf npeml
                                           b0 split obj weight)
                                        (BIP.modified modifier))
                                (range (BIP.num_windows m)))
                          (fun hs =>
                             Ok {| BIP.self := m; BIP.bprop := bp;
                                   BIP.default_cx_error_rate := rate;
                                   BIP.w_dict := BIP.w_dict b0;
                                   BIP.y_dict := BIP.y_dict b0;
                                   BIP.x_dict := BIP.x_dict b0;
                                   BIP.z_dict := BIP.z_dict b0;
                                   BIP.problem := p;
                                   BIP.heur_problem := hs |})))).
  { intros obj modifier. unfold BIP.create_cpx_problem.
    destruct bp, rate; try reflexivity. exfalso. apply Hargs; reflexivity. }
  split.
  - rewrite Hcreate.
    rewrite (et_exact np_log gf mgf dag c subset D ns m Hc Hdag Hm Hne).
    match goal with
    | |- context [BIP.exact_objective np_log gf mgf ?b0 _ _ _] =>
        destruct (et_depth_objective np_log gf mgf dag c subset D ns m
                    Hc Hm b0 weight eq_refl) as [objexr Hobj]
    end.
    rewrite Hobj. cbn [bind BIP.modified BIP.problem].
    match goal with
    | |- context [BIP.heur_model np_log gf mgf npeml ?b0] =>
        destruct (mapM_exists
                    (fun split =>
                       bind (BIP.heur_model np_log gf mgf npeml b0 split
                               "depth" weight)
                            (BIP.modified None))
                    (range (BIP.num_windows m))) as [hs Hhs]
    end.
    + intros split Hsplit. apply in_range in Hsplit.
      match goal with
      | |- context [BIP.heur_model np_log gf mgf npeml ?b0] =>
          destruct (ht_model np_log gf mgf npeml dag c subset D ns m split
                      Hc Hdag Hdist Hm Hsplit b0 weight eq_refl) as [h Hh]
      end.
      rewrite Hh. exists h. reflexivity.
    + rewrite Hhs. cbn [bind]. eexists. split; [reflexivity|].
      cbn [BIP.heur_problem]. apply mapM_length in Hhs.
      rewrite Hhs. unfold range. apply length_seq.
  - intros obj modifier H1 H2 H3. rewrite Hcreate.
    rewrite (et_exact np_log gf mgf dag c subset D ns m Hc Hdag Hm Hne).
    unfold BIP.exact_objective.
    rewrite (proj2 (String.eqb_neq obj "depth") H1).
    rewrite (proj2 (String.eqb_neq obj "gate_error") H2).
    rewrite (proj2 (String.eqb_neq obj "balanced") H3).
    reflexivity.
Qed.

(** The theorem at [circuit4] on the line with two splits, hence one
    window. *)
Lemma builder_accepts_valid_input_example :
  exists m b,
    BIP.init circuit4 line3 [0; 1; 2] 1 2 = Ok m
    /\ BIP.create_cpx_problem approx_log cnot_fid cnot_mfid no_mean m
         "depth" None (1 # 10)%Q (Some (5 # 1000)%Q) None = Ok b
    /\ length (BIP.heur_problem b) = 1
    /\ BIP.create_cpx_problem approx_log cnot_fid cnot_mfid no_mean m
         "error" None (1 # 10)%Q (Some (5 # 1000)%Q) None
       = Raise TranspilerError.
Proof.
  pose (m := ltac:(ok_value (BIP.init circuit4 line3 [0; 1; 2] 1 2))).
  assert (Hm : BIP.init circuit4 line3 [0; 1; 2] 1 2 = Ok m)
    by (vm_compute; reflexivity).
  destruct (builder_accepts_valid_input
              approx_log cnot_fid cnot_mfid no_mean circuit4 line3
              [0; 1; 2] 1 2%Z m None (1 # 10)%Q (Some (5 # 1000)%Q)
              line3_ok circuit4_ok line3_distance Hm
              ltac:(vm_compute; discriminate)) as [H _].
  destruct (H ltac:(intros _ E; discriminate E)) as [[b [Hb Hlen]] Hobj].
  exists m, b. split; [exact Hm|]. split; [exact Hb|].
  split; [rewrite Hlen; vm_compute; reflexivity|].
  apply Hobj; intros E; discriminate E.
Defined.

(** ** The flat model of a valid circuit is built *)

(** A loop that threads a state through steps that all succeed. *)
Lemma fold_left_exists {S X} (f : S -> X -> result S) (P : S -> Prop)
  (l : list X) (s0 : S) :
  P s0 ->
  (forall s x, In x l -> P s -> exists s', f s x = Ok s' /\ P s') ->
  exists s',
    fold_left (fun (acc : result S) x => bind acc (fun s => f s x)) l (Ok s0)
    = Ok s'
    /\ P s'.
Proof.
  revert s0. induction l as [|x l IH]; intros s0 H0 Hstep.
  - exists s0. split; [reflexivity | exact H0].
  - cbn [fold_left bind].
    destruct (Hstep s0 x (or_introl eq_refl) H0) as [s1 [E1 H1]].
    rewrite E1. apply IH; [exact H1|].
    intros s y Hy. apply Hstep. right. exact Hy.
Qed.

Lemma py_index_map_range {A} (F : nat -> A) n i :
  i < n -> py_index (map F (range n)) (Z.of_nat i) = Ok (F i).
Proof.
  intros Hi.
  rewrite (py_index_ok _ _ (F 0))
    by (rewrite length_map; unfold range; rewrite length_seq; exact Hi).
  rewrite nth_map_range by exact Hi. reflexivity.
Qed.

Lemma init_HardwareTopology_total (c : CouplingMap) :
  exists h,
    MIP.init_HardwareTopology (size c)
      (map (neighbors c) (range (size c)))
      (map (map (fun _ => (96 # 100)%Q))
         (map (neighbors c) (range (size c))))
    = Ok h.
Proof.
  unfold MIP.init_HardwareTopology.
  assert (Hes : exists es,
            MIP.edge_set_of (size c) (map (neighbors c) (range (size c)))
            = Ok es).
  { unfold MIP.edge_set_of.
    destruct (fold_left_exists
                (fun es0 u =>
                   bind (py_index (map (neighbors c) (range (size c)))
                           (Z.of_nat u))
                     (fun vs =>
                        Ok (fold_left
                              (fun es1 v =>
                                 if negb (MIP.mem_pair (u, v) es1)
                                    && negb (MIP.mem_pair (v, u) es1)
                                 then es1 ++ [(u, v)] else es1)
                              vs es0)))
                (fun _ => True) (range (size c)) [] I) as [es [Hes _]].
    - intros es0 u Hu _. apply in_range in Hu.
      rewrite (py_index_map_range _ _ _ Hu). cbn [bind].
      eexists. split; [reflexivity | exact I].
    - exists es. exact Hes. }
  destruct Hes as [es ->]. cbn [bind].
  assert (Hfid : exists fid,
            MIP.arc_fidelity_table (size c)
              (map (neighbors c) (range (size c)))
              (map (map (fun _ => (96 # 100)%Q))
                 (map (neighbors c) (range (size c))))
            = Ok fid).
  { unfold MIP.arc_fidelity_table.
    assert (Hent : forall fl : bool,
              exists r,
                flat_mapM
                  (fun u =>
                     bind (py_index (map (neighbors c) (range (size c)))
                             (Z.of_nat u))
                       (fun vs =>
                          mapM
                            (fun iv : nat * nat =>
                               bind (py_index
                                       (map (map (fun _ => (96 # 100)%Q))
                                          (map (neighbors c)
                                             (range (size c))))
                                       (Z.of_nat u))
                                 (fun row =>
                                    bind (py_index row (Z.of_nat (fst iv)))
                                      (fun f =>
                                         Ok ((if fl then (snd iv, u)
                                              else (u, snd iv)), f))))
                            (enumerate vs)))
                  (range (size c)) = Ok r).
    { intros fl. apply flat_mapM_exists. intros u Hu. apply in_range in Hu.
      rewrite (py_index_map_range _ _ _ Hu). cbn [bind].
      apply mapM_exists. intros [i v] Hiv. cbn [fst snd].
      rewrite map_map, (py_index_map_range _ _ _ Hu). cbn [bind].
      apply in_enumerate in Hiv.
      assert (Hi : i < length (neighbors c u)).
      { apply nth_error_Some. rewrite Hiv. discriminate. }
      rewrite (py_index_ok _ _ 0%Q) by (rewrite length_map; exact Hi).
      eexists. reflexivity. }
    destruct (Hent false) as [r1 ->]. cbn [bind].
    destruct (Hent true) as [r2 ->]. cbn [bind].
    eexists. reflexivity. }
  destruct Hfid as [fid ->]. cbn [bind]. eexists. reflexivity.
Qed.

Lemma mip_init_total dag c D : exists mm, MIP.init dag c D = Ok mm.
Proof.
  unfold MIP.init, MIP.init_CircuitModel. rewrite new_gates_eq. cbn [bind].
  destruct (init_HardwareTopology_total c) as [h ->]. cbn [bind].
  eexists. reflexivity.
Qed.

Lemma init_IndexCalculator_total dag c D mm :
  MIP.init dag c D = Ok mm ->
  exists ic,
    MIP.init_IndexCalculator (MIP.circuit_model mm) (MIP.toplogy_model mm)
    = Ok ic.
Proof.
  intros Hmm. apply mip_init_ok in Hmm. destruct Hmm as (_ & _ & fid & Hht).
  apply init_HardwareTopology_ok in Hht.
  destruct Hht as (Hn & es & _ & _ & _ & _ & _ & Hout & _).
  unfold MIP.init_IndexCalculator, MIP.build_x_var_mapping.
  destruct (fold_left_exists
              (fun (st : nat * list (list (nat * nat))) i =>
                 bind (MIP.nth_outstar (MIP.toplogy_model mm) i)
                   (fun out =>
                      Ok (S (fst st) + length out,
                          snd st
                          ++ [(i, fst st)
                              :: combine out
                                   (seq (S (fst st)) (length out))])))
              (fun _ => True)
              (range (MIP.ht_num_qubits (MIP.toplogy_model mm))) (0, []) I)
    as [r [Hr _]].
  - intros st i Hi _. apply in_range in Hi. rewrite Hn in Hi.
    unfold MIP.nth_outstar. rewrite Hout, (py_index_map_range _ _ _ Hi).
    cbn [bind]. eexists. split; [reflexivity | exact I].
  - rewrite Hr. cbn [bind]. eexists. reflexivity.
Qed.

Lemma store_names_total n stores :
  (forall s, In s stores -> fst s < n) ->
  exists l, MIP.store_names n stores = Ok l.
Proof.
  intros H. unfold MIP.store_names.
  destruct (fold_left_exists
              (fun (l : list (option MIP.VarName)) (s : nat * MIP.VarName) =>
                 MIP.list_set l (fst s) (Some (snd s)))
              (fun l => length l = n) stores (repeat None n)
              (repeat_length None n)) as [l [Hl _]].
  - intros l s Hs Hlen.
    destruct (list_set_total l (fst s) (Some (snd s))) as [l' Hl'];
      [rewrite Hlen; apply H; exact Hs|].
    exists l'. split; [exact Hl'|].
    rewrite (list_set_length _ _ _ _ Hl'). exact Hlen.
  - exists l. exact Hl.
Qed.

Section MipNamesTotal.

Variable c : CouplingMap.
Variable ic : MIP._IndexCalculator.
Hypothesis Hc : coupling_ok c.
Hypothesis Hic : ic_ok c ic.

Lemma mt_gates_at t :
  t < MIP.ic_depth ic -> MIP.gates_at ic t = Ok (mip_gates ic t).
Proof.
  intros Ht. unfold MIP.gates_at, mip_gates.
  apply py_index_ok. rewrite <- (io_depth _ _ Hic). exact Ht.
Qed.

Lemma mt_outstar i :
  i < size c -> MIP.nth_outstar (MIP.ht ic) i = Ok (out_of (MIP.ht ic) i).
Proof.
  intros Hi. unfold MIP.nth_outstar, out_of. apply py_index_ok.
  rewrite (to_outstar_len _ _ (io_ht _ _ Hic)). exact Hi.
Qed.

Lemma mt_instar i :
  i < size c -> MIP.nth_instar (MIP.ht ic) i = Ok (inn_of (MIP.ht ic) i).
Proof.
  intros Hi. unfold MIP.nth_instar, inn_of. apply py_index_ok.
  rewrite (to_instar_len _ _ (io_ht _ _ Hic)). exact Hi.
Qed.

(** The arcs of the topology. *)
Lemma mt_arc i j :
  In (i, j) (MIP.arcs (MIP.ht ic)) ->
  i < size c /\ j < size c
  /\ In j (out_of (MIP.ht ic) i) /\ In i (out_of (MIP.ht ic) j)
  /\ In (j, i) (MIP.arcs (MIP.ht ic)).
Proof.
  intros Ha. pose proof (io_ht _ _ Hic) as Hto.
  pose proof (proj1 (to_arcs _ _ Hto (i, j)) Ha) as He.
  pose proof (co_range _ Hc _ _ He) as Hj.
  pose proof (co_sym _ Hc _ _ He) as Hs.
  pose proof (proj1 (co_edges _ Hc i j) He) as [Hi _].
  pose proof (proj2 (to_arcs _ _ Hto (j, i)) Hs) as Ha'.
  split; [exact Hi|]. split; [exact Hj|].
  split; [apply (to_out _ _ Hto i j Hi); exact Ha|].
  split; [apply (to_out _ _ Hto j i Hj); exact Ha' | exact Ha'].
Qed.

Lemma mt_y t p q i j :
  t < MIP.ic_depth ic -> In (p, q) (mip_gates ic t) ->
  In (i, j) (MIP.arcs (MIP.ht ic)) ->
  MIP.y_index ic t (p, q) (i, j) = Ok (yi ic t p q i j).
Proof.
  intros Ht Hg Ha.
  destruct (y_index_total c ic Hic t p q i j Ht Hg Ha) as [k Hk].
  rewrite (yi_ok _ _ _ _ _ _ _ Hk). exact Hk.
Qed.

Lemma mt_x l i j t :
  i < size c -> j = i \/ In j (out_of (MIP.ht ic) i) ->
  MIP.x_index ic l i j t = Ok (xi ic l i j t).
Proof.
  intros Hi Hj.
  destruct (x_index_total c ic Hic l i j t Hi Hj) as [k Hk].
  rewrite (xi_ok _ _ _ _ _ _ Hk). exact Hk.
Qed.

Lemma mt_x_arc l i j t :
  In (i, j) (MIP.arcs (MIP.ht ic)) ->
  MIP.x_index ic l i j t = Ok (xi ic l i j t).
Proof.
  intros Ha. destruct (mt_arc i j Ha) as (Hi & _ & Hj & _).
  apply mt_x; auto.
Qed.

Lemma mt_eu t e :
  In e (MIP.edges (MIP.ht ic)) -> MIP.eu_index ic t e = Ok (eu_i ic t e).
Proof.
  intros He. destruct (eu_index_total c ic Hic t e He) as [k Hk].
  unfold eu_i. rewrite Hk. reflexivity.
Qed.

Lemma mt_w_names : exists wn, MIP.w_names ic = Ok wn.
Proof.
  unfold MIP.w_names. apply store_names_total. intros [k nm] Hin.
  apply (in_w_stores c ic Hic) in Hin.
  destruct Hin as (l & p & t & Hl & Hp & Ht & -> & _). cbn [fst].
  apply (var_index_bound c ic (W t l p) _ Hic); [|reflexivity].
  cbn [in_model]. auto.
Qed.

Lemma mt_y_names : exists yn, MIP.y_names ic = Ok yn.
Proof.
  unfold MIP.y_names.
  assert (Hs : flat_mapM
                 (fun t =>
                    bind (MIP.gates_at ic t)
                      (fun lay =>
                         flat_mapM
                           (fun g : nat * nat =>
                              mapM
                                (fun a : nat * nat =>
                                   bind (MIP.y_index ic t g a)
                                     (fun k =>
                                        Ok (k - MIP.y_start ic,
                                            MIP.y_name t (fst g) (snd g)
                                              (fst a) (snd a))))
                                (MIP.arcs (MIP.ht ic)))
                           lay))
                 (range (MIP.ic_depth ic))
               = Ok (y_stores ic)).
  { unfold y_stores. apply flat_mapM_total. intros t Ht. apply in_range in Ht.
    rewrite (mt_gates_at t Ht). cbn [bind].
    apply flat_mapM_total. intros [p q] Hg. apply mapM_total.
    intros [i j] Ha. rewrite (mt_y t p q i j Ht Hg Ha). reflexivity. }
  rewrite Hs. cbn [bind]. apply store_names_total. intros [k nm] Hin.
  apply (in_y_stores c ic Hic) in Hin.
  destruct Hin as (t & p & q & i & j & kk & Hkk & -> & _). cbn [fst].
  destruct (y_index_gate c ic Hic _ _ _ _ _ _ Hkk) as (Ht & _).
  pose proof (var_index_bound c ic (Y t p q i j) kk Hic Ht Hkk) as [_ B].
  cbv beta iota in B. lia.
Qed.

Lemma mt_x_names : exists xn, MIP.x_names ic = Ok xn.
Proof.
  unfold MIP.x_names.
  assert (Hs : flat_mapM
                 (fun q =>
                    flat_mapM
                      (fun i =>
                         bind (MIP.nth_outstar (MIP.ht ic) i)
                           (fun out =>
                              flat_mapM
                                (fun j =>
                                   mapM
                                     (fun t =>
                                        bind (MIP.x_index ic q i j t)
                                          (fun k =>
                                             Ok (k - MIP.x_start ic,
                                                 MIP.x_name q i j t)))
                                     (range (MIP.ic_depth ic - 1)))
                                out))
                      (range (MIP.num_pqubits ic)))
                 (range (MIP.num_lqubits ic))
               = Ok (x_stores ic)).
  { unfold x_stores. apply flat_mapM_total. intros q Hq.
    apply flat_mapM_total. intros i Hi. apply in_range in Hi.
    rewrite (io_np _ _ Hic) in Hi. rewrite (mt_outstar i Hi). cbn [bind].
    apply flat_mapM_total. intros j Hj. apply mapM_total. intros t Ht.
    rewrite (mt_x q i j t Hi (or_intror Hj)). reflexivity. }
  rewrite Hs. cbn [bind]. apply store_names_total. intros [k nm] Hin.
  apply (in_x_stores c ic Hic) in Hin.
  destruct Hin as (q & i & j & t & kk & Hq & Hi & Hj & Ht & Hkk & -> & _).
  cbn [fst].
  pose proof (var_index_bound c ic (X t q i j) kk Hic (conj Ht Hq) Hkk)
    as [_ B].
  cbv beta iota in B. lia.
Qed.

Lemma mt_eu_names : exists en, MIP.eu_names ic = Ok en.
Proof.
  unfold MIP.eu_names.
  assert (Hs : flat_mapM
                 (fun t =>
                    mapM
                      (fun e : nat * nat =>
                         bind (MIP.eu_index ic t e)
                           (fun k =>
                              Ok (k - MIP.eu_start ic,
                                  MIP.eu_name t (fst e) (snd e))))
                      (MIP.edges (MIP.ht ic)))
                 (range (MIP.ic_depth ic - 1))
               = Ok (eu_stores ic)).
  { unfold eu_stores. apply flat_mapM_total. intros t Ht.
    apply mapM_total. intros e He. rewrite (mt_eu t e He). reflexivity. }
  rewrite Hs. cbn [bind]. apply store_names_total. intros [k nm] Hin.
  apply (in_eu_stores c ic Hic) in Hin.
  destruct Hin as (t & e & kk & Ht & He & Hkk & -> & _). cbn [fst].
  unfold MIP.eu_index in Hkk. bind_as Hkk idx Hidx. injection Hkk as <-.
  destruct (edge_index_nth ic c e idx (io_ht _ _ Hic) Hidx) as [Hlt _].
  rewrite (io_num_eu _ _ Hic), (to_num_edges _ _ (io_ht _ _ Hic)).
  set (E := length (MIP.edges (MIP.ht ic))) in *.
  pose proof (mul_lt_pack t idx (MIP.ic_depth ic - 1) E Ht Hlt). nia.
Qed.

End MipNamesTotal.

Lemma fold_step_exists {S X} (step : result S -> X -> result S)
  (P : S -> Prop) (l : list X) (s0 : S) :
  P s0 ->
  (forall s x, In x l -> P s -> exists s', step (Ok s) x = Ok s' /\ P s') ->
  exists s', fold_left step l (Ok s0) = Ok s' /\ P s'.
Proof.
  revert s0. induction l as [|x l IH]; intros s0 H0 Hstep.
  - exists s0. split; [reflexivity | exact H0].
  - cbn [fold_left].
    destruct (Hstep s0 x (or_introl eq_refl) H0) as [s1 [E1 H1]].
    rewrite E1. apply IH; [exact H1|].
    intros s y Hy. apply Hstep. right. exact Hy.
Qed.

Lemma list_remove_total x l : In x l -> exists r, list_remove x l = Ok r.
Proof.
  induction l as [|y l IHl]; intros Hx; [destruct Hx|].
  cbn [list_remove]. destruct (Nat.eqb_spec x y) as [->|Hxy].
  - exists l. reflexivity.
  - destruct Hx as [E|Hx]; [congruence|].
    destruct (IHl Hx) as [r ->]. exists (y :: r). reflexivity.
Qed.

Lemma mip_q_no_gate_total lay acc :
  NoDup acc -> NoDup (qubits_of lay) -> incl (qubits_of lay) acc ->
  exists r, MIP.q_no_gate lay acc = Ok r.
Proof.
  revert acc. induction lay as [|[p q] lay IH]; intros acc Hacc Hnd Hin.
  - exists acc. reflexivity.
  - cbn [qubits_of flat_map fst snd app] in Hnd, Hin.
    fold (qubits_of lay) in Hnd, Hin.
    inversion Hnd as [|? ? Hp Hnd1]; subst.
    inversion Hnd1 as [|? ? Hq Hnd2]; subst.
    cbn [MIP.q_no_gate].
    destruct (list_remove_total p acc (Hin p (or_introl eq_refl)))
      as [acc1 H1].
    destruct (list_remove_spec _ _ _ H1) as [_ R1].
    destruct (R1 Hacc) as [Hacc1 M1].
    assert (Hq1 : In q acc1).
    { apply M1. split; [apply Hin; right; left; reflexivity|].
      intros ->. apply Hp. left. reflexivity. }
    destruct (list_remove_total q acc1 Hq1) as [acc2 H2].
    destruct (list_remove_spec _ _ _ H2) as [_ R2].
    destruct (R2 Hacc1) as [Hacc2 M2].
    rewrite H1. cbn [bind]. rewrite H2. cbn [bind].
    apply IH; [exact Hacc2 | exact Hnd2 |].
    intros y Hy. apply M2. split.
    + apply M1. split; [apply Hin; right; right; exact Hy|].
      intros ->. apply Hp. right. exact Hy.
    + intros ->. apply Hq. exact Hy.
Qed.

Section MipRowsTotal.

Variable c : CouplingMap.
Variable ic : MIP._IndexCalculator.
Hypothesis Hc : coupling_ok c.
Hypothesis Hic : ic_ok c ic.
Hypothesis Hgr :
  forall t p q, In (p, q) (mip_gates ic t) -> p < size c /\ q < size c.
Hypothesis Hgn : forall t, NoDup (qubits_of (mip_gates ic t)).

Lemma rt_assignment_lqubits :
  exists r, MIP.rows_assignment_lqubits ic = Ok r.
Proof.
  unfold MIP.rows_assignment_lqubits. apply flat_mapM_exists. intros q _.
  apply mapM_exists. intros t _. eexists. apply row_total.
  unfold MIP.ones. rewrite !length_map. reflexivity.
Qed.

Lemma rt_assignment_pqubits :
  exists r, MIP.rows_assignment_pqubits ic = Ok r.
Proof.
  unfold MIP.rows_assignment_pqubits. apply flat_mapM_exists. intros j _.
  apply mapM_exists. intros t _. eexists. apply row_total.
  unfold MIP.ones. rewrite !length_map. reflexivity.
Qed.

Lemma rt_out_arc i j :
  i < size c -> In j (out_of (MIP.ht ic) i) -> In (i, j) (MIP.arcs (MIP.ht ic)).
Proof.
  intros Hi Hj. apply (to_out _ _ (io_ht _ _ Hic) i j Hi). exact Hj.
Qed.

Lemma rt_w_y : exists r, MIP.rows_w_y ic = Ok r.
Proof.
  unfold MIP.rows_w_y. apply flat_mapM_exists. intros t Ht.
  apply in_range in Ht. rewrite (mt_gates_at c ic Hic t Ht). cbn [bind].
  apply flat_mapM_exists. intros [p q] Hg.
  apply flat_mapM_exists. intros i Hi. apply in_range in Hi.
  rewrite (io_np _ _ Hic) in Hi. rewrite (mt_outstar c ic Hic i Hi).
  cbn [bind]. apply flat_mapM_exists. intros j Hj.
  pose proof (rt_out_arc i j Hi Hj) as Ha.
  destruct (mt_arc c ic Hc Hic i j Ha) as (_ & Hjn & _ & Hji & _).
  rewrite (mt_y c ic Hic t p q i j Ht Hg Ha).
  destruct (t =? MIP.ic_depth ic - 1).
  - cbn [bind]. rewrite !row_total by reflexivity. cbn [bind].
    eexists. reflexivity.
  - rewrite (mt_x c ic Hic p i i t Hi (or_introl eq_refl)).
    rewrite (mt_x c ic Hic p i j t Hi (or_intror Hj)).
    rewrite (mt_x c ic Hic q j j t Hjn (or_introl eq_refl)).
    rewrite (mt_x c ic Hic q j i t Hjn (or_intror Hji)).
    cbn [bind]. rewrite !row_total by reflexivity. cbn [bind].
    eexists. reflexivity.
Qed.

Lemma rt_assignment_y : exists r, MIP.rows_assignment_y ic = Ok r.
Proof.
  unfold MIP.rows_assignment_y. apply flat_mapM_exists. intros t Ht.
  apply in_range in Ht. rewrite (mt_gates_at c ic Hic t Ht). cbn [bind].
  apply mapM_exists. intros [p q] Hg.
  destruct (mapM_exists (MIP.y_index ic t (p, q)) (MIP.arcs (MIP.ht ic)))
    as [ind Hind].
  { intros [i j] Ha. eexists. apply (mt_y c ic Hic t p q i j Ht Hg Ha). }
  rewrite Hind. cbn [bind]. eexists. apply row_total.
  unfold MIP.ones. rewrite length_map. apply (mapM_length _ _ _ Hind).
Qed.

Lemma rt_swap : exists r, MIP.rows_swap ic = Ok r.
Proof.
  unfold MIP.rows_swap. apply flat_mapM_exists. intros t Ht.
  apply in_range in Ht.
  rewrite (mt_gates_at c ic Hic t) by lia. cbn [bind].
  apply flat_mapM_exists. intros [p q] Hg.
  apply mapM_exists. intros [i j] Ha.
  destruct (mt_arc c ic Hc Hic i j Ha) as (_ & _ & _ & _ & Ha').
  rewrite (mt_x_arc c ic Hc Hic p i j t Ha).
  rewrite (mt_x_arc c ic Hc Hic q j i t Ha').
  cbn [bind]. eexists. apply row_total. reflexivity.
Qed.

Lemma rt_free t :
  exists free,
    MIP.q_no_gate (mip_gates ic t) (range (MIP.num_lqubits ic)) = Ok free.
Proof.
  apply mip_q_no_gate_total.
  - unfold range. apply seq_NoDup.
  - apply Hgn.
  - intros x Hx. unfold qubits_of in Hx. apply in_flat_map in Hx.
    destruct Hx as [[p q] [Hg Hx]]. destruct (Hgr t p q Hg) as [Hp Hq].
    apply in_range. rewrite (io_nl _ _ Hic).
    cbn [fst snd] in Hx. destruct Hx as [<-|[<-|[]]]; assumption.
Qed.

Lemma rt_swap_no_gate : exists r, MIP.rows_swap_no_gate ic = Ok r.
Proof.
  unfold MIP.rows_swap_no_gate. apply flat_mapM_exists. intros t Ht.
  apply in_range in Ht.
  rewrite (mt_gates_at c ic Hic t) by lia. cbn [bind].
  destruct (rt_free t) as [free ->]. cbn [bind].
  apply mapM_exists. intros [i j] Ha.
  destruct (mt_arc c ic Hc Hic i j Ha) as (_ & _ & _ & _ & Ha').
  rewrite (mapM_total (fun q => MIP.x_index ic q i j t)
             (fun q => xi ic q i j t))
    by (intros q _; apply (mt_x_arc c ic Hc Hic q i j t Ha)).
  rewrite (mapM_total (fun p => MIP.x_index ic p j i t)
             (fun p => xi ic p j i t))
    by (intros p _; apply (mt_x_arc c ic Hc Hic p j i t Ha')).
  cbn [bind]. eexists. apply row_total.
  unfold MIP.ones, MIP.minus_ones. rewrite !length_app, !length_map.
  reflexivity.
Qed.

Lemma rt_dummy_ts_needed : exists r, MIP.rows_dummy_ts_needed ic = Ok r.
Proof.
  unfold MIP.rows_dummy_ts_needed.
  destruct (mapM_exists
              (fun t =>
                 bind (MIP.gates_at ic t)
                   (fun lay =>
                      if is_empty lay then
                        bind (mapM
                                (fun p =>
                                   bind (mapM
                                           (fun a : nat * nat =>
                                              MIP.x_index ic p (fst a) (snd a)
                                                t)
                                           (MIP.arcs (MIP.ht ic)))
                                     (fun xs =>
                                        MIP.row (xs ++ [MIP.wd_index ic t])
                                          (MIP.ones (MIP.arcs (MIP.ht ic))
                                           ++ [(-1)%Z])
                                          LE 0
                                          (MIP.dummy_ts_needed_row t p)))
                                (range (MIP.num_lqubits ic)))
                          (fun rows => Ok (rows, []))
                      else Ok ([], [(MIP.wd_index ic t, 1%Z)])))
              (range (MIP.ic_depth ic))) as [r Hr].
  - intros t Ht. apply in_range in Ht.
    rewrite (mt_gates_at c ic Hic t Ht). cbn [bind].
    destruct (is_empty (mip_gates ic t)); [|eexists; reflexivity].
    destruct (mapM_exists
                (fun p =>
                   bind (mapM
                           (fun a : nat * nat =>
                              MIP.x_index ic p (fst a) (snd a) t)
                           (MIP.arcs (MIP.ht ic)))
                     (fun xs =>
                        MIP.row (xs ++ [MIP.wd_index ic t])
                          (MIP.ones (MIP.arcs (MIP.ht ic)) ++ [(-1)%Z])
                          LE 0 (MIP.dummy_ts_needed_row t p)))
                (range (MIP.num_lqubits ic))) as [rows Hrows].
    + intros p _.
      rewrite (mapM_total
                 (fun a : nat * nat => MIP.x_index ic p (fst a) (snd a) t)
                 (fun a : nat * nat => xi ic p (fst a) (snd a) t))
        by (intros [i j] Ha; apply (mt_x_arc c ic Hc Hic p i j t Ha)).
      cbn [bind]. eexists. apply row_total.
      unfold MIP.ones. rewrite !length_app, !length_map. reflexivity.
    + rewrite Hrows. cbn [bind]. eexists. reflexivity.
  - rewrite Hr. cbn [bind]. eexists. reflexivity.
Qed.

Lemma rt_dummy_precedence : exists r, MIP.rows_dummy_precedence ic = Ok r.
Proof.
  unfold MIP.rows_dummy_precedence. apply flat_mapM_exists. intros t Ht.
  apply in_range in Ht.
  rewrite (mt_gates_at c ic Hic t) by lia. cbn [bind].
  destruct (is_empty (mip_gates ic t)); [|eexists; reflexivity].
  rewrite (mt_gates_at c ic Hic (t + 1)) by lia. cbn [bind].
  destruct (is_empty (mip_gates ic (t + 1))); [|eexists; reflexivity].
  rewrite row_total by reflexivity. cbn [bind]. eexists. reflexivity.
Qed.

Lemma rt_line_symm : exists r, MIP.rows_line_symm ic = Ok r.
Proof.
  unfold MIP.rows_line_symm. apply mapM_exists. intros h Hh.
  apply in_seq in Hh. eexists. apply row_total.
  unfold MIP.ones, range. rewrite length_app, !length_map, !length_seq. lia.
Qed.

Lemma rt_flow : exists r, MIP.rows_flow ic = Ok r.
Proof.
  unfold MIP.rows_flow. apply flat_mapM_exists. intros t Ht.
  apply flat_mapM_exists. intros q _.
  assert (Hout : exists outs,
            (if t <? MIP.ic_depth ic - 1 then
               mapM
                 (fun i =>
                    bind (MIP.x_index ic q i i t)
                      (fun xi0 =>
                         bind (MIP.nth_outstar (MIP.ht ic) i)
                           (fun out =>
                              bind (mapM (fun j => MIP.x_index ic q i j t)
                                      out)
                                (fun xs =>
                                   bind (MIP.nth_outstar (MIP.ht ic) i)
                                     (fun out' =>
                                        MIP.row
                                          (MIP.w_index ic q i t :: xi0 :: xs)
                                          (1%Z :: (-1)%Z
                                           :: MIP.minus_ones out')
                                          EQ 0
                                          (MIP.flow_out_row t q i))))))
                 (range (MIP.num_pqubits ic))
             else Ok []) = Ok outs).
  { destruct (t <? MIP.ic_depth ic - 1); [|eexists; reflexivity].
    apply mapM_exists. intros i Hi. apply in_range in Hi.
    rewrite (io_np _ _ Hic) in Hi.
    rewrite (mt_x c ic Hic q i i t Hi (or_introl eq_refl)).
    rewrite (mt_outstar c ic Hic i Hi). cbn [bind].
    rewrite (mapM_total (fun j => MIP.x_index ic q i j t)
               (fun j => xi ic q i j t))
      by (intros j Hj; apply (mt_x c ic Hic q i j t Hi (or_intror Hj))).
    cbn [bind]. eexists. apply row_total.
    unfold MIP.minus_ones. cbn [length]. rewrite !length_map. reflexivity. }
  assert (Hin : exists ins,
            (if 0 <? t then
               mapM
                 (fun j =>
                    bind (MIP.x_index ic q j j (t - 1))
                      (fun xj =>
                         bind (MIP.nth_instar (MIP.ht ic) j)
                           (fun inn =>
                              bind (mapM
                                      (fun i => MIP.x_index ic q i j (t - 1))
                                      inn)
                                (fun xs =>
                                   bind (MIP.nth_outstar (MIP.ht ic) j)
                                     (fun out' =>
                                        MIP.row
                                          (MIP.w_index ic q j t :: xj :: xs)
                                          (1%Z :: (-1)%Z
                                           :: MIP.minus_ones out')
                                          EQ 0
                                          (MIP.flow_in_row t q j))))))
                 (range (MIP.num_pqubits ic))
             else Ok []) = Ok ins).
  { destruct (0 <? t); [|eexists; reflexivity].
    apply mapM_exists. intros j Hj. apply in_range in Hj.
    rewrite (io_np _ _ Hic) in Hj.
    rewrite (mt_x c ic Hic q j j (t - 1) Hj (or_introl eq_refl)).
    rewrite (mt_instar c ic Hic j Hj). cbn [bind].
    rewrite (mapM_total (fun i => MIP.x_index ic q i j (t - 1))
               (fun i => xi ic q i j (t - 1))).
    2:{ intros i Hi. apply (mt_x_arc c ic Hc Hic q i j (t - 1)).
        apply (to_inn _ _ (io_ht _ _ Hic) j i Hj). exact Hi. }
    rewrite (mt_outstar c ic Hic j Hj). cbn [bind].
    eexists. apply row_total.
    unfold MIP.minus_ones. cbn [length]. rewrite !length_map.
    rewrite (Permutation_length (inn_out_perm c ic Hc Hic j Hj)).
    reflexivity. }
  destruct Hout as [outs ->]. destruct Hin as [ins ->]. cbn [bind].
  eexists. reflexivity.
Qed.

Lemma rt_edge_index e :
  In e (MIP.edges (MIP.ht ic)) ->
  exists k, MIP.edge_to_index (MIP.ht ic) e = Ok k
            /\ k < length (MIP.edges (MIP.ht ic)).
Proof.
  intros He. pose proof (mt_eu c ic Hic 0 e He) as H.
  unfold MIP.eu_index in H.
  destruct (MIP.edge_to_index (MIP.ht ic) e) as [k|x] eqn:Hk;
    [|discriminate].
  exists k. split; [reflexivity|].
  apply (edge_index_nth ic c e k (io_ht _ _ Hic) Hk).
Qed.

Lemma rt_edge_arcs i j :
  In (i, j) (MIP.edges (MIP.ht ic)) ->
  In (i, j) (MIP.arcs (MIP.ht ic)) /\ In (j, i) (MIP.arcs (MIP.ht ic)).
Proof.
  intros He. pose proof (to_edges _ _ (io_ht _ _ Hic) _ He) as Ha.
  split; [exact Ha|]. apply (mt_arc c ic Hc Hic i j Ha).
Qed.

Lemma rt_gates t :
  t < MIP.ic_depth ic ->
  exists st,
    MIP.edge_representation_gates ic t (mip_gates ic t) = Ok st
    /\ length (fst st) = MIP.num_lqubits ic
    /\ length (snd st) = length (MIP.edges (MIP.ht ic)).
Proof.
  intros Ht. unfold MIP.edge_representation_gates.
  apply (fold_step_exists _
           (fun st : list bool * list (list nat) =>
              length (fst st) = MIP.num_lqubits ic
              /\ length (snd st) = length (MIP.edges (MIP.ht ic)))).
  - cbn [fst snd]. rewrite repeat_length, length_map. auto.
  - intros [used reps] [p q] Hg [Hu Hr]. cbn [bind fst snd] in *.
    destruct (Hgr t p q Hg) as [Hp Hq].
    rewrite <- (io_nl _ _ Hic), <- Hu in Hp, Hq.
    destruct (list_set_total used p true Hp) as [u1 H1].
    rewrite H1. cbn [bind].
    pose proof (list_set_length _ _ _ _ H1) as L1.
    destruct (list_set_total u1 q true) as [u2 H2]; [lia|].
    rewrite H2. cbn [bind].
    pose proof (list_set_length _ _ _ _ H2) as L2.
    destruct (mapM_exists
                (fun er : list nat * (nat * nat) =>
                   let '(i, j) := snd er in
                   bind (MIP.y_index ic t (p, q) (i, j))
                     (fun y1 =>
                        bind (MIP.y_index ic t (p, q) (j, i))
                          (fun y2 => Ok (fst er ++ [y1; y2]))))
                (combine reps (MIP.edges (MIP.ht ic)))) as [reps' Hreps].
    + intros [rep [i j]] Her. apply in_combine_r in Her.
      destruct (rt_edge_arcs i j Her) as [Ha Ha']. cbn [fst snd].
      rewrite (mt_y c ic Hic t p q i j Ht Hg Ha).
      rewrite (mt_y c ic Hic t p q j i Ht Hg Ha'). cbn [bind].
      eexists. reflexivity.
    + rewrite Hreps. cbn [bind]. eexists. split; [reflexivity|].
      cbn [fst snd]. split; [lia|].
      rewrite (mapM_length _ _ _ Hreps), length_combine. lia.
Qed.

Lemma rt_moves t used reps :
  length used = MIP.num_lqubits ic ->
  length reps = length (MIP.edges (MIP.ht ic)) ->
  exists reps',
    MIP.edge_representation_moves ic t used reps = Ok reps'
    /\ length reps' = length (MIP.edges (MIP.ht ic)).
Proof.
  intros Hu Hr. unfold MIP.edge_representation_moves.
  apply (fold_step_exists _
           (fun rs : list (list nat) =>
              length rs = length (MIP.edges (MIP.ht ic))));
    [exact Hr|].
  intros rs0 e He Hrs0.
  apply (fold_step_exists _
           (fun rs : list (list nat) =>
              length rs = length (MIP.edges (MIP.ht ic))));
    [exact Hrs0|].
  intros rs q Hq Hrs. apply in_range in Hq. cbn [bind].
  destruct (rt_edge_index e He) as [k [-> Hk]]. cbn [bind].
  rewrite (py_index_ok used q false) by lia. cbn [bind].
  destruct (nth q used false); [exists rs; auto|].
  destruct e as [i j]. destruct (rt_edge_arcs i j He) as [Ha _].
  cbn [fst snd]. rewrite (mt_x_arc c ic Hc Hic q i j t Ha). cbn [bind].
  rewrite (py_index_ok rs k []) by lia. cbn [bind].
  destruct (existsb (Nat.eqb (xi ic q i j t)) (nth k rs []));
    [exists rs; auto|].
  destruct (list_set_total rs k (nth k rs [] ++ [xi ic q i j t]))
    as [rs' Hrs']; [lia|].
  exists rs'. split; [exact Hrs'|].
  rewrite (list_set_length _ _ _ _ Hrs'). exact Hrs.
Qed.

Lemma rt_eu_def : exists r, MIP.rows_eu_def ic = Ok r.
Proof.
  unfold MIP.rows_eu_def. apply flat_mapM_exists. intros t Ht.
  apply in_range in Ht.
  rewrite (mt_gates_at c ic Hic t) by lia. cbn [bind].
  destruct (rt_gates t) as [st [-> [Hu Hr]]]; [lia|]. cbn [bind].
  destruct (rt_moves t (fst st) (snd st) Hu Hr) as [reps [-> Hreps]].
  cbn [bind]. apply mapM_exists. intros [k e] Hke. cbn [fst snd].
  apply in_enumerate in Hke.
  assert (Hk : k < length (MIP.edges (MIP.ht ic)))
    by (apply nth_error_Some; rewrite Hke; discriminate).
  apply nth_error_In in Hke.
  rewrite (py_index_ok reps k []) by lia. cbn [bind].
  rewrite (mt_eu c ic Hic t e Hke). cbn [bind].
  eexists. apply row_total.
  unfold MIP.ones. rewrite !length_app, length_map. reflexivity.
Qed.

End MipRowsTotal.

Lemma mip_layer_ok dag D (gs : list (list (nat * nat))) t :
  dag_ok dag ->
  gs = with_dummy_steps D (map (map pair_of) (real_layers dag)) ->
  NoDup (qubits_of (nth t gs []))
  /\ forall p q, In (p, q) (nth t gs []) ->
       p < num_dag_qubits dag /\ q < num_dag_qubits dag.
Proof.
  intros Hdag ->.
  destruct (nth_in_or_default t
              (with_dummy_steps D (map (map pair_of) (real_layers dag))) [])
    as [Hin | ->]; [|split; [constructor | intros p q []]].
  apply in_with_dummy_steps in Hin.
  destruct Hin as [-> | Hin]; [split; [constructor | intros p q []]|].
  apply in_map_iff in Hin. destruct Hin as [lay [<- Hlay]].
  unfold real_layers in Hlay. apply filter_In in Hlay.
  destruct Hlay as [Hlay _]. destruct (Hdag lay Hlay) as [Hnd Hr].
  split; [rewrite qubits_of_pairs; exact Hnd|].
  intros p q Hg. apply in_map_iff in Hg. destruct Hg as [nd [E Hnd']].
  unfold pair_of in E. injection E as <- <-. apply Hr. exact Hnd'.
Qed.

(** X12.  [MIPMappingModel] and [create_cpx_problem] (flat model) on a
    valid input: for a coupling map that is symmetric, without loops and
    without repeated neighbours, and a circuit with at least one layer of
    two-qubit gates, whose layers use each qubit at most once and whose
    qubits are not more than those of the device, the model is
    initialised and the problem with the ['depth'] objective is built,
    with or without the symmetry-breaking rows: no index or key is
    missing and every row has as many coefficients as columns.  With
    [dummy_timesteps] given as a number [D] and [n] layers with gates, the
    model has [1 + (n - 1) * (1 + D)] time steps (line 564). *)
Theorem flat_builder_accepts_valid_input :
  forall np_log math_log dag c D,
    coupling_ok c -> dag_ok dag -> num_dag_qubits dag <= size c ->
    real_layers dag <> [] ->
    exists mm,
      MIP.init dag c D = Ok mm
      /\ forall line_symm cycle_symm,
           exists p ic,
             MIP.create_cpx_problem np_log math_log mm "depth" line_symm
               cycle_symm
             = Ok (p, ic)
             /\ MIP.ic_depth ic
                = 1 + (length (real_layers dag) - 1) * (1 + D).
Proof.
  intros np_log math_log dag c D Hc Hdag Hq Hne.
  destruct (mip_init_total dag c D) as [mm Hmm]. exists mm.
  split; [exact Hmm|]. intros line_symm cycle_symm.
  destruct (init_IndexCalculator_total dag c D mm Hmm) as [ic Hicv].
  destruct (mip_ic_ok dag c D mm ic Hc Hmm Hicv) as [Hic Hg].
  assert (Hgn : forall t, NoDup (qubits_of (mip_gates ic t))).
  { intros t. apply (mip_layer_ok dag D _ t Hdag Hg). }
  assert (Hgr : forall t p q, In (p, q) (mip_gates ic t) ->
                              p < size c /\ q < size c).
  { intros t p q Hin.
    destruct (proj2 (mip_layer_ok dag D _ t Hdag Hg) p q Hin). lia. }
  unfold MIP.create_cpx_problem. rewrite Hicv. cbn [bind].
  destruct (mt_w_names c ic Hic) as [wn ->]. cbn [bind].
  destruct (mt_y_names c ic Hic) as [yn ->]. cbn [bind].
  destruct (mt_x_names c ic Hic) as [xn ->]. cbn [bind].
  destruct (mt_eu_names c ic Hic) as [en ->]. cbn [bind].
  destruct (rt_assignment_lqubits ic) as [r1 ->]. cbn [bind].
  destruct (rt_assignment_pqubits ic) as [r2 ->]. cbn [bind].
  destruct (rt_w_y c ic Hc Hic) as [r3 ->]. cbn [bind].
  destruct (rt_assignment_y c ic Hic) as [r4 ->]. cbn [bind].
  destruct (rt_swap c ic Hc Hic) as [r5 ->]. cbn [bind].
  destruct (rt_swap_no_gate c ic Hc Hic Hgr Hgn) as [r6 ->]. cbn [bind].
  destruct (rt_dummy_ts_needed c ic Hc Hic) as [r7 ->]. cbn [bind].
  destruct (rt_dummy_precedence c ic Hic) as [r8 ->]. cbn [bind].
  assert (H9 : exists r9,
            (if line_symm then MIP.rows_line_symm ic else Ok []) = Ok r9).
  { destruct line_symm; [apply rt_line_symm | eexists; reflexivity]. }
  destruct H9 as [r9 ->]. cbn [bind].
  destruct (rt_flow c ic Hc Hic) as [r10 ->]. cbn [bind].
  destruct (rt_eu_def c ic Hc Hic Hgr) as [r11 ->]. cbn [bind].
  change (("depth" =? "error")%string) with false. cbv iota.
  change (("depth" =? "depth")%string) with true. cbv iota. cbn [bind].
  eexists. exists ic. split; [reflexivity|].
  rewrite (io_depth _ _ Hic), Hg, with_dummy_steps_length, !length_map.
  destruct (real_layers dag) as [|lay0 rest]; [contradiction|].
  cbn [length]. nia.
Qed.

(** The theorem at [circuit4] on the line of three qubits with one dummy
    step between its four layers and both symmetry options: the problem is
    built, over seven time steps. *)
Lemma flat_builder_accepts_valid_input_example :
  exists mm p ic,
    MIP.init circuit4 line3 1 = Ok mm
    /\ MIP.create_cpx_problem approx_log approx_log mm "depth" true true
       = Ok (p, ic)
    /\ MIP.ic_depth ic = 7.
Proof.
  destruct (flat_builder_accepts_valid_input
              approx_log approx_log circuit4 line3 1
              line3_ok circuit4_ok ltac:(vm_compute; lia)
              ltac:(vm_compute; discriminate)) as [mm [Hmm H]].
  destruct (H true true) as [p [ic [Hp Hd]]].
  exists mm, p, ic. split; [exact Hmm|]. split; [exact Hp|]. exact Hd.
Defined.

(** ** The hardware topology of a one-way coupling map *)

(** The dictionary from the entries of a list without duplicates to their
    positions. *)
Lemma dict_get_position {K} (eqb : K -> K -> bool) (l : list K) k i :
  (forall x y, eqb x y = true <-> x = y) ->
  NoDup l -> nth_error l i = Some k ->
  MIP.dict_get eqb (combine l (seq 0 (length l))) k = Ok i.
Proof.
  intros Heq Hnd Hi.
  destruct (dict_get_numbered_total eqb l 0 k Heq (nth_error_In _ _ Hi))
    as [v Hv].
  destruct (dict_get_numbered eqb l 0 k v Heq Hv) as (_ & Hlt & Hnth).
  rewrite Nat.sub_0_r in Hnth. rewrite Hv. f_equal.
  apply (proj1 (NoDup_nth_error l) Hnd); [lia|]. congruence.
Qed.

Lemma dict_get_missing {K V} (eqb : K -> K -> bool) (d : list (K * V)) k :
  (forall x y, eqb x y = true <-> x = y) ->
  ~ In k (map fst d) -> MIP.dict_get eqb d k = Raise KeyError.
Proof.
  intros Heq Hk.
  destruct (MIP.dict_get eqb d k) as [v|e] eqn:E.
  - exfalso. apply dict_get_In in E. destruct E as [k' [Hin He]].
    apply Heq in He. subst k'. apply Hk. apply in_map_iff.
    exists (k, v). split; [reflexivity | exact Hin].
  - rewrite (dict_get_raise _ _ _ _ E). reflexivity.
Qed.

Lemma combine_seq_keys {K} (l : list K) s :
  map fst (combine l (seq s (length l))) = l.
Proof.
  revert s. induction l as [|x l IH]; intros s; [reflexivity|].
  cbn [length seq combine map fst]. rewrite IH. reflexivity.
Qed.

(** A coupling map with couplings in one direction only. *)
Definition one_way3 : CouplingMap :=
  {| size := 3;
     get_edges := [(0, 1); (1, 2)];
     neighbors := fun i => match i with 0 => [1] | 1 => [2] | _ => [] end;
     distance := fun i j => if i <=? j then j - i else i - j |}.

(** X13.  [_HardwareTopology.__init__] (lines 625-657) on any coupling
    map, also one whose couplings go one way only: the model is always
    built; [(u, v)] is an arc exactly when [v] is a neighbour of [u] or [u]
    a neighbour of [v], so the direction of a coupling is dropped;
    [edges] holds every coupling once, in an orientation the coupling map
    has; the out-star and the in-star of a qubit are the ends of its
    arcs; [edge_to_index] is the position in [edges], and, when no qubit
    is its own neighbour, [arc_to_index] is the position in [arcs]; an arc
    that is not there raises [KeyError]. *)
Theorem topology_ignores_direction :
  forall dag c D mm,
    MIP.init dag c D = Ok mm ->
    (forall u v,
       In (u, v) (MIP.arcs (MIP.toplogy_model mm))
       <-> (u < size c /\ In v (neighbors c u))
           \/ (v < size c /\ In u (neighbors c v)))
    /\ NoDup (MIP.edges (MIP.toplogy_model mm))
    /\ (forall u v,
          In (u, v) (MIP.edges (MIP.toplogy_model mm)) ->
          u < size c /\ In v (neighbors c u)
          /\ (In (v, u) (MIP.edges (MIP.toplogy_model mm)) -> u = v))
    /\ (forall u v,
          In (u, v) (MIP.arcs (MIP.toplogy_model mm)) ->
          In (u, v) (MIP.edges (MIP.toplogy_model mm))
          \/ In (v, u) (MIP.edges (MIP.toplogy_model mm)))
    /\ (forall i j,
          i < size c ->
          (In j (out_of (MIP.toplogy_model mm) i)
           <-> In (i, j) (MIP.arcs (MIP.toplogy_model mm)))
          /\ (In j (inn_of (MIP.toplogy_model mm) i)
              <-> In (j, i) (MIP.arcs (MIP.toplogy_model mm))))
    /\ (forall k e,
          nth_error (MIP.edges (MIP.toplogy_model mm)) k = Some e ->
          MIP.edge_to_index (MIP.toplogy_model mm) e = Ok k)
    /\ (forall a,
          ~ In a (MIP.arcs (MIP.toplogy_model mm)) ->
          MIP.arc_to_index (MIP.toplogy_model mm) a = Raise KeyError)
    /\ ((forall u, u < size c -> ~ In u (neighbors c u)) ->
        forall k a,
          nth_error (MIP.arcs (MIP.toplogy_model mm)) k = Some a ->
          MIP.arc_to_index (MIP.toplogy_model mm) a = Ok k).
Proof.
  intros dag c D mm Hmm. apply mip_init_ok in Hmm.
  destruct Hmm as (_ & _ & fid & Hht).
  apply init_HardwareTopology_ok in Hht.
  destruct Hht as (Hn & es & Hes & Hedges & Harcs & _ & _ & Hout & Hinn
                   & Hei & Hai).
  apply edge_set_of_ok in Hes. destruct Hes as (N & F & R & C).
  set (h := MIP.toplogy_model mm) in *.
  assert (Hflip : forall u v, In (u, v) (map flip es) <-> In (v, u) es).
  { intros u v. rewrite in_map_iff. split.
    - intros [[a b] [E He]]. unfold flip in E. cbn [fst snd] in E.
      injection E as <- <-. exact He.
    - intros He. exists (v, u). split; [reflexivity | exact He]. }
  split; [|split; [|split; [|split; [|split; [|split; [|split]]]]]].
  - intros u v. rewrite Harcs, in_app_iff, Hflip. split.
    + intros [He|He]; [left | right]; apply R; exact He.
    + intros [[Hu Hv]|[Hv Hu]].
      * destruct (C u v Hu Hv) as [H|H]; [left | right]; exact H.
      * destruct (C v u Hv Hu) as [H|H]; [right | left]; exact H.
  - rewrite Hedges. exact N.
  - intros u v He. rewrite Hedges in He |- *.
    destruct (R u v He) as [Hu Hv]. split; [exact Hu|]. split; [exact Hv|].
    intros He'. pose proof (F (u, v) He He') as E.
    unfold flip in E. cbn [fst snd] in E. congruence.
  - intros u v Ha. rewrite Harcs, in_app_iff, Hflip in Ha.
    rewrite Hedges. exact Ha.
  - intros i j Hi. unfold out_of, inn_of.
    rewrite Hout, Hinn, !nth_map_range by exact Hi.
    rewrite !in_map_iff. split; split.
    + intros [[u v] [E Hf]]. apply filter_In in Hf.
      destruct Hf as [Hin Hfst]. cbn [fst snd] in E, Hfst.
      apply Nat.eqb_eq in Hfst. subst. exact Hin.
    + intros Hin. exists (i, j). split; [reflexivity|].
      apply filter_In. split; [exact Hin | apply Nat.eqb_refl].
    + intros [[u v] [E Hf]]. apply filter_In in Hf.
      destruct Hf as [Hin Hsnd]. cbn [fst snd] in E, Hsnd.
      apply Nat.eqb_eq in Hsnd. subst. exact Hin.
    + intros Hin. exists (j, i). split; [reflexivity|].
      apply filter_In. split; [exact Hin | apply Nat.eqb_refl].
  - intros k e Hk. unfold MIP.edge_to_index. rewrite Hei.
    rewrite Hedges in Hk.
    apply (dict_get_position _ _ _ _ pair_eqb_eq N Hk).
  - intros a Ha. unfold MIP.arc_to_index. rewrite Hai.
    apply (dict_get_missing _ _ _ pair_eqb_eq).
    rewrite combine_seq_keys. exact Ha.
  - intros Hloop k a Hk. unfold MIP.arc_to_index. rewrite Hai.
    apply (dict_get_position _ _ _ _ pair_eqb_eq); [|exact Hk].
    rewrite Harcs. apply NoDup_app; [exact N | |].
    + apply NoDup_map_on; [exact N|].
      intros x y _ _ E. rewrite <- (flip_flip x), E. apply flip_flip.
    + intros [u v] He Hfe. apply Hflip in Hfe.
      pose proof (F (u, v) He Hfe) as E.
      unfold flip in E. cbn [fst snd] in E.
      assert (Euv : u = v) by congruence. subst v.
      destruct (R u u He) as [Hu Hself]. exact (Hloop u Hu Hself).
Qed.

(** The theorem at a line of three qubits coupled from 0 to 1 and from 1
    to 2 only: the arcs go both ways, the out-star of qubit 2, which has
    no neighbour in the coupling map, holds qubit 1, and the arc from 2 to
    1 is numbered by its position. *)
Lemma topology_ignores_direction_example :
  exists mm,
    MIP.init circuit2 one_way3 1 = Ok mm
    /\ In (2, 1) (MIP.arcs (MIP.toplogy_model mm))
    /\ In 1 (out_of (MIP.toplogy_model mm) 2)
    /\ (forall k,
          nth_error (MIP.arcs (MIP.toplogy_model mm)) k = Some (2, 1) ->
          MIP.arc_to_index (MIP.toplogy_model mm) (2, 1) = Ok k)
    /\ MIP.arc_to_index (MIP.toplogy_model mm) (0, 2) = Raise KeyError.
Proof.
  pose (mm := ltac:(ok_value (MIP.init circuit2 one_way3 1))).
  assert (Hmm : MIP.init circuit2 one_way3 1 = Ok mm)
    by (vm_compute; reflexivity).
  destruct (topology_ignores_direction circuit2 one_way3 1 mm Hmm)
    as (Harc & _ & _ & _ & Hstar & _ & Hmiss & Hpos).
  assert (H21 : In (2, 1) (MIP.arcs (MIP.toplogy_model mm))).
  { apply Harc. right. split; [vm_compute; lia | left; reflexivity]. }
  exists mm. split; [exact Hmm|]. split; [exact H21|].
  split;
    [apply (proj2 (proj1 (Hstar 2 1 ltac:(vm_compute; lia)))); exact H21|].
  split.
  - intros k Hk. apply Hpos; [|exact Hk].
    intros u Hu. destruct u as [|[|[|u]]]; cbn; intuition lia.
  - apply Hmiss. rewrite Harc. cbn. intuition lia.
Defined.

(** ** The rows of the flat model use the columns of the model *)

(** A row of [linear_constraints.add] over a model of [n] columns: as many
    coefficients as indices, and every index is a column. *)
Definition row_cols (n : nat) (r : MIP.LinearConstraint) : Prop :=
  length (MIP.lin_ind r) = length (MIP.lin_val r)
  /\ Forall (fun i => i < n) (MIP.lin_ind r).

Definition row_colsb (n : nat) (r : MIP.LinearConstraint) : bool :=
  (length (MIP.lin_ind r) =? length (MIP.lin_val r))
  && forallb (fun i => i <? n) (MIP.lin_ind r).

Lemma row_colsb_cols n r : row_colsb n r = true <-> row_cols n r.
Proof.
  unfold row_colsb, row_cols.
  rewrite andb_true_iff, Nat.eqb_eq, forallb_forall, Forall_forall.
  split; intros [H1 H2]; (split; [exact H1|]); intros i Hi.
  - apply Nat.ltb_lt. apply H2. exact Hi.
  - apply Nat.ltb_lt. apply H2. exact Hi.
Qed.

Lemma Forall2_in_l {A B} (R : A -> B -> Prop) l1 l2 x :
  Forall2 R l1 l2 -> In x l1 -> exists y, In y l2 /\ R x y.
Proof.
  induction 1 as [|a b l1 l2 Hab _ IH]; intros Hx; [destruct Hx|].
  destruct Hx as [<-|Hx].
  - exists b. split; [left; reflexivity | exact Hab].
  - destruct (IH Hx) as [y [Hy Hr]]. exists y. split; [right|]; assumption.
Qed.

Lemma last_step_real {A} D (l : list (list A)) :
  l <> [] -> Forall (fun lay => is_empty lay = false) l ->
  forall t, t < length (with_dummy_steps D l) ->
            nth t (with_dummy_steps D l) [] = [] ->
            t < length (with_dummy_steps D l) - 1.
Proof.
  intros Hne Hall t Ht Hnil.
  assert (Hlen : 0 < length l) by (destruct l; [contradiction | cbn; lia]).
  pose proof (with_dummy_steps_length D l) as HL.
  assert (Hk : length l - 1 < length l) by lia.
  pose proof (with_dummy_steps_real D l (length l - 1) Hk) as Hreal.
  assert (Hin : In (nth (length l - 1) l []) l) by (apply nth_In; exact Hk).
  rewrite Forall_forall in Hall. pose proof (Hall _ Hin) as Hfull.
  assert (Hpos : (length l - 1) * (D + 1)
                 = length (with_dummy_steps D l) - 1) by nia.
  destruct (Nat.eq_dec t (length (with_dummy_steps D l) - 1)) as [E|E];
    [|lia].
  exfalso. rewrite Hpos in Hreal. rewrite <- E, Hnil in Hreal.
  rewrite <- Hreal in Hfull. discriminate Hfull.
Qed.

Section Columns.

Variable c : CouplingMap.
Variable ic : MIP._IndexCalculator.
Hypothesis Hc : coupling_ok c.
Hypothesis Hic : ic_ok c ic.
Hypothesis Hgr :
  forall t p q, In (p, q) (mip_gates ic t) -> p < size c /\ q < size c.
Hypothesis Hgn : forall t, NoDup (qubits_of (mip_gates ic t)).
Hypothesis Hlast :
  forall t, t < MIP.ic_depth ic -> mip_gates ic t = [] ->
            t < MIP.ic_depth ic - 1.

Lemma cb_w q j t :
  q < size c -> j < size c -> t < MIP.ic_depth ic ->
  MIP.w_index ic q j t < num_vars ic.
Proof.
  intros Hq Hj Ht.
  apply (var_index_bound c ic (W t q j) _ Hic); [|reflexivity].
  cbn [in_model]. auto.
Qed.

Lemma cb_y t p q i j :
  t < MIP.ic_depth ic -> In (p, q) (mip_gates ic t) ->
  In (i, j) (MIP.arcs (MIP.ht ic)) ->
  yi ic t p q i j < num_vars ic.
Proof.
  intros Ht Hg Ha.
  apply (var_index_bound c ic (Y t p q i j) _ Hic); [exact Ht|].
  apply (mt_y c ic Hic t p q i j Ht Hg Ha).
Qed.

Lemma cb_x q i j t :
  q < size c -> i < size c -> j = i \/ In j (out_of (MIP.ht ic) i) ->
  t < MIP.ic_depth ic - 1 ->
  xi ic q i j t < num_vars ic.
Proof.
  intros Hq Hi Hj Ht.
  apply (var_index_bound c ic (X t q i j) _ Hic); [split; assumption|].
  apply (mt_x c ic Hic q i j t Hi Hj).
Qed.

Lemma cb_x_arc q i j t :
  q < size c -> In (i, j) (MIP.arcs (MIP.ht ic)) ->
  t < MIP.ic_depth ic - 1 ->
  xi ic q i j t < num_vars ic.
Proof.
  intros Hq Ha Ht. destruct (mt_arc c ic Hc Hic i j Ha) as (Hi & _ & Hj & _).
  apply cb_x; auto.
Qed.

Lemma cb_wd t : t < MIP.ic_depth ic -> MIP.wd_index ic t < num_vars ic.
Proof.
  intros Ht.
  apply (var_index_bound c ic (Zv t) _ Hic); [exact Ht | reflexivity].
Qed.

Lemma cb_eu t k :
  t < MIP.ic_depth ic - 1 -> k < length (MIP.edges (MIP.ht ic)) ->
  eui ic t k < num_vars ic.
Proof.
  intros Ht Hk. unfold eui, num_vars.
  rewrite (io_eu_start _ _ Hic), (io_wd_start _ _ Hic), (io_x_start _ _ Hic).
  rewrite (io_num_eu _ _ Hic), (to_num_edges _ _ (io_ht _ _ Hic)).
  pose proof (mul_lt_pack t k (MIP.ic_depth ic - 1)
                (length (MIP.edges (MIP.ht ic))) Ht Hk).
  nia.
Qed.

Lemma cols_mk ind val s rhs nm :
  length ind = length val -> Forall (fun i => i < num_vars ic) ind ->
  row_cols (num_vars ic) (mk_row ind val s rhs nm).
Proof. intros H1 H2. split; assumption. Qed.

Lemma cols_assignment_lqubits :
  Forall (row_cols (num_vars ic))
    (flat_map
       (fun q => map (assignment_lqubits_row ic q) (range (MIP.ic_depth ic)))
       (range (MIP.num_lqubits ic))).
Proof.
  apply Forall_flat_map, Forall_forall. intros q Hq. apply in_range in Hq.
  rewrite (io_nl _ _ Hic) in Hq.
  apply Forall_map, Forall_forall. intros t Ht. apply in_range in Ht.
  apply cols_mk; [unfold MIP.ones; rewrite !length_map; reflexivity|].
  apply Forall_map, Forall_forall. intros j Hj. apply in_range in Hj.
  rewrite (io_np _ _ Hic) in Hj. apply cb_w; assumption.
Qed.

Lemma cols_assignment_pqubits :
  Forall (row_cols (num_vars ic))
    (flat_map
       (fun j => map (assignment_pqubits_row ic j) (range (MIP.ic_depth ic)))
       (range (MIP.num_pqubits ic))).
Proof.
  apply Forall_flat_map, Forall_forall. intros j Hj. apply in_range in Hj.
  rewrite (io_np _ _ Hic) in Hj.
  apply Forall_map, Forall_forall. intros t Ht. apply in_range in Ht.
  apply cols_mk; [unfold MIP.ones; rewrite !length_map; reflexivity|].
  apply Forall_map, Forall_forall. intros q Hq. apply in_range in Hq.
  rewrite (io_nl _ _ Hic) in Hq. apply cb_w; assumption.
Qed.

Lemma cols_w_y : Forall (row_cols (num_vars ic)) (pure_w_y ic).
Proof.
  unfold pure_w_y.
  apply Forall_flat_map, Forall_forall. intros t Ht. apply in_range in Ht.
  apply Forall_flat_map, Forall_forall. intros [p q] Hg.
  destruct (Hgr t p q Hg) as [Hp Hq].
  apply Forall_flat_map, Forall_forall. intros i Hi. apply in_range in Hi.
  rewrite (io_np _ _ Hic) in Hi.
  apply Forall_flat_map, Forall_forall. intros j Hj.
  pose proof (rt_out_arc c ic Hic i j Hi Hj) as Ha.
  destruct (mt_arc c ic Hc Hic i j Ha) as (_ & Hjn & _ & Hji & _).
  pose proof (cb_y t p q i j Ht Hg Ha) as By.
  unfold w_y_rows. destruct (Nat.eqb_spec t (MIP.ic_depth ic - 1)) as [E|E].
  - pose proof (cb_w p i t Hp Hi Ht) as B1.
    pose proof (cb_w q j t Hq Hjn Ht) as B2.
    repeat (constructor;
            [apply cols_mk;
             [reflexivity | repeat (constructor; try assumption)]|]).
    constructor.
  - assert (Ht' : t < MIP.ic_depth ic - 1) by lia.
    pose proof (cb_x p i i t Hp Hi (or_introl eq_refl) Ht') as B1.
    pose proof (cb_x p i j t Hp Hi (or_intror Hj) Ht') as B2.
    pose proof (cb_x q j j t Hq Hjn (or_introl eq_refl) Ht') as B3.
    pose proof (cb_x q j i t Hq Hjn (or_intror Hji) Ht') as B4.
    repeat (constructor;
            [apply cols_mk;
             [reflexivity | repeat (constructor; try assumption)]|]).
    constructor.
Qed.

Lemma cols_assignment_y :
  Forall (row_cols (num_vars ic)) (pure_assignment_y ic).
Proof.
  unfold pure_assignment_y.
  apply Forall_flat_map, Forall_forall. intros t Ht. apply in_range in Ht.
  apply Forall_map, Forall_forall. intros [p q] Hg.
  apply cols_mk; [unfold MIP.ones; rewrite !length_map; reflexivity|].
  apply Forall_map, Forall_forall. intros [i j] Ha. cbn [fst snd].
  apply cb_y; assumption.
Qed.

Lemma cols_swap : Forall (row_cols (num_vars ic)) (pure_swap ic).
Proof.
  unfold pure_swap.
  apply Forall_flat_map, Forall_forall. intros t Ht. apply in_range in Ht.
  apply Forall_flat_map, Forall_forall. intros [p q] Hg.
  destruct (Hgr t p q Hg) as [Hp Hq].
  apply Forall_map, Forall_forall. intros [i j] Ha. cbn [fst snd].
  destruct (mt_arc c ic Hc Hic i j Ha) as (_ & _ & _ & _ & Ha').
  pose proof (cb_x_arc p i j t Hp Ha Ht) as B1.
  pose proof (cb_x_arc q j i t Hq Ha' Ht) as B2.
  apply cols_mk; [reflexivity | repeat (constructor; try assumption)].
Qed.

Lemma cols_swap_no_gate :
  Forall (row_cols (num_vars ic)) (pure_swap_no_gate ic).
Proof.
  unfold pure_swap_no_gate.
  apply Forall_flat_map, Forall_forall. intros t Ht. apply in_range in Ht.
  apply Forall_map, Forall_forall. intros [i j] Ha. cbn [fst snd].
  destruct (mt_arc c ic Hc Hic i j Ha) as (_ & _ & _ & _ & Ha').
  apply cols_mk.
  - unfold MIP.ones, MIP.minus_ones. rewrite !length_app, !length_map.
    reflexivity.
  - apply Forall_app. split; apply Forall_map, Forall_forall; intros q Hq;
      apply mip_free_range in Hq; rewrite (io_nl _ _ Hic) in Hq;
      apply cb_x_arc; assumption.
Qed.

Lemma cols_dummy_ts_needed :
  Forall (row_cols (num_vars ic)) (pure_dummy_ts_needed ic).
Proof.
  unfold pure_dummy_ts_needed.
  apply Forall_flat_map, Forall_forall. intros t Ht. apply in_range in Ht.
  destruct (mip_gates ic t) as [|g lay] eqn:Eg; cbn [is_empty];
    [|constructor].
  pose proof (Hlast t Ht Eg) as Ht'.
  apply Forall_map, Forall_forall. intros p Hp. apply in_range in Hp.
  rewrite (io_nl _ _ Hic) in Hp.
  apply cols_mk.
  - unfold MIP.ones. rewrite !length_app, !length_map. reflexivity.
  - apply Forall_app. split.
    + apply Forall_map, Forall_forall. intros [i j] Ha. cbn [fst snd].
      apply cb_x_arc; assumption.
    + constructor; [apply cb_wd; exact Ht | constructor].
Qed.

Lemma cols_lower_bounds :
  Forall (fun b : nat * Z => fst b < num_vars ic) (pure_lower_bounds ic).
Proof.
  unfold pure_lower_bounds.
  apply Forall_flat_map, Forall_forall. intros t Ht. apply in_range in Ht.
  destruct (is_empty (mip_gates ic t)); [constructor|].
  constructor; [apply cb_wd; exact Ht | constructor].
Qed.

Lemma cols_dummy_precedence :
  Forall (row_cols (num_vars ic)) (pure_dummy_precedence ic).
Proof.
  unfold pure_dummy_precedence.
  apply Forall_flat_map, Forall_forall. intros t Ht. apply in_range in Ht.
  destruct (is_empty (mip_gates ic t) && is_empty (mip_gates ic (t + 1)));
    [|constructor].
  constructor; [|constructor].
  apply cols_mk; [reflexivity|].
  constructor; [apply cb_wd; lia|].
  constructor; [apply cb_wd; lia | constructor].
Qed.

Lemma cols_line_symm r9 :
  0 < MIP.ic_depth ic -> 0 < size c ->
  MIP.rows_line_symm ic = Ok r9 -> Forall (row_cols (num_vars ic)) r9.
Proof.
  unfold MIP.rows_line_symm. intros Hd Hn H.
  apply Forall_forall. intros r Hr.
  apply mapM_Forall2 in H.
  destruct (Forall2_in_r _ _ _ _ H Hr) as [h [Hh Hrow]].
  apply in_seq in Hh. apply row_ok in Hrow. destruct Hrow as [-> Hlen].
  apply cols_mk; [exact Hlen|].
  rewrite (io_nl _ _ Hic) in Hh |- *. rewrite (io_np _ _ Hic).
  apply Forall_app. split; apply Forall_map, Forall_forall; intros q Hq.
  - apply in_range in Hq. apply cb_w; lia.
  - apply in_seq in Hq. apply cb_w; lia.
Qed.

Lemma cols_flow : Forall (row_cols (num_vars ic)) (pure_flow ic).
Proof.
  unfold pure_flow.
  apply Forall_flat_map, Forall_forall. intros t Ht. apply in_range in Ht.
  apply Forall_flat_map, Forall_forall. intros q Hq. apply in_range in Hq.
  rewrite (io_nl _ _ Hic) in Hq.
  apply Forall_app. split.
  - destruct (Nat.ltb_spec t (MIP.ic_depth ic - 1)) as [Ht'|_];
      [|constructor].
    unfold flow_out_rows. apply Forall_map, Forall_forall. intros i Hi.
    apply in_range in Hi. rewrite (io_np _ _ Hic) in Hi.
    apply cols_mk.
    + unfold MIP.minus_ones. cbn [length]. rewrite !length_map. reflexivity.
    + constructor; [apply cb_w; assumption|].
      constructor; [apply cb_x; auto|].
      apply Forall_map, Forall_forall. intros j Hj. apply cb_x; auto.
  - destruct (Nat.ltb_spec 0 t) as [Hpos|_]; [|constructor].
    unfold flow_in_rows. apply Forall_map, Forall_forall. intros j Hj.
    apply in_range in Hj. rewrite (io_np _ _ Hic) in Hj.
    apply cols_mk.
    + unfold MIP.minus_ones. cbn [length]. rewrite !length_map.
      rewrite (Permutation_length (inn_out_perm c ic Hc Hic j Hj)).
      reflexivity.
    + constructor; [apply cb_w; assumption|].
      constructor; [apply cb_x; auto; lia|].
      apply Forall_map, Forall_forall. intros i Hi.
      apply cb_x_arc; [exact Hq | | lia].
      apply (to_inn _ _ (io_ht _ _ Hic) j i Hj). exact Hi.
Qed.

Lemma cols_eu r11 :
  MIP.rows_eu_def ic = Ok r11 -> Forall (row_cols (num_vars ic)) r11.
Proof.
  intros H. pose proof (io_ht _ _ Hic) as Hto.
  destruct (rows_eu_def_ok c ic r11 Hto H) as [-> Hall].
  unfold pure_eu.
  apply Forall_flat_map, Forall_forall. intros t Ht. apply in_range in Ht.
  destruct (Hall t Ht) as [reps Hreps].
  pose proof (eu_reps_at_ok c ic t reps Hto (Hgn t) Hreps) as [Hlen Hsrc].
  assert (E : eu_reps ic t = reps) by (unfold eu_reps; rewrite Hreps;
                                       reflexivity).
  rewrite E.
  apply Forall_map, Forall_forall. intros [k e] Hke. cbn [fst snd].
  apply in_enumerate in Hke.
  assert (Hk : k < length (MIP.edges (MIP.ht ic)))
    by (apply nth_error_Some; rewrite Hke; discriminate).
  apply cols_mk.
  - unfold MIP.ones. rewrite !length_app, length_map. reflexivity.
  - apply Forall_app. split; [|constructor; [apply cb_eu; assumption
                                            | constructor]].
    destruct (Hsrc k Hk) as [ls [HF _]].
    apply Forall_forall. intros idx Hidx.
    destruct (Forall2_in_l _ _ _ _ HF Hidx) as [l [_ Hl]].
    destruct Hl as [[q [Hg Hy]]|[[p [Hg Hy]]|[Hl [_ Hx]]]].
    + apply (var_index_bound c ic
               (Y t l q (fst (nth k (MIP.edges (MIP.ht ic)) (0, 0)))
                  (snd (nth k (MIP.edges (MIP.ht ic)) (0, 0))))
               idx Hic); [cbn [in_model]; lia | exact Hy].
    + apply (var_index_bound c ic
               (Y t p l (snd (nth k (MIP.edges (MIP.ht ic)) (0, 0)))
                  (fst (nth k (MIP.edges (MIP.ht ic)) (0, 0))))
               idx Hic); [cbn [in_model]; lia | exact Hy].
    + rewrite (io_nl _ _ Hic) in Hl.
      apply (var_index_bound c ic
               (X t l (fst (nth k (MIP.edges (MIP.ht ic)) (0, 0)))
                  (snd (nth k (MIP.edges (MIP.ht ic)) (0, 0))))
               idx Hic); [cbn [in_model]; lia | exact Hx].
Qed.

Lemma cols_depth_obj :
  Forall (fun o : nat * Q => fst o < num_vars ic) (MIP.set_depth_obj ic).
Proof.
  unfold MIP.set_depth_obj. apply Forall_map, Forall_forall.
  intros i Hi. cbn [fst]. apply in_seq in Hi. unfold num_vars.
  rewrite (io_num_wd _ _ Hic), (io_wd_start _ _ Hic), (io_x_start _ _ Hic)
    in Hi.
  lia.
Qed.

End Columns.

(** X14.  The problem that [create_cpx_problem] (flat model) builds for a
    valid input with the ['depth'] objective is well formed: every row has
    as many coefficients as indices and names only columns of the problem,
    and so do the lower bounds set on [w^d] (and on [w_0_0_0] with
    [cycle_symm]) and the calls of [objective.set_linear].  In
    particular the rows of lines 293-308, which use [x] at every step
    without gates, never reach the last step, where no [x] exists. *)
Theorem built_rows_use_existing_columns :
  forall np_log math_log dag c D mm ls cs p ic,
    coupling_ok c -> dag_ok dag -> num_dag_qubits dag <= size c ->
    real_layers dag <> [] ->
    MIP.init dag c D = Ok mm ->
    MIP.create_cpx_problem np_log math_log mm "depth" ls cs = Ok (p, ic) ->
    Forall (row_cols (length (MIP.var_names p))) (MIP.linear_constraints p)
    /\ Forall (fun b : nat * Z => fst b < length (MIP.var_names p))
         (MIP.lower_bounds p)
    /\ Forall (fun o : nat * Q => fst o < length (MIP.var_names p))
         (MIP.objective_linear p).
Proof.
  intros np_log math_log dag c D mm ls cs p ic Hc Hdag Hq Hne Hmm Hp.
  pose proof (built_ic _ _ _ _ _ _ _ _ Hp) as Hicv.
  destruct (mip_ic_ok dag c D mm ic Hc Hmm Hicv) as [Hic Hg].
  assert (Hgn : forall t, NoDup (qubits_of (mip_gates ic t))).
  { intros t. apply (mip_layer_ok dag D _ t Hdag Hg). }
  assert (Hgr : forall t p0 q, In (p0, q) (mip_gates ic t) ->
                               p0 < size c /\ q < size c).
  { intros t p0 q Hin.
    destruct (proj2 (mip_layer_ok dag D _ t Hdag Hg) p0 q Hin). lia. }
  assert (Hreal : Forall (fun lay : list (nat * nat) => is_empty lay = false)
                    (map (map pair_of) (real_layers dag))).
  { apply Forall_map. pose proof (real_layers_nonempty dag) as H.
    rewrite Forall_forall in H |- *. intros lay Hlay.
    specialize (H lay Hlay). destruct lay; [discriminate H | reflexivity]. }
  assert (Hne' : map (map pair_of) (real_layers dag) <> []).
  { destruct (real_layers dag); [contradiction | discriminate]. }
  assert (Hlast : forall t, t < MIP.ic_depth ic -> mip_gates ic t = [] ->
                            t < MIP.ic_depth ic - 1).
  { intros t Ht E. rewrite (io_depth _ _ Hic) in Ht |- *.
    unfold mip_gates in E. rewrite Hg in Ht, E |- *.
    apply (last_step_real D _ Hne' Hreal t Ht E). }
  assert (Hd : 0 < MIP.ic_depth ic).
  { rewrite (io_depth _ _ Hic), Hg, with_dummy_steps_length, length_map.
    destruct (real_layers dag); [contradiction | cbn [length]; lia]. }
  assert (Hn : 0 < size c).
  { destruct (mip_gates ic (MIP.ic_depth ic - 1)) as [|[p0 q] lay] eqn:E.
    - assert (Hx : MIP.ic_depth ic - 1 < MIP.ic_depth ic) by lia.
      pose proof (Hlast _ Hx E). lia.
    - destruct (Hgr (MIP.ic_depth ic - 1) p0 q) as [H _]; [|lia].
      rewrite E. left. reflexivity. }
  destruct (mip_problem_rows _ _ _ _ _ _ _ _ Hp)
    as (r9 & r11 & H9 & H11 & Hrows & Hlbs & Hlen).
  fold (num_vars ic) in Hlen. rewrite Hlen.
  split; [|split].
  - rewrite Hrows. repeat (apply Forall_app; split).
    + apply (cols_assignment_lqubits c); assumption.
    + apply (cols_assignment_pqubits c); assumption.
    + apply (cols_w_y c); assumption.
    + apply (cols_assignment_y c); assumption.
    + apply (cols_swap c); assumption.
    + apply (cols_swap_no_gate c); assumption.
    + apply (cols_dummy_ts_needed c); assumption.
    + apply (cols_dummy_precedence c); assumption.
    + destruct ls; [apply (cols_line_symm c ic); assumption|].
      injection H9 as <-. constructor.
    + apply (cols_flow c); assumption.
    + apply (cols_eu c ic); assumption.
  - rewrite Hlbs. apply Forall_app. split.
    + apply (cols_lower_bounds c); assumption.
    + destruct cs; [|constructor].
      constructor; [|constructor]. cbn [fst].
      apply (cb_w c); assumption.
  - destruct (mip_create_ok _ _ _ _ _ _ _ _ Hp) as [_ H].
    destruct H as (wn & yn & xn & en & r1 & r2 & r3 & r4 & r5 & r6 & r7 & r8
                   & r9' & r10 & r11' & _ & _ & _ & _ & _ & _ & _ & _ & _ & _
                   & _ & _ & _ & _ & _ & _ & _ & _ & Hobj).
    change (("depth" =? "error")%string) with false in Hobj.
    change (("depth" =? "depth")%string) with true in Hobj.
    cbv iota in Hobj. injection Hobj as <-.
    apply (cols_depth_obj c); assumption.
Qed.

(** The theorem at [circuit2] on the line of three qubits with one dummy
    step and both symmetry options. *)
Lemma built_rows_use_existing_columns_example :
  exists mm p ic,
    MIP.init circuit2 line3 1 = Ok mm
    /\ MIP.create_cpx_problem approx_log approx_log mm "depth" true true
       = Ok (p, ic)
    /\ Forall (row_cols (length (MIP.var_names p))) (MIP.linear_constraints p)
    /\ Forall (fun b : nat * Z => fst b < length (MIP.var_names p))
         (MIP.lower_bounds p)
    /\ Forall (fun o : nat * Q => fst o < length (MIP.var_names p))
         (MIP.objective_linear p).
Proof.
  pose (mm := ltac:(ok_value (MIP.init circuit2 line3 1))).
  pose (r := ltac:(ok_value
                     (MIP.create_cpx_problem approx_log approx_log mm
                        "depth" true true))).
  assert (Hmm : MIP.init circuit2 line3 1 = Ok mm)
    by (vm_compute; reflexivity).
  assert (Hp : MIP.create_cpx_problem approx_log approx_log mm "depth"
                 true true = Ok (fst r, snd r))
    by (vm_compute; reflexivity).
  exists mm, (fst r), (snd r). split; [exact Hmm|]. split; [exact Hp|].
  apply (built_rows_use_existing_columns approx_log approx_log circuit2
           line3 1 mm true true (fst r) (snd r) line3_ok circuit2_ok
           ltac:(vm_compute; lia) ltac:(vm_compute; discriminate) Hmm Hp).
Defined.
